(** * lammm: a shallow embedding of the interpreter, typer and parser

    The development follows the layout of the C++ sources:
    - [Util]        : outcomes of effectful code (results, exceptions);
    - [Types]       : [Types.h] / [Types.cpp], the typing context with its
                      union-find type store;
    - [AST]         : [AST.h];
    - [Interpreter] : [Interpreter.h] / [Interpreter.cpp];
    - [Names]       : [names/Names.h], the symbols and keywords;
    - [Parser]      : [Parser.h] / [Parser.cpp];
    - [Typer]       : [Typer.h] / [Typer.cpp];
    - [Lammm]       : [Lammm.cpp], the entry point.

    The properties proved about them come afterwards:
    - [TypeStore]             : unification keeps the forwarding graph
                                acyclic, and is idempotent;
    - [Arithmetic]            : the arithmetic operations are total;
    - [Syntax]                : induction on the syntax;
    - [Values]                : [is_value] and its memoised flag;
    - [Substitution]          : [replace] is simultaneous;
    - [EmptyProgram]          : the pipeline on a text of white space;
    - [DefaultStore]          : the store of the default typing context;
    - [ClauseTotality]        : the checks of [parse_clauses];
    - [Driver]                : [run] and its guard;
    - [PolymorphicRecursion]  : the instance a recursive call is checked at;
    - [Identifiers]           : the names of variables and covariables;
    - [Dereference]           : path compression of [try_dereference];
    - [Unification]           : what [unify] establishes, and when it throws;
    - [Context]               : fresh type variables and definitions;
    - [Instantiation]         : the copies [instantiate] makes;
    - [Structors]             : [add_structor] and [structors_like];
    - [Evaluation]            : steps and runs keep the memoised flags right;
    - [Lexing]                : white space and words;
    - [Literals]              : integer literals;
    - [Scopes]                : binders are unbound again, definitions are
                                registered;
    - [Annotations]           : the typer only annotates;
    - [Erasure]               : the interpreter reads no annotation;
    - [Closedness]            : evaluation keeps statements closed;
    - [WellScoped]            : the parser binds every name it accepts;
    - [Pipeline]              : the results of [main] are closed. *)

From Stdlib Require Import ZArith Lia Ascii String List Relations Wellfounded Permutation.
From stdpp Require Import base tactics option list gmap sets strings pretty.

Local Open Scope Z_scope.
Local Open Scope nat_scope.

(* ===================================================================== *)
(** * Util: outcomes of effectful code *)
(* ===================================================================== *)

Module Util.

(** A call of a C++ member function that works on a state [S] either returns a
    value and leaves a state, throws an exception (the state mutated so far
    stays), has no defined behaviour (an access outside a vector, a failed
    assertion, a read through a moved-from [Box]), or is cut off by the fuel
    that bounds the recursion depth of the model. *)
Inductive outcome (S E A : Type) : Type :=
| Ok (a : A) (s : S)
| Throw (e : E) (s : S)
| Undefined
| OutOfFuel.

Arguments Ok {S E A} a s.
Arguments Throw {S E A} e s.
Arguments Undefined {S E A}.
Arguments OutOfFuel {S E A}.

Definition bind {S E A B} (m : outcome S E A) (k : A → S → outcome S E B)
  : outcome S E B :=
  match m with
  | Ok a s => k a s
  | Throw e s => Throw e s
  | Undefined => Undefined
  | OutOfFuel => OutOfFuel
  end.

(** The outcome is a normal return or an exception: the call came back. *)
Definition returns {S E A} (m : outcome S E A) : Prop :=
  match m with
  | Ok _ _ | Throw _ _ => True
  | Undefined | OutOfFuel => False
  end.

(** The state a call that came back has left. *)
Definition final_state {S E A} (m : outcome S E A) : option S :=
  match m with
  | Ok _ s | Throw _ s => Some s
  | Undefined | OutOfFuel => None
  end.

End Util.
Import Util.

Notation "'let*' ( x , s ) := m 'in' k" :=
  (bind m (fun x s => k))
  (at level 10, x pattern, s name, m at level 100, k at level 200,
   format "'[v' 'let*'  ( x ,  s )  :=  m  'in' '/' k ']'").

(* ===================================================================== *)
(** * Types: the typing context (Types.h, Types.cpp) *)
(* ===================================================================== *)

Module Types.

(** [Type_id], [Abstraction_id], [Type_handle] and [Strong_type_handle] are
    structs around one [std::size_t]; they are natural numbers here.  A strong
    handle differs from a handle only in its C++ type. *)
Abbreviation Type_id := nat (only parsing).
Abbreviation Abstraction_id := nat (only parsing).
Abbreviation Type_handle := nat (only parsing).
Abbreviation Strong_type_handle := nat (only parsing).

(** [enum class Builtin_type_id] and [enum class Builtin_abstraction_id],
    with the values the enumerations give them. *)
Module Builtin_type_id.
Definition integer : Type_id := 0.
Definition list : Type_id := 1.
Definition pair : Type_id := 2.
Definition stream : Type_id := 3.
Definition lazy_pair : Type_id := 4.
Definition lambda : Type_id := 5.
End Builtin_type_id.

Module Builtin_abstraction_id.
Definition list_nil : Abstraction_id := 0.
Definition list_cons : Abstraction_id := 1.
Definition pair_pair : Abstraction_id := 2.
Definition stream_head : Abstraction_id := 3.
Definition stream_tail : Abstraction_id := 4.
Definition lazy_pair_fst : Abstraction_id := 5.
Definition lazy_pair_snd : Abstraction_id := 6.
Definition lambda_ap : Abstraction_id := 7.
End Builtin_abstraction_id.

(** [using Type_instance = std::variant<Type_var, Concrete_type, Type_handle>].
    The third alternative, a bare handle, is a forwarding link.  The [id] of a
    type variable is for display only; it is a [std::size_t], kept as a [Z]
    because [fresh_type_variable] computes it with a wrapping subtraction. *)
Inductive Type_instance : Type :=
| Type_var (id : Z)
| Concrete_type (type_id : Type_id) (params : list Type_handle)
| Forwarded (target : Type_handle).

Definition is_forwarded (t : Type_instance) : bool :=
  match t with Forwarded _ => true | _ => false end.

Definition is_type_var (t : Type_instance) : bool :=
  match t with Type_var _ => true | _ => false end.

(** [Type_template] and [Concrete_type_template]. *)
Inductive Type_template : Type :=
| Type_template_var (id : nat)
| Concrete_type_template (type_id : Type_id) (params : list Type_template).

(** [Abstraction_<Handle>]; [Abstraction] and [Abstraction_instance] are its
    two instances, over handles and strong handles. *)
Record Abstraction : Type := mkAbstraction {
  type : option Type_handle;
  abstraction_name : string;
  args : list Type_handle;
  coargs : list Type_handle;
}.
Abbreviation Abstraction_instance := Abstraction.

Definition arity (a : Abstraction) : nat := length (args a).
Definition coarity (a : Abstraction) : nat := length (coargs a).

(** The private members of [class Typing_context]. *)
Record Typing_context : Type := mkTyping_context {
  type_prototypes : list Type_handle;
  type_names : list string;
  type_structors : gmap Type_handle (gset Abstraction_id);
  abstractions : list Abstraction;
  types : list Type_instance;
}.

Definition set_types (ctx : Typing_context) (ts : list Type_instance)
  : Typing_context :=
  mkTyping_context (type_prototypes ctx) (type_names ctx) (type_structors ctx)
                   (abstractions ctx) ts.

(** [Unification_exception]: its kind and the two handles it was raised at
    (the context reference it also holds is the typing context itself). *)
Inductive Kind : Type := occurs_kind | mismatch.

Record Unification_exception : Type := mkUnification_exception {
  kind : Kind;
  exn_a : Type_handle;
  exn_b : Type_handle;
}.

(** Outcomes of the member functions that only touch the [types] vector. *)
Abbreviation store := (list Type_instance).
Abbreviation store_outcome A := (outcome store Unification_exception A).

(** ** try_dereference

    The [while] loop of [Typing_context::try_dereference]: follow the
    forwarding links from [type], pushing every handle passed on
    [reference_chain]. *)
Fixpoint follow_chain (fuel : nat) (types : store) (type : Type_handle)
         (reference_chain : list Type_handle)
  : option (Type_handle * list Type_handle) :=
  match fuel with
  | 0 => None
  | S fuel' =>
      match types !! type with
      | Some (Forwarded next) =>
          follow_chain fuel' types next (reference_chain ++ [type])
      | _ => Some (type, reference_chain)
      end
  end.

(** The [for] loop that compresses the chain: every handle of it is made to
    forward directly to [type]. *)
Definition compress_chain (types : store) (reference_chain : list Type_handle)
           (type : Type_handle) : store :=
  foldl (fun ts reference => <[reference := Forwarded type]> ts)
        types reference_chain.

(** [Type_handle Typing_context::try_dereference(Type_handle type)], the
    non-const overload, which compresses the chain it followed. *)
Definition try_dereference (fuel : nat) (types : store) (type : Type_handle)
  : store_outcome Type_handle :=
  match types !! type with
  | None => Undefined
  | Some (Forwarded _) =>
      match follow_chain fuel types type [] with
      | None => OutOfFuel
      | Some (type', reference_chain) =>
          match types !! type' with
          | None => Undefined
          | Some _ =>
              Ok type' (compress_chain types (removelast reference_chain) type')
          end
      end
  | Some _ => Ok type types
  end.

(** The const overload follows the chain and leaves the store alone. *)
Definition try_dereference_const (fuel : nat) (types : store)
           (type : Type_handle) : store_outcome Type_handle :=
  match types !! type with
  | None => Undefined
  | Some (Forwarded _) =>
      match follow_chain fuel types type [] with
      | None => OutOfFuel
      | Some (type', _) =>
          match types !! type' with
          | None => Undefined
          | Some _ => Ok type' types
          end
      end
  | Some _ => Ok type types
  end.

(** ** occurs

    The loop over [b_concrete.params].  [b_concrete] is a reference into the
    slot of [b]; that slot holds a concrete type, which no statement of
    [occurs] or [try_dereference] overwrites, so the parameters are read once. *)
Fixpoint occurs_params (occurs_rec : store → Type_handle → store_outcome bool)
         (a : Type_handle) (params : list Type_handle) (types : store)
  : store_outcome bool :=
  match params with
  | [] => Ok false types
  | param :: rest =>
      if Nat.eqb param a then Ok true types
      else
        let* (found, types) := occurs_rec types param in
        if found : bool then Ok true types
        else occurs_params occurs_rec a rest types
  end.

(** [bool Typing_context::occurs(Type_handle a, Type_handle b)]; the
    assertion wants a type variable at [a]. *)
Fixpoint occurs (fuel : nat) (types : store) (a b : Type_handle)
  : store_outcome bool :=
  match fuel with
  | 0 => OutOfFuel
  | S fuel' =>
      match types !! a with
      | Some (Type_var _) =>
          let* (b, types) := try_dereference fuel' types b in
          match types !! b with
          | Some (Type_var _) => Ok (Nat.eqb a b) types
          | Some (Concrete_type _ params) =>
              occurs_params (fun ts param => occurs fuel' ts a param) a params
                            types
          | _ => Undefined
          end
      | _ => Undefined
      end
  end.

(** ** unify

    The loop of the (concrete, concrete) case: positional unification of the
    parameters.  The loop runs over the indices of [a_concrete.params] and
    indexes [b_concrete.params] with them; the assertion before it makes the
    two lengths equal, and a shorter [b_concrete.params] is an access outside
    the vector. *)
Fixpoint unify_params (unify_rec : store → Type_handle → Type_handle → store_outcome unit)
         (a_params b_params : list Type_handle) (types : store)
  : store_outcome unit :=
  match a_params, b_params with
  | [], _ => Ok tt types
  | _ :: _, [] => Undefined
  | pa :: a_rest, pb :: b_rest =>
      let* (_, types) := unify_rec types pa pb in
      unify_params unify_rec a_rest b_rest types
  end.

(** [void Typing_context::unify_rec(Type_handle a, Type_handle b)]. *)
Fixpoint unify_rec (fuel : nat) (types : store) (a b : Type_handle)
  : store_outcome unit :=
  match fuel with
  | 0 => OutOfFuel
  | S fuel' =>
      (* Follow forwards *)
      let* (a, types) := try_dereference fuel' types a in
      let* (b, types) := try_dereference fuel' types b in
      (* Trivial end *)
      if Nat.eqb a b then Ok tt types
      else
        (* eliminate the (concrete, var) case *)
        let '(a, b) :=
          match types !! b with
          | Some (Type_var _) => (b, a)
          | _ => (a, b)
          end in
        match types !! a with
        | Some (Type_var _) =>
            (* (var, _) case *)
            let* (found, types) := occurs fuel' types a b in
            if found : bool
            then Throw (mkUnification_exception occurs_kind a b) types
            else Ok tt (<[a := Forwarded b]> types)
        | Some (Concrete_type a_type_id a_params) =>
            match types !! b with
            | Some (Concrete_type b_type_id b_params) =>
                if negb (Nat.eqb a_type_id b_type_id)
                then Throw (mkUnification_exception mismatch a b) types
                else
                  if negb (Nat.eqb (length a_params) (length b_params))
                  then Undefined
                  else unify_params (unify_rec fuel') a_params b_params types
            | _ => Undefined
            end
        | _ => Undefined
        end
  end.

(** [void Typing_context::unify(Strong_type_handle a, Strong_type_handle b)]. *)
Definition unify (fuel : nat) (types : store) (a b : Strong_type_handle)
  : store_outcome unit :=
  unify_rec fuel types a b.


(** ** Building the store *)

(** [Strong_type_handle Typing_context::fresh_type_variable()].  The display
    id is [types.size() - 1], computed on [std::size_t] before the new slot is
    appended. *)
Definition fresh_type_variable (types : store) : Strong_type_handle * store :=
  (length types,
   types ++ [Type_var ((Z.of_nat (length types) - 1) mod 2 ^ 64)]).

(** The loop of [add_type_prototype]:
    [new_type.params.push_back(fresh_type_variable())], [n_params] times. *)
Fixpoint add_prototype_params (n_params : nat) (prototype_handle : Type_handle)
         (types : store) : store :=
  match n_params with
  | 0 => types
  | S n =>
      let '(v, types) := fresh_type_variable types in
      let types :=
        alter (fun t => match t with
                        | Concrete_type type_id params =>
                            Concrete_type type_id (params ++ [v])
                        | _ => t
                        end) prototype_handle types in
      add_prototype_params n prototype_handle types
  end.

(** Outcomes of the member functions of [Typing_context]. *)
Abbreviation ctx_outcome A := (outcome Typing_context Unification_exception A).

(** [Type_id Typing_context::add_type_prototype(name, n_params, id)]. *)
Definition add_type_prototype (name : string) (n_params : nat)
           (id : option Type_id) (ctx : Typing_context) : ctx_outcome Type_id :=
  if match id with
     | Some id => negb (Nat.eqb id (length (type_prototypes ctx)))
     | None => false
     end
  then Undefined
  else
    let prototype_handle := length (types ctx) in
    let types0 :=
      types ctx ++ [Concrete_type (length (type_prototypes ctx)) []] in
    let types1 := add_prototype_params n_params prototype_handle types0 in
    Ok (length (type_prototypes ctx))
       (mkTyping_context (type_prototypes ctx ++ [prototype_handle])
                         (type_names ctx ++ [name])
                         (type_structors ctx) (abstractions ctx) types1).

(** [Type_handle Typing_context::instantiate_type_template(template_, params)]. *)
Fixpoint instantiate_type_template (template_ : Type_template)
         (params : list Type_handle) (types : store)
  : option (Type_handle * store) :=
  match template_ with
  | Type_template_var id =>
      match params !! id with
      | Some h => Some (h, types)
      | None => None
      end
  | Concrete_type_template type_id tparams =>
      match
        (fix go (tparams : list Type_template) (types : store)
           : option (list Type_handle * store) :=
           match tparams with
           | [] => Some ([], types)
           | param :: rest =>
               match instantiate_type_template param params types with
               | Some (h, types) =>
                   match go rest types with
                   | Some (hs, types) => Some (h :: hs, types)
                   | None => None
                   end
               | None => None
               end
           end) tparams types
      with
      | Some (new_params, types) =>
          Some (length types, types ++ [Concrete_type type_id new_params])
      | None => None
      end
  end.

(** The two loops of [add_structor] over the templates of the arguments and
    of the coarguments. *)
Fixpoint instantiate_type_templates (templates : list Type_template)
         (params : list Type_handle) (types : store)
  : option (list Type_handle * store) :=
  match templates with
  | [] => Some ([], types)
  | t :: rest =>
      match instantiate_type_template t params types with
      | Some (h, types) =>
          match instantiate_type_templates rest params types with
          | Some (hs, types) => Some (h :: hs, types)
          | None => None
          end
      | None => None
      end
  end.

(** [Abstraction_id Typing_context::add_structor(name, type_id, args, coargs, id)]. *)
Definition add_structor (name : string) (type_id : Type_id)
           (args coargs : list Type_template) (id : option Abstraction_id)
           (ctx : Typing_context) : ctx_outcome Abstraction_id :=
  if match id with
     | Some id => negb (Nat.eqb id (length (abstractions ctx)))
     | None => false
     end
  then Undefined
  else
    match type_prototypes ctx !! type_id with
    | None => Undefined
    | Some prototype =>
        match types ctx !! prototype with
        | Some (Concrete_type _ params) =>
            match instantiate_type_templates args params (types ctx) with
            | None => Undefined
            | Some (arg_handles, types1) =>
                match instantiate_type_templates coargs params types1 with
                | None => Undefined
                | Some (coarg_handles, types2) =>
                    let new_id := length (abstractions ctx) in
                    Ok new_id
                       (mkTyping_context
                          (type_prototypes ctx) (type_names ctx)
                          (<[prototype :=
                               {[new_id]} ∪ default ∅ (type_structors ctx !! prototype)]>
                             (type_structors ctx))
                          (abstractions ctx ++
                             [mkAbstraction (Some prototype) name
                                            arg_handles coarg_handles])
                          types2)
                end
            end
        | _ => Undefined
        end
    end.

(** The loops of [add_definition]: [arity] fresh type variables. *)
Fixpoint fresh_type_variables (n : nat) (types : store)
  : list Strong_type_handle * store :=
  match n with
  | 0 => ([], types)
  | S n =>
      let '(v, types) := fresh_type_variable types in
      let '(vs, types) := fresh_type_variables n types in
      (v :: vs, types)
  end.

(** [Abstraction_id Typing_context::add_definition(name, arity, coarity, id)]. *)
Definition add_definition (name : string) (arity coarity : nat)
           (id : option Abstraction_id) (ctx : Typing_context)
  : ctx_outcome Abstraction_id :=
  if match id with
     | Some id => negb (Nat.eqb id (length (abstractions ctx)))
     | None => false
     end
  then Undefined
  else
    let '(args, types1) := fresh_type_variables arity (types ctx) in
    let '(coargs, types2) := fresh_type_variables coarity types1 in
    Ok (length (abstractions ctx))
       (mkTyping_context (type_prototypes ctx) (type_names ctx)
                         (type_structors ctx)
                         (abstractions ctx ++ [mkAbstraction None name args coargs])
                         types2).

(** ** Reading the context *)

(** [get_type_instance], through the const overload of [try_dereference]. *)
Definition get_type_instance (fuel : nat) (ctx : Typing_context)
           (ref : Type_handle) : option Type_instance :=
  match try_dereference_const fuel (types ctx) ref with
  | Ok h _ => types ctx !! h
  | _ => None
  end.

Definition get_type_prototype (ctx : Typing_context) (id : Type_id)
  : option Type_handle :=
  type_prototypes ctx !! id.

(** [get_primitive_prototype]: the assertion wants a type without
    parameters. *)
Definition get_primitive_prototype (ctx : Typing_context) (id : Type_id)
  : option Strong_type_handle :=
  match type_prototypes ctx !! id with
  | Some h =>
      match types ctx !! h with
      | Some (Concrete_type _ []) => Some h
      | _ => None
      end
  | None => None
  end.

Definition get_abstraction (ctx : Typing_context) (id : Abstraction_id)
  : option Abstraction :=
  abstractions ctx !! id.

(** [get_abstraction_prototype]: an instance made of the abstraction's own
    handles, and without a result type. *)
Definition get_abstraction_prototype (ctx : Typing_context)
           (id : Abstraction_id) : option Abstraction_instance :=
  match abstractions ctx !! id with
  | Some abstraction =>
      Some (mkAbstraction None (abstraction_name abstraction)
                          (args abstraction) (coargs abstraction))
  | None => None
  end.

Definition get_type_name (ctx : Typing_context) (id : Type_id) : option string :=
  type_names ctx !! id.

(** [structors_like]: [type_structors.at(abstractions[id.id].type.value())]. *)
Definition structors_like (ctx : Typing_context) (id : Abstraction_id)
  : option (gset Abstraction_id) :=
  match abstractions ctx !! id with
  | Some abstraction =>
      match type abstraction with
      | Some h => type_structors ctx !! h
      | None => None
      end
  | None => None
  end.

(** ** Instantiation *)

(** The loop of the concrete case of [clone_type_rec] over the parameters. *)
Fixpoint clone_params
         (clone_rec : Type_handle → gmap nat Strong_type_handle → store →
                      store_outcome (Strong_type_handle * gmap nat Strong_type_handle))
         (params : list Type_handle) (map : gmap nat Strong_type_handle)
         (types : store)
  : store_outcome (list Type_handle * gmap nat Strong_type_handle) :=
  match params with
  | [] => Ok ([], map) types
  | param :: rest =>
      let* ((h, map), types) := clone_rec param map types in
      let* ((hs, map), types) := clone_params clone_rec rest map types in
      Ok (h :: hs, map) types
  end.

(** [Strong_type_handle Typing_context::clone_type_rec(type, map)]; the map
    is passed by reference, so it is returned with the handle. *)
Fixpoint clone_type_rec (fuel : nat) (type : Type_handle)
         (map : gmap nat Strong_type_handle) (types : store)
  : store_outcome (Strong_type_handle * gmap nat Strong_type_handle) :=
  match fuel with
  | 0 => OutOfFuel
  | S fuel' =>
      let* (type, types) := try_dereference fuel' types type in
      match map !! type with
      | Some h => Ok (h, map) types
      | None =>
          match types !! type with
          | Some (Type_var _) =>
              let '(new_handle, types) := fresh_type_variable types in
              Ok (new_handle, <[type := new_handle]> map) types
          | Some (Concrete_type type_id params) =>
              let new_handle := length types in
              let types := types ++ [Concrete_type type_id []] in
              let map := <[type := new_handle]> map in
              let* ((new_params, map), types) :=
                clone_params (clone_type_rec fuel') params map types in
              Ok (new_handle, map)
                 (alter (fun t => match t with
                                  | Concrete_type tid _ =>
                                      Concrete_type tid new_params
                                  | _ => t
                                  end) new_handle types)
          | _ => Undefined
          end
      end
  end.

(** [clone_types]: the map starts empty and is shared by the clones. *)
Definition clone_types (fuel : nat) (to_clone : list Type_handle)
           (types : store) : store_outcome (list Strong_type_handle) :=
  let* ((hs, _), types) := clone_params (clone_type_rec fuel) to_clone ∅ types in
  Ok hs types.

(** [Abstraction_instance Typing_context::instantiate(abstraction_id)]. *)
Definition instantiate (fuel : nat) (abstraction_id : Abstraction_id)
           (ctx : Typing_context) : ctx_outcome Abstraction_instance :=
  match abstractions ctx !! abstraction_id with
  | None => Undefined
  | Some abstraction =>
      let to_clone :=
        args abstraction ++ coargs abstraction ++
        match type abstraction with Some t => [t] | None => [] end in
      match clone_types fuel to_clone (types ctx) with
      | Ok fresh_types types' =>
          Ok (mkAbstraction
                (match type abstraction with
                 | Some _ => last fresh_types
                 | None => None
                 end)
                EmptyString
                (take (arity abstraction) fresh_types)
                (take (coarity abstraction)
                      (drop (arity abstraction) fresh_types)))
             (set_types ctx types')
      | Throw e types' => Throw e (set_types ctx types')
      | Undefined => Undefined
      | OutOfFuel => OutOfFuel
      end
  end.

(** [unify] as a member function of the context. *)
Definition ctx_unify (fuel : nat) (a b : Strong_type_handle)
           (ctx : Typing_context) : ctx_outcome unit :=
  match unify fuel (types ctx) a b with
  | Ok u types' => Ok u (set_types ctx types')
  | Throw e types' => Throw e (set_types ctx types')
  | Undefined => Undefined
  | OutOfFuel => OutOfFuel
  end.

(** [fresh_type_variable] as a member function of the context. *)
Definition ctx_fresh_type_variable (ctx : Typing_context)
  : Strong_type_handle * Typing_context :=
  let '(v, types') := fresh_type_variable (types ctx) in
  (v, set_types ctx types').

(** ** The default context *)

(** The tables [builtin_types] and [builtin_structors] of Types.cpp. *)
Definition builtin_types : list (string * nat * Type_id) :=
  [("Integer", 0, Builtin_type_id.integer);
   ("List", 1, Builtin_type_id.list);
   ("Pair", 2, Builtin_type_id.pair);
   ("Stream", 1, Builtin_type_id.stream);
   ("LazyPair", 2, Builtin_type_id.lazy_pair);
   ("Lambda", 2, Builtin_type_id.lambda)]%string.

Definition builtin_structors
  : list (string * Type_id * list Type_template * list Type_template *
          Abstraction_id) :=
  [("Nil", Builtin_type_id.list, [], [], Builtin_abstraction_id.list_nil);
   ("Cons", Builtin_type_id.list,
    [Type_template_var 0;
     Concrete_type_template Builtin_type_id.list [Type_template_var 0]],
    [], Builtin_abstraction_id.list_cons);
   ("Pair", Builtin_type_id.pair,
    [Type_template_var 0; Type_template_var 1], [],
    Builtin_abstraction_id.pair_pair);
   ("Head", Builtin_type_id.stream, [], [Type_template_var 0],
    Builtin_abstraction_id.stream_head);
   ("Tail", Builtin_type_id.stream, [],
    [Concrete_type_template Builtin_type_id.stream [Type_template_var 0]],
    Builtin_abstraction_id.stream_tail);
   ("Fst", Builtin_type_id.lazy_pair, [], [Type_template_var 0],
    Builtin_abstraction_id.lazy_pair_fst);
   ("Snd", Builtin_type_id.lazy_pair, [], [Type_template_var 1],
    Builtin_abstraction_id.lazy_pair_snd);
   ("Ap", Builtin_type_id.lambda, [Type_template_var 0], [Type_template_var 1],
    Builtin_abstraction_id.lambda_ap)]%string.

Definition empty_typing_context : Typing_context :=
  mkTyping_context [] [] ∅ [] [].

(** [Typing_context default_typing_context()]. *)
Definition default_typing_context : option Typing_context :=
  let step_type (acc : option Typing_context) (spec : string * nat * Type_id) :=
    match acc with
    | Some ctx =>
        let '(name, n_params, id) := spec in
        match add_type_prototype name n_params (Some id) ctx with
        | Ok _ ctx' => Some ctx'
        | _ => None
        end
    | None => None
    end in
  let step_structor (acc : option Typing_context)
        (spec : string * Type_id * list Type_template * list Type_template *
                Abstraction_id) :=
    match acc with
    | Some ctx =>
        let '(name, type_id, args, coargs, id) := spec in
        match add_structor name type_id args coargs (Some id) ctx with
        | Ok _ ctx' => Some ctx'
        | _ => None
        end
    | None => None
    end in
  foldl step_structor (foldl step_type (Some empty_typing_context) builtin_types)
        builtin_structors.

End Types.

(* ===================================================================== *)
(** * AST: the syntax (AST.h) *)
(* ===================================================================== *)

Module AST.

(** [Var_id], [Covar_id] and [Definition_id] are structs around one
    [std::size_t]. *)
Abbreviation Var_id := nat (only parsing).
Abbreviation Covar_id := nat (only parsing).
Abbreviation Definition_id := nat (only parsing).

(** [enum class Arithmetic_op]. *)
Inductive Arithmetic_op : Type := op_add | op_sub | op_mul | op_div | op_mod.

(** The three syntax categories and the clauses.  Every constructor is one of
    the structs of AST.h, with its fields in the order of the struct; a
    [Box] is the value it owns, [std::int64_t] is a [Z], an optional type is
    an [option] of a handle. *)
Inductive Producer : Type :=
| Variable_prod (var_id : nat) (var_name : string) (type : option nat)
| Value_prod (value : Z) (type : option nat)
| Mu_prod (coarg_id : nat) (coarg_name : string) (body : Statement)
          (type : option nat)
| Constructor_prod (abstraction_id : nat) (constructor_name : string)
                   (args : list Producer) (coargs : list Consumer)
                   (is_value : option bool) (type : option nat)
| Cocase_prod (clauses : list Clause) (type : option nat)
with Consumer : Type :=
| Covariable_cons (covar_id : nat) (covar_name : string) (type : option nat)
| Mu_cons (arg_id : nat) (arg_name : string) (body : Statement)
          (type : option nat)
| Destructor_cons (abstraction_id : nat) (destructor_name : string)
                  (args : list Producer) (coargs : list Consumer)
                  (type : option nat)
| Case_cons (clauses : list Clause) (type : option nat)
| End_cons (type : option nat)
with Statement : Type :=
| Arithmetic_stmt (op : Arithmetic_op) (left right : Producer) (after : Consumer)
| Ifz_stmt (condition : Producer) (if_zero if_other : Statement)
| Cut_stmt (producer : Producer) (consumer : Consumer)
| Call_stmt (definition_id : nat) (definition_name : string)
            (args : list Producer) (coargs : list Consumer)
with Clause : Type :=
| mkClause (abstraction_id : nat) (structor_name : string)
           (arg_names coarg_names : list string)
           (arg_ids : list nat) (coarg_ids : list nat) (body : Statement).

Definition clause_abstraction_id (c : Clause) : nat :=
  match c with mkClause id _ _ _ _ _ _ => id end.
Definition clause_structor_name (c : Clause) : string :=
  match c with mkClause _ n _ _ _ _ _ => n end.
Definition clause_arg_ids (c : Clause) : list nat :=
  match c with mkClause _ _ _ _ ids _ _ => ids end.
Definition clause_coarg_ids (c : Clause) : list nat :=
  match c with mkClause _ _ _ _ _ ids _ => ids end.
Definition clause_body (c : Clause) : Statement :=
  match c with mkClause _ _ _ _ _ _ b => b end.

(** [struct Definition] and [struct Program]. *)
Record Definition_ : Type := mkDefinition {
  abstraction_id : nat;
  definition_name : string;
  arg_names : list string;
  coarg_names : list string;
  arg_ids : list nat;
  coarg_ids : list nat;
  body : Statement;
}.

Record Program : Type := mkProgram {
  definitions : list Definition_;
  statements : list Statement;
}.

End AST.

(* ===================================================================== *)
(** * Interpreter (Interpreter.h, Interpreter.cpp) *)
(* ===================================================================== *)

Module Interpreter.
Import AST.

(** The exceptions a run can end with: the two subclasses of
    [Interpreter_exception], and the [std::out_of_range] of
    [definitions.at]. *)
Inductive Interpreter_exception : Type :=
| Already_run_exception
| Stuck_computation_exception (context : Statement)
| Std_out_of_range.

(** The members of [class Interpreter] that a run reads or writes.  The
    options, the output stream and the typing context only serve printing,
    which is not modelled.  A statement that has been moved out of
    [statements] leaves a slot that owns nothing: [None]. *)
Record Interpreter : Type := mkInterpreter {
  finished : bool;
  n_vars : nat;
  n_covars : nat;
  definitions : list Definition_;
  statements : list (option Statement);
}.

(** The constructor of [Interpreter]. *)
Definition new_Interpreter (n_vars n_covars : nat) (program : Program)
  : Interpreter :=
  mkInterpreter false n_vars n_covars (AST.definitions program)
                (Some <$> AST.statements program).

Abbreviation interp_outcome A := (outcome Interpreter Interpreter_exception A).

(** [using Step_result = std::variant<Producer, Statement>]. *)
Inductive Step_result : Type :=
| Result_producer (p : Producer)
| Result_statement (s : Statement).

(** ** Values *)

(** [bool is_value(Producer& prod)].  The call writes the flag it computes
    into the constructor, so the producer is returned with the answer.
    [std::all_of] stops at the first argument that is not a value: the
    arguments after it are not visited. *)
Fixpoint is_value (prod : Producer) : bool * Producer :=
  match prod with
  | Value_prod _ _ => (true, prod)
  | Cocase_prod _ _ => (true, prod)
  | Constructor_prod id name args coargs cached type =>
      match cached with
      | Some b => (b, prod)
      | None =>
          let '(b, args') :=
            (fix all_of (l : list Producer) : bool * list Producer :=
               match l with
               | [] => (true, [])
               | a :: rest =>
                   let '(v, a') := is_value a in
                   if v then
                     let '(b, rest') := all_of rest in (b, a' :: rest')
                   else (false, a' :: rest)
               end) args in
          (b, Constructor_prod id name args' coargs (Some b) type)
      end
  | _ => (false, prod)
  end.

(** [find_non_value]: [std::find_if_not(args.begin(), args.end(), is_value)];
    the index of the first argument that is not a value, and the arguments
    with the flags the search has written. *)
Fixpoint find_non_value (args : list Producer) : option nat * list Producer :=
  match args with
  | [] => (None, [])
  | a :: rest =>
      let '(v, a') := is_value a in
      if v then
        let '(r, rest') := find_non_value rest in
        (option_map S r, a' :: rest')
      else (Some 0, a' :: rest)
  end.

(** ** Arithmetic *)

(** A [std::int64_t] that a computation has left: the mathematical result
    wrapped into the 64-bit two's-complement range. *)
Definition wrap64 (z : Z) : Z := ((z + 2 ^ 63) mod 2 ^ 64 - 2 ^ 63)%Z.

(** [std::int64_t Interpreter::do_arithmetic(op, left, right)].  The C++
    operators [/] and [%] truncate towards zero: [Z.quot] and [Z.rem]. *)
Definition do_arithmetic (op : Arithmetic_op) (left right : Z) : Z :=
  match op with
  | op_add => wrap64 (left + right)
  | op_sub => wrap64 (left - right)
  | op_mul => wrap64 (left * right)
  | op_div =>
      if negb (Z.eqb right 0) then wrap64 (Z.quot left right)
      else 1%Z
  | op_mod =>
      if negb (Z.eqb right 0) then wrap64 (Z.rem left right)
      else left
  end.

(** ** Substitution *)

(** [Interpreter::replace], the four overloads.  The maps of the C++ code
    hold pointers to producers and consumers that the traversal does not
    touch; they are maps to the values here.  The node is modified in place
    in C++ and returned here. *)
Fixpoint replace_prod (prod : Producer) (var_map : gmap nat Producer)
         (covar_map : gmap nat Consumer) {struct prod} : Producer :=
  match prod with
  | Variable_prod var_id _ _ =>
      match var_map !! var_id with
      | Some p => p
      | None => prod
      end
  | Value_prod _ _ => prod
  | Mu_prod coarg_id coarg_name body type =>
      let new_covar_map := delete coarg_id covar_map in
      Mu_prod coarg_id coarg_name (replace_stmt body var_map new_covar_map) type
  | Constructor_prod id name args coargs is_value type =>
      let is_value' :=
        match is_value with
        | Some false => None
        | _ => is_value
        end in
      Constructor_prod id name
        (List.map (fun arg => replace_prod arg var_map covar_map) args)
        (List.map (fun coarg => replace_cons coarg var_map covar_map) coargs)
        is_value' type
  | Cocase_prod clauses type =>
      Cocase_prod
        (List.map (fun clause => replace_clause clause var_map covar_map) clauses)
        type
  end
with replace_cons (cons : Consumer) (var_map : gmap nat Producer)
         (covar_map : gmap nat Consumer) {struct cons} : Consumer :=
  match cons with
  | Covariable_cons covar_id _ _ =>
      match covar_map !! covar_id with
      | Some c => c
      | None => cons
      end
  | Mu_cons arg_id arg_name body type =>
      let new_var_map := delete arg_id var_map in
      Mu_cons arg_id arg_name (replace_stmt body new_var_map covar_map) type
  | Destructor_cons id name args coargs type =>
      Destructor_cons id name
        (List.map (fun arg => replace_prod arg var_map covar_map) args)
        (List.map (fun coarg => replace_cons coarg var_map covar_map) coargs)
        type
  | Case_cons clauses type =>
      Case_cons
        (List.map (fun clause => replace_clause clause var_map covar_map) clauses)
        type
  | End_cons _ => cons
  end
with replace_stmt (stmt : Statement) (var_map : gmap nat Producer)
         (covar_map : gmap nat Consumer) {struct stmt} : Statement :=
  match stmt with
  | Arithmetic_stmt op left' right' after =>
      Arithmetic_stmt op (replace_prod left' var_map covar_map)
                      (replace_prod right' var_map covar_map)
                      (replace_cons after var_map covar_map)
  | Ifz_stmt condition if_zero if_other =>
      Ifz_stmt (replace_prod condition var_map covar_map)
               (replace_stmt if_zero var_map covar_map)
               (replace_stmt if_other var_map covar_map)
  | Cut_stmt producer consumer =>
      Cut_stmt (replace_prod producer var_map covar_map)
               (replace_cons consumer var_map covar_map)
  | Call_stmt id name args coargs =>
      Call_stmt id name
        (List.map (fun arg => replace_prod arg var_map covar_map) args)
        (List.map (fun coarg => replace_cons coarg var_map covar_map) coargs)
  end
with replace_clause (clause : Clause) (var_map : gmap nat Producer)
         (covar_map : gmap nat Consumer) {struct clause} : Clause :=
  match clause with
  | mkClause id name arg_names coarg_names arg_ids coarg_ids body =>
      let new_var_map := foldl (fun m arg => delete arg m) var_map arg_ids in
      let new_covar_map :=
        foldl (fun m coarg => delete coarg m) covar_map coarg_ids in
      mkClause id name arg_names coarg_names arg_ids coarg_ids
               (replace_stmt body new_var_map new_covar_map)
  end.

(** ** Fresh identifiers *)

Definition fresh_var_id (i : Interpreter) : nat * Interpreter :=
  (n_vars i,
   mkInterpreter (finished i) (S (n_vars i)) (n_covars i) (definitions i)
                 (statements i)).

Definition fresh_covar_id (i : Interpreter) : nat * Interpreter :=
  (n_covars i,
   mkInterpreter (finished i) (n_vars i) (S (n_covars i)) (definitions i)
                 (statements i)).

(** ** Focusing *)

(** [std::format(focus_var_template, name, arg_index)], the template being
    ["_{}_{}"]. *)
Definition focus_var_name (name : string) (arg_index : nat) : string :=
  ("_" ++ name ++ "_" ++ pretty arg_index)%string.

Definition focus_var_arith_l : string := "_ar_l".
Definition focus_var_arith_r : string := "_ar_r".
Definition focus_var_ifz : string := "_ifz".

(** [Interpreter::focus_statement(stmt, prod, new_var_name)].  [prod] is a
    reference to a producer inside [stmt]: the statement comes here as the
    function [with_prod] that puts a producer in that place.  The producer is
    moved out, a fresh variable takes its place, and the statement becomes
    the body of a mu' abstraction that is cut against the producer. *)
Definition focus_statement (with_prod : Producer → Statement) (prod : Producer)
           (new_var_name : string) (i : Interpreter) : Statement * Interpreter :=
  let cut_prod := prod in
  let '(new_var_id, i) := fresh_var_id i in
  let stmt := with_prod (Variable_prod new_var_id new_var_name None) in
  let cut_cons := Mu_cons new_var_id new_var_name stmt None in
  (Cut_stmt cut_prod cut_cons, i).

(** [focus_arithmetic], [focus_ifz] and [focus_call] pass the statement and a
    reference to one of its producers to [focus_statement] in one call; the
    first argument moves the statement into a temporary.  The model takes the
    reference before the move, the order under which the access is defined. *)
Definition focus_arithmetic (op : Arithmetic_op) (left right : Producer)
           (after : Consumer) (focus_left : bool) (i : Interpreter)
  : Statement * Interpreter :=
  if focus_left
  then focus_statement (fun p => Arithmetic_stmt op p right after) left
                       focus_var_arith_l i
  else focus_statement (fun p => Arithmetic_stmt op left p after) right
                       focus_var_arith_r i.

Definition focus_ifz (condition : Producer) (if_zero if_other : Statement)
           (i : Interpreter) : Statement * Interpreter :=
  focus_statement (fun p => Ifz_stmt p if_zero if_other) condition
                  focus_var_ifz i.

Definition focus_call (definition_id : nat) (definition_name : string)
           (args : list Producer) (coargs : list Consumer) (arg_index : nat)
           (i : Interpreter) : option (Statement * Interpreter) :=
  match args !! arg_index with
  | Some arg =>
      Some (focus_statement
              (fun p => Call_stmt definition_id definition_name
                                  (<[arg_index := p]> args) coargs)
              arg (focus_var_name definition_name arg_index) i)
  | None => None
  end.

(** [Interpreter::focus_constructor(prod, arg_index)]. *)
Definition focus_constructor (abstraction_id : nat) (constructor_name : string)
           (args : list Producer) (coargs : list Consumer)
           (is_value : option bool) (type : option nat) (arg_index : nat)
           (i : Interpreter) : option (Producer * Interpreter) :=
  match args !! arg_index with
  | Some non_value =>
      let '(new_covar_id, i) := fresh_covar_id i in
      let new_covar_name := focus_var_name constructor_name arg_index in
      let '(outer_cut, i) :=
        focus_statement
          (fun p => Cut_stmt
                      (Constructor_prod abstraction_id constructor_name
                                        (<[arg_index := p]> args) coargs
                                        is_value type)
                      (Covariable_cons new_covar_id new_covar_name None))
          non_value (focus_var_name constructor_name arg_index) i in
      Some (Mu_prod new_covar_id new_covar_name outer_cut None, i)
  | None => None
  end.

(** [Interpreter::focus_destructor(cons, arg_index)] moves the destructor
    into the inner cut and then reads [cons->destructor_name] to name the
    variable of [focus_statement]: a read through the moved-from [Box], which
    owns nothing.  ([focus_constructor] saves a copy of the name before the
    move.)  The call has no defined result. *)
Definition focus_destructor (abstraction_id : nat) (destructor_name : string)
           (args : list Producer) (coargs : list Consumer) (type : option nat)
           (arg_index : nat) (i : Interpreter) : option (Consumer * Interpreter) :=
  None.

(** ** Clause dispatch *)

(** The loops of [eval_clauses] and of the call step that fill the maps:
    [std::map::emplace] keeps the entry a key already has. *)
Fixpoint emplace_all {A} (ids : list nat) (values : list A) (m : gmap nat A)
  : option (gmap nat A) :=
  match values, ids with
  | [], _ => Some m
  | _ :: _, [] => None
  | v :: values', id :: ids' =>
      emplace_all ids' values'
                  (match m !! id with Some _ => m | None => <[id := v]> m end)
  end.

(** [Statement Interpreter::eval_clauses(abstraction_id, args, coargs,
    clauses, context)]. *)
Definition eval_clauses (abstraction_id : nat) (args : list Producer)
           (coargs : list Consumer) (clauses : list Clause)
           (context : Statement) (i : Interpreter) : interp_outcome Statement :=
  match List.find (fun clause =>
                     Nat.eqb (clause_abstraction_id clause) abstraction_id)
                  clauses with
  | None => Throw (Stuck_computation_exception context) i
  | Some matching =>
      if negb (Nat.eqb (length (clause_arg_ids matching)) (length args)) ||
         negb (Nat.eqb (length (clause_coarg_ids matching)) (length coargs))
      then Undefined
      else
        match emplace_all (clause_arg_ids matching) args ∅,
              emplace_all (clause_coarg_ids matching) coargs ∅ with
        | Some var_map, Some covar_map =>
            Ok (replace_stmt (clause_body matching) var_map covar_map) i
        | _, _ => Undefined
        end
  end.

(** ** Steps *)

(** [Step_result Interpreter::step(Box<Arithmetic_stmt>&& stmt)]. *)
Definition step_arithmetic (op : Arithmetic_op) (left right : Producer)
           (after : Consumer) (i : Interpreter) : interp_outcome Step_result :=
  let '(left_is_value, left') := is_value left in
  if negb left_is_value then
    let '(s, i) := focus_arithmetic op left' right after true i in
    Ok (Result_statement s) i
  else
    let '(right_is_value, right') := is_value right in
    if negb right_is_value then
      let '(s, i) := focus_arithmetic op left' right' after false i in
      Ok (Result_statement s) i
    else
      match left', right' with
      | Value_prod l _, Value_prod r _ =>
          (* Compute & cut *)
          Ok (Result_statement
                (Cut_stmt (Value_prod (do_arithmetic op l r) None) after)) i
      | _, _ =>
          (* Ill-typed args, we are stuck *)
          Throw (Stuck_computation_exception
                   (Arithmetic_stmt op left' right' after)) i
      end.

(** [Step_result Interpreter::step(Box<Ifz_stmt>&& stmt)]. *)
Definition step_ifz (condition : Producer) (if_zero if_other : Statement)
           (i : Interpreter) : interp_outcome Step_result :=
  let '(condition_is_value, condition) := is_value condition in
  if negb condition_is_value then
    let '(s, i) := focus_ifz condition if_zero if_other i in
    Ok (Result_statement s) i
  else
    match condition with
    | Value_prod value _ =>
        if Z.eqb value 0 then Ok (Result_statement if_zero) i
        else Ok (Result_statement if_other) i
    | _ =>
        Throw (Stuck_computation_exception
                 (Ifz_stmt condition if_zero if_other)) i
    end.

(** [Step_result Interpreter::step(Box<Cut_stmt>&& stmt)].  The text of the
    info messages is not modelled. *)
Definition step_cut (producer : Producer) (consumer : Consumer)
           (i : Interpreter) : interp_outcome Step_result :=
  match producer with
  | Mu_prod coarg_id _ body _ =>
      (* mu abstraction has the highest priority *)
      Ok (Result_statement (replace_stmt body ∅ {[coarg_id := consumer]})) i
  | _ =>
      let '(producer_is_value, producer) := is_value producer in
      if negb producer_is_value then
        match producer with
        | Constructor_prod id name args coargs cached type =>
            let '(non_value_arg, args) := find_non_value args in
            match non_value_arg with
            | None => Undefined
            | Some arg_index =>
                match focus_constructor id name args coargs cached type
                                        arg_index i with
                | Some (p, i) => Ok (Result_statement (Cut_stmt p consumer)) i
                | None => Undefined
                end
            end
        | _ =>
            (* [variable _] case, we are stuck as a variable is not a value *)
            Throw (Stuck_computation_exception (Cut_stmt producer consumer)) i
        end
      else
        match consumer with
        | Mu_cons arg_id _ body _ =>
            Ok (Result_statement (replace_stmt body {[arg_id := producer]} ∅)) i
        | _ =>
            match producer, consumer with
            | Constructor_prod id _ args coargs _ _, Case_cons clauses _ =>
                let* (res, i) :=
                  eval_clauses id args coargs clauses
                               (Cut_stmt producer consumer) i in
                Ok (Result_statement res) i
            | Cocase_prod clauses ptype, Destructor_cons id name args coargs type =>
                let '(non_value_arg, args) := find_non_value args in
                match non_value_arg with
                | Some arg_index =>
                    match focus_destructor id name args coargs type
                                           arg_index i with
                    | Some (c, i) =>
                        Ok (Result_statement (Cut_stmt producer c)) i
                    | None => Undefined
                    end
                | None =>
                    let* (res, i) :=
                      eval_clauses id args coargs clauses
                        (Cut_stmt producer
                                  (Destructor_cons id name args coargs type)) i in
                    Ok (Result_statement res) i
                end
            | value, End_cons _ =>
                (* Return the result *)
                Ok (Result_producer value) i
            | _, _ =>
                (* Mismatched cut, we are stuck *)
                Throw (Stuck_computation_exception (Cut_stmt producer consumer)) i
            end
        end
  end.

(** [Step_result Interpreter::step(Box<Call_stmt>&& stmt)]. *)
Definition step_call (definition_id : nat) (definition_name : string)
           (args : list Producer) (coargs : list Consumer) (i : Interpreter)
  : interp_outcome Step_result :=
  let '(non_value, args) := find_non_value args in
  match non_value with
  | Some arg_index =>
      match focus_call definition_id definition_name args coargs arg_index i with
      | Some (s, i) => Ok (Result_statement s) i
      | None => Undefined
      end
  | None =>
      match definitions i !! definition_id with
      | None => Throw Std_out_of_range i
      | Some definition =>
          if negb (Nat.eqb (length (arg_ids definition)) (length args)) ||
             negb (Nat.eqb (length (coarg_ids definition)) (length coargs))
          then Undefined
          else
            match emplace_all (arg_ids definition) args ∅,
                  emplace_all (coarg_ids definition) coargs ∅ with
            | Some var_map, Some covar_map =>
                Ok (Result_statement
                      (replace_stmt (body definition) var_map covar_map)) i
            | _, _ => Undefined
            end
      end
  end.

(** [Step_result Interpreter::step(Statement&& stmt)]. *)
Definition step (stmt : Statement) (i : Interpreter)
  : interp_outcome Step_result :=
  match stmt with
  | Arithmetic_stmt op left' right' after =>
      step_arithmetic op left' right' after i
  | Ifz_stmt condition if_zero if_other => step_ifz condition if_zero if_other i
  | Cut_stmt producer consumer => step_cut producer consumer i
  | Call_stmt id name args coargs => step_call id name args coargs i
  end.

(** ** The driver *)

(** The [while] loop of [run]: steps until the statement has become a
    producer. *)
Fixpoint run_steps (fuel : nat) (current : Statement) (i : Interpreter)
  : interp_outcome Producer :=
  match fuel with
  | 0 => OutOfFuel
  | S fuel' =>
      let* (r, i) := step current i in
      match r with
      | Result_producer result => Ok result i
      | Result_statement stmt => run_steps fuel' stmt i
      end
  end.

(** [statements[index]] is moved out: the slot owns nothing afterwards. *)
Definition move_statement (index : nat) (i : Interpreter) : Interpreter :=
  mkInterpreter (finished i) (n_vars i) (n_covars i) (definitions i)
                (<[index := None]> (statements i)).

Definition set_finished (i : Interpreter) : Interpreter :=
  mkInterpreter true (n_vars i) (n_covars i) (definitions i) (statements i).

(** The [for] loop of [run] from the statement [index] on, [count] statements
    being left. *)
Fixpoint run_statements (fuel : nat) (count index : nat)
         (results : list Producer) (i : Interpreter)
  : interp_outcome (list Producer) :=
  match count with
  | 0 => Ok results i
  | S count' =>
      match statements i !! index with
      | Some (Some stmt) =>
          let i := move_statement index i in
          let* (result, i) := run_steps fuel stmt i in
          run_statements fuel count' (S index) (results ++ [result]) i
      | _ => Undefined
      end
  end.

(** [std::vector<Producer> Interpreter::run()]. *)
Definition run (fuel : nat) (i : Interpreter) : interp_outcome (list Producer) :=
  if finished i then Throw Already_run_exception i
  else
    let* (results, i) :=
      run_statements fuel (length (statements i)) 0 [] i in
    Ok results (set_finished i).

End Interpreter.

(* ===================================================================== *)
(** * Parser (Parser.h, Parser.cpp, names/Names.h) *)
(* ===================================================================== *)

Module Names.
(** [namespace symbol]. *)
Definition open_paren : ascii := "("%char.
Definition close_paren : ascii := ")"%char.
Definition open_square : ascii := "["%char.
Definition close_square : ascii := "]"%char.
Definition plus : ascii := "+"%char.
Definition minus : ascii := "-"%char.
Definition star : ascii := "*"%char.
Definition slash : ascii := "/"%char.
Definition modulo : ascii := "%"%char.

(** [namespace keyword]; the Greek letter mu is the two bytes of its UTF-8
    encoding. *)
Definition def : string := "def".
Definition case_ : string := "case".
Definition cocase : string := "cocase".
Definition ifz : string := "ifz".
Definition mu_c_ascii : string := "mu'".
Definition mu_p_ascii : string := "mu".
Definition mu_p_unicode : string :=
  String (ascii_of_nat 206) (String (ascii_of_nat 188) EmptyString).
Definition mu_c_unicode : string := (mu_p_unicode ++ "'")%string.
Definition end_ : string := "<END>".

(** [namespace AST]: the names of the syntax elements, for the messages. *)
Module AST.
Definition variable : string := "variable".
Definition value : string := "value".
Definition mu_c : string := "mu abstraction".
Definition constructor : string := "constructor".
Definition cocase : string := "cocase expression".
Definition covariable : string := "covariable".
Definition mu_p : string := "mu' abstraction".
Definition destructor : string := "destructor".
Definition case_ : string := "case expression".
Definition end_ : string := "end of computation".
Definition arithmetic : string := "arithmetic statement".
Definition ifz : string := "if-zero statement".
Definition cut : string := "cut statement".
Definition call : string := "call statement".
Definition producer : string := "producer".
Definition consumer : string := "consumer".
Definition statement : string := "statement".
Definition definition : string := "definition".
Definition def_or_stmt : string := "definition or statement".
Definition clause : string := "clause".
Definition case_clause : string := "case clause".
Definition cocase_clause : string := "cocase clause".
Definition parameter : string := "parameter".
Definition coparameter : string := "coparameter".
Definition argument : string := "argument".
Definition coargument : string := "coargument".
End AST.
End Names.

Module Parser.
Import Types AST.

(** ** The input stream *)

(** What the parser uses of a [std::istream]: the characters that are left,
    and the state bits [eofbit] and [failbit].  The buffer takes back every
    character that [putback] hands it. *)
Record istream : Type := mkIstream {
  buffer : string;
  eofbit : bool;
  failbit : bool;
}.

Definition istream_of (text : string) : istream := mkIstream text false false.

Definition good (s : istream) : bool := negb (eofbit s) && negb (failbit s).

(** [input.peek()]: the next character, or [None] for [EOF].  At the end of
    the buffer it sets [eofbit]; on a stream that is not good it sets
    [failbit]. *)
Definition peek (s : istream) : option ascii * istream :=
  if good s then
    match buffer s with
    | EmptyString => (None, mkIstream (buffer s) true (failbit s))
    | String c _ => (Some c, s)
    end
  else (None, mkIstream (buffer s) (eofbit s) true).

(** [input.get()]: at the end of the buffer it sets [eofbit] and [failbit]. *)
Definition get (s : istream) : option ascii * istream :=
  if good s then
    match buffer s with
    | EmptyString => (None, mkIstream (buffer s) true true)
    | String c rest => (Some c, mkIstream rest (eofbit s) (failbit s))
    end
  else (None, mkIstream (buffer s) (eofbit s) true).

(** [input.putback(c)]: clears [eofbit] first; on a stream that is then not
    good it sets [failbit] and puts nothing back. *)
Definition putback (c : ascii) (s : istream) : istream :=
  if failbit s then mkIstream (buffer s) false true
  else mkIstream (String c (buffer s)) false false.

Definition eof (s : istream) : bool := eofbit s.

(** [isspace], [isalpha] and [isdigit] in the "C" locale, on the [int] that
    [peek] returns: they are false on [EOF]. *)
Definition isspace_char (c : ascii) : bool :=
  let n := nat_of_ascii c in
  Nat.eqb n 32 || (Nat.leb 9 n && Nat.leb n 13).

Definition isalpha_char (c : ascii) : bool :=
  let n := nat_of_ascii c in
  (Nat.leb 65 n && Nat.leb n 90) || (Nat.leb 97 n && Nat.leb n 122).

Definition isdigit_char (c : ascii) : bool :=
  let n := nat_of_ascii c in
  Nat.leb 48 n && Nat.leb n 57.

Definition isspace (c : option ascii) : bool :=
  match c with Some c => isspace_char c | None => false end.
Definition isalpha (c : option ascii) : bool :=
  match c with Some c => isalpha_char c | None => false end.
Definition isdigit (c : option ascii) : bool :=
  match c with Some c => isdigit_char c | None => false end.

Definition is_char (c : option ascii) (d : ascii) : bool :=
  match c with Some c => Ascii.eqb c d | None => false end.

(** ** The parser and its exceptions *)

(** [struct Arity_info] and [enum class Syntax_polarity]. *)
Record Arity_info : Type := mkArity_info { arity : nat; coarity : nat }.

Inductive Syntax_polarity : Type := producer | consumer | none.

(** [Parse_exception] and its three subclasses, with the lines and the
    context they record, and the standard exceptions that [std::stoll] and
    the lookups of the typing context throw (these are not derived from
    [lammm::Exception]). *)
Inductive Parse_exception : Type :=
| Parse_error (cause_line context_line : nat) (context explanation : string)
| Unexpected_char_exception (cause_line context_line : nat) (context : string)
                            (unexpected_char : option ascii)
| Unknown_name_exception (cause_line context_line : nat)
                         (context syntax_kind name : string)
| Arity_mismatch_exception (cause_line context_line : nat)
                           (context syntax_name : string)
                           (polarity : Syntax_polarity) (expected actual : nat)
| Std_exception (what : string).

(** An exception of the parser proper, derived from [Parse_exception]. *)
Definition is_parse_exception (e : Parse_exception) : bool :=
  match e with Std_exception _ => false | _ => true end.

(** The members of [class Parser]; [ctx] is the typing context it holds a
    reference to. *)
Record Parser : Type := mkParser {
  ctx : Typing_context;
  current_line : nat;
  n_vars_ : nat;
  n_covars_ : nat;
  n_defs : nat;
  var_ctx : gmap string (list nat);
  covar_ctx : gmap string (list nat);
  def_ids : gmap string nat;
  constructor_ids : gmap string nat;
  destructor_ids : gmap string nat;
  structor_arity : gmap nat Arity_info;
  def_arity : gmap nat Arity_info;
}.

Definition set_ctx (p : Parser) (x : Typing_context) : Parser :=
  mkParser x (current_line p) (n_vars_ p) (n_covars_ p) (n_defs p) (var_ctx p)
           (covar_ctx p) (def_ids p) (constructor_ids p) (destructor_ids p)
           (structor_arity p) (def_arity p).
Definition set_current_line (p : Parser) (x : nat) : Parser :=
  mkParser (ctx p) x (n_vars_ p) (n_covars_ p) (n_defs p) (var_ctx p)
           (covar_ctx p) (def_ids p) (constructor_ids p) (destructor_ids p)
           (structor_arity p) (def_arity p).
Definition set_n_vars_ (p : Parser) (x : nat) : Parser :=
  mkParser (ctx p) (current_line p) x (n_covars_ p) (n_defs p) (var_ctx p)
           (covar_ctx p) (def_ids p) (constructor_ids p) (destructor_ids p)
           (structor_arity p) (def_arity p).
Definition set_n_covars_ (p : Parser) (x : nat) : Parser :=
  mkParser (ctx p) (current_line p) (n_vars_ p) x (n_defs p) (var_ctx p)
           (covar_ctx p) (def_ids p) (constructor_ids p) (destructor_ids p)
           (structor_arity p) (def_arity p).
Definition set_n_defs (p : Parser) (x : nat) : Parser :=
  mkParser (ctx p) (current_line p) (n_vars_ p) (n_covars_ p) x (var_ctx p)
           (covar_ctx p) (def_ids p) (constructor_ids p) (destructor_ids p)
           (structor_arity p) (def_arity p).
Definition set_var_ctx (p : Parser) (x : gmap string (list nat)) : Parser :=
  mkParser (ctx p) (current_line p) (n_vars_ p) (n_covars_ p) (n_defs p) x
           (covar_ctx p) (def_ids p) (constructor_ids p) (destructor_ids p)
           (structor_arity p) (def_arity p).
Definition set_covar_ctx (p : Parser) (x : gmap string (list nat)) : Parser :=
  mkParser (ctx p) (current_line p) (n_vars_ p) (n_covars_ p) (n_defs p)
           (var_ctx p) x (def_ids p) (constructor_ids p) (destructor_ids p)
           (structor_arity p) (def_arity p).
Definition set_def_ids (p : Parser) (x : gmap string nat) : Parser :=
  mkParser (ctx p) (current_line p) (n_vars_ p) (n_covars_ p) (n_defs p)
           (var_ctx p) (covar_ctx p) x (constructor_ids p) (destructor_ids p)
           (structor_arity p) (def_arity p).
Definition set_def_arity (p : Parser) (x : gmap nat Arity_info) : Parser :=
  mkParser (ctx p) (current_line p) (n_vars_ p) (n_covars_ p) (n_defs p)
           (var_ctx p) (covar_ctx p) (def_ids p) (constructor_ids p)
           (destructor_ids p) (structor_arity p) x.

(** The table [builtin_structors] of Parser.cpp. *)
Definition builtin_structors
  : list (string * Abstraction_id * Arity_info * Syntax_polarity) :=
  [("Nil", Builtin_abstraction_id.list_nil, mkArity_info 0 0, producer);
   ("Cons", Builtin_abstraction_id.list_cons, mkArity_info 2 0, producer);
   ("Pair", Builtin_abstraction_id.pair_pair, mkArity_info 2 0, producer);
   ("Head", Builtin_abstraction_id.stream_head, mkArity_info 0 1, consumer);
   ("Tail", Builtin_abstraction_id.stream_tail, mkArity_info 0 1, consumer);
   ("Fst", Builtin_abstraction_id.lazy_pair_fst, mkArity_info 0 1, consumer);
   ("Snd", Builtin_abstraction_id.lazy_pair_snd, mkArity_info 0 1, consumer);
   ("Ap", Builtin_abstraction_id.lambda_ap, mkArity_info 1 1, consumer)]%string.

(** [std::map::emplace]: the entry a key already has stays. *)
Definition emplace `{Countable K} {A} (k : K) (v : A) (m : gmap K A) : gmap K A :=
  match m !! k with Some _ => m | None => <[k := v]> m end.

(** [Parser::Parser(Typing_context& ctx)]. *)
Definition new_Parser (ctx : Typing_context) : Parser :=
  let register (p : Parser)
        (spec : string * Abstraction_id * Arity_info * Syntax_polarity) :=
    let '(name, abstraction_id, arity, polarity) := spec in
    let sa := emplace abstraction_id arity (structor_arity p) in
    match polarity with
    | producer =>
        mkParser (Parser.ctx p) (current_line p) (n_vars_ p) (n_covars_ p)
                 (n_defs p) (var_ctx p) (covar_ctx p) (def_ids p)
                 (emplace name abstraction_id (constructor_ids p))
                 (destructor_ids p) sa (def_arity p)
    | _ =>
        mkParser (Parser.ctx p) (current_line p) (n_vars_ p) (n_covars_ p)
                 (n_defs p) (var_ctx p) (covar_ctx p) (def_ids p)
                 (constructor_ids p)
                 (emplace name abstraction_id (destructor_ids p)) sa
                 (def_arity p)
    end in
  foldl register (mkParser ctx 1 0 0 0 ∅ ∅ ∅ ∅ ∅ ∅ ∅) builtin_structors.

(** The state a parse function works on: the parser and the stream. *)
Abbreviation pstate := (Parser * istream)%type.
Abbreviation parse_outcome A := (outcome pstate Parse_exception A).

Definition p_peek (st : pstate) : option ascii * pstate :=
  let '(c, s) := peek st.2 in (c, (st.1, s)).
Definition p_get (st : pstate) : option ascii * pstate :=
  let '(c, s) := get st.2 in (c, (st.1, s)).
Definition p_putback (c : ascii) (st : pstate) : pstate :=
  (st.1, putback c st.2).

(** ** Words *)

(** The loop of [skip_whitespace] on a good stream. *)
Fixpoint skip_whitespace_buffer (buf : string) (line : nat)
  : string * nat * bool :=
  match buf with
  | EmptyString => (EmptyString, line, true)
  | String c rest =>
      if isspace_char c then
        skip_whitespace_buffer rest
          (if Ascii.eqb c "010"%char then S line else line)
      else (buf, line, false)
  end.

(** [void Parser::skip_whitespace(std::istream& input)].  The loop tests
    [!input.eof()] and then peeks: with [eofbit] set nothing happens; on a
    stream with [failbit] the peek returns [EOF], which is no space; on a good
    stream the spaces are consumed, and the peek at the end of the buffer sets
    [eofbit]. *)
Definition skip_whitespace (st : pstate) : pstate :=
  let '(p, s) := st in
  if eofbit s then st
  else if failbit s then st
  else
    let '(buf, line, at_end) := skip_whitespace_buffer (buffer s) (current_line p) in
    (set_current_line p line, mkIstream buf at_end false).

(** The loop of [read_word] on a good stream: at most [max_len] characters
    ([None] is the default, the largest [std::size_t]), up to a delimiter, a
    space or the end of the buffer. *)
Fixpoint read_word_buffer (buf : string) (max_len : option nat)
  : string * string * bool :=
  match max_len with
  | Some 0 => (EmptyString, buf, false)
  | _ =>
      match buf with
      | EmptyString => (EmptyString, EmptyString, true)
      | String c rest =>
          if Ascii.eqb c Names.open_paren || Ascii.eqb c Names.close_paren ||
             Ascii.eqb c Names.open_square || Ascii.eqb c Names.close_square ||
             isspace_char c
          then (EmptyString, buf, false)
          else
            let '(word, buf', at_end) :=
              read_word_buffer rest (option_map Nat.pred max_len) in
            (String c word, buf', at_end)
      end
  end.

(** [std::string Parser::read_word(std::istream& input, std::size_t max_len)].
    On a stream that is not good the peek returns [EOF]: with [eofbit] the
    word ends there; with [failbit] alone the loop appends the character that
    [get] returns for [EOF] until [max_len] is reached, and never ends when
    [max_len] is the default. *)
Definition read_word (max_len : option nat) (st : pstate)
  : parse_outcome string :=
  let '(p, s) := skip_whitespace st in
  if eofbit s then
    match max_len with
    | Some 0 => Ok EmptyString (p, s)
    | _ => Ok EmptyString (p, mkIstream (buffer s) true true)
    end
  else if failbit s then
    match max_len with
    | Some n => Ok (nat_rect _ EmptyString
                             (fun _ w => String (ascii_of_nat 255) w) n)
                   (p, s)
    | None => OutOfFuel
    end
  else
    let '(word, buf, at_end) := read_word_buffer (buffer s) max_len in
    Ok word (p, mkIstream buf at_end false).

Fixpoint string_rev_append (s acc : string) : string :=
  match s with
  | EmptyString => acc
  | String c rest => string_rev_append rest (String c acc)
  end.

Definition string_rev (s : string) : string := string_rev_append s EmptyString.

(** The loop of [peek_word]: the characters of the word are put back, the
    last one first. *)
Fixpoint putback_all (reversed : string) (st : pstate) : pstate :=
  match reversed with
  | EmptyString => st
  | String c rest => putback_all rest (p_putback c st)
  end.

(** [std::string Parser::peek_word(std::istream& input, std::size_t max_len)]. *)
Definition peek_word (max_len : nat) (st : pstate) : parse_outcome string :=
  let* (word, st) := read_word (Some max_len) st in
  Ok word (putback_all (string_rev word) st).

(** [void Parser::expect(input, expected, context, start_line)]. *)
Definition expect (expected : ascii) (context : string) (start_line : nat)
           (st : pstate) : parse_outcome unit :=
  let '(c, st) := p_get st in
  if is_char c expected then Ok tt st
  else Throw (Unexpected_char_exception (current_line st.1) start_line context c)
             st.

(** The cause of an unexpected keyword: [keyword.empty() ? input.peek() :
    keyword[0]]. *)
Definition keyword_cause (keyword : string) (st : pstate)
  : option ascii * pstate :=
  match keyword with
  | EmptyString => p_peek st
  | String c _ => (Some c, st)
  end.

(** ** Integer literals *)

Definition digit_value (c : ascii) : Z := Z.of_nat (nat_of_ascii c - 48).

Fixpoint read_digits (s : string) (acc : Z) (count : nat) : Z * nat :=
  match s with
  | EmptyString => (acc, count)
  | String c rest =>
      if isdigit_char c
      then read_digits rest (acc * 10 + digit_value c)%Z (S count)
      else (acc, count)
  end.

(** [std::stoll(literal, &processed)] on a word, which has no spaces: an
    optional sign and decimal digits.  No digit gives
    [std::invalid_argument], a value outside [std::int64_t] gives
    [std::out_of_range]. *)
Definition stoll (literal : string) : Parse_exception + (Z * nat) :=
  let '(negative, digits, sign_len) :=
    match literal with
    | String c rest =>
        if Ascii.eqb c "-"%char then (true, rest, 1)
        else if Ascii.eqb c "+"%char then (false, rest, 1)
        else (false, literal, 0)
    | EmptyString => (false, literal, 0)
    end in
  let '(n, count) := read_digits digits 0%Z 0 in
  if Nat.eqb count 0 then inl (Std_exception "stoll: invalid argument")
  else
    let value := if negative : bool then (- n)%Z else n in
    if (value <? - 2 ^ 63)%Z || (2 ^ 63 <=? value)%Z
    then inl (Std_exception "stoll: out of range")
    else inr (value, sign_len + count).

(** ** Leaves of the grammar *)

(** The top of the stack that a name has in a context; [std::map::operator[]]
    gives a name without an entry the empty stack. *)
Definition stack_of (m : gmap string (list nat)) (name : string) : list nat :=
  default [] (m !! name).

Definition push_id (name : string) (id : nat) (m : gmap string (list nat))
  : gmap string (list nat) :=
  <[name := stack_of m name ++ [id]]> m.

Definition pop_id (name : string) (m : gmap string (list nat))
  : gmap string (list nat) :=
  <[name := removelast (stack_of m name)]> m.

(** [Variable_prod Parser::parse_variable(std::istream& input)]. *)
Definition parse_variable (st : pstate) : parse_outcome Producer :=
  let* (name, st) := read_word None st in
  match name with
  | EmptyString =>
      let '(c, st) := p_peek st in
      Throw (Unexpected_char_exception (current_line st.1) (current_line st.1)
                                       Names.AST.variable c) st
  | _ =>
      match last (stack_of (var_ctx st.1) name) with
      | None =>
          Throw (Unknown_name_exception (current_line st.1) (current_line st.1)
                                        Names.AST.variable Names.AST.variable
                                        name) st
      | Some id => Ok (Variable_prod id name None) st
      end
  end.

(** [Covariable_cons Parser::parse_covariable(std::istream& input)]. *)
Definition parse_covariable (st : pstate) : parse_outcome Consumer :=
  let* (name, st) := read_word None st in
  match name with
  | EmptyString =>
      let '(c, st) := p_peek st in
      Throw (Unexpected_char_exception (current_line st.1) (current_line st.1)
                                       Names.AST.covariable c) st
  | _ =>
      match last (stack_of (covar_ctx st.1) name) with
      | None =>
          Throw (Unknown_name_exception (current_line st.1) (current_line st.1)
                                        Names.AST.covariable
                                        Names.AST.covariable name) st
      | Some id => Ok (Covariable_cons id name None) st
      end
  end.

(** [Value_prod Parser::parse_value(std::istream& input)]. *)
Definition parse_value (st : pstate) : parse_outcome Producer :=
  let* (literal, st) := read_word None st in
  match literal with
  | EmptyString =>
      let '(c, st) := p_peek st in
      Throw (Unexpected_char_exception (current_line st.1) (current_line st.1)
                                       Names.AST.value c) st
  | _ =>
      match stoll literal with
      | inl e => Throw e st
      | inr (value, processed) =>
          if negb (Nat.eqb processed (String.length literal))
          then Throw (Parse_error (current_line st.1) (current_line st.1)
                                  Names.AST.value
                                  ("invalid integer literal: " ++ literal)) st
          else Ok (Value_prod value None) st
      end
  end.

(** [End_cons Parser::parse_end(std::istream& input)]. *)
Definition parse_end (st : pstate) : parse_outcome Consumer :=
  let st := skip_whitespace st in
  let* (keyword, st) := read_word None st in
  if negb (String.eqb keyword Names.end_) then
    let '(cause, st) := keyword_cause keyword st in
    Throw (Unexpected_char_exception (current_line st.1) (current_line st.1)
                                     Names.AST.end_ cause) st
  else Ok (End_cons None) st.

(** ** Lists *)

(** The loop of [parse_list<T>]: elements up to the closing parenthesis.
    The loop has no bound of its own; [fuel] bounds it in the model. *)
Fixpoint parse_list_loop {T} (parse : pstate → parse_outcome T) (fuel : nat)
         (syntax_kind : string) (start_line : nat) (result : list T)
         (st : pstate) : parse_outcome (list T) :=
  match fuel with
  | 0 => OutOfFuel
  | S fuel' =>
      let st := skip_whitespace st in
      let '(c, st) := p_peek st in
      if is_char c Names.close_paren then
        let '(_, st) := p_get st in Ok result st
      else if eof st.2 then
        let '(c, st) := p_peek st in
        Throw (Unexpected_char_exception (current_line st.1) start_line
                                         (syntax_kind ++ " list") c) st
      else
        let* (x, st) := parse st in
        parse_list_loop parse fuel' syntax_kind start_line (result ++ [x]) st
  end.

(** [std::vector<T> Parser::parse_list<T>(input, syntax_kind, p)]. *)
Definition parse_list {T} (parse : pstate → parse_outcome T) (fuel : nat)
           (syntax_kind : string) (st : pstate) : parse_outcome (list T) :=
  let st := skip_whitespace st in
  let start_line := current_line st.1 in
  let '(c, st) := p_get st in
  if negb (is_char c Names.open_paren) then
    Throw (Unexpected_char_exception (current_line st.1) start_line
                                     (syntax_kind ++ " list") c) st
  else parse_list_loop parse fuel syntax_kind start_line [] st.

(** [parse<std::string>]: a word. *)
Definition parse_name (st : pstate) : parse_outcome string := read_word None st.

(** The loops that bind the parameters of a definition or of a clause: a
    fresh id for every name, pushed on the stack of the name. *)
Fixpoint bind_vars (names : list string) (p : Parser) : list nat * Parser :=
  match names with
  | [] => ([], p)
  | name :: rest =>
      let id := n_vars_ p in
      let p := set_var_ctx (set_n_vars_ p (S id)) (push_id name id (var_ctx p)) in
      let '(ids, p) := bind_vars rest p in
      (id :: ids, p)
  end.

Fixpoint bind_covars (names : list string) (p : Parser) : list nat * Parser :=
  match names with
  | [] => ([], p)
  | name :: rest =>
      let id := n_covars_ p in
      let p := set_covar_ctx (set_n_covars_ p (S id))
                             (push_id name id (covar_ctx p)) in
      let '(ids, p) := bind_covars rest p in
      (id :: ids, p)
  end.

Definition unbind_vars (names : list string) (p : Parser) : Parser :=
  set_var_ctx p (foldl (fun m name => pop_id name m) (var_ctx p) names).

Definition unbind_covars (names : list string) (p : Parser) : Parser :=
  set_covar_ctx p (foldl (fun m name => pop_id name m) (covar_ctx p) names).

(** ** Totality of clause lists *)

(** The loop of [parse_clauses] over the clauses: every structor must still
    be expected, and is then erased from the expected set. *)
Fixpoint check_clauses (clauses : list Clause) (expected_structors : gset nat)
  : Clause + gset nat :=
  match clauses with
  | [] => inr expected_structors
  | clause :: rest =>
      if decide (clause_abstraction_id clause ∈ expected_structors)
      then check_clauses rest
                         (expected_structors ∖ {[clause_abstraction_id clause]})
      else inl clause
  end.

(** The part of [parse_clauses] after the list is parsed: the checks that
    the list is not empty, that the structors match and that the clause set
    is total.  [structors_like] reads the type of the first clause's structor
    with [value()] and the set with [at()], which throw standard exceptions
    when there is none. *)
Definition check_totality (ctx : Typing_context) (current_line start_line : nat)
           (expression_kind : string) (clauses : list Clause)
  : Parse_exception + list Clause :=
  match clauses with
  | [] =>
      inl (Parse_error current_line start_line expression_kind
                       ("empty " ++ Names.AST.clause ++ " list"))
  | first :: _ =>
      match structors_like ctx (clause_abstraction_id first) with
      | None => inl (Std_exception "structors_like")
      | Some expected_structors =>
          match check_clauses clauses expected_structors with
          | inl clause =>
              inl (Parse_error current_line start_line expression_kind
                               ("Duplicate or mismatched structor: " ++
                                clause_structor_name clause))
          | inr remaining =>
              if decide (remaining = ∅) then inr clauses
              else inl (Parse_error current_line start_line expression_kind
                                    "incomplete clause list")
          end
      end
  end.

(** ** The recursive descent *)

(** The parse functions call one another; [parsers] holds the three that
    every cycle of calls goes through, at the recursion depth that is left. *)
Record parsers : Type := mkParsers {
  rec_producer : pstate → parse_outcome Producer;
  rec_consumer : pstate → parse_outcome Consumer;
  rec_statement : pstate → parse_outcome Statement;
}.

Section descent.
Context (rec : parsers) (fuel : nat).

(** [Mu_prod Parser::parse_mu_p(std::istream& input)]. *)
Definition parse_mu_p (st : pstate) : parse_outcome Producer :=
  let st := skip_whitespace st in
  let start_line := current_line st.1 in
  let* (_, st) := expect Names.open_paren Names.AST.mu_p start_line st in
  let* (keyword, st) := read_word None st in
  if negb (String.eqb keyword Names.mu_p_ascii) &&
     negb (String.eqb keyword Names.mu_p_unicode) then
    let '(cause, st) := keyword_cause keyword st in
    Throw (Unexpected_char_exception (current_line st.1) start_line
                                     Names.AST.mu_p cause) st
  else
    let* (coarg_name, st) := read_word None st in
    match coarg_name with
    | EmptyString =>
        let '(c, st) := p_peek st in
        Throw (Unexpected_char_exception (current_line st.1) start_line
                                         Names.AST.mu_p c) st
    | _ =>
        let coarg_id := n_covars_ st.1 in
        let st := (set_covar_ctx (set_n_covars_ st.1 (S coarg_id))
                     (push_id coarg_name coarg_id (covar_ctx st.1)), st.2) in
        let* (body, st) := rec_statement rec st in
        let st := (set_covar_ctx st.1 (pop_id coarg_name (covar_ctx st.1)),
                   st.2) in
        let* (_, st) := expect Names.close_paren Names.AST.mu_p start_line st in
        Ok (Mu_prod coarg_id coarg_name body None) st
    end.

(** [Mu_cons Parser::parse_mu_c(std::istream& input)]. *)
Definition parse_mu_c (st : pstate) : parse_outcome Consumer :=
  let st := skip_whitespace st in
  let start_line := current_line st.1 in
  let* (_, st) := expect Names.open_paren Names.AST.mu_c start_line st in
  let* (keyword, st) := read_word None st in
  if negb (String.eqb keyword Names.mu_c_ascii) &&
     negb (String.eqb keyword Names.mu_c_unicode) then
    let '(cause, st) := keyword_cause keyword st in
    Throw (Unexpected_char_exception (current_line st.1) start_line
                                     Names.AST.mu_c cause) st
  else
    let st := skip_whitespace st in
    let* (arg_name, st) := read_word None st in
    match arg_name with
    | EmptyString =>
        let '(c, st) := p_peek st in
        Throw (Unexpected_char_exception (current_line st.1) start_line
                                         Names.AST.mu_c c) st
    | _ =>
        let arg_id := n_vars_ st.1 in
        let st := (set_var_ctx (set_n_vars_ st.1 (S arg_id))
                     (push_id arg_name arg_id (var_ctx st.1)), st.2) in
        let* (body, st) := rec_statement rec st in
        let st := (set_var_ctx st.1 (pop_id arg_name (var_ctx st.1)), st.2) in
        let* (_, st) := expect Names.close_paren Names.AST.mu_c start_line st in
        Ok (Mu_cons arg_id arg_name body None) st
    end.

(** [Parser::parse_structor(input, p)]: the id, the name and the
    (co)arguments of a constructor or destructor application. *)
Definition parse_structor (p : Syntax_polarity) (st : pstate)
  : parse_outcome (nat * string * list Producer * list Consumer) :=
  let structor_kind :=
    match p with producer => Names.AST.constructor | _ => Names.AST.destructor end in
  let st := skip_whitespace st in
  let start_line := current_line st.1 in
  let* (_, st) := expect Names.open_paren structor_kind start_line st in
  let* (structor_name, st) := read_word None st in
  match structor_name with
  | EmptyString =>
      let '(c, st) := p_peek st in
      Throw (Unexpected_char_exception (current_line st.1) start_line
                                       structor_kind c) st
  | _ =>
      let structor_ids :=
        match p with
        | producer => constructor_ids st.1
        | _ => destructor_ids st.1
        end in
      match structor_ids !! structor_name with
      | None =>
          Throw (Unknown_name_exception (current_line st.1) start_line
                                        structor_kind structor_kind
                                        structor_name) st
      | Some structor_id =>
          match structor_arity st.1 !! structor_id with
          | None => Throw (Std_exception "map::at") st
          | Some info =>
              let* (args, st) :=
                if Nat.ltb 0 (arity info)
                then parse_list (rec_producer rec) fuel Names.AST.argument st
                else Ok [] st in
              if negb (Nat.eqb (length args) (arity info)) then
                Throw (Arity_mismatch_exception
                         (current_line st.1) start_line structor_kind
                         structor_name producer (arity info) (length args)) st
              else
                let* (coargs, st) :=
                  if Nat.ltb 0 (coarity info)
                  then parse_list (rec_consumer rec) fuel
                                  Names.AST.coargument st
                  else Ok [] st in
                if negb (Nat.eqb (length coargs) (coarity info)) then
                  Throw (Arity_mismatch_exception
                           (current_line st.1) start_line structor_kind
                           structor_name consumer (coarity info)
                           (length coargs)) st
                else
                  let* (_, st) :=
                    expect Names.close_paren structor_kind start_line st in
                  Ok (structor_id, structor_name, args, coargs) st
          end
      end
  end.

(** [Constructor_prod Parser::parse_constructor(std::istream& input)]. *)
Definition parse_constructor (st : pstate) : parse_outcome Producer :=
  let* (r, st) := parse_structor producer st in
  let '(structor_id, name, args, coargs) := r in
  Ok (Constructor_prod structor_id name args coargs None None) st.

(** [Destructor_cons Parser::parse_destructor(std::istream& input)]. *)
Definition parse_destructor (st : pstate) : parse_outcome Consumer :=
  let* (r, st) := parse_structor consumer st in
  let '(structor_id, name, args, coargs) := r in
  Ok (Destructor_cons structor_id name args coargs None) st.

(** [Clause Parser::parse_clause(std::istream& input, Syntax_polarity p)]. *)
Definition parse_clause (p : Syntax_polarity) (st : pstate)
  : parse_outcome Clause :=
  let clause_kind :=
    match p with
    | producer => Names.AST.cocase_clause
    | _ => Names.AST.case_clause
    end in
  let structor_kind :=
    match p with producer => Names.AST.destructor | _ => Names.AST.constructor end in
  let st := skip_whitespace st in
  let start_line := current_line st.1 in
  let* (_, st) := expect Names.open_paren clause_kind start_line st in
  let* (structor_name, st) := read_word None st in
  match structor_name with
  | EmptyString =>
      let '(c, st) := p_peek st in
      Throw (Unexpected_char_exception (current_line st.1) start_line
                                       clause_kind c) st
  | _ =>
      let structor_ids :=
        match p with
        | producer => destructor_ids st.1
        | _ => constructor_ids st.1
        end in
      match structor_ids !! structor_name with
      | None =>
          Throw (Unknown_name_exception (current_line st.1) start_line
                                        clause_kind structor_kind
                                        structor_name) st
      | Some structor_id =>
          match structor_arity st.1 !! structor_id with
          | None => Throw (Std_exception "map::at") st
          | Some info =>
              let* (arg_names, st) :=
                if Nat.ltb 0 (arity info)
                then parse_list parse_name fuel Names.AST.parameter st
                else Ok [] st in
              if negb (Nat.eqb (length arg_names) (arity info)) then
                Throw (Arity_mismatch_exception
                         (current_line st.1) start_line clause_kind
                         structor_name producer (arity info)
                         (length arg_names)) st
              else
                let* (coarg_names, st) :=
                  if Nat.ltb 0 (coarity info)
                  then parse_list parse_name fuel Names.AST.coparameter st
                  else Ok [] st in
                if negb (Nat.eqb (length coarg_names) (coarity info)) then
                  Throw (Arity_mismatch_exception
                           (current_line st.1) start_line clause_kind
                           structor_name consumer (coarity info)
                           (length coarg_names)) st
                else
                  let '(arg_ids, p1) := bind_vars arg_names st.1 in
                  let '(coarg_ids, p2) := bind_covars coarg_names p1 in
                  let* (body, st) := rec_statement rec (p2, st.2) in
                  let st := (unbind_covars coarg_names
                               (unbind_vars arg_names st.1), st.2) in
                  let* (_, st) :=
                    expect Names.close_paren Names.AST.clause start_line st in
                  Ok (mkClause structor_id structor_name arg_names
                               coarg_names arg_ids coarg_ids body) st
          end
      end
  end.

(** [std::vector<Clause> Parser::parse_clauses(input, p, start_line)]. *)
Definition parse_clauses (p : Syntax_polarity) (start_line : nat)
           (st : pstate) : parse_outcome (list Clause) :=
  let clause_kind :=
    match p with
    | producer => Names.AST.cocase_clause
    | _ => Names.AST.case_clause
    end in
  let expression_kind :=
    match p with producer => Names.AST.cocase | _ => Names.AST.case_ end in
  let* (clauses, st) := parse_list (parse_clause p) fuel clause_kind st in
  match check_totality (ctx st.1) (current_line st.1) start_line
                       expression_kind clauses with
  | inl e => Throw e st
  | inr clauses => Ok clauses st
  end.

(** [Cocase_prod Parser::parse_cocase(std::istream& input)]. *)
Definition parse_cocase (st : pstate) : parse_outcome Producer :=
  let st := skip_whitespace st in
  let start_line := current_line st.1 in
  let* (_, st) := expect Names.open_paren Names.AST.cocase start_line st in
  let* (keyword, st) := read_word None st in
  if negb (String.eqb keyword Names.cocase) then
    let '(cause, st) := keyword_cause keyword st in
    Throw (Unexpected_char_exception (current_line st.1) start_line
                                     Names.AST.cocase cause) st
  else
    let* (clauses, st) := parse_clauses producer start_line st in
    let* (_, st) := expect Names.close_paren Names.AST.cocase start_line st in
    Ok (Cocase_prod clauses None) st.

(** [Case_cons Parser::parse_case(std::istream& input)]. *)
Definition parse_case (st : pstate) : parse_outcome Consumer :=
  let st := skip_whitespace st in
  let start_line := current_line st.1 in
  let* (_, st) := expect Names.open_paren Names.AST.case_ start_line st in
  let* (keyword, st) := read_word None st in
  if negb (String.eqb keyword Names.case_) then
    let '(cause, st) := keyword_cause keyword st in
    Throw (Unexpected_char_exception (current_line st.1) start_line
                                     Names.AST.case_ cause) st
  else
    let* (clauses, st) := parse_clauses consumer start_line st in
    let* (_, st) := expect Names.close_paren Names.AST.case_ start_line st in
    Ok (Case_cons clauses None) st.

(** [Producer Parser::parse_producer(std::istream& input)]. *)
Definition parse_producer_body (st : pstate) : parse_outcome Producer :=
  let st := skip_whitespace st in
  let start_line := current_line st.1 in
  let '(next, st) := p_peek st in
  if isalpha next then parse_variable st
  else if isdigit next || is_char next Names.minus then parse_value st
  else
    let* (_, st) := expect Names.open_paren Names.AST.producer start_line st in
    let* (word, st) := peek_word 6 st in
    let st := p_putback Names.open_paren st in
    if String.eqb word Names.mu_p_ascii || String.eqb word Names.mu_p_unicode
    then parse_mu_p st
    else if String.eqb word Names.cocase then parse_cocase st
    else parse_constructor st.

(** [Consumer Parser::parse_consumer(std::istream& input)]. *)
Definition parse_consumer_body (st : pstate) : parse_outcome Consumer :=
  let st := skip_whitespace st in
  let start_line := current_line st.1 in
  let '(next, st) := p_peek st in
  if isalpha next then parse_covariable st
  else if is_char next "<"%char then parse_end st
  else
    let* (_, st) := expect Names.open_paren Names.AST.consumer start_line st in
    let* (word, st) := peek_word 5 st in
    let st := p_putback Names.open_paren st in
    if String.eqb word Names.mu_c_ascii || String.eqb word Names.mu_c_unicode
    then parse_mu_c st
    else if String.eqb word Names.case_ then parse_case st
    else parse_destructor st.

(** [Arithmetic_stmt Parser::parse_arithmetic(std::istream& input)]. *)
Definition parse_arithmetic (st : pstate) : parse_outcome Statement :=
  let st := skip_whitespace st in
  let start_line := current_line st.1 in
  let* (_, st) := expect Names.open_paren Names.AST.arithmetic start_line st in
  let '(op_symbol, st) := p_get st in
  match
    (if is_char op_symbol Names.plus then Some op_add
     else if is_char op_symbol Names.minus then Some op_sub
     else if is_char op_symbol Names.star then Some op_mul
     else if is_char op_symbol Names.slash then Some op_div
     else if is_char op_symbol Names.modulo then Some op_mod
     else None)
  with
  | None =>
      Throw (Unexpected_char_exception (current_line st.1) start_line
                                       Names.AST.arithmetic op_symbol) st
  | Some op =>
      let* (l, st) := rec_producer rec st in
      let* (r, st) := rec_producer rec st in
      let* (after, st) := rec_consumer rec st in
      let* (_, st) :=
        expect Names.close_paren Names.AST.arithmetic start_line st in
      Ok (Arithmetic_stmt op l r after) st
  end.

(** [Ifz_stmt Parser::parse_ifz(std::istream& input)]. *)
Definition parse_ifz (st : pstate) : parse_outcome Statement :=
  let st := skip_whitespace st in
  let start_line := current_line st.1 in
  let* (_, st) := expect Names.open_paren Names.AST.ifz start_line st in
  let* (keyword, st) := read_word None st in
  if negb (String.eqb keyword Names.ifz) then
    let '(cause, st) := keyword_cause keyword st in
    Throw (Unexpected_char_exception (current_line st.1) start_line
                                     Names.AST.ifz cause) st
  else
    let* (condition, st) := rec_producer rec st in
    let* (if_zero, st) := rec_statement rec st in
    let* (if_other, st) := rec_statement rec st in
    let* (_, st) := expect Names.close_paren Names.AST.ifz start_line st in
    Ok (Ifz_stmt condition if_zero if_other) st.

(** [Cut_stmt Parser::parse_cut(std::istream& input)]. *)
Definition parse_cut (st : pstate) : parse_outcome Statement :=
  let st := skip_whitespace st in
  let start_line := current_line st.1 in
  let* (_, st) := expect Names.open_square Names.AST.cut start_line st in
  let* (prod, st) := rec_producer rec st in
  let* (csm, st) := rec_consumer rec st in
  let* (_, st) := expect Names.close_square Names.AST.cut start_line st in
  Ok (Cut_stmt prod csm) st.

(** [Call_stmt Parser::parse_call(std::istream& input)]. *)
Definition parse_call (st : pstate) : parse_outcome Statement :=
  let st := skip_whitespace st in
  let start_line := current_line st.1 in
  let* (_, st) := expect Names.open_paren Names.AST.call start_line st in
  let* (name, st) := read_word None st in
  match name with
  | EmptyString =>
      let '(c, st) := p_peek st in
      Throw (Unexpected_char_exception (current_line st.1) start_line
                                       Names.AST.call c) st
  | _ =>
      match def_ids st.1 !! name with
      | None =>
          Throw (Unknown_name_exception (current_line st.1) start_line
                                        Names.AST.call Names.AST.definition
                                        name) st
      | Some def_id =>
          match def_arity st.1 !! def_id with
          | None => Throw (Std_exception "map::at") st
          | Some info =>
              let* (args, st) :=
                parse_list (rec_producer rec) fuel Names.AST.producer st in
              let* (coargs, st) :=
                parse_list (rec_consumer rec) fuel Names.AST.consumer st in
              if negb (Nat.eqb (length args) (arity info)) then
                Throw (Arity_mismatch_exception
                         (current_line st.1) start_line Names.AST.call name
                         producer (arity info) (length args)) st
              else if negb (Nat.eqb (length coargs) (coarity info)) then
                Throw (Arity_mismatch_exception
                         (current_line st.1) start_line Names.AST.call name
                         consumer (coarity info) (length coargs)) st
              else
                let* (_, st) :=
                  expect Names.close_paren Names.AST.call start_line st in
                Ok (Call_stmt def_id name args coargs) st
          end
      end
  end.

(** [Statement Parser::parse_statement(std::istream& input)]. *)
Definition parse_statement_body (st : pstate) : parse_outcome Statement :=
  let st := skip_whitespace st in
  let start_line := current_line st.1 in
  let '(c, st) := p_peek st in
  if is_char c Names.open_square then parse_cut st
  else
    let* (_, st) := expect Names.open_paren Names.AST.statement start_line st in
    let '(next, st) := p_peek st in
    if is_char next Names.plus || is_char next Names.minus ||
       is_char next Names.star || is_char next Names.slash ||
       is_char next Names.modulo
    then parse_arithmetic (p_putback Names.open_paren st)
    else if isalpha next then
      let* (word, st) := peek_word 3 st in
      let st := p_putback Names.open_paren st in
      if String.eqb word Names.ifz then parse_ifz st else parse_call st
    else
      Throw (Unexpected_char_exception (current_line st.1) start_line
                                       Names.AST.statement next) st.
End descent.

(** The parse functions at a recursion depth. *)
Fixpoint parsers_at (fuel : nat) : parsers :=
  match fuel with
  | 0 => mkParsers (fun _ => OutOfFuel) (fun _ => OutOfFuel) (fun _ => OutOfFuel)
  | S fuel' =>
      let rec := parsers_at fuel' in
      mkParsers (parse_producer_body rec fuel) (parse_consumer_body rec fuel)
                (parse_statement_body rec fuel)
  end.

Definition parse_producer (fuel : nat) : pstate → parse_outcome Producer :=
  rec_producer (parsers_at fuel).
Definition parse_consumer (fuel : nat) : pstate → parse_outcome Consumer :=
  rec_consumer (parsers_at fuel).
Definition parse_statement (fuel : nat) : pstate → parse_outcome Statement :=
  rec_statement (parsers_at fuel).

(** [Definition Parser::parse_definition(std::istream& input)]. *)
Definition parse_definition (fuel : nat) (st : pstate)
  : parse_outcome Definition_ :=
  let st := skip_whitespace st in
  let start_line := current_line st.1 in
  let* (_, st) := expect Names.open_paren Names.AST.definition start_line st in
  let* (keyword, st) := read_word None st in
  if negb (String.eqb keyword Names.def) then
    let '(cause, st) := keyword_cause keyword st in
    Throw (Unexpected_char_exception (current_line st.1) start_line
                                     Names.AST.definition cause) st
  else
    let* (name, st) := read_word None st in
    match name with
    | EmptyString =>
        let '(c, st) := p_peek st in
        Throw (Unexpected_char_exception (current_line st.1) start_line
                                         Names.AST.definition c) st
    | _ =>
        match def_ids st.1 !! name with
        | Some _ =>
            Throw (Parse_error (current_line st.1) start_line
                               Names.AST.definition
                               ("Repeated definition of " ++ name)) st
        | None =>
            if String.eqb name Names.ifz then
              Throw (Parse_error (current_line st.1) start_line
                                 Names.AST.definition
                                 (Names.ifz ++ " is a reserved name")) st
            else
              let def_id := n_defs st.1 in
              let st := (set_def_ids (set_n_defs st.1 (S def_id))
                                     (<[name := def_id]> (def_ids st.1)), st.2) in
              let* (arg_names, st) :=
                parse_list parse_name fuel Names.AST.parameter st in
              let* (coarg_names, st) :=
                parse_list parse_name fuel Names.AST.coparameter st in
              let '(arg_ids, p1) := bind_vars arg_names st.1 in
              let '(coarg_ids, p2) := bind_covars coarg_names p1 in
              let p3 :=
                set_def_arity p2
                  (emplace def_id
                           (mkArity_info (length arg_ids) (length coarg_ids))
                           (def_arity p2)) in
              match add_definition name (length arg_ids) (length coarg_ids)
                                   None (ctx p3) with
              | Ok abstraction_id ctx' =>
                  let* (body, st) :=
                    parse_statement fuel (set_ctx p3 ctx', st.2) in
                  let st := (unbind_covars coarg_names
                               (unbind_vars arg_names st.1), st.2) in
                  let* (_, st) :=
                    expect Names.close_paren Names.AST.definition start_line st in
                  Ok (mkDefinition abstraction_id name arg_names coarg_names
                                   arg_ids coarg_ids body) st
              | _ => Undefined
              end
        end
    end.

(** The [while] loop of [parse_program]. *)
Fixpoint parse_program_loop (fuel loop_fuel : nat) (program : Program)
         (st : pstate) : parse_outcome Program :=
  match loop_fuel with
  | 0 => OutOfFuel
  | S loop_fuel' =>
      if eof st.2 then Ok program st
      else
        let '(c, st) := p_peek st in
        if is_char c Names.open_square then
          let* (stmt, st) := parse_cut (parsers_at fuel) st in
          parse_program_loop fuel loop_fuel'
            (mkProgram (AST.definitions program)
                       (AST.statements program ++ [stmt]))
            (skip_whitespace st)
        else
          let* (_, st) :=
            expect Names.open_paren Names.AST.def_or_stmt (current_line st.1) st in
          let* (word, st) := peek_word 3 st in
          let st := p_putback Names.open_paren st in
          if String.eqb word Names.def then
            let* (definition, st) := parse_definition fuel st in
            parse_program_loop fuel loop_fuel'
              (mkProgram (AST.definitions program ++ [definition])
                         (AST.statements program))
              (skip_whitespace st)
          else
            let* (stmt, st) := parse_statement fuel st in
            parse_program_loop fuel loop_fuel'
              (mkProgram (AST.definitions program)
                         (AST.statements program ++ [stmt]))
              (skip_whitespace st)
  end.

(** [Program Parser::parse_program(std::istream& input)]. *)
Definition parse_program (fuel : nat) (st : pstate) : parse_outcome Program :=
  parse_program_loop fuel fuel (mkProgram [] []) (skip_whitespace st).

End Parser.

(* ===================================================================== *)
(** * Typer (Typer.h, Typer.cpp) *)
(* ===================================================================== *)

Module Typer.
Import Types AST.

(** [Syntax_ptr]: the syntax element an error is reported at.  The pointer
    is modelled by the element as it stood when its check began. *)
Inductive Syntax_ptr : Type :=
| Producer_ptr (p : Producer)
| Consumer_ptr (c : Consumer)
| Statement_ptr (s : Statement)
| Clause_ptr (cl : Clause)
| Definition_ptr (d : Definition_).

(** [Single_typing_exception], and the [std::out_of_range] that
    [definitions.at] throws, which no handler of the typer catches. *)
Inductive Typing_exception : Type :=
| Single_typing_exception (cause : Unification_exception) (context : Syntax_ptr)
| Std_out_of_range.

(** The members of [class Typer]; [ctx] is the typing context it holds a
    reference to. *)
Record Typer : Type := mkTyper {
  ctx : Typing_context;
  definitions : list Definition_;
  int_type : Strong_type_handle;
  var_types : gmap nat Strong_type_handle;
  covar_types : gmap nat Strong_type_handle;
  current_definition : option Abstraction_id;
}.

Definition set_ctx (t : Typer) (x : Typing_context) : Typer :=
  mkTyper x (definitions t) (int_type t) (var_types t) (covar_types t)
          (current_definition t).
Definition set_var_types (t : Typer) (x : gmap nat Strong_type_handle) : Typer :=
  mkTyper (ctx t) (definitions t) (int_type t) x (covar_types t)
          (current_definition t).
Definition set_covar_types (t : Typer) (x : gmap nat Strong_type_handle) : Typer :=
  mkTyper (ctx t) (definitions t) (int_type t) (var_types t) x
          (current_definition t).
Definition set_current_definition (t : Typer) (x : option Abstraction_id) : Typer :=
  mkTyper (ctx t) (definitions t) (int_type t) (var_types t) (covar_types t) x.

Abbreviation typer_outcome A := (outcome Typer Typing_exception A).

(** [Typer::Typer(ctx, definitions)]. *)
Definition new_Typer (ctx : Typing_context) (definitions : list Definition_)
  : option Typer :=
  match get_primitive_prototype ctx Builtin_type_id.integer with
  | Some int_type => Some (mkTyper ctx definitions int_type ∅ ∅ None)
  | None => None
  end.

(** [var_types[id]] and [covar_types[id]]: [std::map::operator[]] enters a
    value-initialised handle, the handle 0, for an id without an entry. *)
Definition var_type (id : nat) (t : Typer) : Strong_type_handle * Typer :=
  match var_types t !! id with
  | Some h => (h, t)
  | None => (0, set_var_types t (<[id := 0]> (var_types t)))
  end.

Definition covar_type (id : nat) (t : Typer) : Strong_type_handle * Typer :=
  match covar_types t !! id with
  | Some h => (h, t)
  | None => (0, set_covar_types t (<[id := 0]> (covar_types t)))
  end.

(** [void Typer::fresh_var(Var_id id)] and [fresh_covar]; the assertion wants
    the id unbound. *)
Definition fresh_var (id : nat) (t : Typer) : typer_outcome unit :=
  match var_types t !! id with
  | Some _ => Undefined
  | None =>
      let '(v, ctx') := ctx_fresh_type_variable (ctx t) in
      Ok tt (set_var_types (set_ctx t ctx') (<[id := v]> (var_types t)))
  end.

Definition fresh_covar (id : nat) (t : Typer) : typer_outcome unit :=
  match covar_types t !! id with
  | Some _ => Undefined
  | None =>
      let '(v, ctx') := ctx_fresh_type_variable (ctx t) in
      Ok tt (set_covar_types (set_ctx t ctx') (<[id := v]> (covar_types t)))
  end.

Fixpoint fresh_vars (ids : list nat) (t : Typer) : typer_outcome unit :=
  match ids with
  | [] => Ok tt t
  | id :: rest => let* (_, t) := fresh_var id t in fresh_vars rest t
  end.

Fixpoint fresh_covars (ids : list nat) (t : Typer) : typer_outcome unit :=
  match ids with
  | [] => Ok tt t
  | id :: rest => let* (_, t) := fresh_covar id t in fresh_covars rest t
  end.

(** [void Typer::try_unify(a, b, context)]. *)
Definition try_unify (fuel : nat) (a b : Strong_type_handle)
           (context : Syntax_ptr) (t : Typer) : typer_outcome unit :=
  match ctx_unify fuel a b (ctx t) with
  | Ok u ctx' => Ok u (set_ctx t ctx')
  | Throw e ctx' => Throw (Single_typing_exception e context) (set_ctx t ctx')
  | Undefined => Undefined
  | OutOfFuel => OutOfFuel
  end.

(** The instance that [check_abstraction] takes: the prototype of the
    definition that is being checked, and a fresh instance of anything
    else. *)
Definition abstraction_instance (fuel : nat) (id : Abstraction_id) (t : Typer)
  : typer_outcome Abstraction_instance :=
  if decide (current_definition t = Some id) then
    (* Recursive call, which means we can't generalize the defintion's type *)
    match get_abstraction_prototype (ctx t) id with
    | Some instance => Ok instance t
    | None => Undefined
    end
  else
    (* Get a fresh instance of the definition *)
    match instantiate fuel id (ctx t) with
    | Ok instance ctx' => Ok instance (set_ctx t ctx')
    | Throw _ _ => Undefined
    | Undefined => Undefined
    | OutOfFuel => OutOfFuel
    end.

(** The loops of [check(Clause&)] and [check(Definition&)] that unify the
    types of the bound (co)variables with the formal types. *)
Fixpoint unify_bound (fuel : nat)
         (type_of : nat → Typer → Strong_type_handle * Typer)
         (ids : list nat) (formals : list Strong_type_handle)
         (context : Syntax_ptr) (t : Typer) : typer_outcome unit :=
  match formals, ids with
  | [], _ => Ok tt t
  | _ :: _, [] => Undefined
  | formal :: formals', id :: ids' =>
      let '(h, t) := type_of id t in
      let* (_, t) := try_unify fuel h formal context t in
      unify_bound fuel type_of ids' formals' context t
  end.

Section check.
Context (fuel : nat).

(** [Typer::check], the overloads for producers, consumers, statements
    and clauses, and [Typer::check_abstraction], which is unfolded where it
    is called.  The element is annotated in place in C++ and returned
    here. *)
Fixpoint check_prod (prod : Producer) (type : Strong_type_handle) (t : Typer)
         {struct prod} : typer_outcome Producer :=
  match prod with
  | Variable_prod var_id name _ =>
      let '(h, t) := var_type var_id t in
      let* (_, t) := try_unify fuel type h (Producer_ptr prod) t in
      let '(h, t) := var_type var_id t in
      Ok (Variable_prod var_id name (Some h)) t
  | Value_prod value _ =>
      let* (_, t) := try_unify fuel type (int_type t) (Producer_ptr prod) t in
      Ok (Value_prod value (Some (int_type t))) t
  | Mu_prod coarg_id name body _ =>
      let* (_, t) := fresh_covar coarg_id t in
      let '(h, t) := covar_type coarg_id t in
      let* (_, t) := try_unify fuel type h (Producer_ptr prod) t in
      let* (body', t) := check_stmt body t in
      let '(h, t) := covar_type coarg_id t in
      Ok (Mu_prod coarg_id name body' (Some h)) t
  | Constructor_prod id name args coargs flag _ =>
      let* (instance, t) := abstraction_instance fuel id t in
      match Types.type instance with
      | None => Undefined
      | Some instance_type =>
          if negb (Nat.eqb (length (Types.args instance)) (length args)) ||
             negb (Nat.eqb (length (Types.coargs instance)) (length coargs))
          then Undefined
          else
            let* (args', t) :=
              (fix go (xs : list Producer) (formals : list nat) (t : Typer)
                 : typer_outcome (list Producer) :=
                 match formals, xs with
                 | [], _ => Ok xs t
                 | _ :: _, [] => Undefined
                 | formal :: formals', x :: xs' =>
                     let* (x', t) := check_prod x formal t in
                     let* (xs'', t) := go xs' formals' t in
                     Ok (x' :: xs'') t
                 end) args (Types.args instance) t in
            let* (coargs', t) :=
              (fix go (xs : list Consumer) (formals : list nat) (t : Typer)
                 : typer_outcome (list Consumer) :=
                 match formals, xs with
                 | [], _ => Ok xs t
                 | _ :: _, [] => Undefined
                 | formal :: formals', x :: xs' =>
                     let* (x', t) := check_cons x formal t in
                     let* (xs'', t) := go xs' formals' t in
                     Ok (x' :: xs'') t
                 end) coargs (Types.coargs instance) t in
            let* (_, t) :=
              try_unify fuel type instance_type (Producer_ptr prod) t in
            Ok (Constructor_prod id name args' coargs' flag
                                 (Some instance_type)) t
      end
  | Cocase_prod clauses ty =>
      let* (clauses', t) :=
        (fix go (cls : list Clause) (t : Typer)
           : typer_outcome (list Clause) :=
           match cls with
           | [] => Ok [] t
           | cl :: rest =>
               let* (cl', t) := check_clause cl type t in
               let* (rest', t) := go rest t in
               Ok (cl' :: rest') t
           end) clauses t in
      Ok (Cocase_prod clauses' ty) t
  end
with check_cons (cons : Consumer) (type : Strong_type_handle) (t : Typer)
         {struct cons} : typer_outcome Consumer :=
  match cons with
  | Covariable_cons covar_id name _ =>
      let '(h, t) := covar_type covar_id t in
      let* (_, t) := try_unify fuel type h (Consumer_ptr cons) t in
      let '(h, t) := covar_type covar_id t in
      Ok (Covariable_cons covar_id name (Some h)) t
  | Mu_cons arg_id name body _ =>
      let* (_, t) := fresh_var arg_id t in
      let '(h, t) := var_type arg_id t in
      let* (_, t) := try_unify fuel type h (Consumer_ptr cons) t in
      let* (body', t) := check_stmt body t in
      let '(h, t) := var_type arg_id t in
      Ok (Mu_cons arg_id name body' (Some h)) t
  | Destructor_cons id name args coargs _ =>
      let* (instance, t) := abstraction_instance fuel id t in
      match Types.type instance with
      | None => Undefined
      | Some instance_type =>
          if negb (Nat.eqb (length (Types.args instance)) (length args)) ||
             negb (Nat.eqb (length (Types.coargs instance)) (length coargs))
          then Undefined
          else
            let* (args', t) :=
              (fix go (xs : list Producer) (formals : list nat) (t : Typer)
                 : typer_outcome (list Producer) :=
                 match formals, xs with
                 | [], _ => Ok xs t
                 | _ :: _, [] => Undefined
                 | formal :: formals', x :: xs' =>
                     let* (x', t) := check_prod x formal t in
                     let* (xs'', t) := go xs' formals' t in
                     Ok (x' :: xs'') t
                 end) args (Types.args instance) t in
            let* (coargs', t) :=
              (fix go (xs : list Consumer) (formals : list nat) (t : Typer)
                 : typer_outcome (list Consumer) :=
                 match formals, xs with
                 | [], _ => Ok xs t
                 | _ :: _, [] => Undefined
                 | formal :: formals', x :: xs' =>
                     let* (x', t) := check_cons x formal t in
                     let* (xs'', t) := go xs' formals' t in
                     Ok (x' :: xs'') t
                 end) coargs (Types.coargs instance) t in
            let* (_, t) :=
              try_unify fuel type instance_type (Consumer_ptr cons) t in
            Ok (Destructor_cons id name args' coargs' (Some instance_type)) t
      end
  | Case_cons clauses ty =>
      let* (clauses', t) :=
        (fix go (cls : list Clause) (t : Typer)
           : typer_outcome (list Clause) :=
           match cls with
           | [] => Ok [] t
           | cl :: rest =>
               let* (cl', t) := check_clause cl type t in
               let* (rest', t) := go rest t in
               Ok (cl' :: rest') t
           end) clauses t in
      Ok (Case_cons clauses' ty) t
  | End_cons _ =>
      (* End can be of any type *)
      Ok (End_cons (Some type)) t
  end
with check_stmt (stmt : Statement) (t : Typer) {struct stmt}
  : typer_outcome Statement :=
  match stmt with
  | Arithmetic_stmt op l r after =>
      let* (l', t) := check_prod l (int_type t) t in
      let* (r', t) := check_prod r (int_type t) t in
      let* (after', t) := check_cons after (int_type t) t in
      Ok (Arithmetic_stmt op l' r' after') t
  | Ifz_stmt condition if_zero if_other =>
      let* (condition', t) := check_prod condition (int_type t) t in
      let* (if_zero', t) := check_stmt if_zero t in
      let* (if_other', t) := check_stmt if_other t in
      Ok (Ifz_stmt condition' if_zero' if_other') t
  | Cut_stmt prod csm =>
      let '(cut_type, ctx') := ctx_fresh_type_variable (ctx t) in
      let t := set_ctx t ctx' in
      let* (prod', t) := check_prod prod cut_type t in
      let* (csm', t) := check_cons csm cut_type t in
      Ok (Cut_stmt prod' csm') t
  | Call_stmt definition_id name args coargs =>
      match definitions t !! definition_id with
      | None => Throw Std_out_of_range t
      | Some definition =>
          let* (instance, t) :=
            abstraction_instance fuel (abstraction_id definition) t in
          match Types.type instance with
          | Some _ => Undefined
          | None =>
              if negb (Nat.eqb (length (Types.args instance)) (length args)) ||
                 negb (Nat.eqb (length (Types.coargs instance))
                               (length coargs))
              then Undefined
              else
                let* (args', t) :=
                  (fix go (xs : list Producer) (formals : list nat)
                       (t : Typer) : typer_outcome (list Producer) :=
                     match formals, xs with
                     | [], _ => Ok xs t
                     | _ :: _, [] => Undefined
                     | formal :: formals', x :: xs' =>
                         let* (x', t) := check_prod x formal t in
                         let* (xs'', t) := go xs' formals' t in
                         Ok (x' :: xs'') t
                     end) args (Types.args instance) t in
                let* (coargs', t) :=
                  (fix go (xs : list Consumer) (formals : list nat)
                       (t : Typer) : typer_outcome (list Consumer) :=
                     match formals, xs with
                     | [], _ => Ok xs t
                     | _ :: _, [] => Undefined
                     | formal :: formals', x :: xs' =>
                         let* (x', t) := check_cons x formal t in
                         let* (xs'', t) := go xs' formals' t in
                         Ok (x' :: xs'') t
                     end) coargs (Types.coargs instance) t in
                Ok (Call_stmt definition_id name args' coargs') t
          end
      end
  end
with check_clause (clause : Clause) (type : Strong_type_handle) (t : Typer)
         {struct clause} : typer_outcome Clause :=
  match clause with
  | mkClause id name arg_names coarg_names arg_ids coarg_ids body =>
      let* (_, t) := fresh_vars arg_ids t in
      let* (_, t) := fresh_covars coarg_ids t in
      match instantiate fuel id (ctx t) with
      | Ok instance ctx' =>
          let t := set_ctx t ctx' in
          match Types.type instance with
          | None => Undefined
          | Some instance_type =>
              if negb (Nat.eqb (length (Types.args instance))
                               (length arg_ids)) ||
                 negb (Nat.eqb (length (Types.coargs instance))
                               (length coarg_ids))
              then Undefined
              else
                let* (_, t) :=
                  try_unify fuel type instance_type (Clause_ptr clause) t in
                let* (_, t) :=
                  unify_bound fuel var_type arg_ids (Types.args instance)
                              (Clause_ptr clause) t in
                let* (_, t) :=
                  unify_bound fuel covar_type coarg_ids
                              (Types.coargs instance) (Clause_ptr clause) t in
                let* (body', t) := check_stmt body t in
                Ok (mkClause id name arg_names coarg_names arg_ids coarg_ids
                             body') t
          end
      | Throw _ _ | Undefined => Undefined
      | OutOfFuel => OutOfFuel
      end
  end.

(** [void Typer::check(Definition& definition)].  An exception leaves
    [current_definition] set. *)
Definition check_definition (definition : Definition_) (t : Typer)
  : typer_outcome Definition_ :=
  let* (_, t) := fresh_vars (arg_ids definition) t in
  let* (_, t) := fresh_covars (coarg_ids definition) t in
  match get_abstraction (ctx t) (abstraction_id definition) with
  | None => Undefined
  | Some abstraction =>
      let t := set_current_definition t (Some (abstraction_id definition)) in
      if match Types.type abstraction with Some _ => true | None => false end
         || negb (Nat.eqb (length (Types.args abstraction))
                          (length (arg_ids definition)))
         || negb (Nat.eqb (length (Types.coargs abstraction))
                          (length (coarg_ids definition)))
      then Undefined
      else
        let* (_, t) :=
          unify_bound fuel var_type (arg_ids definition)
                      (Types.args abstraction) (Definition_ptr definition) t in
        let* (_, t) :=
          unify_bound fuel covar_type (coarg_ids definition)
                      (Types.coargs abstraction) (Definition_ptr definition)
                      t in
        let* (body', t) := check_stmt (body definition) t in
        Ok (mkDefinition (abstraction_id definition)
                         (definition_name definition) (arg_names definition)
                         (coarg_names definition) (arg_ids definition)
                         (coarg_ids definition) body')
           (set_current_definition t None)
  end.
End check.

(** The two loops of [type_program]: every definition and every statement is
    checked, the [Single_typing_exception]s are collected, and the element
    whose check threw is left as the check found it (the annotations that
    the check wrote are not read again). *)
Fixpoint check_definitions (fuel : nat) (defs : list Definition_)
         (errors : list Typing_exception) (t : Typer)
  : typer_outcome (list Definition_ * list Typing_exception) :=
  match defs with
  | [] => Ok ([], errors) t
  | d :: rest =>
      match check_definition fuel d t with
      | Ok d' t =>
          let* (r, t) := check_definitions fuel rest errors t in
          Ok (d' :: r.1, r.2) t
      | Throw (Single_typing_exception cause context) t =>
          let* (r, t) :=
            check_definitions fuel rest
              (errors ++ [Single_typing_exception cause context]) t in
          Ok (d :: r.1, r.2) t
      | Throw e t => Throw e t
      | Undefined => Undefined
      | OutOfFuel => OutOfFuel
      end
  end.

Fixpoint check_statements (fuel : nat) (stmts : list Statement)
         (errors : list Typing_exception) (t : Typer)
  : typer_outcome (list Statement * list Typing_exception) :=
  match stmts with
  | [] => Ok ([], errors) t
  | s :: rest =>
      match check_stmt fuel s t with
      | Ok s' t =>
          let* (r, t) := check_statements fuel rest errors t in
          Ok (s' :: r.1, r.2) t
      | Throw (Single_typing_exception cause context) t =>
          let* (r, t) :=
            check_statements fuel rest
              (errors ++ [Single_typing_exception cause context]) t in
          Ok (s :: r.1, r.2) t
      | Throw e t => Throw e t
      | Undefined => Undefined
      | OutOfFuel => OutOfFuel
      end
  end.

(** What [type_program] ends with: the annotated program, the
    [Multiple_typing_exception] with the errors it collected, or an exception
    that it does not catch. *)
Inductive type_program_result : Type :=
| Typed (program : Program) (ctx : Typing_context)
| Multiple_typing_exception (errors : list Typing_exception)
                            (ctx : Typing_context)
| Uncaught (e : Typing_exception).

(** [void type_program(Program& program, Typing_context& ctx)]. *)
Definition type_program (fuel : nat) (program : Program) (ctx : Typing_context)
  : option type_program_result :=
  match new_Typer ctx (AST.definitions program) with
  | None => None
  | Some typer =>
      match check_definitions fuel (AST.definitions program) [] typer with
      | Ok (defs, errors) typer =>
          match check_statements fuel (AST.statements program) errors typer with
          | Ok (stmts, errors) typer =>
              match errors with
              | [] => Some (Typed (mkProgram defs stmts) (Typer.ctx typer))
              | _ => Some (Multiple_typing_exception errors (Typer.ctx typer))
              end
          | Throw e _ => Some (Uncaught e)
          | _ => None
          end
      | Throw e _ => Some (Uncaught e)
      | _ => None
      end
  end.

End Typer.

(* ===================================================================== *)
(** * Lammm: the entry point (Lammm.cpp) *)
(* ===================================================================== *)

Module Lammm.
Import Types AST.

(** How the process ends: [main] returns an exit code, or an exception that
    is not derived from [lammm::Exception] leaves [main] and the process is
    terminated. *)
Inductive exit_status : Type :=
| Exit (code : nat)
| Terminate.

(** [int main(int argc, char** argv)], on the text of the standard input; what
    it prints is not modelled.  The exit status comes with the results of
    [interpreter.run()], which [main] drops.  [None]: the model has no result
    (the fuel is used up, or the behaviour is not defined). *)
Definition main (fuel : nat) (input : string)
  : option (exit_status * list Producer) :=
  match default_typing_context with
  | None => None
  | Some ctx =>
      let parser := Parser.new_Parser ctx in
      match Parser.parse_program fuel (parser, Parser.istream_of input) with
      | Throw e _ =>
          if Parser.is_parse_exception e then Some (Exit 1, [])
          else Some (Terminate, [])
      | Ok program (parser, _) =>
          match Typer.type_program fuel program (Parser.ctx parser) with
          | Some (Typer.Multiple_typing_exception _ _) => Some (Exit 2, [])
          | Some (Typer.Uncaught _) => Some (Terminate, [])
          | Some (Typer.Typed program _) =>
              let interpreter :=
                Interpreter.new_Interpreter (Parser.n_vars_ parser)
                                            (Parser.n_covars_ parser) program in
              match Interpreter.run fuel interpreter with
              | Ok results _ => Some (Exit 0, results)
              | Throw Interpreter.Std_out_of_range _ => Some (Terminate, [])
              | Throw _ _ => Some (Exit 3, [])
              | _ => None
              end
          | None => None
          end
      | _ => None
      end
  end.

End Lammm.

(* ===================================================================== *)
(** * The type store as a union-find structure *)
(* ===================================================================== *)

Module TypeStore.
Import Types.

(** ** Fuel *)

(** A property of the fuel that holds from some amount on. *)
Definition eventually (P : nat → Prop) : Prop := ∃ f0, ∀ f, f0 ≤ f → P f.

Lemma eventually_always (P : nat → Prop) : (∀ f, P f) → eventually P.
Proof. intros H. exists 0. auto. Qed.

Lemma eventually_mono (P Q : nat → Prop) :
  (∀ f, P f → Q f) → eventually P → eventually Q.
Proof. intros H [f0 H0]. exists f0. auto. Qed.

Lemma eventually_and (P Q : nat → Prop) :
  eventually P → eventually Q → eventually (fun f => P f ∧ Q f).
Proof.
  intros [f0 H0] [f1 H1]. exists (f0 `max` f1).
  intros f Hf. split; [apply H0 | apply H1]; lia.
Qed.

Lemma eventually_S (P : nat → Prop) :
  eventually (fun f => P (S f)) → eventually P.
Proof.
  intros [f0 H0]. exists (S f0). intros [|f] Hf; [lia|]. apply H0. lia.
Qed.

Lemma eventually_ex (P : nat → Prop) : eventually P → ∃ f, P f.
Proof. intros [f0 H0]. exists f0. auto. Qed.

(** ** Representatives *)

(** [Find s h r]: the chain of forwarding links that starts at [h] ends at
    the slot [r], which holds a variable or a concrete type. *)
Inductive Find (s : store) : Type_handle → Type_handle → Prop :=
| Find_here h ti :
    s !! h = Some ti → is_forwarded ti = false → Find s h h
| Find_step h t r :
    s !! h = Some (Forwarded t) → Find s t r → Find s h r.

Lemma Find_det s h r1 r2 : Find s h r1 → Find s h r2 → r1 = r2.
Proof.
  intros H1. revert r2. induction H1 as [h ti Hh Hti|h t r Hh _ IH];
    intros r2 H2; inversion H2; subst; simplify_eq; try done.
  by apply IH.
Qed.

Lemma Find_rep s h r :
  Find s h r → ∃ ti, s !! r = Some ti ∧ is_forwarded ti = false.
Proof. induction 1; eauto. Qed.

Lemma Find_rep_self s h r : Find s h r → Find s r r.
Proof. intros H. destruct (Find_rep _ _ _ H) as (ti & ? & ?). by econstructor. Qed.

Lemma Find_lt s h r : Find s h r → h < length s.
Proof. inversion 1; subst; by eapply lookup_lt_Some. Qed.

Lemma Find_rep_lt s h r : Find s h r → r < length s.
Proof. intros H. eapply Find_lt, Find_rep_self, H. Qed.

Lemma Find_nonfwd s h ti r :
  s !! h = Some ti → is_forwarded ti = false → Find s h r → r = h.
Proof.
  intros Hh Hti H. eapply Find_det; [exact H|]. by econstructor.
Qed.

(** ** Path compression *)

(** [compress s s']: every slot of [s'] is the slot of [s], or is a
    forwarding link of [s] replaced by a direct link to its representative. *)
Definition compress (s s' : store) : Prop :=
  length s' = length s ∧
  ∀ h, s' !! h = s !! h ∨
       ∃ t r, s !! h = Some (Forwarded t) ∧ Find s h r ∧
              s' !! h = Some (Forwarded r).

Lemma compress_refl s : compress s s.
Proof. split; auto. Qed.

Lemma compress_nonfwd s s' h ti :
  compress s s' → is_forwarded ti = false →
  s !! h = Some ti ↔ s' !! h = Some ti.
Proof.
  intros [_ H] Hti. destruct (H h) as [Heq|(t & r & Hs & _ & Hs')].
  - by rewrite Heq.
  - split; intros Hh; rewrite Hh in *; simplify_eq; done.
Qed.

Lemma compress_Find s s' h r : compress s s' → Find s h r ↔ Find s' h r.
Proof.
  intros Hc. split.
  - induction 1 as [h ti Hh Hti|h t r Hh Hf IH].
    + econstructor; [|exact Hti]. by apply (compress_nonfwd s s').
    + destruct Hc as [_ Hc]. destruct (Hc h) as [Heq|(t' & r' & Hs & Hf' & Hs')].
      * eapply Find_step; [|exact IH]. by rewrite Heq.
      * assert (r' = r) as -> by (eapply Find_det; [exact Hf'|eapply Find_step; [exact Hh|exact Hf]]).
        eapply Find_step; [exact Hs'|]. eapply Find_rep_self, IH.
  - induction 1 as [h ti Hh Hti|h t r Hh Hf IH].
    + econstructor; [|exact Hti]. by apply (compress_nonfwd s s').
    + destruct Hc as [_ Hc]. destruct (Hc h) as [Heq|(t' & r' & Hs & Hf' & Hs')].
      * eapply Find_step; [|exact IH]. by rewrite <- Heq.
      * rewrite Hs' in Hh. simplify_eq.
        assert (r = t) as ->; [|done].
        destruct (Find_rep _ _ _ Hf') as (ti & ? & ?).
        eapply Find_nonfwd; eauto.
Qed.

Lemma compress_trans s1 s2 s3 : compress s1 s2 → compress s2 s3 → compress s1 s3.
Proof.
  intros H12 H23. pose proof H12 as [L12 C12]. pose proof H23 as [L23 C23].
  split; [congruence|]. intros h.
  destruct (C23 h) as [Heq|(t & r & Hs & Hf & Hs')].
  - rewrite Heq. apply C12.
  - right. apply (compress_Find s1 s2) in Hf; [|done].
    destruct (C12 h) as [Heq|(t' & r' & Hs1 & Hf1 & Hs1')].
    + rewrite Heq in Hs. eauto.
    + eauto.
Qed.

Lemma compress_insert s h t r :
  s !! h = Some (Forwarded t) → Find s h r →
  compress s (<[h := Forwarded r]> s).
Proof.
  intros Hh Hf. split; [by rewrite length_insert|].
  intros h'. destruct (decide (h = h')) as [<-|Hne].
  - right. exists t, r. split_and!; try done.
    apply list_lookup_insert_eq. by eapply lookup_lt_Some.
  - left. by apply list_lookup_insert_ne.
Qed.

(** The handles that [follow_chain] pushes are forwarding slots with the
    representative it returns. *)
Definition on_chain (s : store) (r : Type_handle) (x : Type_handle) : Prop :=
  (∃ t, s !! x = Some (Forwarded t)) ∧ Find s x r.

Lemma follow_chain_spec f s h chain r chain' ti :
  follow_chain f s h chain = Some (r, chain') →
  s !! r = Some ti →
  is_forwarded ti = false ∧ Find s h r ∧
  ∃ path, chain' = chain ++ path ∧ Forall (on_chain s r) path.
Proof.
  revert h chain. induction f as [|f IH]; intros h chain Hf Hr; [done|].
  simpl in Hf. destruct (s !! h) as [[i|tid ps|t]|] eqn:Hh.
  - simplify_eq. split_and!; [done|by econstructor|].
    exists []. by rewrite app_nil_r.
  - simplify_eq. split_and!; [done|by econstructor|].
    exists []. by rewrite app_nil_r.
  - destruct (IH _ _ Hf Hr) as (Hti & Hfind & path & -> & Hpath).
    split_and!; [done|by eapply Find_step|].
    exists (h :: path). split; [by rewrite <- app_assoc|].
    constructor; [|done]. split; [eauto|by eapply Find_step].
  - simplify_eq.
Qed.

Lemma compress_chain_spec s s0 r path :
  compress s s0 → Forall (on_chain s r) path →
  compress s (compress_chain s0 path r).
Proof.
  intros Hc Hp. revert s0 Hc. induction Hp as [|x path [[t Hx] Hf] _ IH];
    intros s0 Hc; [done|].
  simpl. apply IH. eapply compress_trans; [exact Hc|].
  pose proof Hc as [_ Hc']. destruct (Hc' x) as [Heq|(t' & r' & Hs & Hf' & Hs')].
  - eapply compress_insert; [by rewrite Heq|]. by apply (compress_Find s s0).
  - eapply compress_insert; [exact Hs'|]. by apply (compress_Find s s0).
Qed.

Lemma Forall_removelast {A} (P : A → Prop) (l : list A) :
  Forall P l → Forall P (removelast l).
Proof.
  induction 1 as [|x l Hx Hl IH]; [done|]. simpl.
  destruct l; [constructor|]. by constructor.
Qed.

(** What a call of [try_dereference] that returns has done. *)
Lemma try_dereference_spec f s h (m : store_outcome Type_handle) :
  try_dereference f s h = m → returns m →
  ∃ r s', m = Ok r s' ∧ Find s h r ∧ compress s s'.
Proof.
  unfold try_dereference. intros <- Hret.
  destruct (s !! h) as [[i|tid ps|t]|] eqn:Hh; try done.
  - exists h, s. split_and!; [done|by econstructor|apply compress_refl].
  - exists h, s. split_and!; [done|by econstructor|apply compress_refl].
  - destruct (follow_chain f s h []) as [[r chain]|] eqn:Hf; [|done].
    destruct (s !! r) as [ti|] eqn:Hr; [|done].
    destruct (follow_chain_spec _ _ _ _ _ _ _ Hf Hr) as (_ & Hfind & path & -> & Hp).
    eexists _, _. split_and!; [done|done|].
    apply compress_chain_spec; [apply compress_refl|].
    by apply Forall_removelast.
Qed.

Lemma try_dereference_cases f s h :
  match try_dereference f s h with
  | Ok r s' => Find s h r ∧ compress s s'
  | Throw _ _ => False
  | _ => True
  end.
Proof.
  pose proof (try_dereference_spec f s h _ eq_refl) as H.
  destruct (try_dereference f s h); try done.
  - destruct H as (? & ? & ? & ? & ?); [done|]. by simplify_eq.
  - by destruct H as (? & ? & ? & ? & ?).
Qed.

Lemma follow_chain_fuel s h r chain :
  Find s h r →
  eventually (fun f => ∃ chain', follow_chain f s h chain = Some (r, chain')).
Proof.
  intros H. revert chain. induction H as [h ti Hh Hti|h t r Hh _ IH]; intros chain.
  - exists 1. intros [|f] Hf; [lia|]. simpl. rewrite Hh.
    destruct ti; try done; eauto.
  - apply eventually_S. eapply eventually_mono; [|apply (IH (chain ++ [h]))].
    intros f [chain' Hf]. simpl. rewrite Hh. eauto.
Qed.

(** A handle with a representative is dereferenced with enough fuel. *)
Lemma try_dereference_fuel s h r :
  Find s h r →
  ∃ s', compress s s' ∧ eventually (fun f => try_dereference f s h = Ok r s').
Proof.
  intros H. destruct (follow_chain_fuel s h r [] H) as [f0 Hf0].
  destruct (Hf0 f0 (le_n _)) as [chain0 Hchain0].
  assert (∃ s', try_dereference f0 s h = Ok r s') as [s' Hs'].
  { unfold try_dereference. inversion H as [? ti Hh Hti|? t ? Hh Hrest]; subst.
    - rewrite Hh. destruct ti; try done; eauto.
    - rewrite Hh, Hchain0. destruct (Find_rep _ _ _ H) as (ti & -> & _). eauto. }
  exists s'. split.
  - destruct (try_dereference_spec _ _ _ _ Hs' I) as (? & ? & ? & ? & ?).
    by simplify_eq.
  - exists f0. intros f Hf. destruct (Hf0 f Hf) as [chain Hchain].
    revert Hs'. unfold try_dereference.
    destruct (s !! h) as [[i|tid ps|t]|]; try done.
    rewrite Hchain0, Hchain. destruct (s !! r); [|done].
    assert (chain = chain0) as ->; [|done].
    clear -Hchain Hchain0 Hf. revert Hchain Hchain0.
    generalize (@nil Type_handle). revert h f Hf.
    induction f0 as [|f0 IH]; intros h f Hf l Hc Hc0; [done|].
    destruct f as [|f]; [lia|]. simpl in *.
    destruct (s !! h) as [[i|tid ps|t]|]; simplify_eq; try done.
    eapply (IH t f); [lia|done..].
Qed.


(** ** The invariant of the type store *)

(** [child s y x]: [y] is a parameter of the concrete type that [x] stands
    for. *)
Definition child (s : store) (y x : Type_handle) : Prop :=
  ∃ r tid ps, Find s x r ∧ s !! r = Some (Concrete_type tid ps) ∧ y ∈ ps.

(** [occ s a x]: the slot [a] is reached from [x] through forwarding links and
    parameters. *)
Inductive occ (s : store) (a : Type_handle) : Type_handle → Prop :=
| occ_here x : Find s x a → occ s a x
| occ_child x y : child s y x → occ s a y → occ s a x.

(** A well-formed store: parameters are handles of the store, every chain of
    forwarding links ends (the forwarding graph has no cycle), no type
    contains itself, and the instances of one type constructor have the same
    number of parameters. *)
Record store_ok (s : store) : Prop := mk_store_ok {
  ok_closed : ∀ h tid ps,
    s !! h = Some (Concrete_type tid ps) → Forall (fun p => p < length s) ps;
  ok_find : ∀ h, h < length s → ∃ r, Find s h r;
  ok_wf : ∀ x, Acc (child s) x;
  ok_kinded : ∀ h1 h2 tid ps qs,
    s !! h1 = Some (Concrete_type tid ps) →
    s !! h2 = Some (Concrete_type tid qs) → length ps = length qs;
}.

Lemma Acc_iff {A} (R R' : A → A → Prop) x :
  (∀ x y, R' x y → R x y) → Acc R x → Acc R' x.
Proof.
  intros HR. induction 1 as [x _ IH]. constructor. intros y Hy. by apply IH, HR.
Qed.

Lemma compress_concrete s s' h tid ps :
  compress s s' →
  s !! h = Some (Concrete_type tid ps) ↔ s' !! h = Some (Concrete_type tid ps).
Proof. intros Hc. by apply compress_nonfwd. Qed.

Lemma compress_child s s' y x : compress s s' → child s y x ↔ child s' y x.
Proof.
  intros Hc. unfold child. split; intros (r & tid & ps & Hf & Hr & Hy);
    exists r, tid, ps; split_and!; try done.
  - by apply (compress_Find s s').
  - by apply (compress_concrete s s').
  - by apply (compress_Find s s').
  - by apply (compress_concrete s s').
Qed.

Lemma compress_occ s s' a x : compress s s' → occ s a x ↔ occ s' a x.
Proof.
  intros Hc. split; induction 1 as [x Hf|x y Hch _ IH].
  - apply occ_here. by apply (compress_Find s s').
  - eapply occ_child; [|exact IH]. by apply (compress_child s s').
  - apply occ_here. by apply (compress_Find s s').
  - eapply occ_child; [|exact IH]. by apply (compress_child s s').
Qed.

Lemma compress_ok s s' : compress s s' → store_ok s → store_ok s'.
Proof.
  intros Hc [Hcl Hfi Hwf Hki]. pose proof Hc as [Hlen _]. split.
  - intros h tid ps Hh. rewrite Hlen. eapply Hcl.
    by apply (compress_concrete s s').
  - intros h Hh. destruct (Hfi h) as [r Hr]; [lia|].
    exists r. by apply (compress_Find s s').
  - intros x. eapply Acc_iff; [|apply Hwf].
    intros ??. by apply compress_child.
  - intros h1 h2 tid ps qs H1 H2.
    eapply Hki; by apply (compress_concrete s s').
Qed.

(** ** Binding a variable *)

Section bind.
Context (s : store) (a b : Type_handle) (i : Z).
Context (Ha : s !! a = Some (Type_var i)).
Context (Hb : Find s b b).
Context (Hab : a ≠ b).

Let s' : store := <[a := Forwarded b]> s.

Lemma bind_lookup_a : s' !! a = Some (Forwarded b).
Proof. apply list_lookup_insert_eq. by eapply lookup_lt_Some. Qed.

Lemma bind_lookup_ne h : h ≠ a → s' !! h = s !! h.
Proof. intros. by apply list_lookup_insert_ne. Qed.

Lemma bind_length : length s' = length s.
Proof. apply length_insert. Qed.

Lemma bind_Find_b : Find s' b b.
Proof.
  inversion Hb as [? ti Hti Hnf|? t ? Hfw Hrest]; subst.
  - econstructor; [|exact Hnf]. by rewrite bind_lookup_ne.
  - destruct (Find_rep _ _ _ Hb) as (ti & ? & ?). simplify_eq.
Qed.

Lemma bind_Find x r :
  Find s x r → Find s' x (if decide (r = a) then b else r).
Proof.
  induction 1 as [h ti Hh Hti|h t r Hh _ IH].
  - destruct (decide (h = a)) as [->|Hne].
    + eapply Find_step; [apply bind_lookup_a|apply bind_Find_b].
    + econstructor; [|exact Hti]. by rewrite bind_lookup_ne.
  - eapply Find_step; [|exact IH]. rewrite bind_lookup_ne; [done|].
    intros ->. simplify_eq.
Qed.

Lemma bind_concrete h tid ps :
  s' !! h = Some (Concrete_type tid ps) ↔ s !! h = Some (Concrete_type tid ps).
Proof.
  destruct (decide (h = a)) as [->|Hne].
  - rewrite bind_lookup_a, Ha. split; intros; simplify_eq.
  - by rewrite bind_lookup_ne.
Qed.

Context (Hok : store_ok s).

Lemma bind_Find_inv x r' :
  Find s' x r' → ∃ r, Find s x r ∧ r' = (if decide (r = a) then b else r).
Proof.
  intros Hf. destruct (ok_find s Hok x) as [r Hr].
  { rewrite <- bind_length. by eapply Find_lt. }
  exists r. split; [done|]. eapply Find_det; [exact Hf|]. by apply bind_Find.
Qed.

Lemma bind_child y x :
  child s' y x →
  (child s y x ∧ ¬ Find s x a) ∨ (Find s x a ∧ child s y b).
Proof.
  intros (r' & tid & ps & Hf & Hr & Hy).
  apply bind_Find_inv in Hf as (r & Hf & ->). apply bind_concrete in Hr.
  destruct (decide (r = a)) as [->|Hne].
  - right. split; [done|]. by exists b, tid, ps.
  - left. split; [by exists r, tid, ps|].
    intros Hf'. apply Hne. by eapply Find_det.
Qed.

Lemma child_bind y x : child s y x → child s' y x.
Proof.
  intros (r & tid & ps & Hf & Hr & Hy). exists r, tid, ps.
  split_and!; [|by apply bind_concrete|done].
  apply bind_Find in Hf. destruct (decide (r = a)) as [->|]; [|done].
  simplify_eq.
Qed.

Context (Hocc : ¬ occ s a b).

Lemma bind_wf_clean x : ¬ occ s a x → Acc (child s') x.
Proof.
  induction (ok_wf s Hok x) as [x _ IH]. intros Hx.
  constructor. intros y Hy. apply bind_child in Hy as [[Hy Hxa]|[Hxa _]].
  - apply IH; [done|]. intros Hoy. apply Hx. by eapply occ_child.
  - destruct Hx. by apply occ_here.
Qed.

Lemma bind_wf x : Acc (child s') x.
Proof.
  induction (ok_wf s Hok x) as [x _ IH].
  constructor. intros y Hy. apply bind_child in Hy as [[Hy Hxa]|[Hxa Hy]].
  - by apply IH.
  - apply child_bind in Hy. eapply Acc_inv; [|exact Hy].
    by apply bind_wf_clean.
Qed.

Lemma bind_ok : store_ok s'.
Proof.
  split.
  - intros h tid ps Hh. rewrite bind_length. eapply (ok_closed s Hok).
    by apply bind_concrete.
  - intros h Hh. rewrite bind_length in Hh.
    destruct (ok_find s Hok h Hh) as [r Hr]. eexists. by apply bind_Find.
  - apply bind_wf.
  - intros h1 h2 tid ps qs H1 H2.
    eapply (ok_kinded s Hok); by apply bind_concrete.
Qed.
End bind.

(** ** Counting the unbound variables *)

Definition var_weight (t : Type_instance) : nat :=
  if is_type_var t then 1 else 0.

Definition nvars (s : store) : nat := sum_list (var_weight <$> s).

Lemma compress_nvars s s' : compress s s' → nvars s' = nvars s.
Proof.
  intros [Hlen Hc]. unfold nvars. f_equal. apply list_eq. intros h.
  rewrite !list_lookup_fmap.
  destruct (Hc h) as [->|(t & r & -> & _ & ->)]; done.
Qed.

Lemma sum_list_insert_lt (l : list nat) (h : nat) :
  l !! h = Some 1 → S (sum_list (<[h := 0]> l)) = sum_list l.
Proof.
  revert h. induction l as [|n l IH]; intros [|h] Hh; simplify_eq/=; [done|].
  rewrite <- (IH h Hh). lia.
Qed.

Lemma bind_nvars s a b i :
  s !! a = Some (Type_var i) → S (nvars (<[a := Forwarded b]> s)) = nvars s.
Proof.
  intros Ha. unfold nvars. rewrite list_fmap_insert. simpl.
  apply sum_list_insert_lt. by rewrite list_lookup_fmap, Ha.
Qed.

(** ** What unification does to a store *)

(** [ext s s']: [s'] comes from [s] by path compressions and by bindings of a
    variable to a type it does not occur in. *)
Inductive ext : store → store → Prop :=
| ext_refl s : ext s s
| ext_compress s s1 s2 : compress s s1 → ext s1 s2 → ext s s2
| ext_bind s a b i s2 :
    s !! a = Some (Type_var i) → Find s b b → a ≠ b → ¬ occ s a b →
    ext (<[a := Forwarded b]> s) s2 → ext s s2.

Lemma ext_trans s1 s2 s3 : ext s1 s2 → ext s2 s3 → ext s1 s3.
Proof.
  induction 1; intros; [done|..].
  - eapply ext_compress; eauto.
  - eapply ext_bind; eauto.
Qed.

Lemma ext_of_compress s s' : compress s s' → ext s s'.
Proof. intros. eapply ext_compress; [done|apply ext_refl]. Qed.

Lemma ext_ok s s' : ext s s' → store_ok s → store_ok s'.
Proof.
  induction 1 as [|s s1 s2 Hc _ IH|s a b i s2 Ha Hb Hab Hocc _ IH]; intros Hok.
  - done.
  - by eapply IH, compress_ok.
  - by eapply IH, bind_ok.
Qed.

Lemma ext_length s s' : ext s s' → length s' = length s.
Proof.
  induction 1 as [|s s1 s2 [Hl _] _ IH|s a b i s2 Ha Hb Hab Hocc _ IH].
  - done.
  - congruence.
  - by rewrite IH, length_insert.
Qed.

Lemma ext_nvars s s' :
  ext s s' → (compress s s' ∧ nvars s' = nvars s) ∨ nvars s' < nvars s.
Proof.
  induction 1 as [|s s1 s2 Hc _ IH|s a b i s2 Ha Hb Hab Hocc _ IH].
  - left. split; [apply compress_refl|done].
  - pose proof (compress_nvars _ _ Hc). destruct IH as [[Hc' Hn]|Hn].
    + left. split; [by eapply compress_trans|congruence].
    + right. lia.
  - pose proof (bind_nvars s a b i Ha). right.
    destruct IH as [[_ Hn]|Hn]; lia.
Qed.

Lemma ext_concrete s s' h tid ps :
  ext s s' → s !! h = Some (Concrete_type tid ps) →
  s' !! h = Some (Concrete_type tid ps).
Proof.
  induction 1 as [|s s1 s2 Hc _ IH|s a b i s2 Ha Hb Hab Hocc _ IH]; intros Hh.
  - done.
  - by apply IH, (compress_concrete s s1).
  - by eapply IH, bind_concrete.
Qed.

Lemma ext_Find_concrete s s' x r tid ps :
  ext s s' → Find s x r → s !! r = Some (Concrete_type tid ps) → Find s' x r.
Proof.
  induction 1 as [|s s1 s2 Hc _ IH|s a b i s2 Ha Hb Hab Hocc _ IH];
    intros Hf Hr.
  - done.
  - apply IH; [by apply (compress_Find s s1)|by apply (compress_concrete s s1)].
  - apply IH; [|by eapply bind_concrete].
    eapply (bind_Find s a b i) in Hf; try done.
    destruct (decide (r = a)) as [->|]; [simplify_eq|done].
Qed.

(** ** Equal types *)

(** [eqv s x y]: the handles [x] and [y] stand for the same type, either
    because they have the same representative or because they are instances of
    one type constructor at pairwise equal parameters. *)
Inductive eqv (s : store) : Type_handle → Type_handle → Prop :=
| eqv_same x y r : Find s x r → Find s y r → eqv s x y
| eqv_conc x y rx ry tid ps qs :
    Find s x rx → Find s y ry →
    s !! rx = Some (Concrete_type tid ps) →
    s !! ry = Some (Concrete_type tid qs) →
    eqvs s ps qs → eqv s x y
with eqvs (s : store) : list Type_handle → list Type_handle → Prop :=
| eqvs_nil : eqvs s [] []
| eqvs_cons p q ps qs : eqv s p q → eqvs s ps qs → eqvs s (p :: ps) (q :: qs).

Scheme eqv_mut := Minimality for eqv Sort Prop
  with eqvs_mut := Minimality for eqvs Sort Prop.
Combined Scheme eqv_eqvs_ind from eqv_mut, eqvs_mut.

Lemma compress_eqv s s' :
  compress s s' →
  (∀ x y, eqv s x y → eqv s' x y) ∧ (∀ ps qs, eqvs s ps qs → eqvs s' ps qs).
Proof.
  intros Hc. apply eqv_eqvs_ind.
  - intros x y r Hx Hy. eapply eqv_same; by apply (compress_Find s s').
  - intros x y rx ry tid ps qs Hx Hy Hrx Hry _ IH.
    eapply eqv_conc; [by apply (compress_Find s s')..| | |exact IH];
      by apply (compress_concrete s s').
  - constructor.
  - intros. by constructor.
Qed.

Lemma bind_eqv s a b i :
  s !! a = Some (Type_var i) → Find s b b → a ≠ b →
  (∀ x y, eqv s x y → eqv (<[a := Forwarded b]> s) x y) ∧
  (∀ ps qs, eqvs s ps qs → eqvs (<[a := Forwarded b]> s) ps qs).
Proof.
  intros Ha Hb Hab. apply eqv_eqvs_ind.
  - intros x y r Hx Hy. eapply eqv_same; by eapply bind_Find.
  - intros x y rx ry tid ps qs Hx Hy Hrx Hry _ IH.
    eapply (bind_Find s a b i) in Hx, Hy; try done.
    destruct (decide (rx = a)) as [->|]; [simplify_eq|].
    destruct (decide (ry = a)) as [->|]; [simplify_eq|].
    eapply eqv_conc; [exact Hx|exact Hy| | |exact IH]; by eapply bind_concrete.
  - constructor.
  - intros. by constructor.
Qed.

Lemma ext_eqv s s' :
  ext s s' →
  (∀ x y, eqv s x y → eqv s' x y) ∧ (∀ ps qs, eqvs s ps qs → eqvs s' ps qs).
Proof.
  induction 1 as [|s s1 s2 Hc _ [IH1 IH2]|s a b i s2 Ha Hb Hab Hocc _ [IH1 IH2]].
  - done.
  - destruct (compress_eqv _ _ Hc). split; eauto.
  - destruct (bind_eqv s a b i Ha Hb Hab). split; eauto.
Qed.

Lemma eqvs_length s ps qs : eqvs s ps qs → length ps = length qs.
Proof. induction 1; simpl; congruence. Qed.


(** ** The occurs check *)

(** What a call of [occurs] that returns has done: it compressed paths, and
    the answer [false] means that [a] is not reached from [b]. *)
Definition occurs_post (s : store) (a b : Type_handle) (m : store_outcome bool)
  : Prop :=
  match m with
  | Ok r s' => compress s s' ∧ (r = false → ¬ occ s a b)
  | _ => False
  end.

Lemma occurs_params_spec
      (rec : store → Type_handle → store_outcome bool) (a : Type_handle) i :
  (∀ s p, s !! a = Some (Type_var i) → returns (rec s p) →
          occurs_post s a p (rec s p)) →
  ∀ ps s, s !! a = Some (Type_var i) → returns (occurs_params rec a ps s) →
    match occurs_params rec a ps s with
    | Ok r s' => compress s s' ∧ (r = false → Forall (fun p => ¬ occ s a p) ps)
    | _ => False
    end.
Proof.
  intros Hrec. induction ps as [|p ps IH]; intros s Ha; simpl.
  - intros _. split; [apply compress_refl|]. by constructor.
  - destruct (Nat.eqb p a); [intros _; split; [apply compress_refl|done]|].
    specialize (Hrec s p Ha).
    destruct (rec s p) as [found s1| | |]; simpl; try done.
    destruct Hrec as [Hc Hf]; [done|].
    destruct found; [intros _; split; [done|done]|].
    intros Hret.
    assert (s1 !! a = Some (Type_var i)) as Ha1
      by by apply (compress_nonfwd s s1).
    specialize (IH s1 Ha1 Hret).
    destruct (occurs_params rec a ps s1) as [r s2| | |]; try done.
    destruct IH as [Hc2 Hr]. split; [by eapply compress_trans|].
    intros ->. constructor; [by apply Hf|].
    eapply Forall_impl; [by apply Hr|]. simpl.
    intros q Hq Hocc. apply Hq. by apply (compress_occ s s1).
Qed.

Lemma occurs_spec f s a b i :
  s !! a = Some (Type_var i) → returns (occurs f s a b) →
  occurs_post s a b (occurs f s a b).
Proof.
  revert s b. induction f as [|f IH]; intros s b Ha; [done|]. simpl.
  rewrite Ha.
  pose proof (try_dereference_cases f s b) as Hd.
  destruct (try_dereference f s b) as [b' s1| | |]; simpl; try done.
  destruct Hd as [Hfb Hc].
  assert (s1 !! a = Some (Type_var i)) as Ha1
    by by apply (compress_nonfwd s s1).
  destruct (s1 !! b') as [[j|tid ps|t]|] eqn:Hb'; simpl; try done.
  - (* a variable *)
    intros _. split; [done|]. intros Hne%Nat.eqb_neq Hocc.
    apply (compress_nonfwd s s1) in Hb'; [|done..].
    inversion Hocc as [? Hf|? y (r & tid & ps & Hf & Hr & _) _]; subst.
    + apply Hne. by eapply Find_det.
    + assert (r = b') as -> by by eapply Find_det. simplify_eq.
  - (* a concrete type *)
    intros Hret.
    pose proof (occurs_params_spec (fun ts param => occurs f ts a param) a i
                  (fun s p => IH s p) ps s1 Ha1 Hret) as Hp.
    destruct (occurs_params _ a ps s1) as [r s2| | |]; try done.
    destruct Hp as [Hc2 Hr]. split; [by eapply compress_trans|].
    intros -> Hocc. specialize (Hr eq_refl).
    apply (compress_concrete s s1) in Hb'; [|done].
    inversion Hocc as [? Hf|? y (r & tid' & ps' & Hf & Hr' & Hy) Hoy]; subst.
    + assert (a = b') as -> by by eapply Find_det. simplify_eq.
    + assert (r = b') as -> by by eapply Find_det. simplify_eq.
      rewrite Forall_forall in Hr. eapply Hr; [exact Hy|].
      by apply (compress_occ s s1).
Qed.

(** ** Unification: what a call that returns has done *)

Definition unify_post (s : store) (a b : Type_handle) (m : store_outcome unit)
  : Prop :=
  match m with
  | Ok _ s' => ext s s' ∧ eqv s' a b
  | Throw _ s' => ext s s'
  | _ => False
  end.

Definition unify_params_post (s : store) (ps qs : list Type_handle)
           (m : store_outcome unit) : Prop :=
  match m with
  | Ok _ s' => ext s s' ∧ eqvs s' ps qs
  | Throw _ s' => ext s s'
  | _ => False
  end.

Lemma unify_params_spec
      (rec : store → Type_handle → Type_handle → store_outcome unit) :
  (∀ s a b, returns (rec s a b) → unify_post s a b (rec s a b)) →
  ∀ ps qs s, length ps = length qs →
    returns (unify_params rec ps qs s) →
    unify_params_post s ps qs (unify_params rec ps qs s).
Proof.
  intros Hrec. induction ps as [|p ps IH]; intros [|q qs] s Hlen;
    simplify_eq/=.
  - intros _. split; [apply ext_refl|constructor].
  - specialize (Hrec s p q).
    destruct (rec s p q) as [[] s1|e s1| |]; simpl; try done.
    + destruct Hrec as [He Hpq]; [done|]. intros Hret.
      specialize (IH qs s1 Hlen Hret).
      destruct (unify_params rec ps qs s1) as [[] s2|e s2| |]; simpl in *;
        try done.
      * destruct IH as [He2 Hrest]. split; [by eapply ext_trans|].
        constructor; [|done]. by apply (ext_eqv s1 s2).
      * by eapply ext_trans.
Qed.

(** The (var, _) case of [unify_rec]: the occurs check, and the binding of
    the variable when it passes. *)
Definition bind_var (f : nat) (types : store) (a b : Type_handle)
  : store_outcome unit :=
  let* (found, types) := occurs f types a b in
  if found : bool
  then Throw (mkUnification_exception occurs_kind a b) types
  else Ok tt (<[a := Forwarded b]> types).

Lemma bind_var_spec f s x y i :
  s !! x = Some (Type_var i) → Find s y y → x ≠ y →
  returns (bind_var f s x y) →
  match bind_var f s x y with
  | Ok _ s' => ext s s' ∧ ∀ h, Find s h x ∨ Find s h y → Find s' h y
  | Throw _ s' => ext s s'
  | _ => False
  end.
Proof.
  intros Hx Hy Hxy. unfold bind_var.
  pose proof (occurs_spec f s x y i Hx) as Ho.
  destruct (occurs f s x y) as [found s3| | |]; simpl; try done;
    [|by destruct (Ho I)].
  destruct Ho as [Hc3 Hno]; [done|].
  destruct found; simpl; intros _; [by apply ext_of_compress|].
  assert (s3 !! x = Some (Type_var i)) as Hx3
    by by apply (compress_nonfwd s s3).
  assert (Find s3 y y) as Hy3 by by apply (compress_Find s s3).
  assert (¬ occ s3 x y) as Hno3.
  { intros Ho. by apply Hno, (compress_occ s s3). }
  split.
  - eapply ext_compress; [exact Hc3|].
    eapply ext_bind; [exact Hx3|exact Hy3|exact Hxy|exact Hno3|apply ext_refl].
  - intros h [Hh|Hh]; apply (compress_Find s s3) in Hh; try done;
      eapply (bind_Find s3 x y i) in Hh; try done.
    + by rewrite decide_True in Hh.
    + by rewrite decide_False in Hh.
Qed.

Lemma unify_rec_spec f s a b :
  returns (unify_rec f s a b) → unify_post s a b (unify_rec f s a b).
Proof.
  revert s a b. induction f as [|f IH]; intros s a b; [done|]. simpl.
  pose proof (try_dereference_cases f s a) as Hda.
  destruct (try_dereference f s a) as [a' s1| | |]; simpl; try done.
  destruct Hda as [Hfa Hc1].
  pose proof (try_dereference_cases f s1 b) as Hdb.
  destruct (try_dereference f s1 b) as [b' s2| | |]; simpl; try done.
  destruct Hdb as [Hfb Hc2].
  assert (compress s s2) as Hc by by eapply compress_trans.
  apply (compress_Find s s2) in Hfa; [|done].
  assert (Find s b b') as Hfb0 by by apply (compress_Find s s1).
  apply (compress_Find s1 s2) in Hfb; [|done].
  pose proof (Find_rep_self _ _ _ Hfa) as Haa.
  pose proof (Find_rep_self _ _ _ Hfb) as Hbb.
  destruct (Nat.eqb_spec a' b') as [->|Hne].
  { intros _. split; [by apply ext_of_compress|by eapply eqv_same]. }
  assert (∀ x y i, s2 !! x = Some (Type_var i) → Find s2 y y → x ≠ y →
            Find s2 a x ∨ Find s2 a y → Find s2 b x ∨ Find s2 b y →
            returns (bind_var f s2 x y) → unify_post s a b (bind_var f s2 x y))
    as Hvar.
  { intros x y i Hx Hy Hxy Hax Hbx Hret.
    pose proof (bind_var_spec f s2 x y i Hx Hy Hxy Hret) as Hb.
    destruct (bind_var f s2 x y) as [[] s'|e s'| |]; simpl; try done.
    - destruct Hb as [He Hto]. split.
      + eapply ext_compress; [exact Hc|exact He].
      + eapply eqv_same; by apply Hto.
    - eapply ext_compress; [exact Hc|exact Hb]. }
  destruct (s2 !! b') as [[i|tidb psb|t]|] eqn:Hb'.
  - (* b is a variable: the two are swapped *)
    rewrite Hb'. apply (Hvar b' a' i); auto.
  - destruct (s2 !! a') as [[i|tida psa|t]|] eqn:Ha'; try done.
    + apply (Hvar a' b' i); auto.
    + rewrite Hb'.
      destruct (Nat.eqb_spec tida tidb) as [->|Htid]; simpl;
        [|intros _; by apply ext_of_compress].
      destruct (Nat.eqb_spec (length psa) (length psb)) as [Hlen|]; simpl;
        [|done].
      intros Hret.
      pose proof (unify_params_spec (unify_rec f) IH psa psb s2 Hlen Hret)
        as Hp.
      destruct (unify_params (unify_rec f) psa psb s2) as [[] s'|e s'| |];
        simpl in *; try done.
      * destruct Hp as [He Hps]. split; [by eapply ext_compress|].
        eapply eqv_conc; [| | | |exact Hps].
        -- eapply ext_Find_concrete; [exact He|exact Hfa|exact Ha'].
        -- eapply ext_Find_concrete; [exact He|exact Hfb|exact Hb'].
        -- by eapply ext_concrete.
        -- by eapply ext_concrete.
      * by eapply ext_compress.
  - destruct (Find_rep _ _ _ Hbb) as (ti & ? & ?). simplify_eq.
  - destruct (Find_rep _ _ _ Hbb) as (ti & ? & ?). simplify_eq.
Qed.


(** ** Unification: every call returns *)

Lemma occurs_params_fuel s a i ps :
  (∀ p, p ∈ ps → ∀ s1, compress s s1 →
     ∃ m, returns m ∧ eventually (fun f => occurs f s1 a p = m)) →
  ∀ s1, compress s s1 → s1 !! a = Some (Type_var i) →
    ∃ m, returns m ∧
         eventually (fun f =>
           occurs_params (fun ts p => occurs f ts a p) a ps s1 = m).
Proof.
  induction ps as [|p ps IH]; intros Hps s1 Hc Ha.
  - exists (Ok false s1). split; [done|]. by apply eventually_always.
  - simpl. destruct (Nat.eqb p a).
    { exists (Ok true s1). split; [done|]. by apply eventually_always. }
    destruct (Hps p (list_elem_of_here _ _) s1 Hc) as (mp & Hret & Hev).
    destruct (eventually_ex _ Hev) as [f0 Hf0].
    pose proof (occurs_spec f0 s1 a p i Ha) as Hspec. rewrite Hf0 in Hspec.
    destruct mp as [found s2| | |]; try done; [|by destruct (Hspec I)].
    destruct (Hspec I) as [Hc2 _]. destruct found.
    { exists (Ok true s2). split; [done|].
      eapply eventually_mono; [|exact Hev]. intros f ->. done. }
    destruct (IH (fun q Hq => Hps q (list_elem_of_further _ _ _ Hq)) s2)
      as (mr & Hretr & Hevr).
    { by eapply compress_trans. }
    { by apply (compress_nonfwd s1 s2). }
    exists mr. split; [done|].
    eapply eventually_mono; [|exact (eventually_and _ _ Hev Hevr)].
    intros f [-> Hr]. done.
Qed.

Lemma occurs_fuel s a i b :
  store_ok s → s !! a = Some (Type_var i) → b < length s →
  ∃ m, returns m ∧ eventually (fun f => occurs f s a b = m).
Proof.
  intros Hok Ha Hb.
  cut (∀ s1, compress s s1 →
         ∃ m, returns m ∧ eventually (fun f => occurs f s1 a b = m)).
  { intros H. apply H, compress_refl. }
  induction (ok_wf s Hok b) as [b _ IH]. intros s1 Hc.
  pose proof (compress_ok _ _ Hc Hok) as Hok1.
  assert (s1 !! a = Some (Type_var i)) as Ha1 by by apply (compress_nonfwd s s1).
  destruct (ok_find s Hok b Hb) as [r Hr].
  pose proof Hr as Hr1. apply (compress_Find s s1) in Hr1; [|done].
  destruct (try_dereference_fuel s1 b r Hr1) as (s2 & Hc2 & Hev).
  assert (compress s s2) as Hc' by by eapply compress_trans.
  destruct (Find_rep _ _ _ Hr) as (ti & Hti & Hnf).
  assert (s2 !! r = Some ti) as Hti2 by by apply (compress_nonfwd s s2).
  destruct ti as [j|tid ps|t]; [| |done].
  - exists (Ok (Nat.eqb a r) s2). split; [done|]. apply eventually_S.
    eapply eventually_mono; [|exact Hev]. intros f Hf. simpl.
    by rewrite Ha1, Hf; simpl; rewrite Hti2.
  - destruct (occurs_params_fuel s a i ps) with (s1 := s2)
      as (m & Hret & Hevp); [|done|by apply (compress_nonfwd s s2)|].
    { intros p Hp. apply IH; [by exists r, tid, ps|].
      pose proof (ok_closed s Hok r tid ps Hti) as Hcl.
      rewrite Forall_forall in Hcl. by apply Hcl. }
    exists m. split; [done|]. apply eventually_S.
    eapply eventually_mono; [|exact (eventually_and _ _ Hev Hevp)].
    intros f [Hf Hp]. simpl. by rewrite Ha1, Hf; simpl; rewrite Hti2.
Qed.

Lemma bind_var_fuel s x y i :
  store_ok s → s !! x = Some (Type_var i) → y < length s →
  ∃ m, returns m ∧ eventually (fun f => bind_var f s x y = m).
Proof.
  intros Hok Hx Hy.
  destruct (occurs_fuel s x i y Hok Hx Hy) as (mo & Hret & Hev).
  destruct (eventually_ex _ Hev) as [f0 Hf0].
  pose proof (occurs_spec f0 s x y i Hx) as Hspec. rewrite Hf0 in Hspec.
  destruct mo as [found s2| | |]; try done; [|by destruct (Hspec I)].
  exists (if found
          then Throw (mkUnification_exception occurs_kind x y) s2
          else Ok tt (<[x := Forwarded y]> s2)).
  split; [by destruct found|].
  eapply eventually_mono; [|exact Hev]. intros f Hf. unfold bind_var.
  by rewrite Hf.
Qed.

Definition unify_returns (s : store) (a b : Type_handle) : Prop :=
  ∃ m, returns m ∧ eventually (fun f => unify_rec f s a b = m).

Lemma unify_params_fuel n s x :
  (∀ s', nvars s' < n → store_ok s' → ∀ a b,
     a < length s' → b < length s' → unify_returns s' a b) →
  (∀ y, child s y x → ∀ s1 b, compress s s1 → y < length s → b < length s →
     unify_returns s1 y b) →
  nvars s = n →
  ∀ ps qs, length ps = length qs →
    Forall (fun p => child s p x ∧ p < length s) ps →
    Forall (fun q => q < length s) qs →
    ∀ si, store_ok si → length si = length s →
      compress s si ∨ nvars si < n →
      ∃ m, returns m ∧
           eventually (fun f => unify_params (unify_rec f) ps qs si = m).
Proof.
  intros IHn IHx Hn. induction ps as [|p ps IH]; intros [|q qs] Hlen Hps Hqs si
    Hoki Hleni Hsi; simplify_eq/=.
  - exists (Ok tt si). split; [done|]. by apply eventually_always.
  - apply Forall_cons in Hps as [[Hch Hp] Hps].
    apply Forall_cons in Hqs as [Hq Hqs].
    assert (unify_returns si p q) as (mh & Hret & Hev).
    { destruct Hsi as [Hc|Hlt].
      - by apply IHx.
      - apply IHn; try done; lia. }
    destruct (eventually_ex _ Hev) as [f0 Hf0].
    pose proof (unify_rec_spec f0 si p q) as Hspec. rewrite Hf0 in Hspec.
    specialize (Hspec Hret).
    destruct mh as [[] s'|e s'| |]; try done.
    + destruct Hspec as [He _].
      destruct (IH qs Hlen Hps Hqs s') as (mr & Hretr & Hevr).
      { by eapply ext_ok. }
      { by rewrite (ext_length _ _ He). }
      { destruct (ext_nvars _ _ He) as [[Hc' Hn']|Hn'].
        - destruct Hsi as [Hc|Hlt]; [left; by eapply compress_trans|right; lia].
        - destruct Hsi as [Hc|Hlt]; [|right; lia].
          right. rewrite <- (compress_nvars _ _ Hc). lia. }
      exists mr. split; [done|].
      eapply eventually_mono; [|exact (eventually_and _ _ Hev Hevr)].
      intros f [-> Hr]. done.
    + exists (Throw e s'). split; [done|].
      eapply eventually_mono; [|exact Hev]. by intros f ->.
Qed.

(** The cases of one call of [unify_rec], once both handles are
    dereferenced. *)
Section unify_rec_cases.
Context (f : nat) (s1 s2 s3 : store) (a b a' b' : Type_handle).
Context (Hda : try_dereference f s1 a = Ok a' s2).
Context (Hdb : try_dereference f s2 b = Ok b' s3).

Lemma unify_rec_S_same : a' = b' → unify_rec (S f) s1 a b = Ok tt s3.
Proof.
  intros Heq. simpl. rewrite Hda; simpl. rewrite Hdb; simpl.
  by rewrite (proj2 (Nat.eqb_eq _ _) Heq).
Qed.

Context (Hne : a' ≠ b').

Lemma unify_rec_S_swap j :
  s3 !! b' = Some (Type_var j) →
  unify_rec (S f) s1 a b = bind_var f s3 b' a'.
Proof.
  intros Hb. simpl. rewrite Hda; simpl. rewrite Hdb; simpl.
  rewrite (proj2 (Nat.eqb_neq _ _) Hne). by rewrite !Hb.
Qed.

Lemma unify_rec_S_var i tidb psb :
  s3 !! b' = Some (Concrete_type tidb psb) →
  s3 !! a' = Some (Type_var i) →
  unify_rec (S f) s1 a b = bind_var f s3 a' b'.
Proof.
  intros Hb Ha. simpl. rewrite Hda; simpl. rewrite Hdb; simpl.
  rewrite (proj2 (Nat.eqb_neq _ _) Hne). by rewrite Hb, Ha.
Qed.

Lemma unify_rec_S_concrete tida psa tidb psb :
  s3 !! b' = Some (Concrete_type tidb psb) →
  s3 !! a' = Some (Concrete_type tida psa) →
  unify_rec (S f) s1 a b =
    if negb (Nat.eqb tida tidb)
    then Throw (mkUnification_exception mismatch a' b') s3
    else if negb (Nat.eqb (length psa) (length psb))
         then Undefined
         else unify_params (unify_rec f) psa psb s3.
Proof.
  intros Hb Ha. simpl. rewrite Hda; simpl. rewrite Hdb; simpl.
  rewrite (proj2 (Nat.eqb_neq _ _) Hne). by rewrite Hb, Ha, Hb.
Qed.
End unify_rec_cases.

Lemma unify_rec_fuel s a b :
  store_ok s → a < length s → b < length s → unify_returns s a b.
Proof.
  remember (nvars s) as n eqn:Hn. revert s Hn a b.
  induction n as [n IHn] using lt_wf_ind. intros s Hn a b Hok Ha Hb.
  cut (∀ s1, compress s s1 → unify_returns s1 a b).
  { intros H. apply H, compress_refl. }
  revert b Hb Ha. induction (ok_wf s Hok a) as [a _ IHa]. intros b Hb Ha s1 Hc.
  pose proof (compress_ok _ _ Hc Hok) as Hok1.
  destruct (ok_find s Hok a Ha) as [a' Hfa].
  destruct (ok_find s Hok b Hb) as [b' Hfb].
  pose proof Hfa as Hfa1. apply (compress_Find s s1) in Hfa1; [|done].
  destruct (try_dereference_fuel s1 a a' Hfa1) as (s2 & Hc2 & Heva).
  assert (compress s s2) as Hc2' by by eapply compress_trans.
  pose proof Hfb as Hfb2. apply (compress_Find s s2) in Hfb2; [|done].
  destruct (try_dereference_fuel s2 b b' Hfb2) as (s3 & Hc3 & Hevb).
  assert (compress s s3) as Hc3' by by eapply compress_trans.
  pose proof (compress_ok _ _ Hc3' Hok) as Hok3.
  pose proof Hc3' as [Hlen3 _].
  pose proof (eventually_and _ _ Heva Hevb) as Hevab.
  destruct (Find_rep _ _ _ Hfa) as (tia & Htia & Hnfa).
  destruct (Find_rep _ _ _ Hfb) as (tib & Htib & Hnfb).
  assert (s3 !! a' = Some tia) as Htia3 by by apply (compress_nonfwd s s3).
  assert (s3 !! b' = Some tib) as Htib3 by by apply (compress_nonfwd s s3).
  pose proof (Find_rep_lt _ _ _ Hfa) as Ha'.
  pose proof (Find_rep_lt _ _ _ Hfb) as Hb'.
  destruct (decide (a' = b')) as [Heq|Hne].
  { exists (Ok tt s3). split; [done|]. apply eventually_S.
    eapply eventually_mono; [|exact Hevab]. intros f [Hf1 Hf2].
    by eapply unify_rec_S_same. }
  destruct tib as [j|tidb psb|t]; [| |done].
  - (* b is a variable: the two are swapped *)
    destruct (bind_var_fuel s3 b' a' j Hok3 Htib3) as (m & Hret & Hev); [lia|].
    exists m. split; [done|]. apply eventually_S.
    eapply eventually_mono; [|exact (eventually_and _ _ Hevab Hev)].
    intros f [[Hf1 Hf2] Hf3]. by erewrite unify_rec_S_swap.
  - destruct tia as [i|tida psa|t]; [| |done].
    + destruct (bind_var_fuel s3 a' b' i Hok3 Htia3) as (m & Hret & Hev); [lia|].
      exists m. split; [done|]. apply eventually_S.
      eapply eventually_mono; [|exact (eventually_and _ _ Hevab Hev)].
      intros f [[Hf1 Hf2] Hf3]. by erewrite unify_rec_S_var.
    + destruct (decide (tida = tidb)) as [->|Htid].
      2:{ exists (Throw (mkUnification_exception mismatch a' b') s3).
          split; [done|]. apply eventually_S.
          eapply eventually_mono; [|exact Hevab]. intros f [Hf1 Hf2].
          erewrite unify_rec_S_concrete; [|done..].
          by rewrite (proj2 (Nat.eqb_neq _ _) Htid). }
      pose proof (ok_kinded s Hok _ _ _ _ _ Htia Htib) as Hlen.
      destruct (unify_params_fuel n s a) with (ps := psa) (qs := psb) (si := s3)
        as (m & Hret & Hev); try done.
      * intros s' Hs' Hok' a0 b0 Ha0 Hb0. by eapply (IHn (nvars s')).
      * intros y Hy s' b0 Hcs' Hy' Hb0. by apply IHa.
      * pose proof (ok_closed s Hok _ _ _ Htia) as Hcl.
        rewrite Forall_forall in Hcl |- *. intros p Hp. split; [|by apply Hcl].
        by eexists a', _, psa.
      * by apply (ok_closed s Hok _ _ _ Htib).
      * by left.
      * exists m. split; [done|]. apply eventually_S.
        eapply eventually_mono; [|exact (eventually_and _ _ Hevab Hev)].
        intros f [[Hf1 Hf2] Hf3].
        erewrite unify_rec_S_concrete; [|done..].
        rewrite Nat.eqb_refl; simpl.
        by rewrite (proj2 (Nat.eqb_eq _ _) Hlen).
Qed.

(** ** Unification of equal types *)

Lemma unify_rec_eqv_fuel s :
  (∀ x y, eqv s x y → ∀ s1, compress s s1 →
     ∃ s2, compress s1 s2 ∧ eventually (fun f => unify_rec f s1 x y = Ok tt s2)) ∧
  (∀ ps qs, eqvs s ps qs → ∀ s1, compress s s1 →
     ∃ s2, compress s1 s2 ∧
           eventually (fun f => unify_params (unify_rec f) ps qs s1 = Ok tt s2)).
Proof.
  apply eqv_eqvs_ind.
  - intros x y r Hx Hy s1 Hc.
    apply (compress_Find s s1) in Hx; [|done].
    destruct (try_dereference_fuel s1 x r Hx) as (s2 & Hc2 & Hevx).
    assert (compress s s2) as Hc2' by by eapply compress_trans.
    apply (compress_Find s s2) in Hy; [|done].
    destruct (try_dereference_fuel s2 y r Hy) as (s3 & Hc3 & Hevy).
    exists s3. split; [by eapply compress_trans|]. apply eventually_S.
    eapply eventually_mono; [|exact (eventually_and _ _ Hevx Hevy)].
    intros f [Hf1 Hf2]. by eapply unify_rec_S_same.
  - intros x y rx ry tid ps qs Hx Hy Hrx Hry Hps IH s1 Hc.
    apply (compress_Find s s1) in Hx; [|done].
    destruct (try_dereference_fuel s1 x rx Hx) as (s2 & Hc2 & Hevx).
    assert (compress s s2) as Hc2' by by eapply compress_trans.
    apply (compress_Find s s2) in Hy; [|done].
    destruct (try_dereference_fuel s2 y ry Hy) as (s3 & Hc3 & Hevy).
    assert (compress s s3) as Hc3' by by eapply compress_trans.
    assert (compress s1 s3) as Hc13 by by eapply compress_trans.
    pose proof (eventually_and _ _ Hevx Hevy) as Hevxy.
    destruct (decide (rx = ry)) as [Heq|Hne].
    { exists s3. split; [done|]. apply eventually_S.
      eapply eventually_mono; [|exact Hevxy].
      intros f [Hf1 Hf2]. by eapply unify_rec_S_same. }
    apply (compress_concrete s s3) in Hrx, Hry; [|done..].
    destruct (IH s3 Hc3') as (s4 & Hc4 & Hev).
    exists s4. split; [by eapply compress_trans|]. apply eventually_S.
    eapply eventually_mono; [|exact (eventually_and _ _ Hevxy Hev)].
    intros f [[Hf1 Hf2] Hf3].
    erewrite unify_rec_S_concrete; [|done..].
    rewrite Nat.eqb_refl; simpl.
    by rewrite (proj2 (Nat.eqb_eq _ _) (eqvs_length _ _ _ Hps)).
  - intros s1 _. exists s1. split; [apply compress_refl|].
    by apply eventually_always.
  - intros p q ps qs _ IHh _ IHr s1 Hc.
    destruct (IHh s1 Hc) as (s2 & Hc2 & Hevh).
    destruct (IHr s2) as (s3 & Hc3 & Hevr); [by eapply compress_trans|].
    exists s3. split; [by eapply compress_trans|].
    eapply eventually_mono; [|exact (eventually_and _ _ Hevh Hevr)].
    intros f [Hf1 Hf2]. simpl. by rewrite Hf1.
Qed.


(** ** The forwarding graph *)

(** [forwards s h t]: the slot [h] holds a forwarding link to [t]. *)
Definition forwards (s : store) (h t : Type_handle) : Prop :=
  s !! h = Some (Forwarded t).

(** No slot's chain of forwarding links reaches the slot itself. *)
Definition forwarding_acyclic (s : store) : Prop :=
  ∀ h, ¬ tc (forwards s) h h.

(** Every chain of forwarding links ends in a slot that holds a type. *)
Definition forwarding_ends (s : store) : Prop :=
  ∀ h, h < length s → ∃ r, Find s h r.

Lemma Find_acyclic s h r : Find s h r → ¬ tc (forwards s) h h.
Proof.
  induction 1 as [h ti Hh Hti|h t r Hh _ IH]; intros Htc.
  - inversion Htc as [? ? Hf|? y ? Hf _]; unfold forwards in Hf; simplify_eq.
  - apply IH. inversion Htc as [? ? Hf|? y ? Hf Hrest]; unfold forwards in Hf;
      simplify_eq.
    + by apply tc_once.
    + eapply tc_r; [exact Hrest|done].
Qed.

Lemma forwarding_ends_acyclic s : forwarding_ends s → forwarding_acyclic s.
Proof.
  intros Hends h Htc. assert (h < length s) as Hh.
  { inversion Htc as [? ? Hf|? y ? Hf _]; by eapply lookup_lt_Some. }
  destruct (Hends h Hh) as [r Hr]. by eapply Find_acyclic.
Qed.

Lemma ext_forwarding_ends s s' :
  ext s s' → forwarding_ends s → forwarding_ends s'.
Proof.
  induction 1 as [|s s1 s2 Hc _ IH|s a b i s2 Ha Hb Hab Hocc _ IH]; intros He.
  - done.
  - apply IH. intros h Hh. destruct Hc as [Hlen Hc'].
    destruct (He h) as [r Hr]; [lia|]. exists r.
    by apply (compress_Find s s1).
  - apply IH. intros h Hh. rewrite length_insert in Hh.
    destruct (He h Hh) as [r Hr]. eexists. by eapply bind_Find.
Qed.

Lemma store_ok_dereference s h :
  forwarding_ends s → h < length s →
  ∃ r s', eventually (fun fuel => try_dereference fuel s h = Ok r s').
Proof.
  intros He Hh. destruct (He h Hh) as [r Hr].
  destruct (try_dereference_fuel s h r Hr) as (s' & _ & Hev). eauto.
Qed.

(** A call of [unify] that comes back, with a result or with an exception,
    leaves a store whose chains of forwarding links all end, whatever the
    parameters of its concrete types look like. *)
Lemma unify_forwarding_partial fuel s a b s' :
  forwarding_ends s →
  final_state (unify fuel s a b) = Some s' →
  forwarding_ends s' ∧ forwarding_acyclic s'.
Proof.
  intros He Hfin. assert (forwarding_ends s') as He'.
  { pose proof (unify_rec_spec fuel s a b) as Hspec. unfold unify in Hfin.
    destruct (unify_rec fuel s a b) as [[] s1|e s1| |]; simplify_eq/=.
    - destruct Hspec as [Hext _]; [done|]. by eapply ext_forwarding_ends.
    - eapply ext_forwarding_ends; [by apply Hspec|done]. }
  split; [done|by apply forwarding_ends_acyclic].
Qed.

(** ** Stores that are well-formed by a rank *)

(** A rank that decreases along every forwarding link and from every concrete
    type to its parameters witnesses the invariant. *)
Definition slot_ranked (rk : nat → nat) (s : store) (h : nat)
           (ti : Type_instance) : Prop :=
  match ti with
  | Type_var _ => True
  | Forwarded t => t < length s ∧ rk t < rk h
  | Concrete_type tid ps =>
      Forall (fun p => p < length s ∧ rk p < rk h) ps ∧
      Forall (fun ti2 => match ti2 with
                         | Concrete_type tid2 qs =>
                             tid = tid2 → length ps = length qs
                         | _ => True
                         end) s
  end.

Definition ranked (rk : nat → nat) (s : store) : Prop :=
  ∀ h ti, s !! h = Some ti → slot_ranked rk s h ti.

Lemma ranked_Find rk s :
  ranked rk s → ∀ n h, rk h < n → h < length s → ∃ r, Find s h r ∧ rk r ≤ rk h.
Proof.
  intros Hrk. induction n as [|n IH]; intros h Hn Hh; [lia|].
  destruct (lookup_lt_is_Some_2 s h Hh) as [ti Hti].
  pose proof (Hrk h ti Hti) as Hslot.
  destruct ti as [i|tid ps|t]; simpl in Hslot.
  - exists h. split; [by econstructor|done].
  - exists h. split; [by econstructor|done].
  - destruct Hslot as [Ht Hlt]. destruct (IH t) as (r & Hr & Hle); [lia|done|].
    exists r. split; [by eapply Find_step|lia].
Qed.

Lemma ranked_Find_le rk s h r : ranked rk s → Find s h r → rk r ≤ rk h.
Proof.
  intros Hrk. induction 1 as [h ti Hh Hti|h t r Hh _ IH]; [done|].
  destruct (Hrk h _ Hh) as [_ Hlt]. lia.
Qed.

Lemma ranked_ok rk s : ranked rk s → store_ok s.
Proof.
  intros Hrk. split.
  - intros h tid ps Hh. destruct (Hrk h _ Hh) as [Hps _].
    eapply Forall_impl; [exact Hps|]. by intros p [? _].
  - intros h Hh. destruct (ranked_Find rk s Hrk (S (rk h)) h) as (r & Hr & _);
      eauto.
  - intros x. remember (S (rk x)) as n eqn:Hn.
    assert (rk x < n) as Hlt by lia. clear Hn. revert x Hlt.
    induction n as [|n IH]; intros x Hlt; [lia|].
    constructor. intros y (r & tid & ps & Hf & Hr & Hy).
    apply IH. pose proof (ranked_Find_le rk s x r Hrk Hf).
    destruct (Hrk r _ Hr) as [Hps _]. rewrite Forall_forall in Hps.
    destruct (Hps y Hy). lia.
  - intros h1 h2 tid ps qs H1 H2. destruct (Hrk h1 _ H1) as [_ Hk].
    rewrite Forall_lookup in Hk. by apply (Hk h2 _ H2).
Qed.

(** ** Sequences of calls *)

(** A caller that goes on after an exception of [unify], as the typer does:
    the store is the one the call has left. *)
Fixpoint unify_calls (fuel : nat)
         (calls : list (Strong_type_handle * Strong_type_handle))
         (types : store) : option store :=
  match calls with
  | [] => Some types
  | (a, b) :: rest =>
      match final_state (unify fuel types a b) with
      | Some types' => unify_calls fuel rest types'
      | None => None
      end
  end.

(** C1. Whatever sequence of calls of [unify] is made on a well-formed store,
    successful or ending in an exception, every call returns and the store
    stays well-formed: its forwarding graph has no cycle, and every handle is
    dereferenced in finitely many steps. *)
Theorem unify_keeps_forwarding_acyclic
        (s : store) (calls : list (Strong_type_handle * Strong_type_handle)) :
  store_ok s →
  Forall (fun c => c.1 < length s ∧ c.2 < length s) calls →
  ∃ s', eventually (fun fuel => unify_calls fuel calls s = Some s') ∧
        store_ok s' ∧ forwarding_acyclic s' ∧
        ∀ h, h < length s' →
             ∃ r s'', eventually (fun fuel => try_dereference fuel s' h = Ok r s'').
Proof.
  intros Hok Hcalls. revert s Hok Hcalls.
  induction calls as [|[a b] calls IH]; intros s Hok Hcalls.
  - exists s. split_and!; [by apply eventually_always|done|..].
    + apply forwarding_ends_acyclic. exact (ok_find s Hok).
    + intros h Hh. apply store_ok_dereference; [exact (ok_find s Hok)|done].
  - apply Forall_cons in Hcalls as [[Ha Hb] Hcalls]. simpl in Ha, Hb.
    destruct (unify_rec_fuel s a b Hok Ha Hb) as (m & Hret & Hev).
    destruct (eventually_ex _ Hev) as [f0 Hf0].
    pose proof (unify_rec_spec f0 s a b) as Hspec. rewrite Hf0 in Hspec.
    specialize (Hspec Hret).
    assert (∃ s1, final_state m = Some s1 ∧ ext s s1) as (s1 & Hfin & Hext).
    { destruct m as [[] s1|e s1| |]; try done; exists s1; split; try done.
      by destruct Hspec. }
    destruct (IH s1) as (s' & Hev' & Hrest).
    { by eapply ext_ok. }
    { rewrite (ext_length _ _ Hext). exact Hcalls. }
    exists s'. split; [|exact Hrest].
    eapply eventually_mono; [|exact (eventually_and _ _ Hev Hev')].
    intros f [Hf1 Hf2]. simpl. unfold unify. by rewrite Hf1, Hfin.
Qed.

Definition sample_store : store :=
  [Type_var 0; Concrete_type 0 []; Concrete_type 1 [0]].

Lemma sample_store_ok : store_ok sample_store.
Proof.
  apply (ranked_ok (fun h => match h with 2 => 1 | _ => 0 end)).
  intros [|[|[|h]]] ti Hti; simplify_eq/=; try done.
  - split; [constructor|]. repeat constructor; done.
  - split; [repeat constructor; simpl; lia|]. repeat constructor; done.
Qed.

Lemma unify_keeps_forwarding_acyclic_witness :
  ∃ s', eventually (fun fuel =>
          unify_calls fuel [(0, 1); (0, 2)] sample_store = Some s') ∧
        store_ok s' ∧ forwarding_acyclic s' ∧
        ∀ h, h < length s' →
             ∃ r s'', eventually (fun fuel => try_dereference fuel s' h = Ok r s'').
Proof.
  apply (unify_keeps_forwarding_acyclic sample_store [(0, 1); (0, 2)]).
  - exact sample_store_ok.
  - repeat constructor; simpl; lia.
Defined.

(** C5. When [unify a b] has succeeded, calling it again succeeds, and the
    second call changes a slot only by replacing a forwarding link with a
    direct link to the representative it led to: every handle has the same
    representative, holding the same type instance, before and after. *)
Theorem unify_twice_is_noop
        (s : store) (a b : Strong_type_handle) (fuel : nat) (s1 : store) :
  unify fuel s a b = Ok tt s1 →
  ∃ s2, eventually (fun fuel' => unify fuel' s1 a b = Ok tt s2) ∧
        compress s1 s2 ∧
        (∀ h r, Find s1 h r ↔ Find s2 h r) ∧
        (∀ h ti, is_forwarded ti = false →
                 s1 !! h = Some ti ↔ s2 !! h = Some ti).
Proof.
  intros Hu. pose proof (unify_rec_spec fuel s a b) as Hspec.
  unfold unify in Hu. rewrite Hu in Hspec. destruct (Hspec I) as [_ Heqv].
  destruct (proj1 (unify_rec_eqv_fuel s1) a b Heqv s1 (compress_refl s1))
    as (s2 & Hc & Hev).
  exists s2. split_and!; [exact Hev|exact Hc|..].
  - intros h r. by apply compress_Find.
  - intros h ti Hti. by apply compress_nonfwd.
Qed.

Lemma unify_twice_is_noop_witness :
  ∃ s2, eventually (fun fuel' =>
          unify fuel' [Forwarded 1; Concrete_type 0 []] 0 1 = Ok tt s2) ∧
        compress [Forwarded 1; Concrete_type 0 []] s2 ∧
        (∀ h r, Find [Forwarded 1; Concrete_type 0 []] h r ↔ Find s2 h r) ∧
        (∀ h ti, is_forwarded ti = false →
                 [Forwarded 1; Concrete_type 0 []] !! h = Some ti ↔
                 s2 !! h = Some ti).
Proof.
  apply (unify_twice_is_noop [Type_var 0; Concrete_type 0 []] 0 1 2).
  reflexivity.
Defined.

End TypeStore.

(* ===================================================================== *)
(** * The interpreter: arithmetic *)
(* ===================================================================== *)

Module Arithmetic.
Import AST Interpreter.
Local Open Scope Z_scope.

(** The values of [std::int64_t]. *)
Definition int64 (z : Z) : Prop := (- 2 ^ 63 <= z)%Z ∧ (z < 2 ^ 63)%Z.


Lemma wrap64_int64 z : int64 (wrap64 z).
Proof.
  unfold int64, wrap64.
  pose proof (Z.mod_pos_bound (z + 2 ^ 63) (2 ^ 64) ltac:(lia)). lia.
Qed.






End Arithmetic.

(* ===================================================================== *)
(** * Induction on the syntax *)
(* ===================================================================== *)

Module Syntax.
Import AST.

(** The syntax is mutually recursive and nested in [list]: the induction
    principle that gives the hypotheses for the elements of the lists. *)
Section induction.
Context (Pp : Producer → Prop) (Pc : Consumer → Prop)
        (Ps : Statement → Prop) (Pl : Clause → Prop).
Context
  (H_variable : ∀ id name type, Pp (Variable_prod id name type))
  (H_value : ∀ value type, Pp (Value_prod value type))
  (H_mu_prod : ∀ id name body type, Ps body → Pp (Mu_prod id name body type))
  (H_constructor : ∀ id name args coargs flag type,
      Forall Pp args → Forall Pc coargs →
      Pp (Constructor_prod id name args coargs flag type))
  (H_cocase : ∀ clauses type, Forall Pl clauses → Pp (Cocase_prod clauses type))
  (H_covariable : ∀ id name type, Pc (Covariable_cons id name type))
  (H_mu_cons : ∀ id name body type, Ps body → Pc (Mu_cons id name body type))
  (H_destructor : ∀ id name args coargs type,
      Forall Pp args → Forall Pc coargs →
      Pc (Destructor_cons id name args coargs type))
  (H_case : ∀ clauses type, Forall Pl clauses → Pc (Case_cons clauses type))
  (H_end : ∀ type, Pc (End_cons type))
  (H_arithmetic : ∀ op l r after,
      Pp l → Pp r → Pc after → Ps (Arithmetic_stmt op l r after))
  (H_ifz : ∀ condition if_zero if_other,
      Pp condition → Ps if_zero → Ps if_other →
      Ps (Ifz_stmt condition if_zero if_other))
  (H_cut : ∀ producer consumer,
      Pp producer → Pc consumer → Ps (Cut_stmt producer consumer))
  (H_call : ∀ id name args coargs,
      Forall Pp args → Forall Pc coargs → Ps (Call_stmt id name args coargs))
  (H_clause : ∀ id name arg_names coarg_names arg_ids coarg_ids body,
      Ps body →
      Pl (mkClause id name arg_names coarg_names arg_ids coarg_ids body)).

Fixpoint Producer_all (p : Producer) {struct p} : Pp p :=
  match p with
  | Variable_prod id name type => H_variable id name type
  | Value_prod value type => H_value value type
  | Mu_prod id name body type => H_mu_prod id name body type (Statement_all body)
  | Constructor_prod id name args coargs flag type =>
      H_constructor id name args coargs flag type
        ((fix go (l : list Producer) : Forall Pp l :=
            match l with
            | [] => Forall_nil_2 Pp
            | x :: r => Forall_cons_2 Pp x r (Producer_all x) (go r)
            end) args)
        ((fix go (l : list Consumer) : Forall Pc l :=
            match l with
            | [] => Forall_nil_2 Pc
            | x :: r => Forall_cons_2 Pc x r (Consumer_all x) (go r)
            end) coargs)
  | Cocase_prod clauses type =>
      H_cocase clauses type
        ((fix go (l : list Clause) : Forall Pl l :=
            match l with
            | [] => Forall_nil_2 Pl
            | x :: r => Forall_cons_2 Pl x r (Clause_all x) (go r)
            end) clauses)
  end
with Consumer_all (c : Consumer) {struct c} : Pc c :=
  match c with
  | Covariable_cons id name type => H_covariable id name type
  | Mu_cons id name body type => H_mu_cons id name body type (Statement_all body)
  | Destructor_cons id name args coargs type =>
      H_destructor id name args coargs type
        ((fix go (l : list Producer) : Forall Pp l :=
            match l with
            | [] => Forall_nil_2 Pp
            | x :: r => Forall_cons_2 Pp x r (Producer_all x) (go r)
            end) args)
        ((fix go (l : list Consumer) : Forall Pc l :=
            match l with
            | [] => Forall_nil_2 Pc
            | x :: r => Forall_cons_2 Pc x r (Consumer_all x) (go r)
            end) coargs)
  | Case_cons clauses type =>
      H_case clauses type
        ((fix go (l : list Clause) : Forall Pl l :=
            match l with
            | [] => Forall_nil_2 Pl
            | x :: r => Forall_cons_2 Pl x r (Clause_all x) (go r)
            end) clauses)
  | End_cons type => H_end type
  end
with Statement_all (s : Statement) {struct s} : Ps s :=
  match s with
  | Arithmetic_stmt op l r after =>
      H_arithmetic op l r after (Producer_all l) (Producer_all r)
                   (Consumer_all after)
  | Ifz_stmt condition if_zero if_other =>
      H_ifz condition if_zero if_other (Producer_all condition)
            (Statement_all if_zero) (Statement_all if_other)
  | Cut_stmt producer consumer =>
      H_cut producer consumer (Producer_all producer) (Consumer_all consumer)
  | Call_stmt id name args coargs =>
      H_call id name args coargs
        ((fix go (l : list Producer) : Forall Pp l :=
            match l with
            | [] => Forall_nil_2 Pp
            | x :: r => Forall_cons_2 Pp x r (Producer_all x) (go r)
            end) args)
        ((fix go (l : list Consumer) : Forall Pc l :=
            match l with
            | [] => Forall_nil_2 Pc
            | x :: r => Forall_cons_2 Pc x r (Consumer_all x) (go r)
            end) coargs)
  end
with Clause_all (cl : Clause) {struct cl} : Pl cl :=
  match cl with
  | mkClause id name arg_names coarg_names arg_ids coarg_ids body =>
      H_clause id name arg_names coarg_names arg_ids coarg_ids body
               (Statement_all body)
  end.

Lemma syntax_ind :
  (∀ p, Pp p) ∧ (∀ c, Pc c) ∧ (∀ s, Ps s) ∧ (∀ cl, Pl cl).
Proof.
  split_and!; [exact Producer_all|exact Consumer_all|exact Statement_all|
               exact Clause_all].
Qed.
End induction.

End Syntax.

(* ===================================================================== *)
(** * The interpreter: values *)
(* ===================================================================== *)

Module Values.
Import AST Interpreter.

(** The value predicate in the words of the specification: an integer
    literal, a cocase, or a constructor all of whose arguments are values
    (the coarguments do not count). *)
Fixpoint value_spec (p : Producer) : bool :=
  match p with
  | Value_prod _ _ => true
  | Cocase_prod _ _ => true
  | Constructor_prod _ _ args _ _ _ => forallb value_spec args
  | _ => false
  end.

(** Every memoised flag in a piece of syntax, when present, is the value
    predicate of its constructor. *)
Fixpoint flags_ok_prod (p : Producer) : bool :=
  match p with
  | Variable_prod _ _ _ => true
  | Value_prod _ _ => true
  | Mu_prod _ _ body _ => flags_ok_stmt body
  | Constructor_prod _ _ args coargs flag _ =>
      match flag with
      | Some b => Bool.eqb b (forallb value_spec args)
      | None => true
      end
      && forallb flags_ok_prod args && forallb flags_ok_cons coargs
  | Cocase_prod clauses _ => forallb flags_ok_clause clauses
  end
with flags_ok_cons (c : Consumer) : bool :=
  match c with
  | Covariable_cons _ _ _ => true
  | Mu_cons _ _ body _ => flags_ok_stmt body
  | Destructor_cons _ _ args coargs _ =>
      forallb flags_ok_prod args && forallb flags_ok_cons coargs
  | Case_cons clauses _ => forallb flags_ok_clause clauses
  | End_cons _ => true
  end
with flags_ok_stmt (s : Statement) : bool :=
  match s with
  | Arithmetic_stmt _ l r after =>
      flags_ok_prod l && flags_ok_prod r && flags_ok_cons after
  | Ifz_stmt condition if_zero if_other =>
      flags_ok_prod condition && flags_ok_stmt if_zero && flags_ok_stmt if_other
  | Cut_stmt producer consumer =>
      flags_ok_prod producer && flags_ok_cons consumer
  | Call_stmt _ _ args coargs =>
      forallb flags_ok_prod args && forallb flags_ok_cons coargs
  end
with flags_ok_clause (cl : Clause) : bool :=
  match cl with
  | mkClause _ _ _ _ _ _ body => flags_ok_stmt body
  end.

(** The loop of [is_value] over the arguments of a constructor. *)
Definition all_of_is_value : list Producer → bool * list Producer :=
  fix all_of (l : list Producer) : bool * list Producer :=
    match l with
    | [] => (true, [])
    | a :: rest =>
        let '(v, a') := is_value a in
        if v then
          let '(b, rest') := all_of rest in (b, a' :: rest')
        else (false, a' :: rest)
    end.

Lemma is_value_constructor id name args coargs type :
  is_value (Constructor_prod id name args coargs None type) =
  ((all_of_is_value args).1,
   Constructor_prod id name (all_of_is_value args).2 coargs
                    (Some (all_of_is_value args).1) type).
Proof.
  simpl. fold all_of_is_value. by destruct (all_of_is_value args).
Qed.

(** What [is_value] computes and what it leaves behind. *)
Definition is_value_ok (p : Producer) : Prop :=
  flags_ok_prod p = true →
  (is_value p).1 = value_spec p ∧
  flags_ok_prod (is_value p).2 = true ∧
  value_spec (is_value p).2 = value_spec p.

Lemma all_of_is_value_ok args :
  Forall is_value_ok args → forallb flags_ok_prod args = true →
  (all_of_is_value args).1 = forallb value_spec args ∧
  forallb flags_ok_prod (all_of_is_value args).2 = true ∧
  forallb value_spec (all_of_is_value args).2 = forallb value_spec args.
Proof.
  induction 1 as [|a rest Ha _ IH]; [done|]. simpl.
  intros [Hfa Hfr]%andb_prop. destruct (Ha Hfa) as (Hv & Hf & Hs).
  destruct (is_value a) as [v a'] eqn:Hia. simpl in *. subst v.
  destruct (value_spec a) eqn:Hva.
  - destruct (IH Hfr) as (Hv' & Hf' & Hs').
    destruct (all_of_is_value rest) as [b rest']. simpl in *.
    by rewrite Hs, Hf, Hf', Hs'.
  - simpl. by rewrite Hs, Hf, Hfr.
Qed.

Lemma is_value_correct p : is_value_ok p.
Proof.
  apply (Syntax.Producer_all is_value_ok (fun _ => True) (fun _ => True)
           (fun _ => True)); try done.
  intros id name args coargs flag type Hargs _. unfold is_value_ok.
  destruct flag as [b|].
  - simpl. intros Hf. split_and!; [|exact Hf|done].
    apply andb_prop in Hf as [[Hb _]%andb_prop _].
    by apply Bool.eqb_prop in Hb.
  - rewrite is_value_constructor. simpl.
    intros [Hfa Hfc]%andb_prop.
    destruct (all_of_is_value_ok args Hargs Hfa) as (Hv & Hf & Hs).
    split_and!; [done| |done].
    rewrite Hf, Hfc, Hv, Hs. by rewrite Bool.eqb_reflx.
Qed.

(** ** Substitution keeps the flags right *)

Lemma value_spec_replace p var_map covar_map :
  value_spec p = true → value_spec (replace_prod p var_map covar_map) = true.
Proof.
  revert p. apply (Syntax.Producer_all
    (fun p => value_spec p = true →
              value_spec (replace_prod p var_map covar_map) = true)
    (fun _ => True) (fun _ => True) (fun _ => True)); try done.
  intros id name args coargs flag type Hargs _. simpl.
  induction Hargs as [|a rest Ha _ IH]; [done|]. simpl.
  intros [Hva Hvr]%andb_prop. by rewrite Ha, IH.
Qed.

Lemma forallb_map_Forall {A} (f : A → bool) (g : A → A) (l : list A) :
  Forall (fun x => f x = true → f (g x) = true) l →
  forallb f l = true → forallb f (List.map g l) = true.
Proof.
  induction 1 as [|x l Hx _ IH]; [done|]. simpl.
  intros [H1 H2]%andb_prop. by rewrite Hx, IH.
Qed.

Lemma foldl_delete_Forall {A} (P : nat → A → Prop) (ids : list nat)
      (m : gmap nat A) :
  map_Forall P m → map_Forall P (foldl (fun m id => delete id m) m ids).
Proof.
  revert m. induction ids as [|id ids IH]; intros m Hm; [done|]. simpl.
  apply IH. by apply map_Forall_delete.
Qed.

Definition flags_ok_maps (var_map : gmap nat Producer)
           (covar_map : gmap nat Consumer) : Prop :=
  map_Forall (fun _ p => flags_ok_prod p = true) var_map ∧
  map_Forall (fun _ c => flags_ok_cons c = true) covar_map.

Lemma replace_flags_ok :
  (∀ p var_map covar_map, flags_ok_maps var_map covar_map →
     flags_ok_prod p = true →
     flags_ok_prod (replace_prod p var_map covar_map) = true) ∧
  (∀ c var_map covar_map, flags_ok_maps var_map covar_map →
     flags_ok_cons c = true →
     flags_ok_cons (replace_cons c var_map covar_map) = true) ∧
  (∀ s var_map covar_map, flags_ok_maps var_map covar_map →
     flags_ok_stmt s = true →
     flags_ok_stmt (replace_stmt s var_map covar_map) = true) ∧
  (∀ cl var_map covar_map, flags_ok_maps var_map covar_map →
     flags_ok_clause cl = true →
     flags_ok_clause (replace_clause cl var_map covar_map) = true).
Proof.
  apply Syntax.syntax_ind.
  - intros id name type vm cm [Hvm _] _. simpl.
    destruct (vm !! id) as [q|] eqn:Hq; [|done]. by apply (Hvm id q).
  - done.
  - intros id name body type IH vm cm [Hvm Hcm] Hb. simpl in *.
    apply IH; [|done]. split; [done|]. by apply map_Forall_delete.
  - intros id name args coargs flag type Hargs Hcoargs vm cm Hm. simpl.
    intros [[Hflag Hfa]%andb_prop Hfc]%andb_prop.
    apply andb_true_intro; split; [apply andb_true_intro; split|].
    + destruct flag as [[]|]; try done.
      apply Bool.eqb_prop in Hflag. symmetry in Hflag.
      apply Bool.eqb_true_iff. symmetry.
      apply forallb_map_Forall; [|done].
      apply Forall_forall. intros a _. apply value_spec_replace.
    + apply forallb_map_Forall; [|done].
      eapply Forall_impl; [exact Hargs|]. intros a Ha. by apply Ha.
    + apply forallb_map_Forall; [|done].
      eapply Forall_impl; [exact Hcoargs|]. intros a Ha. by apply Ha.
  - intros clauses type Hcl vm cm Hm. simpl.
    apply forallb_map_Forall.
    eapply Forall_impl; [exact Hcl|]. intros a Ha. by apply Ha.
  - intros id name type vm cm [_ Hcm] _. simpl.
    destruct (cm !! id) as [q|] eqn:Hq; [|done]. by apply (Hcm id q).
  - intros id name body type IH vm cm [Hvm Hcm] Hb. simpl in *.
    apply IH; [|done]. split; [|done]. by apply map_Forall_delete.
  - intros id name args coargs type Hargs Hcoargs vm cm Hm. simpl.
    intros [Hfa Hfc]%andb_prop.
    apply andb_true_intro; split.
    + apply forallb_map_Forall; [|done].
      eapply Forall_impl; [exact Hargs|]. intros a Ha. by apply Ha.
    + apply forallb_map_Forall; [|done].
      eapply Forall_impl; [exact Hcoargs|]. intros a Ha. by apply Ha.
  - intros clauses type Hcl vm cm Hm. simpl.
    apply forallb_map_Forall.
    eapply Forall_impl; [exact Hcl|]. intros a Ha. by apply Ha.
  - done.
  - intros op l r after IHl IHr IHa vm cm Hm. simpl.
    intros [[Hl Hr]%andb_prop Ha]%andb_prop.
    by rewrite IHl, IHr, IHa.
  - intros c z o IHc IHz IHo vm cm Hm. simpl.
    intros [[Hc Hz]%andb_prop Ho]%andb_prop.
    by rewrite IHc, IHz, IHo.
  - intros p c IHp IHc vm cm Hm. simpl.
    intros [Hp Hc]%andb_prop. by rewrite IHp, IHc.
  - intros id name args coargs Hargs Hcoargs vm cm Hm. simpl.
    intros [Hfa Hfc]%andb_prop.
    apply andb_true_intro; split.
    + apply forallb_map_Forall; [|done].
      eapply Forall_impl; [exact Hargs|]. intros a Ha. by apply Ha.
    + apply forallb_map_Forall; [|done].
      eapply Forall_impl; [exact Hcoargs|]. intros a Ha. by apply Ha.
  - intros id name an cn ai ci body IH vm cm [Hvm Hcm] Hb. simpl in *.
    apply IH; [|done]. split; by apply foldl_delete_Forall.
Qed.

(** C6. On a producer whose memoised flags are right, [is_value] answers
    the value predicate: true exactly for an integer literal, a cocase, and a
    constructor all of whose arguments are values, false for a variable and
    for a mu abstraction.  The flags it writes are right again, and
    substitution keeps them right: a flag that is present always equals the
    predicate. *)
Theorem is_value_iff_value (p : Producer) :
  flags_ok_prod p = true →
  ((is_value p).1 = true ↔
   match p with
   | Value_prod _ _ => True
   | Cocase_prod _ _ => True
   | Constructor_prod _ _ args _ _ _ =>
       Forall (fun a => (is_value a).1 = true) args
   | Variable_prod _ _ _ | Mu_prod _ _ _ _ => False
   end) ∧
  (is_value p).1 = value_spec p ∧
  flags_ok_prod (is_value p).2 = true ∧
  ∀ var_map covar_map,
    flags_ok_maps var_map covar_map →
    flags_ok_prod (replace_prod (is_value p).2 var_map covar_map) = true.
Proof.
  intros Hf. destruct (is_value_correct p Hf) as (Hv & Hf' & _).
  split_and!; [|done|done|].
  - rewrite Hv. destruct p as [| | |id name args coargs flag type|]; simpl;
      try done.
    simpl in Hf. apply andb_prop in Hf as [[_ Hfa]%andb_prop _].
    rewrite forallb_forall, Forall_forall. rewrite forallb_forall in Hfa.
    split; intros H a Ha.
    + apply list_elem_of_In in Ha.
      destruct (is_value_correct a (Hfa a Ha)) as (-> & _). by apply H.
    + destruct (is_value_correct a (Hfa a Ha)) as (<- & _).
      apply H. by apply list_elem_of_In.
  - intros vm cm Hm. by apply replace_flags_ok.
Qed.

Definition cons_1_nil : Producer :=
  Constructor_prod 1 "Cons"
    [Value_prod 1 None; Constructor_prod 0 "Nil" [] [] None None] [] None None.

Lemma is_value_iff_value_witness :
  ((is_value cons_1_nil).1 = true ↔
   Forall (fun a => (is_value a).1 = true)
          [Value_prod 1 None; Constructor_prod 0 "Nil" [] [] None None]) ∧
  (is_value cons_1_nil).1 = value_spec cons_1_nil ∧
  flags_ok_prod (is_value cons_1_nil).2 = true ∧
  ∀ var_map covar_map,
    flags_ok_maps var_map covar_map →
    flags_ok_prod (replace_prod (is_value cons_1_nil).2 var_map covar_map) = true.
Proof.
  apply (is_value_iff_value cons_1_nil).
  reflexivity.
Defined.

End Values.

(* ===================================================================== *)
(** * The interpreter: substitution *)
(* ===================================================================== *)

Module Substitution.
Import AST Interpreter.

(** Simultaneous substitution as the specification words it: the traversal keeps
    the sets of the variable and covariable ids that an enclosing mu, mu' or
    clause binds; an occurrence of an id that is not bound and that the map
    holds is replaced by the mapped producer or consumer as it is, and
    nothing inside the inserted copy is visited. *)
Fixpoint subst_prod (p : Producer) (bound_vars bound_covars : gset nat)
         (var_map : gmap nat Producer) (covar_map : gmap nat Consumer)
         {struct p} : Producer :=
  match p with
  | Variable_prod var_id _ _ =>
      if decide (var_id ∈ bound_vars) then p
      else match var_map !! var_id with Some q => q | None => p end
  | Value_prod _ _ => p
  | Mu_prod coarg_id coarg_name body type =>
      Mu_prod coarg_id coarg_name
              (subst_stmt body bound_vars ({[coarg_id]} ∪ bound_covars)
                          var_map covar_map) type
  | Constructor_prod id name args coargs flag type =>
      Constructor_prod id name
        (List.map (fun a => subst_prod a bound_vars bound_covars var_map covar_map)
                  args)
        (List.map (fun c => subst_cons c bound_vars bound_covars var_map covar_map)
                  coargs)
        (match flag with Some false => None | _ => flag end) type
  | Cocase_prod clauses type =>
      Cocase_prod
        (List.map (fun cl => subst_clause cl bound_vars bound_covars
                                          var_map covar_map) clauses) type
  end
with subst_cons (c : Consumer) (bound_vars bound_covars : gset nat)
         (var_map : gmap nat Producer) (covar_map : gmap nat Consumer)
         {struct c} : Consumer :=
  match c with
  | Covariable_cons covar_id _ _ =>
      if decide (covar_id ∈ bound_covars) then c
      else match covar_map !! covar_id with Some q => q | None => c end
  | Mu_cons arg_id arg_name body type =>
      Mu_cons arg_id arg_name
              (subst_stmt body ({[arg_id]} ∪ bound_vars) bound_covars
                          var_map covar_map) type
  | Destructor_cons id name args coargs type =>
      Destructor_cons id name
        (List.map (fun a => subst_prod a bound_vars bound_covars var_map covar_map)
                  args)
        (List.map (fun c => subst_cons c bound_vars bound_covars var_map covar_map)
                  coargs)
        type
  | Case_cons clauses type =>
      Case_cons
        (List.map (fun cl => subst_clause cl bound_vars bound_covars
                                          var_map covar_map) clauses) type
  | End_cons _ => c
  end
with subst_stmt (s : Statement) (bound_vars bound_covars : gset nat)
         (var_map : gmap nat Producer) (covar_map : gmap nat Consumer)
         {struct s} : Statement :=
  match s with
  | Arithmetic_stmt op l r after =>
      Arithmetic_stmt op
        (subst_prod l bound_vars bound_covars var_map covar_map)
        (subst_prod r bound_vars bound_covars var_map covar_map)
        (subst_cons after bound_vars bound_covars var_map covar_map)
  | Ifz_stmt condition if_zero if_other =>
      Ifz_stmt (subst_prod condition bound_vars bound_covars var_map covar_map)
               (subst_stmt if_zero bound_vars bound_covars var_map covar_map)
               (subst_stmt if_other bound_vars bound_covars var_map covar_map)
  | Cut_stmt producer consumer =>
      Cut_stmt (subst_prod producer bound_vars bound_covars var_map covar_map)
               (subst_cons consumer bound_vars bound_covars var_map covar_map)
  | Call_stmt id name args coargs =>
      Call_stmt id name
        (List.map (fun a => subst_prod a bound_vars bound_covars var_map covar_map)
                  args)
        (List.map (fun c => subst_cons c bound_vars bound_covars var_map covar_map)
                  coargs)
  end
with subst_clause (cl : Clause) (bound_vars bound_covars : gset nat)
         (var_map : gmap nat Producer) (covar_map : gmap nat Consumer)
         {struct cl} : Clause :=
  match cl with
  | mkClause id name arg_names coarg_names arg_ids coarg_ids body =>
      mkClause id name arg_names coarg_names arg_ids coarg_ids
        (subst_stmt body (list_to_set arg_ids ∪ bound_vars)
                    (list_to_set coarg_ids ∪ bound_covars) var_map covar_map)
  end.

(** The map [m] without the keys that [bound] holds. *)
Definition unbound {A} (bound : gset nat) (m : gmap nat A) : gmap nat A :=
  filter (fun kv => kv.1 ∉ bound) m.

Lemma unbound_lookup {A} (bound : gset nat) (m : gmap nat A) (k : nat) :
  unbound bound m !! k = if decide (k ∈ bound) then None else m !! k.
Proof.
  unfold unbound. destruct (decide (k ∈ bound)) as [Hk|Hk].
  - apply map_lookup_filter_None. right. intros x _. simpl. tauto.
  - destruct (m !! k) as [x|] eqn:Hx.
    + by apply map_lookup_filter_Some.
    + apply map_lookup_filter_None. by left.
Qed.

Lemma unbound_empty {A} (m : gmap nat A) : unbound ∅ m = m.
Proof.
  apply map_eq. intros k. rewrite unbound_lookup.
  destruct (decide (k ∈ (∅ : gset nat))) as [Hk|]; [set_solver|done].
Qed.

Lemma delete_unbound {A} (bound : gset nat) (m : gmap nat A) (k : nat) :
  delete k (unbound bound m) = unbound ({[k]} ∪ bound) m.
Proof.
  apply map_eq. intros j. rewrite lookup_delete, !unbound_lookup.
  destruct (decide (k = j)) as [->|Hne].
  - rewrite decide_True; [done|set_solver].
  - destruct (decide (j ∈ bound)).
    + rewrite decide_True; [done|set_solver].
    + rewrite decide_False; [done|set_solver].
Qed.

Lemma foldl_delete_unbound {A} (ids : list nat) (bound : gset nat)
      (m : gmap nat A) :
  foldl (fun m id => delete id m) (unbound bound m) ids =
  unbound (list_to_set ids ∪ bound) m.
Proof.
  revert bound. induction ids as [|id ids IH]; intros bound; simpl.
  - f_equal. set_solver.
  - rewrite delete_unbound, IH. f_equal. set_solver.
Qed.

Lemma map_ext_Forall {A B} (f g : A → B) (l : list A) :
  Forall (fun x => f x = g x) l → List.map f l = List.map g l.
Proof. induction 1; simpl; congruence. Qed.

Lemma replace_unbound :
  (∀ p bv bc vm cm,
     replace_prod p (unbound bv vm) (unbound bc cm) = subst_prod p bv bc vm cm) ∧
  (∀ c bv bc vm cm,
     replace_cons c (unbound bv vm) (unbound bc cm) = subst_cons c bv bc vm cm) ∧
  (∀ s bv bc vm cm,
     replace_stmt s (unbound bv vm) (unbound bc cm) = subst_stmt s bv bc vm cm) ∧
  (∀ cl bv bc vm cm,
     replace_clause cl (unbound bv vm) (unbound bc cm) =
     subst_clause cl bv bc vm cm).
Proof.
  apply Syntax.syntax_ind; simpl.
  - intros id name type bv bc vm cm.
    rewrite unbound_lookup. by destruct (decide (id ∈ bv)).
  - done.
  - intros id name body type IH bv bc vm cm. by rewrite delete_unbound, IH.
  - intros id name args coargs flag type IHa IHc bv bc vm cm.
    f_equal; apply map_ext_Forall.
    + eapply Forall_impl; [exact IHa|]. intros a Ha. apply Ha.
    + eapply Forall_impl; [exact IHc|]. intros a Ha. apply Ha.
  - intros clauses type IH bv bc vm cm. f_equal; apply map_ext_Forall.
    eapply Forall_impl; [exact IH|]. intros a Ha. apply Ha.
  - intros id name type bv bc vm cm.
    rewrite unbound_lookup. by destruct (decide (id ∈ bc)).
  - intros id name body type IH bv bc vm cm. by rewrite delete_unbound, IH.
  - intros id name args coargs type IHa IHc bv bc vm cm.
    f_equal; apply map_ext_Forall.
    + eapply Forall_impl; [exact IHa|]. intros a Ha. apply Ha.
    + eapply Forall_impl; [exact IHc|]. intros a Ha. apply Ha.
  - intros clauses type IH bv bc vm cm. f_equal; apply map_ext_Forall.
    eapply Forall_impl; [exact IH|]. intros a Ha. apply Ha.
  - done.
  - intros op l r after IHl IHr IHa bv bc vm cm. by rewrite IHl, IHr, IHa.
  - intros c z o IHc IHz IHo bv bc vm cm. by rewrite IHc, IHz, IHo.
  - intros p c IHp IHc bv bc vm cm. by rewrite IHp, IHc.
  - intros id name args coargs IHa IHc bv bc vm cm.
    f_equal; apply map_ext_Forall.
    + eapply Forall_impl; [exact IHa|]. intros a Ha. apply Ha.
    + eapply Forall_impl; [exact IHc|]. intros a Ha. apply Ha.
  - intros id name an cn ai ci body IH bv bc vm cm.
    by rewrite !foldl_delete_unbound, IH.
Qed.

(** C10. [replace] is the simultaneous substitution: on every producer,
    consumer, statement and clause it replaces exactly the occurrences of
    mapped ids that no enclosing mu, mu' or clause binds, by the mapped value
    as it is; the inserted copy is not traversed. *)
Theorem replace_is_simultaneous :
  (∀ p var_map covar_map,
     replace_prod p var_map covar_map = subst_prod p ∅ ∅ var_map covar_map) ∧
  (∀ c var_map covar_map,
     replace_cons c var_map covar_map = subst_cons c ∅ ∅ var_map covar_map) ∧
  (∀ s var_map covar_map,
     replace_stmt s var_map covar_map = subst_stmt s ∅ ∅ var_map covar_map) ∧
  (∀ cl var_map covar_map,
     replace_clause cl var_map covar_map =
     subst_clause cl ∅ ∅ var_map covar_map) ∧
  (∀ var_id name type q var_map covar_map,
     var_map !! var_id = Some q →
     replace_prod (Variable_prod var_id name type) var_map covar_map = q) ∧
  (∀ covar_id name type k var_map covar_map,
     covar_map !! covar_id = Some k →
     replace_cons (Covariable_cons covar_id name type) var_map covar_map = k).
Proof.
  destruct replace_unbound as (Hp & Hc & Hs & Hcl).
  split_and!.
  - intros p vm cm. by rewrite <- Hp, !unbound_empty.
  - intros c vm cm. by rewrite <- Hc, !unbound_empty.
  - intros s vm cm. by rewrite <- Hs, !unbound_empty.
  - intros cl vm cm. by rewrite <- Hcl, !unbound_empty.
  - intros id name type q vm cm Hq. simpl. by rewrite Hq.
  - intros id name type k vm cm Hk. simpl. by rewrite Hk.
Qed.

(** An inserted value that mentions a mapped id keeps it: substituting
    [x := y] and [y := 5] at once in [[x <END>]] gives [[y <END>]]. *)
Lemma replace_not_iterated :
  replace_stmt (Cut_stmt (Variable_prod 0 "x" None) (End_cons None))
               {[0 := Variable_prod 1 "y" None; 1 := Value_prod 5 None]} ∅ =
  Cut_stmt (Variable_prod 1 "y" None) (End_cons None).
Proof. reflexivity. Qed.

(** A binder of the same id shadows the map. *)
Lemma replace_shadowed :
  replace_stmt
    (Cut_stmt (Variable_prod 0 "x" None)
              (Mu_cons 0 "x"
                       (Cut_stmt (Variable_prod 0 "x" None) (End_cons None))
                       None))
    {[0 := Value_prod 5 None]} ∅ =
  Cut_stmt (Value_prod 5 None)
           (Mu_cons 0 "x" (Cut_stmt (Variable_prod 0 "x" None) (End_cons None))
                    None).
Proof. reflexivity. Qed.

End Substitution.

(* ===================================================================== *)
(** * The pipeline on an empty program *)
(* ===================================================================== *)

Module EmptyProgram.
Import Types AST Parser.

(** The default typing context, evaluated. *)
Definition default_ctx : Typing_context :=
  Eval vm_compute in
    match default_typing_context with
    | Some ctx => ctx
    | None => empty_typing_context
    end.

Lemma default_typing_context_eq : default_typing_context = Some default_ctx.
Proof. vm_compute. reflexivity. Qed.

(** A text that consists of white space only. *)
Fixpoint all_whitespace (text : string) : bool :=
  match text with
  | EmptyString => true
  | String c rest => isspace_char c && all_whitespace rest
  end.

Lemma skip_whitespace_buffer_all text line :
  all_whitespace text = true →
  ∃ line', skip_whitespace_buffer text line = (EmptyString, line', true).
Proof.
  revert line. induction text as [|c rest IH]; intros line; simpl.
  - eauto.
  - intros [Hc Hrest]%andb_prop. rewrite Hc. by apply IH.
Qed.

Lemma parse_whitespace (p : Parser) (text : string) (fuel : nat) :
  all_whitespace text = true →
  ∃ line, parse_program (S fuel) (p, istream_of text) =
          Ok (mkProgram [] [])
             (set_current_line p line, mkIstream EmptyString true false).
Proof.
  intros Hws.
  destruct (skip_whitespace_buffer_all text (current_line p) Hws)
    as [line Hskip].
  exists line. unfold parse_program, skip_whitespace, istream_of.
  cbn [eofbit failbit buffer]. rewrite Hskip. reflexivity.
Qed.

Lemma ctx_set_current_line (p : Parser) (line : nat) :
  Parser.ctx (set_current_line p line) = Parser.ctx p.
Proof. reflexivity. Qed.

Lemma new_Parser_ctx : Parser.ctx (new_Parser default_ctx) = default_ctx.
Proof. vm_compute. reflexivity. Qed.

Lemma type_empty_program (fuel : nat) :
  Typer.type_program fuel (mkProgram [] []) default_ctx =
  Some (Typer.Typed (mkProgram [] []) default_ctx).
Proof. destruct fuel; vm_compute; reflexivity. Qed.

Lemma run_empty_program (fuel n_vars n_covars : nat) :
  Interpreter.run (S fuel)
    (Interpreter.new_Interpreter n_vars n_covars (mkProgram [] [])) =
  Ok [] (Interpreter.mkInterpreter true n_vars n_covars [] []).
Proof. reflexivity. Qed.

(** C9. On a text of white space only, the empty text included,
    [parse_program] returns the program without definitions and statements;
    the typer accepts it, [run] returns no result, and [main] exits with
    code 0. *)
Theorem whitespace_program_runs (text : string) (fuel : nat) :
  all_whitespace text = true →
  (∃ st, parse_program (S fuel) (new_Parser default_ctx, istream_of text) =
         Ok (mkProgram [] []) st ∧
         Parser.ctx st.1 = default_ctx) ∧
  Typer.type_program (S fuel) (mkProgram [] []) default_ctx =
    Some (Typer.Typed (mkProgram [] []) default_ctx) ∧
  (∀ n_vars n_covars,
     ∃ i, Interpreter.run (S fuel)
            (Interpreter.new_Interpreter n_vars n_covars (mkProgram [] [])) =
          Ok [] i) ∧
  Lammm.main (S fuel) text = Some (Lammm.Exit 0, []).
Proof.
  intros Hws.
  destruct (parse_whitespace (new_Parser default_ctx) text fuel Hws)
    as [line Hparse].
  split_and!.
  - eexists. split; [exact Hparse|]. cbn [fst].
    rewrite ctx_set_current_line. exact new_Parser_ctx.
  - apply type_empty_program.
  - intros n_vars n_covars. eexists. apply run_empty_program.
  - unfold Lammm.main. rewrite default_typing_context_eq.
    cbv zeta. rewrite Hparse. cbv beta iota.
    rewrite ctx_set_current_line, new_Parser_ctx, type_empty_program.
    cbv beta iota. rewrite run_empty_program. reflexivity.
Qed.

Lemma whitespace_program_runs_witness :
  (∃ st, parse_program 1 (new_Parser default_ctx,
                          istream_of (String " " (String "010" EmptyString))) =
         Ok (mkProgram [] []) st ∧
         Parser.ctx st.1 = default_ctx) ∧
  Typer.type_program 1 (mkProgram [] []) default_ctx =
    Some (Typer.Typed (mkProgram [] []) default_ctx) ∧
  (∀ n_vars n_covars,
     ∃ i, Interpreter.run 1
            (Interpreter.new_Interpreter n_vars n_covars (mkProgram [] [])) =
          Ok [] i) ∧
  Lammm.main 1 (String " " (String "010" EmptyString)) = Some (Lammm.Exit 0, []).
Proof.
  apply (whitespace_program_runs (String " " (String "010" EmptyString)) 0).
  reflexivity.
Defined.

End EmptyProgram.

(* ===================================================================== *)
(** * The store of the default typing context *)
(* ===================================================================== *)

Module DefaultStore.
Import Types TypeStore.

(** The conditions of [slot_ranked], computed. *)
Definition slot_ranked_b (rk : nat → nat) (s : store) (h : nat)
           (ti : Type_instance) : bool :=
  match ti with
  | Type_var _ => true
  | Forwarded t => (t <? length s) && (rk t <? rk h)
  | Concrete_type tid ps =>
      forallb (fun p => (p <? length s) && (rk p <? rk h)) ps &&
      forallb (fun ti2 => match ti2 with
                          | Concrete_type tid2 qs =>
                              negb (tid =? tid2) || (length ps =? length qs)
                          | _ => true
                          end) s
  end.

Fixpoint ranked_from (rk : nat → nat) (s : store) (h : nat)
         (slots : list Type_instance) : bool :=
  match slots with
  | [] => true
  | ti :: rest => slot_ranked_b rk s h ti && ranked_from rk s (S h) rest
  end.

Lemma slot_ranked_b_spec rk s h ti :
  slot_ranked_b rk s h ti = true → slot_ranked rk s h ti.
Proof.
  destruct ti as [i|tid ps|t]; simpl.
  - done.
  - intros [Hps Hs]%andb_prop. split.
    + rewrite forallb_forall in Hps. apply Forall_forall. intros p Hp.
      apply list_elem_of_In, Hps, andb_prop in Hp as [Hlt Hrk].
      apply Nat.ltb_lt in Hlt, Hrk. done.
    + rewrite forallb_forall in Hs. apply Forall_forall. intros ti2 Hti2.
      apply list_elem_of_In, Hs in Hti2. destruct ti2 as [|tid2 qs|]; try done.
      intros ->. rewrite Nat.eqb_refl in Hti2. by apply Nat.eqb_eq.
  - intros [Hlt Hrk]%andb_prop. by apply Nat.ltb_lt in Hlt, Hrk.
Qed.

Lemma ranked_from_spec rk s slots h :
  ranked_from rk s h slots = true →
  ∀ k ti, slots !! k = Some ti → slot_ranked rk s (h + k) ti.
Proof.
  revert h. induction slots as [|ti0 rest IH]; intros h; simpl; [done|].
  intros [H0 Hrest]%andb_prop [|k] ti Hk; simpl in Hk.
  - injection Hk as <-. rewrite Nat.add_0_r. by apply slot_ranked_b_spec.
  - replace (h + S k) with (S h + k) by lia. by apply IH.
Qed.

Lemma ranked_b_spec rk s : ranked_from rk s 0 s = true → ranked rk s.
Proof. intros H h ti Hh. by apply (ranked_from_spec rk s s 0 H h ti). Qed.

(** In the default store the parameters of every concrete type are type
    variables: concrete types get the rank 1 and type variables the rank 0. *)
Definition default_rank (h : nat) : nat :=
  match types EmptyProgram.default_ctx !! h with
  | Some (Concrete_type _ _) => 1
  | _ => 0
  end.

(** The store that [default_typing_context] builds is well-formed. *)
Lemma default_store_ok : store_ok (types EmptyProgram.default_ctx).
Proof.
  apply (ranked_ok default_rank), ranked_b_spec. vm_compute. reflexivity.
Qed.

End DefaultStore.

(* ===================================================================== *)
(** * The parser: totality of clause lists *)
(* ===================================================================== *)

Module ClauseTotality.
Import Types AST Parser.

Definition clause_ids (clauses : list Clause) : list nat :=
  clause_abstraction_id <$> clauses.

(** The loop over the clauses succeeds exactly on a list without repetition
    of structors that are all expected, and leaves the expected structors
    that no clause names. *)
Lemma check_clauses_inr clauses expected remaining :
  check_clauses clauses expected = inr remaining ↔
  NoDup (clause_ids clauses) ∧
  Forall (fun id => id ∈ expected) (clause_ids clauses) ∧
  remaining = expected ∖ list_to_set (clause_ids clauses).
Proof.
  revert expected. induction clauses as [|cl rest IH]; intros expected; simpl.
  - split.
    + intros [= <-]. split_and!; [constructor|constructor|set_solver].
    + intros (_ & _ & ->). f_equal. set_solver.
  - destruct (decide (clause_abstraction_id cl ∈ expected)) as [Hin|Hin].
    + rewrite IH. rewrite NoDup_cons, Forall_cons. split.
      * intros (Hnd & Hall & ->). split_and!; try done.
        -- intros Hdup. rewrite Forall_forall in Hall.
           specialize (Hall _ Hdup). set_solver.
        -- eapply Forall_impl; [exact Hall|]. set_solver.
        -- set_solver.
      * intros ([Hnotin Hnd] & [_ Hall] & ->). split_and!; try done.
        -- rewrite Forall_forall in Hall |- *. intros id Hid.
           specialize (Hall id Hid). set_solver.
        -- set_solver.
    + split; [done|]. intros (_ & Hall & _).
      by apply Forall_cons in Hall as [? _].
Qed.

Lemma check_clauses_inl clauses expected clause :
  check_clauses clauses expected = inl clause → clause ∈ clauses.
Proof.
  revert expected. induction clauses as [|cl rest IH]; intros expected; simpl;
    [done|].
  destruct (decide (clause_abstraction_id cl ∈ expected)).
  - intros H. right. by eapply IH.
  - intros [= <-]. left.
Qed.

(** The two names that [parse_clauses] chooses by the polarity. *)
Definition clause_kind (p : Syntax_polarity) : string :=
  match p with
  | producer => Names.AST.cocase_clause
  | _ => Names.AST.case_clause
  end.

Definition expression_kind (p : Syntax_polarity) : string :=
  match p with producer => Names.AST.cocase | _ => Names.AST.case_ end.

(** The clauses are total for the structor set [expected]: every clause is
    for a structor of the set, no structor has two clauses, and every structor
    of the set has a clause. *)
Definition total (expected : gset nat) (clauses : list Clause) : Prop :=
  Forall (fun id => id ∈ expected) (clause_ids clauses) ∧
  NoDup (clause_ids clauses) ∧
  ∀ id, id ∈ expected → id ∈ clause_ids clauses.

Lemma total_Permutation expected clauses :
  total expected clauses → clause_ids clauses ≡ₚ elements expected.
Proof.
  intros (Hall & Hnd & Hcover). apply NoDup_Permutation.
  - done.
  - apply NoDup_elements.
  - intros id. rewrite elem_of_elements. split; [|by apply Hcover].
    rewrite Forall_forall in Hall. by apply Hall.
Qed.

(** [check_totality] on a list that is not empty, by cases. *)
Lemma check_totality_cons ctx current_line start_line kind first rest expected :
  structors_like ctx (clause_abstraction_id first) = Some expected →
  (total expected (first :: rest) ∧
   check_totality ctx current_line start_line kind (first :: rest) =
     inr (first :: rest)) ∨
  (¬ total expected (first :: rest) ∧
   ∃ message,
     check_totality ctx current_line start_line kind (first :: rest) =
       inl (Parse_error current_line start_line kind message)).
Proof.
  intros Hexp. unfold check_totality. rewrite Hexp.
  destruct (check_clauses (first :: rest) expected) as [cl|remaining] eqn:Hc.
  - right. split; [|by eexists]. intros (Hall & Hnd & _).
    assert (check_clauses (first :: rest) expected =
            inr (expected ∖ list_to_set (clause_ids (first :: rest)))) as Hc'
      by by apply check_clauses_inr.
    congruence.
  - apply check_clauses_inr in Hc as (Hnd & Hall & ->).
    destruct (decide (expected ∖ list_to_set (clause_ids (first :: rest)) = ∅))
      as [Hempty|Hne].
    + left. split; [|done]. split_and!; try done.
      intros id Hid. destruct (decide (id ∈ clause_ids (first :: rest)));
        [done|]. set_solver.
    + right. split; [|by eexists]. intros (_ & _ & Hcover). destruct Hne.
      apply set_eq. intros id. rewrite elem_of_difference, elem_of_list_to_set.
      split; [|set_solver]. intros [Hid Hnot]. destruct Hnot. by apply Hcover.
Qed.

Lemma parse_clauses_eq rec fuel p start_line st :
  parse_clauses rec fuel p start_line st =
  let* (clauses, st) :=
    parse_list (parse_clause rec fuel p) fuel (clause_kind p) st in
  match check_totality (Parser.ctx st.1) (current_line st.1) start_line
                       (expression_kind p) clauses with
  | inl e => Throw e st
  | inr clauses => Ok clauses st
  end.
Proof. reflexivity. Qed.

(** C4. Once the clauses of a case or cocase are read, [parse_clauses]
    returns them exactly when the list is not empty and total for the
    structor set of the first clause's type; the clause ids are then that set
    as a multiset.  On an empty list, and on a list that is not total, it
    throws a parse error. *)
Theorem clause_list_total
        (rec : parsers) (fuel : nat) (p : Syntax_polarity) (start_line : nat)
        (st st1 : pstate) (clauses : list Clause) :
  parse_list (parse_clause rec fuel p) fuel (clause_kind p) st =
    Ok clauses st1 →
  (∀ first, head clauses = Some first →
            is_Some (structors_like (Parser.ctx st1.1)
                                    (clause_abstraction_id first))) →
  (parse_clauses rec fuel p start_line st = Ok clauses st1 ↔
   ∃ first expected,
     head clauses = Some first ∧
     structors_like (Parser.ctx st1.1) (clause_abstraction_id first) =
       Some expected ∧
     total expected clauses) ∧
  (parse_clauses rec fuel p start_line st = Ok clauses st1 →
   ∃ first,
     head clauses = Some first ∧
     structors_like (Parser.ctx st1.1) (clause_abstraction_id first) =
       Some (list_to_set (clause_ids clauses)) ∧
     ∀ expected,
       structors_like (Parser.ctx st1.1) (clause_abstraction_id first) =
         Some expected →
       clause_ids clauses ≡ₚ elements expected) ∧
  (parse_clauses rec fuel p start_line st = Ok clauses st1 ∨
   ∃ message,
     parse_clauses rec fuel p start_line st =
       Throw (Parse_error (current_line st1.1) start_line (expression_kind p)
                          message) st1) ∧
  (clauses = [] →
   parse_clauses rec fuel p start_line st =
     Throw (Parse_error (current_line st1.1) start_line (expression_kind p)
                        "empty clause list") st1).
Proof.
  intros Hlist Hknown. rewrite parse_clauses_eq, Hlist. cbn [bind].
  destruct clauses as [|first rest].
  { split_and!.
    - split; [done|]. by intros (? & ? & ? & _).
    - done.
    - right. by eexists.
    - done. }
  destruct (Hknown first eq_refl) as [expected Hexp].
  destruct (check_totality_cons (Parser.ctx st1.1) (current_line st1.1)
              start_line (expression_kind p) first rest expected Hexp)
    as [[Htotal ->]|[Hnot [message ->]]].
  - split_and!.
    + split; [|done]. intros _. by exists first, expected.
    + intros _. exists first. split_and!; [done| |].
      * rewrite Hexp. f_equal. apply set_eq. intros id.
        rewrite elem_of_list_to_set. destruct Htotal as (Hall & _ & Hcover).
        rewrite Forall_forall in Hall. split; [apply Hcover|apply Hall].
      * intros expected' Hexp'. rewrite Hexp in Hexp'.
        injection Hexp' as <-. by apply total_Permutation.
    + by left.
    + done.
  - split_and!.
    + split; [done|]. intros (first' & expected' & [= <-] & Hexp' & Htotal).
      rewrite Hexp in Hexp'. by simplify_eq.
    + done.
    + right. by eexists.
    + done.
Qed.

Lemma clause_list_total_witness :
  ∃ clauses st1,
    parse_list (parse_clause (parsers_at 5) 5 consumer) 5 (clause_kind consumer)
      (new_Parser EmptyProgram.default_ctx,
       istream_of "((Cons (x xs) [x <END>]) (Nil [1 <END>]))") =
      Ok clauses st1 ∧
    clause_ids clauses = [Builtin_abstraction_id.list_cons;
                          Builtin_abstraction_id.list_nil] ∧
    (parse_clauses (parsers_at 5) 5 consumer 1
       (new_Parser EmptyProgram.default_ctx,
        istream_of "((Cons (x xs) [x <END>]) (Nil [1 <END>]))") =
       Ok clauses st1 ↔
     ∃ first expected,
       head clauses = Some first ∧
       structors_like (Parser.ctx st1.1) (clause_abstraction_id first) =
         Some expected ∧
       total expected clauses) ∧
    (parse_clauses (parsers_at 5) 5 consumer 1
       (new_Parser EmptyProgram.default_ctx,
        istream_of "((Cons (x xs) [x <END>]) (Nil [1 <END>]))") =
       Ok clauses st1 →
     ∃ first,
       head clauses = Some first ∧
       structors_like (Parser.ctx st1.1) (clause_abstraction_id first) =
         Some (list_to_set (clause_ids clauses)) ∧
       ∀ expected,
         structors_like (Parser.ctx st1.1) (clause_abstraction_id first) =
           Some expected →
         clause_ids clauses ≡ₚ elements expected) ∧
    (parse_clauses (parsers_at 5) 5 consumer 1
       (new_Parser EmptyProgram.default_ctx,
        istream_of "((Cons (x xs) [x <END>]) (Nil [1 <END>]))") =
       Ok clauses st1 ∨
     ∃ message,
       parse_clauses (parsers_at 5) 5 consumer 1
         (new_Parser EmptyProgram.default_ctx,
          istream_of "((Cons (x xs) [x <END>]) (Nil [1 <END>]))") =
         Throw (Parse_error (current_line st1.1) 1 (expression_kind consumer)
                            message) st1) ∧
    (clauses = [] →
     parse_clauses (parsers_at 5) 5 consumer 1
       (new_Parser EmptyProgram.default_ctx,
        istream_of "((Cons (x xs) [x <END>]) (Nil [1 <END>]))") =
       Throw (Parse_error (current_line st1.1) 1 (expression_kind consumer)
                          "empty clause list") st1).
Proof.
  eexists _, _. split; [vm_compute; reflexivity|]. split; [reflexivity|].
  apply clause_list_total.
  - vm_compute. reflexivity.
  - intros first Hfirst. cbn [head] in Hfirst. injection Hfirst as <-.
    vm_compute. eauto.
Defined.

End ClauseTotality.

(* ===================================================================== *)
(** * The interpreter: the driver *)
(* ===================================================================== *)

Module Driver.
Import AST Interpreter.

(** A run that has returned its results has set [finished]: every later
    call throws [Already_run_exception]. *)
Lemma run_twice_after_results fuel i results i' :
  run fuel i = Ok results i' →
  ∀ fuel', run fuel' i' = Throw Already_run_exception i'.
Proof.
  unfold run. destruct (finished i); [done|].
  destruct (run_statements fuel (length (statements i)) 0 [] i)
    as [rs i1| | |]; simpl; try done.
  intros [= _ <-] fuel'. done.
Qed.

(** The program [[(Nil) (Head (<END>))]]: a constructor is cut against a
    destructor, a statement that no rule reduces.  The typer rejects it; the
    parser accepts it. *)
Definition stuck_text : string := "[(Nil) (Head (<END>))]".

Definition stuck_statement : Statement :=
  Cut_stmt (Constructor_prod Types.Builtin_abstraction_id.list_nil "Nil"
                             [] [] None None)
           (Destructor_cons Types.Builtin_abstraction_id.stream_head "Head"
                            [] [End_cons None] None).

Definition stuck_program : Program := mkProgram [] [stuck_statement].

Lemma stuck_program_parsed :
  ∃ st, Parser.parse_program 5 (Parser.new_Parser EmptyProgram.default_ctx,
                                Parser.istream_of stuck_text) =
        Ok stuck_program st ∧
        Parser.n_vars_ st.1 = 0 ∧ Parser.n_covars_ st.1 = 0.
Proof. eexists. split; [vm_compute; reflexivity|]. split; reflexivity. Qed.

(** The statement as the exception reports it: [is_value] has written the
    flag of the constructor. *)
Definition stuck_statement_seen : Statement :=
  Cut_stmt (Constructor_prod Types.Builtin_abstraction_id.list_nil "Nil"
                             [] [] (Some true) None)
           (Destructor_cons Types.Builtin_abstraction_id.stream_head "Head"
                            [] [End_cons None] None).

(** C7, at the failing input.  The first run of the interpreter of
    [stuck_program] ends with the stuck-computation exception and leaves
    [finished] unset, because [run] sets it only before it returns its
    results.  The second run therefore passes the guard; it does not throw
    [Already_run_exception], and goes on to the statement that the first run
    has moved out. *)
Theorem run_after_stuck_is_not_refused :
  ∃ i1,
    run 2 (new_Interpreter 0 0 stuck_program) =
      Throw (Stuck_computation_exception stuck_statement_seen) i1 ∧
    finished i1 = false ∧
    statements i1 = [None] ∧
    ∀ fuel, run fuel i1 = Undefined ∧
            run fuel i1 ≠ Throw Already_run_exception i1.
Proof.
  eexists. split_and!; [reflexivity|reflexivity|reflexivity|].
  intros fuel. split; [reflexivity|done].
Qed.

End Driver.

(* ===================================================================== *)
(** * The typer: recursive calls are not generalised *)
(* ===================================================================== *)

Module PolymorphicRecursion.
Import Types AST Typer.

(** ** Instantiation makes new slots *)






(** The handles of an instance: arguments, coarguments and the type. *)
Definition handles (instance : Abstraction_instance) : list Type_handle :=
  args instance ++ coargs instance ++
  match type instance with Some t => [t] | None => [] end.


(** ** The body of a definition is checked with [current_definition] set *)

Lemma fresh_vars_current ids t t' :
  fresh_vars ids t = Ok tt t' → current_definition t' = current_definition t.
Proof.
  revert t. induction ids as [|id rest IH]; intros t; simpl.
  - by intros [= <-].
  - unfold fresh_var. destruct (var_types t !! id); [done|].
    destruct (ctx_fresh_type_variable (ctx t)) as [v ctx']. simpl.
    intros H. by rewrite (IH _ H).
Qed.

Lemma fresh_covars_current ids t t' :
  fresh_covars ids t = Ok tt t' → current_definition t' = current_definition t.
Proof.
  revert t. induction ids as [|id rest IH]; intros t; simpl.
  - by intros [= <-].
  - unfold fresh_covar. destruct (covar_types t !! id); [done|].
    destruct (ctx_fresh_type_variable (ctx t)) as [v ctx']. simpl.
    intros H. by rewrite (IH _ H).
Qed.







(** ** The programs *)




End PolymorphicRecursion.

(* ===================================================================== *)
(** * The parser: names of variables and covariables *)
(* ===================================================================== *)

Module Identifiers.
Import Types AST Parser.

(** ** Words *)

(** The characters at which [read_word] stops. *)
Definition delimiter (c : ascii) : bool :=
  Ascii.eqb c Names.open_paren || Ascii.eqb c Names.close_paren ||
  Ascii.eqb c Names.open_square || Ascii.eqb c Names.close_square ||
  isspace_char c.

(** The identifiers of the specification: words of characters that are not
    white space, parentheses or square brackets. *)
Fixpoint identifier (name : string) : bool :=
  match name with
  | EmptyString => true
  | String c rest => negb (delimiter c) && identifier rest
  end.


(** A good stream on a buffer. *)
Definition input (buf : string) : istream := mkIstream buf false false.

Lemma delimiter_space c : delimiter c = false → isspace_char c = false.
Proof. unfold delimiter. by intros (_ & ?)%orb_false_elim. Qed.

Lemma set_current_line_id p : set_current_line p (current_line p) = p.
Proof. by destruct p. Qed.

Lemma append_EmptyString (s : string) : (EmptyString ++ s)%string = s.
Proof. reflexivity. Qed.

Lemma append_String c (s t : string) :
  (String c s ++ t)%string = String c (s ++ t)%string.
Proof. reflexivity. Qed.

Lemma read_word_buffer_cons c rest :
  read_word_buffer (String c rest) None =
  if delimiter c then (EmptyString, String c rest, false)
  else let '(word, buf', at_end) := read_word_buffer rest None in
       (String c word, buf', at_end).
Proof. reflexivity. Qed.


Lemma skip_whitespace_word p c rest :
  isspace_char c = false →
  skip_whitespace (p, input (String c rest)) = (p, input (String c rest)).
Proof.
  intros Hc. unfold skip_whitespace, input.
  cbn [eofbit failbit buffer skip_whitespace_buffer]. rewrite Hc.
  by rewrite set_current_line_id.
Qed.


Lemma p_peek_input p c rest :
  p_peek (p, input (String c rest)) = (Some c, (p, input (String c rest))).
Proof. reflexivity. Qed.

Lemma expect_input c context start_line p rest :
  expect c context start_line (p, input (String c rest)) = Ok tt (p, input rest).
Proof.
  unfold expect, p_get, get, input. cbn. by rewrite Ascii.eqb_refl.
Qed.


(** ** The leaves *)

Lemma identifier_first c name :
  identifier (String c name) = true → isspace_char c = false.
Proof.
  cbn [identifier]. by intros [Hc%negb_true_iff%delimiter_space _]%andb_prop.
Qed.









(** ** A binder and a use *)

















Lemma rec_producer_at f :
  rec_producer (parsers_at (S f)) = parse_producer_body (parsers_at f) (S f).
Proof. reflexivity. Qed.






End Identifiers.

(* ===================================================================== *)
(** * The type store: dereferencing *)
(* ===================================================================== *)

Module Dereference.
Import Types TypeStore.

(** The handles that the loop of [try_dereference] passes: [h], and what the
    forwarding links lead to from there. *)
Definition passes (s : store) (h x : Type_handle) : Prop := rtc (forwards s) h x.

Lemma forwards_det s h t1 t2 : forwards s h t1 → forwards s h t2 → t1 = t2.
Proof. unfold forwards. congruence. Qed.

Lemma passes_Find s h x r : passes s h x → Find s h r → Find s x r.
Proof.
  induction 1 as [|h y x Hhy _ IH]; [done|]. intros Hf. apply IH.
  inversion Hf as [? ti Hh Hti|? t ? Hh Hrest]; subst; unfold forwards in Hhy.
  - rewrite Hh in Hhy. by simplify_eq.
  - by simplify_eq.
Qed.

Lemma passes_forwarded s h x r :
  passes s h x → Find s h r → x ≠ r → ∃ t, s !! x = Some (Forwarded t).
Proof.
  intros Hp Hf Hne. pose proof (passes_Find _ _ _ _ Hp Hf) as Hx.
  inversion Hx; subst; [done|eauto].
Qed.

(** The chain that [follow_chain] returns: the forwarding slots it has
    passed, the last of which forwards to the result. *)
Lemma follow_chain_path f s h chain r chain' :
  follow_chain f s h chain = Some (r, chain') →
  ∃ path, chain' = chain ++ path ∧
          (∀ x, x ∈ path ↔ passes s h x ∧ ∃ t, s !! x = Some (Forwarded t)) ∧
          (path = [] → r = h) ∧
          (∀ x, last path = Some x → s !! x = Some (Forwarded r)).
Proof.
  revert h chain. induction f as [|f IH]; intros h chain Hf; [done|].
  simpl in Hf. destruct (s !! h) as [[i|tid ps|t]|] eqn:Hh.
  1,2,4: simplify_eq; exists []; rewrite app_nil_r; split_and!; try done;
    intros x; split; [by intros ?%elem_of_nil|];
    intros [Hp [t Ht]]; inversion Hp as [|? y ? Hy]; subst;
      [by simplify_eq|unfold forwards in Hy; by simplify_eq].
  destruct (IH _ _ Hf) as (path & -> & Hmem & Hnil & Hlast).
  exists (h :: path). split_and!.
  - by rewrite <- app_assoc.
  - intros x. rewrite elem_of_cons, Hmem. split.
    + intros [->|[Hp Hx]].
      * split; [apply rtc_refl|eauto].
      * split; [|done]. eapply rtc_l; [exact Hh|exact Hp].
    + intros [Hp Hx]. inversion Hp as [|? y ? Hy Hrest]; subst; [by left|].
      right. split; [|done]. by rewrite (forwards_det _ _ _ _ Hh Hy).
  - done.
  - intros x Hx. destruct path as [|y path].
    + simpl in Hx. injection Hx as <-. by rewrite (Hnil eq_refl).
    + apply Hlast. exact Hx.
Qed.

Lemma compress_chain_lookup s chain r x :
  Forall (fun y => y < length s) chain →
  compress_chain s chain r !! x =
  if decide (x ∈ chain) then Some (Forwarded r) else s !! x.
Proof.
  unfold compress_chain. revert s.
  induction chain as [|y chain IH]; intros s Hall.
  - destruct (decide (x ∈ [])) as [Hin|_]; [by apply elem_of_nil in Hin|done].
  - apply Forall_cons in Hall as [Hy Hall]. cbn [foldl]. rewrite IH
      by (eapply Forall_impl; [exact Hall|]; intros z; by rewrite length_insert).
    destruct (decide (x ∈ chain)) as [Hin|Hnin].
    + destruct (decide (x ∈ y :: chain)) as [_|Hn]; [done|].
      destruct Hn. by right.
    + destruct (decide (x = y)) as [->|Hne].
      * destruct (decide (y ∈ y :: chain)) as [_|Hn]; [|destruct Hn; by left].
        by apply list_lookup_insert_eq.
      * destruct (decide (x ∈ y :: chain)) as [[?|?]%elem_of_cons|_]; try done.
        by apply list_lookup_insert_ne.
Qed.

Lemma compress_chain_length s chain r :
  length (compress_chain s chain r) = length s.
Proof.
  unfold compress_chain. revert s. induction chain as [|y chain IH]; intros s;
    simpl; [done|]. by rewrite IH, length_insert.
Qed.

Lemma elem_of_removelast_last {A} (l : list A) (x : A) :
  x ∈ l → x ∈ removelast l ∨ last l = Some x.
Proof.
  induction l as [|y l IH]; [by intros ?%elem_of_nil|].
  intros [->|Hin]%elem_of_cons.
  - destruct l; [by right|left; simpl; by left].
  - destruct l as [|z l]; [by apply elem_of_nil in Hin|].
    destruct (IH Hin) as [H|H]; [left; simpl; by right|right; exact H].
Qed.

Lemma elem_of_removelast {A} (l : list A) (x : A) : x ∈ removelast l → x ∈ l.
Proof.
  induction l as [|y l IH]; [done|]. simpl. destruct l as [|z l].
  - by intros ?%elem_of_nil.
  - intros [->|Hin]%elem_of_cons; [by left|right; by apply IH].
Qed.

Lemma passes_unforwarded s h x :
  (∀ t, s !! h ≠ Some (Forwarded t)) → passes s h x → x = h.
Proof.
  intros Hh Hp. inversion Hp as [|? y ? Hy]; subst; [done|].
  by destruct (Hh y).
Qed.

Lemma try_dereference_plain f s h ti :
  s !! h = Some ti → is_forwarded ti = false →
  Find s h h ∧
  length s = length s ∧
  (∀ x, passes s h x → x ≠ h → s !! x = Some (Forwarded h)) ∧
  (∀ x, ¬ passes s h x → s !! x = s !! x) ∧
  s !! h = s !! h ∧
  (∀ f', try_dereference (S (S f')) s h = Ok h s) ∧
  try_dereference_const f s h = Ok h s.
Proof.
  intros Hh Hti. split_and!; try done.
  - by econstructor.
  - intros x Hp Hne. destruct Hne. eapply passes_unforwarded; [|exact Hp].
    intros t Ht. rewrite Hh in Ht. by simplify_eq.
  - intros f'. unfold try_dereference. rewrite Hh. by destruct ti.
  - unfold try_dereference_const. rewrite Hh. by destruct ti.
Qed.

(** X1. A call of [try_dereference] that returns [r] has found the end of
    the chain of forwarding links from [h], and has made every slot on the
    chain forward to [r] directly; no other slot has changed.  Dereferencing
    [h] once more gives [r] again and changes nothing, and the const overload
    gives the same handle without touching the store. *)
Theorem try_dereference_compresses_path
        (f : nat) (s : store) (h r : Type_handle) (s' : store) :
  try_dereference f s h = Ok r s' →
  Find s h r ∧
  length s' = length s ∧
  (∀ x, passes s h x → x ≠ r → s' !! x = Some (Forwarded r)) ∧
  (∀ x, ¬ passes s h x → s' !! x = s !! x) ∧
  s' !! r = s !! r ∧
  (∀ f', try_dereference (S (S f')) s' h = Ok r s') ∧
  try_dereference_const f s h = Ok r s.
Proof.
  intros Hd. pose proof Hd as Hd0. revert Hd.
  unfold try_dereference.
  destruct (s !! h) as [ti|] eqn:Hh; [|done].
  destruct ti as [i|tid ps|t].
  { intros [= <- <-]. by eapply try_dereference_plain. }
  { intros [= <- <-]. by eapply try_dereference_plain. }
  unfold try_dereference_const. rewrite Hh.
  destruct (follow_chain f s h []) as [[r0 chain]|] eqn:Hf; [|done].
  destruct (s !! r0) as [ti|] eqn:Hr; [|done].
  intros [= -> <-].
  destruct (follow_chain_spec _ _ _ _ _ _ _ Hf Hr) as (Hti & Hfind & _).
  destruct (follow_chain_path _ _ _ _ _ _ Hf) as (path & Hchain & Hmem & _ & Hlast).
  simpl in Hchain. subst chain.
  assert (Forall (fun y => y < length s) (removelast path)) as Hlt.
  { apply Forall_forall. intros y Hy%elem_of_removelast.
    apply Hmem in Hy as [_ [t' Ht']]. by eapply lookup_lt_Some. }
  assert (r ∉ path) as Hrpath.
  { intros [_ [t' Ht']]%Hmem. rewrite Hr in Ht'. by simplify_eq. }
  assert (∀ x, passes s h x → x ≠ r →
               compress_chain s (removelast path) r !! x = Some (Forwarded r))
    as Hon.
  { intros x Hp Hne. rewrite compress_chain_lookup by done.
    destruct (decide (x ∈ removelast path)) as [_|Hnin]; [done|].
    destruct (passes_forwarded _ _ _ _ Hp Hfind Hne) as [t' Ht'].
    assert (x ∈ path) as Hin by (apply Hmem; eauto).
    destruct (elem_of_removelast_last _ _ Hin) as [?|Hl]; [done|].
    by apply Hlast. }
  assert (compress_chain s (removelast path) r !! r = s !! r) as Hrr.
  { rewrite compress_chain_lookup by done.
    destruct (decide (r ∈ removelast path)) as [Hin%elem_of_removelast|]; done. }
  split_and!; try done.
  - apply compress_chain_length.
  - intros x Hnp. rewrite compress_chain_lookup by done.
    destruct (decide (x ∈ removelast path)) as [Hin%elem_of_removelast|];
      [|done].
    apply Hmem in Hin as [Hp _]. done.
  - intros f'. unfold try_dereference.
    assert (h ≠ r) as Hne by (intros ->; rewrite Hr in Hh; by simplify_eq).
    rewrite (Hon h (rtc_refl _ _) Hne). cbn [follow_chain].
    rewrite (Hon h (rtc_refl _ _) Hne). cbn [follow_chain].
    rewrite Hrr, Hr. destruct ti; try done; rewrite Hrr, Hr; reflexivity.
Qed.

Definition chained_store : store :=
  [Forwarded 1; Forwarded 2; Concrete_type 0 []; Forwarded 0].

Lemma try_dereference_compresses_path_witness :
  Find chained_store 3 2 ∧
  length [Forwarded 2; Forwarded 2; Concrete_type 0 []; Forwarded 2] =
    length chained_store ∧
  (∀ x, passes chained_store 3 x → x ≠ 2 →
        [Forwarded 2; Forwarded 2; Concrete_type 0 []; Forwarded 2] !! x =
        Some (Forwarded 2)) ∧
  (∀ x, ¬ passes chained_store 3 x →
        [Forwarded 2; Forwarded 2; Concrete_type 0 []; Forwarded 2] !! x =
        chained_store !! x) ∧
  [Forwarded 2; Forwarded 2; Concrete_type 0 []; Forwarded 2] !! 2 =
    chained_store !! 2 ∧
  (∀ f', try_dereference (S (S f'))
           [Forwarded 2; Forwarded 2; Concrete_type 0 []; Forwarded 2] 3 =
         Ok 2 [Forwarded 2; Forwarded 2; Concrete_type 0 []; Forwarded 2]) ∧
  try_dereference_const 5 chained_store 3 = Ok 2 chained_store.
Proof.
  apply (try_dereference_compresses_path 5 chained_store 3 2).
  reflexivity.
Defined.

End Dereference.

(* ===================================================================== *)
(** * The type store: what unification leaves *)
(* ===================================================================== *)

Module Unification.
Import Types TypeStore.

(** X2. A call of [unify] that comes back, with or without an exception,
    keeps the size of the store and every concrete type in its slot, and
    handles that stood for equal types still do; after a call that succeeded
    the two handles stand for equal types. *)
Theorem unify_makes_equal
        (fuel : nat) (s : store) (a b : Strong_type_handle) (s' : store) :
  final_state (unify fuel s a b) = Some s' →
  length s' = length s ∧
  (∀ x y, eqv s x y → eqv s' x y) ∧
  (∀ h tid ps, s !! h = Some (Concrete_type tid ps) →
               s' !! h = Some (Concrete_type tid ps)) ∧
  (unify fuel s a b = Ok tt s' → eqv s' a b).
Proof.
  unfold unify. intros Hfin.
  pose proof (unify_rec_spec fuel s a b) as Hspec.
  assert (ext s s' ∧ (unify_rec fuel s a b = Ok tt s' → eqv s' a b))
    as [Hext Heq].
  { destruct (unify_rec fuel s a b) as [[] s1|e s1| |]; simplify_eq/=.
    - destruct (Hspec I) as [He Hq]. split; [done|]. by intros _.
    - split; [by apply Hspec|done]. }
  split_and!.
  - by apply ext_length.
  - by apply ext_eqv.
  - intros h tid ps. by apply ext_concrete.
  - exact Heq.
Qed.

Lemma unify_makes_equal_witness :
  length [Forwarded 1; Concrete_type 0 []; Concrete_type 1 [0]] =
    length sample_store ∧
  (∀ x y, eqv sample_store x y →
          eqv [Forwarded 1; Concrete_type 0 []; Concrete_type 1 [0]] x y) ∧
  (∀ h tid ps,
     sample_store !! h = Some (Concrete_type tid ps) →
     [Forwarded 1; Concrete_type 0 []; Concrete_type 1 [0]] !! h =
     Some (Concrete_type tid ps)) ∧
  (unify 3 sample_store 0 1 =
     Ok tt [Forwarded 1; Concrete_type 0 []; Concrete_type 1 [0]] →
   eqv [Forwarded 1; Concrete_type 0 []; Concrete_type 1 [0]] 0 1).
Proof.
  apply (unify_makes_equal 3 sample_store 0 1). reflexivity.
Defined.

(** ** The exceptions *)

(** An answer [true] of the occurs check is right. *)
Lemma occurs_params_found
      (rec : store → Type_handle → store_outcome bool) (a : Type_handle) i :
  (∀ s p s', s !! a = Some (Type_var i) → rec s p = Ok true s' →
             compress s s' ∧ occ s a p) →
  (∀ s p s', s !! a = Some (Type_var i) → rec s p = Ok false s' →
             compress s s') →
  ∀ ps s s', s !! a = Some (Type_var i) →
    occurs_params rec a ps s = Ok true s' →
    compress s s' ∧ ∃ p, p ∈ ps ∧ occ s a p.
Proof.
  intros Htrue Hfalse. induction ps as [|p ps IH]; intros s s' Ha; simpl;
    [done|].
  destruct (Nat.eqb_spec p a) as [->|Hne].
  { intros [= <-]. split; [apply compress_refl|]. exists a. split; [by left|].
    apply occ_here. by econstructor. }
  destruct (rec s p) as [found s1| | |] eqn:Hrec; simpl; try done.
  destruct found.
  - intros [= <-]. destruct (Htrue _ _ _ Ha Hrec) as [Hc Ho].
    split; [done|]. exists p. split; [by left|done].
  - intros Hrest. pose proof (Hfalse _ _ _ Ha Hrec) as Hc.
    assert (s1 !! a = Some (Type_var i)) as Ha1
      by by apply (compress_nonfwd s s1).
    destruct (IH _ _ Ha1 Hrest) as (Hc2 & q & Hq & Ho).
    split; [by eapply compress_trans|]. exists q. split; [by right|].
    by apply (compress_occ s s1).
Qed.

Lemma occurs_compress f s a b i found s' :
  s !! a = Some (Type_var i) → occurs f s a b = Ok found s' → compress s s'.
Proof.
  intros Ha Ho. pose proof (occurs_spec f s a b i Ha) as Hspec.
  rewrite Ho in Hspec. by destruct (Hspec I).
Qed.

Lemma occurs_found f s a b i s' :
  s !! a = Some (Type_var i) → occurs f s a b = Ok true s' →
  compress s s' ∧ occ s a b.
Proof.
  revert s b s'. induction f as [|f IH]; intros s b s' Ha; [done|].
  intros Ho. split; [by eapply occurs_compress|]. revert Ho. simpl.
  rewrite Ha.
  pose proof (try_dereference_cases f s b) as Hd.
  destruct (try_dereference f s b) as [b' s1| | |]; simpl; try done.
  destruct Hd as [Hfb Hc].
  assert (s1 !! a = Some (Type_var i)) as Ha1
    by by apply (compress_nonfwd s s1).
  destruct (s1 !! b') as [[j|tid ps|t]|] eqn:Hb'; simpl; try done.
  - intros [= Heq%Nat.eqb_eq _]. subst b'. by apply occ_here.
  - intros Hps.
    assert (∀ s2 p s3, s2 !! a = Some (Type_var i) →
                       occurs f s2 a p = Ok true s3 →
                       compress s2 s3 ∧ occ s2 a p) as Htrue
      by (intros s2 p s3 Ha2 H; by apply IH).
    assert (∀ s2 p s3, s2 !! a = Some (Type_var i) →
                       occurs f s2 a p = Ok false s3 → compress s2 s3) as Hfalse
      by (intros s2 p s3 Ha2 H; by eapply occurs_compress).
    destruct (occurs_params_found (fun ts param => occurs f ts a param) a i
                Htrue Hfalse ps s1 s' Ha1 Hps) as (_ & p & Hp & Hocc).
    apply (compress_occ s s1) in Hocc; [|done].
    eapply occ_child; [|exact Hocc]. exists b', tid, ps.
    split_and!; [done| |done]. by apply (compress_concrete s s1).
Qed.

(** What an exception of [unify] says about the store it leaves. *)
Definition justified (s : store) (e : Unification_exception) : Prop :=
  match kind e with
  | occurs_kind =>
      (∃ i, s !! exn_a e = Some (Type_var i)) ∧
      (∃ tid ps, s !! exn_b e = Some (Concrete_type tid ps)) ∧
      occ s (exn_a e) (exn_b e)
  | mismatch =>
      ∃ ta pa tb pb,
        s !! exn_a e = Some (Concrete_type ta pa) ∧
        s !! exn_b e = Some (Concrete_type tb pb) ∧ ta ≠ tb
  end.

Lemma unify_params_justified
      (rec : store → Type_handle → Type_handle → store_outcome unit) :
  (∀ s a b e s', rec s a b = Throw e s' → justified s' e) →
  ∀ ps qs s e s', unify_params rec ps qs s = Throw e s' → justified s' e.
Proof.
  intros Hrec. induction ps as [|p ps IH]; intros [|q qs] s e s'; simpl;
    try done.
  destruct (rec s p q) as [[] s1|e1 s1| |] eqn:Hpq; simpl; try done.
  - apply IH.
  - intros [= <- <-]. by eapply Hrec.
Qed.

Lemma bind_var_justified f s x y i tid ps e s' :
  s !! x = Some (Type_var i) → s !! y = Some (Concrete_type tid ps) →
  bind_var f s x y = Throw e s' → justified s' e.
Proof.
  intros Hx Hy. unfold bind_var.
  pose proof (occurs_spec f s x y i Hx) as Hspec.
  destruct (occurs f s x y) as [found s1|e1 s1| |] eqn:Ho; simpl; try done;
    [|by destruct (Hspec I)].
  clear Hspec. destruct found; [|done]. intros [= <- <-].
  destruct (occurs_found _ _ _ _ _ _ Hx Ho) as [Hc Hocc].
  unfold justified. cbn [kind exn_a exn_b]. split_and!.
  - exists i. by apply (compress_nonfwd s s1).
  - exists tid, ps. by apply (compress_concrete s s1).
  - by apply (compress_occ s s1).
Qed.

Lemma bind_var_vars f s x y i j :
  s !! x = Some (Type_var i) → s !! y = Some (Type_var j) → x ≠ y →
  ∀ e s', bind_var f s x y ≠ Throw e s'.
Proof.
  intros Hx Hy Hxy e s'. unfold bind_var. destruct f as [|f]; [done|].
  simpl. rewrite Hx. unfold try_dereference. rewrite Hy. simpl. rewrite Hy.
  destruct (Nat.eqb_spec x y); done.
Qed.

Lemma unify_rec_justified f s a b e s' :
  unify_rec f s a b = Throw e s' → justified s' e.
Proof.
  revert s a b e s'. induction f as [|f IH]; intros s a b e s'; [done|].
  simpl.
  pose proof (try_dereference_cases f s a) as Hda.
  destruct (try_dereference f s a) as [a' s1| | |]; simpl; try done.
  destruct Hda as [Hfa Hc1].
  pose proof (try_dereference_cases f s1 b) as Hdb.
  destruct (try_dereference f s1 b) as [b' s2| | |]; simpl; try done.
  destruct Hdb as [Hfb Hc2].
  apply (compress_Find s1 s2) in Hfb; [|done].
  destruct (Nat.eqb_spec a' b') as [->|Hne]; [done|].
  destruct (s2 !! b') as [[j|tidb psb|t]|] eqn:Hb'.
  - rewrite Hb'. change (bind_var f s2 b' a' = Throw e s' → justified s' e).
    destruct (s2 !! a') as [[i|tida psa|t]|] eqn:Ha'.
    + intros H. by destruct (bind_var_vars f s2 b' a' j i Hb' Ha' (not_eq_sym Hne) e s').
    + by eapply bind_var_justified.
    + apply (compress_Find s s1) in Hfa; [|done].
      apply (compress_Find s1 s2) in Hfa; [|done].
      destruct (Find_rep _ _ _ Hfa) as (ti & Hti & Hnf). rewrite Ha' in Hti.
      by simplify_eq.
    + apply (compress_Find s s1) in Hfa; [|done].
      apply (compress_Find s1 s2) in Hfa; [|done].
      destruct (Find_rep _ _ _ Hfa) as (ti & Hti & Hnf). rewrite Ha' in Hti.
      by simplify_eq.
  - destruct (s2 !! a') as [[i|tida psa|t]|] eqn:Ha'; try done.
    + change (bind_var f s2 a' b' = Throw e s' → justified s' e).
      by eapply bind_var_justified.
    + rewrite Hb'. destruct (Nat.eqb_spec tida tidb) as [->|Htid]; simpl.
      * destruct (negb _); [done|]. by apply unify_params_justified.
      * intros [= <- <-]. unfold justified. cbn [kind exn_a exn_b].
        by exists tida, psa, tidb, psb.
  - destruct (s2 !! a') as [[i|tida psa|t']|] eqn:Ha'; try done.
    + intros H. exfalso. destruct (Find_rep _ _ _ Hfb) as (ti & Hti & Hnf).
      rewrite Hb' in Hti. by simplify_eq.
    + by rewrite Hb'.
  - destruct (s2 !! a') as [[i|tida psa|t']|] eqn:Ha'; try done.
    + intros H. exfalso. destruct (Find_rep _ _ _ Hfb) as (ti & Hti & Hnf).
      rewrite Hb' in Hti. by simplify_eq.
    + by rewrite Hb'.
Qed.

(** X3. The exceptions of [unify] are justified by the store they leave: an
    exception of the kind [occurs] names a type variable that is unbound and
    a concrete type that contains it, and an exception of the kind [mismatch]
    names two concrete types with different type ids. *)
Theorem unify_exception_is_justified
        (fuel : nat) (s : store) (a b : Strong_type_handle)
        (e : Unification_exception) (s' : store) :
  unify fuel s a b = Throw e s' →
  match kind e with
  | occurs_kind =>
      (∃ i, s' !! exn_a e = Some (Type_var i)) ∧
      (∃ tid ps, s' !! exn_b e = Some (Concrete_type tid ps)) ∧
      occ s' (exn_a e) (exn_b e)
  | mismatch =>
      ∃ ta pa tb pb,
        s' !! exn_a e = Some (Concrete_type ta pa) ∧
        s' !! exn_b e = Some (Concrete_type tb pb) ∧ ta ≠ tb
  end.
Proof. apply unify_rec_justified. Qed.

Lemma unify_exception_is_justified_witness :
  (∃ i, sample_store !! 0 = Some (Type_var i)) ∧
  (∃ tid ps, sample_store !! 2 = Some (Concrete_type tid ps)) ∧
  occ sample_store 0 2.
Proof.
  apply (unify_exception_is_justified 3 sample_store 2 0
           (mkUnification_exception occurs_kind 0 2) sample_store).
  reflexivity.
Defined.

End Unification.

(* ===================================================================== *)
(** * The typing context: new variables and definitions *)
(* ===================================================================== *)

Module Context.
Import Types TypeStore.

Lemma Find_app s l h r : Find s h r → Find (s ++ l) h r.
Proof.
  induction 1 as [h ti Hh Hti|h t r Hh _ IH].
  - eapply Find_here; [|exact Hti]. by apply lookup_app_l_Some.
  - eapply Find_step; [|exact IH]. by apply lookup_app_l_Some.
Qed.

Section fresh.
Context (s : store) (v : Type_instance).
Hypothesis Hok : store_ok s.
Hypothesis Hv : is_type_var v = true.

Lemma Find_snoc_inv h r : Find (s ++ [v]) h r → h < length s → Find s h r.
Proof.
  intros Hf Hh. destruct (ok_find s Hok h Hh) as [r0 Hr0].
  by rewrite (Find_det _ _ _ _ Hf (Find_app s [v] h r0 Hr0)).
Qed.

Lemma Find_snoc_new r : Find (s ++ [v]) (length s) r → r = length s.
Proof.
  intros Hf. eapply Find_det; [exact Hf|].
  eapply Find_here; [apply list_lookup_middle; done|]. by destruct v.
Qed.

Lemma child_snoc y x : child (s ++ [v]) y x → child s y x.
Proof.
  intros (r & tid & ps & Hf & Hr & Hy).
  pose proof (Find_lt _ _ _ Hf) as Hlt. rewrite length_app in Hlt.
  simpl in Hlt. destruct (decide (x = length s)) as [->|Hne].
  - apply Find_snoc_new in Hf as ->.
    rewrite list_lookup_middle in Hr by done. destruct v; by simplify_eq.
  - assert (x < length s) as Hx by lia. apply Find_snoc_inv in Hf; [|done].
    exists r, tid, ps. split_and!; [done| |done].
    pose proof (Find_rep_lt _ _ _ Hf). by rewrite lookup_app_l in Hr.
Qed.

Lemma snoc_ok : store_ok (s ++ [v]).
Proof.
  split.
  - intros h tid ps Hh. destruct (decide (h < length s)) as [Hlt|Hge].
    + rewrite lookup_app_l in Hh by done.
      eapply Forall_impl; [exact (ok_closed s Hok h tid ps Hh)|].
      intros p Hp. rewrite length_app. simpl in *. lia.
    + pose proof (lookup_lt_Some _ _ _ Hh) as Hlt. rewrite length_app in Hlt.
      simpl in Hlt. assert (h = length s) as -> by lia.
      rewrite list_lookup_middle in Hh by done. destruct v; by simplify_eq.
  - intros h Hh. rewrite length_app in Hh. simpl in Hh.
    destruct (decide (h < length s)) as [Hlt|Hge].
    + destruct (ok_find s Hok h Hlt) as [r Hr]. exists r. by apply Find_app.
    + assert (h = length s) as -> by lia. exists (length s).
      eapply Find_here; [apply list_lookup_middle; done|]. by destruct v.
  - intros x. induction (ok_wf s Hok x) as [x _ IH]. constructor.
    intros y Hy. by apply IH, child_snoc.
  - intros h1 h2 tid ps qs H1 H2.
    assert (∀ h ps', (s ++ [v]) !! h = Some (Concrete_type tid ps') →
                     s !! h = Some (Concrete_type tid ps')) as Hold.
    { intros h ps' Hh. destruct (decide (h < length s)) as [Hlt|Hge].
      - by rewrite lookup_app_l in Hh.
      - pose proof (lookup_lt_Some _ _ _ Hh) as Hlt. rewrite length_app in Hlt.
        simpl in Hlt. assert (h = length s) as -> by lia.
        rewrite list_lookup_middle in Hh by done. destruct v; by simplify_eq. }
    eapply (ok_kinded s Hok); by apply Hold.
Qed.

Lemma occ_snoc_new x : occ (s ++ [v]) (length s) x → x = length s.
Proof.
  induction 1 as [x Hf|x y Hy _ IH].
  - destruct (decide (x = length s)) as [|Hne]; [done|].
    pose proof (Find_lt _ _ _ Hf) as Hlt. rewrite length_app in Hlt.
    simpl in Hlt. assert (x < length s) as Hx by lia.
    apply Find_snoc_inv in Hf; [|done].
    pose proof (Find_rep_lt _ _ _ Hf). lia.
  - subst y. apply child_snoc in Hy. destruct Hy as (r & tid & ps & Hf & Hr & Hy).
    pose proof (ok_closed s Hok r tid ps Hr) as Hcl.
    rewrite Forall_forall in Hcl. specialize (Hcl _ Hy). lia.
Qed.

End fresh.

(** X4. [fresh_type_variable] on a well-formed store returns the handle of a
    new slot, which holds a type variable that no other handle reaches; the
    slots the store had are unchanged, and the store is well-formed again. *)
Theorem fresh_type_variable_is_new (s : store) :
  store_ok s →
  (fresh_type_variable s).1 = length s ∧
  store_ok (fresh_type_variable s).2 ∧
  length (fresh_type_variable s).2 = S (length s) ∧
  (∃ i, (fresh_type_variable s).2 !! (fresh_type_variable s).1 =
        Some (Type_var i)) ∧
  (∀ h, h < length s → (fresh_type_variable s).2 !! h = s !! h) ∧
  (∀ h r, Find s h r → Find (fresh_type_variable s).2 h r) ∧
  (∀ x, occ (fresh_type_variable s).2 (fresh_type_variable s).1 x →
        x = (fresh_type_variable s).1).
Proof.
  intros Hok. unfold fresh_type_variable. cbn [fst snd]. split_and!.
  - done.
  - by apply snoc_ok.
  - rewrite length_app. simpl. lia.
  - eexists. by apply list_lookup_middle.
  - intros h Hh. by apply lookup_app_l.
  - intros h r. apply Find_app.
  - intros x. by apply occ_snoc_new.
Qed.

Lemma fresh_type_variable_is_new_witness :
  (fresh_type_variable sample_store).1 = length sample_store ∧
  store_ok (fresh_type_variable sample_store).2 ∧
  length (fresh_type_variable sample_store).2 = S (length sample_store) ∧
  (∃ i, (fresh_type_variable sample_store).2 !!
          (fresh_type_variable sample_store).1 = Some (Type_var i)) ∧
  (∀ h, h < length sample_store →
        (fresh_type_variable sample_store).2 !! h = sample_store !! h) ∧
  (∀ h r, Find sample_store h r →
          Find (fresh_type_variable sample_store).2 h r) ∧
  (∀ x, occ (fresh_type_variable sample_store).2
            (fresh_type_variable sample_store).1 x →
        x = (fresh_type_variable sample_store).1).
Proof.
  apply (fresh_type_variable_is_new sample_store). exact sample_store_ok.
Defined.

(** ** Definitions *)

Lemma fresh_type_variables_spec n s :
  ∃ new, fresh_type_variables n s = (seq (length s) n, s ++ new) ∧
         length new = n ∧
         Forall (fun t => is_type_var t = true) new ∧
         (store_ok s → store_ok (s ++ new)).
Proof.
  revert s. induction n as [|n IH]; intros s.
  - exists []. rewrite app_nil_r. by split_and!.
  - cbn [fresh_type_variables]. unfold fresh_type_variable.
    set (v := Type_var ((Z.of_nat (length s) - 1) mod 2 ^ 64)).
    destruct (IH (s ++ [v])) as (new & Heq & Hlen & Hvars & Hok).
    rewrite Heq. exists (v :: new). split_and!.
    + rewrite length_app. simpl. rewrite Nat.add_1_r.
      by rewrite <- app_assoc.
    + simpl. by rewrite Hlen.
    + by constructor.
    + intros Hs. rewrite (assoc_L (++) s [v] new : s ++ v :: new = (s ++ [v]) ++ new).
      apply Hok. by apply snoc_ok.
Qed.

(** X5. [add_definition] registers the definition under the next abstraction
    id: the new abstraction has the name and no result type, and its
    arguments and coarguments are [arity] and [coarity] new type variables,
    all different; the abstractions and the type slots that were there are
    unchanged, and a well-formed store stays well-formed.  With an expected
    id that is not the next one the assertion fails. *)
Theorem add_definition_registers
        (name : string) (arity coarity : nat) (ctx : Typing_context) :
  ∃ ctx' a,
    add_definition name arity coarity None ctx =
      Ok (length (abstractions ctx)) ctx' ∧
    add_definition name arity coarity (Some (length (abstractions ctx))) ctx =
      Ok (length (abstractions ctx)) ctx' ∧
    (∀ k, k ≠ length (abstractions ctx) →
          add_definition name arity coarity (Some k) ctx = Undefined) ∧
    get_abstraction ctx' (length (abstractions ctx)) = Some a ∧
    (∀ j, j < length (abstractions ctx) →
          get_abstraction ctx' j = get_abstraction ctx j) ∧
    abstraction_name a = name ∧ type a = None ∧
    length (args a) = arity ∧ length (coargs a) = coarity ∧
    NoDup (args a ++ coargs a) ∧
    Forall (fun h => length (types ctx) ≤ h ∧
                     ∃ i, types ctx' !! h = Some (Type_var i))
           (args a ++ coargs a) ∧
    (∀ h, h < length (types ctx) → types ctx' !! h = types ctx !! h) ∧
    (store_ok (types ctx) → store_ok (types ctx')) ∧
    type_prototypes ctx' = type_prototypes ctx ∧
    type_structors ctx' = type_structors ctx.
Proof.
  destruct (fresh_type_variables_spec arity (types ctx))
    as (new1 & Heq1 & Hlen1 & Hvars1 & Hok1).
  destruct (fresh_type_variables_spec coarity (types ctx ++ new1))
    as (new2 & Heq2 & Hlen2 & Hvars2 & Hok2).
  assert (∀ id, match id with
                | Some id => negb (Nat.eqb id (length (abstractions ctx)))
                | None => false
                end = false →
          add_definition name arity coarity id ctx =
          Ok (length (abstractions ctx))
             (mkTyping_context (type_prototypes ctx) (type_names ctx)
                (type_structors ctx)
                (abstractions ctx ++
                   [mkAbstraction None name
                      (seq (length (types ctx)) arity)
                      (seq (length (types ctx ++ new1)) coarity)])
                ((types ctx ++ new1) ++ new2))) as Hadd.
  { intros id Hid. unfold add_definition. rewrite Hid, Heq1, Heq2. done. }
  eexists _, _. split_and!.
  - by apply Hadd.
  - apply Hadd. by rewrite Nat.eqb_refl.
  - intros k Hk. unfold add_definition.
    by destruct (Nat.eqb_spec k (length (abstractions ctx))).
  - unfold get_abstraction. cbn [abstractions]. by apply list_lookup_middle.
  - intros j Hj. unfold get_abstraction. cbn [abstractions].
    by apply lookup_app_l.
  - done.
  - done.
  - cbn [args]. by rewrite length_seq.
  - cbn [coargs]. by rewrite length_seq.
  - cbn [args coargs]. rewrite length_app, Hlen1, <- seq_app. apply NoDup_seq.
  - cbn [args coargs types]. rewrite length_app, Hlen1, <- seq_app.
    apply Forall_forall. intros h [Hge Hlt]%elem_of_seq. split; [done|].
    assert (Forall (fun t => is_type_var t = true) (new1 ++ new2)) as Hvars
      by by apply Forall_app.
    rewrite <- app_assoc.
    destruct (lookup_lt_is_Some_2 (new1 ++ new2) (h - length (types ctx)))
      as [t Ht]; [rewrite length_app; lia|].
    rewrite lookup_app_r by done. rewrite Ht.
    rewrite Forall_forall in Hvars.
    assert (is_type_var t = true) as Hty
      by (apply Hvars; by eapply list_elem_of_lookup_2).
    destruct t; try done. eauto.
  - intros h Hh. cbn [types]. rewrite <- app_assoc. by apply lookup_app_l.
  - cbn [types]. intros Hs. by apply Hok2, Hok1.
  - done.
  - done.
Qed.

End Context.

(* ===================================================================== *)
(** * The typing context: instantiation *)
(* ===================================================================== *)

Module Instantiation.
Import Types TypeStore.

Section clone.
Context (s0 : store).
Hypothesis Hok : store_ok s0.

(** The slots that [s0] had are, in [cur], what they were, up to path
    compression. *)
Definition keeps (cur : store) : Prop := compress s0 (take (length s0) cur).

Lemma keeps_length cur : keeps cur → length s0 ≤ length cur.
Proof.
  intros [Hlen _]. rewrite length_take in Hlen. lia.
Qed.

Lemma keeps_Find cur h r : keeps cur → Find s0 h r → Find cur h r.
Proof.
  intros Hk Hf. apply (compress_Find _ _ _ _ Hk) in Hf.
  rewrite <- (take_drop (length s0) cur). by apply Context.Find_app.
Qed.

Lemma keeps_rep cur h r : keeps cur → h < length s0 → Find cur h r → Find s0 h r.
Proof.
  intros Hk Hh Hf. destruct (ok_find s0 Hok h Hh) as [r0 Hr0].
  by rewrite (Find_det _ _ _ _ Hf (keeps_Find _ _ _ Hk Hr0)).
Qed.

Lemma keeps_slot cur r ti :
  keeps cur → Find s0 r r → cur !! r = Some ti → s0 !! r = Some ti.
Proof.
  intros Hk Hr Hti. destruct (Find_rep _ _ _ Hr) as (ti0 & Hti0 & Hnf).
  pose proof (proj1 (compress_nonfwd _ _ r ti0 Hk Hnf) Hti0) as H.
  rewrite lookup_take_lt in H by by eapply lookup_lt_Some. congruence.
Qed.

Lemma keeps_compress cur cur1 : keeps cur → compress cur cur1 → keeps cur1.
Proof.
  intros Hk [Hlen Hc]. pose proof (keeps_length _ Hk) as Hn.
  eapply compress_trans; [exact Hk|]. split.
  - rewrite !length_take. lia.
  - intros h. destruct (decide (h < length s0)) as [Hh|Hh].
    + rewrite !lookup_take_lt by done.
      destruct (Hc h) as [Heq|(t & r & Hs & Hf & Hs')]; [by left|].
      right. exists t, r. split_and!; [done| |done].
      apply (compress_Find _ _ _ _ Hk). by apply keeps_rep with cur.
    + left. by rewrite !lookup_take_ge by lia.
Qed.

Lemma keeps_app cur l : keeps cur → keeps (cur ++ l).
Proof.
  intros Hk. unfold keeps. by rewrite take_app_le by by apply keeps_length.
Qed.

Lemma keeps_alter cur f i : keeps cur → length s0 ≤ i → keeps (alter f i cur).
Proof.
  intros Hk Hi. unfold keeps. rewrite take_alter.
  destruct (decide (i < length s0)); [lia|exact Hk].
Qed.

(** The clones that the map records are slots added to the store, one for
    every representative. *)
Definition clones (map : gmap nat Strong_type_handle) (cur : store) : Prop :=
  (∀ r h, map !! r = Some h → length s0 ≤ h ∧ h < length cur) ∧
  (∀ r1 r2 h, map !! r1 = Some h → map !! r2 = Some h → r1 = r2).

Lemma clones_grow map cur cur' :
  clones map cur → length cur ≤ length cur' → clones map cur'.
Proof.
  intros [Hr Hi] Hlen. split; [|done]. intros r h Hh.
  destruct (Hr r h Hh). lia.
Qed.

Lemma clones_insert map cur r x :
  clones map cur → length s0 ≤ length cur →
  clones (<[r := length cur]> map) (cur ++ [x]).
Proof.
  intros [Hr Hi] Hn. split.
  - intros r' h. rewrite length_app. simpl.
    destruct (decide (r = r')) as [<-|Hne].
    + rewrite lookup_insert_eq. intros [= <-]. lia.
    + rewrite lookup_insert_ne by done. intros Hh. destruct (Hr _ _ Hh). lia.
  - intros r1 r2 h.
    destruct (decide (r = r1)) as [<-|Hne1];
      destruct (decide (r = r2)) as [<-|Hne2]; try done.
    + rewrite lookup_insert_eq, lookup_insert_ne by done. intros [= <-] H2.
      destruct (Hr _ _ H2). lia.
    + rewrite lookup_insert_eq, lookup_insert_ne by done. intros H1 [= <-].
      destruct (Hr _ _ H1). lia.
    + rewrite !lookup_insert_ne by done. apply Hi.
Qed.

(** What a cloning function does with a handle of [s0]. *)
Definition clones_rep
           (clone_rec : Type_handle → gmap nat Strong_type_handle → store →
                        store_outcome (Strong_type_handle *
                                       gmap nat Strong_type_handle)) : Prop :=
  ∀ type map cur h map' cur',
    type < length s0 → keeps cur → clones map cur →
    clone_rec type map cur = Ok (h, map') cur' →
    keeps cur' ∧ clones map' cur' ∧ map ⊆ map' ∧
    ∃ r, Find s0 type r ∧ map' !! r = Some h.

Lemma clone_params_rep clone_rec :
  clones_rep clone_rec →
  ∀ params map cur hs map' cur',
    Forall (fun p => p < length s0) params → keeps cur → clones map cur →
    clone_params clone_rec params map cur = Ok (hs, map') cur' →
    keeps cur' ∧ clones map' cur' ∧ map ⊆ map' ∧
    Forall2 (fun p h => ∃ r, Find s0 p r ∧ map' !! r = Some h) params hs.
Proof.
  intros Hrec params.
  induction params as [|p rest IH]; intros map cur hs map' cur' Hps Hk Hm;
    simpl.
  - intros [= <- <- <-]. by split_and!.
  - apply Forall_cons in Hps as [Hp Hrest].
    destruct (clone_rec p map cur) as [[h map1] cur1| | |] eqn:Hc; simpl;
      try done.
    destruct (Hrec _ _ _ _ _ _ Hp Hk Hm Hc) as (Hk1 & Hm1 & Hsub1 & r & Hr & Hh).
    destruct (clone_params clone_rec rest map1 cur1)
      as [[hs2 map2] cur2| | |] eqn:Hcs; simpl; try done.
    intros [= <- <- <-].
    destruct (IH _ _ _ _ _ Hrest Hk1 Hm1 Hcs) as (Hk2 & Hm2 & Hsub2 & Hall).
    split_and!; try done.
    + by etrans.
    + constructor; [|done]. exists r. split; [done|].
      by eapply lookup_weaken.
Qed.

Lemma clone_type_rec_rep fuel : clones_rep (clone_type_rec fuel).
Proof.
  induction fuel as [|fuel IH]; intros type map cur h map' cur' Hty Hk Hm;
    [done|].
  simpl. pose proof (try_dereference_cases fuel cur type) as Hd.
  destruct (try_dereference fuel cur type) as [r cur1| | |]; simpl; try done.
  destruct Hd as [Hf Hc].
  pose proof (keeps_rep _ _ _ Hk Hty Hf) as Hr.
  pose proof (keeps_compress _ _ Hk Hc) as Hk1.
  assert (clones map cur1) as Hm1
    by (eapply clones_grow; [exact Hm|]; destruct Hc as [-> _]; done).
  pose proof (keeps_length _ Hk1) as Hn1.
  destruct (map !! r) as [h'|] eqn:Hmr.
  { intros [= <- <- <-]. split_and!; try done. eauto. }
  destruct (cur1 !! r) as [[i|type_id params|]|] eqn:Hslot; try done.
  - unfold fresh_type_variable. intros [= <- <- <-]. split_and!.
    + by apply keeps_app.
    + by apply clones_insert.
    + by apply insert_subseteq.
    + exists r. split; [done|]. by rewrite lookup_insert_eq.
  - destruct (clone_params (clone_type_rec fuel) params
                (<[r := length cur1]> map)
                (cur1 ++ [Concrete_type type_id []]))
      as [[new_params map2] cur2| | |] eqn:Hcs; simpl; try done.
    intros [= <- <- <-].
    pose proof (keeps_slot _ _ _ Hk1 (Find_rep_self _ _ _ Hr) Hslot) as Hs0.
    destruct (clone_params_rep _ IH params _ _ _ _ _
                (ok_closed s0 Hok r type_id params Hs0)
                (keeps_app _ _ Hk1) (clones_insert _ _ r _ Hm1 Hn1) Hcs)
      as (Hk2 & Hm2 & Hsub2 & _).
    split_and!.
    + by apply keeps_alter.
    + eapply clones_grow; [exact Hm2|]. by rewrite length_alter.
    + etrans; [|exact Hsub2]. by apply insert_subseteq.
    + exists r. split; [done|].
      eapply lookup_weaken; [|exact Hsub2]. by rewrite lookup_insert_eq.
Qed.

Lemma clone_types_rep fuel to_clone hs cur' :
  Forall (fun p => p < length s0) to_clone →
  clone_types fuel to_clone s0 = Ok hs cur' →
  keeps cur' ∧
  Forall (fun h => length s0 ≤ h ∧ h < length cur') hs ∧
  ∃ map : gmap nat Strong_type_handle,
    (∀ r1 r2 h, map !! r1 = Some h → map !! r2 = Some h → r1 = r2) ∧
    Forall2 (fun p h => ∃ r, Find s0 p r ∧ map !! r = Some h) to_clone hs.
Proof.
  intros Hall. unfold clone_types.
  destruct (clone_params (clone_type_rec fuel) to_clone ∅ s0)
    as [[hs1 map1] cur1| | |] eqn:Hcs; simpl; try done.
  intros [= <- <-].
  assert (keeps s0) as Hk0.
  { unfold keeps. rewrite firstn_all. apply compress_refl. }
  assert (clones ∅ s0) as Hm0 by (split; intros ? *; by rewrite lookup_empty).
  destruct (clone_params_rep _ (clone_type_rec_rep fuel) _ _ _ _ _ _
              Hall Hk0 Hm0 Hcs) as (Hk & [Hrange Hinj] & _ & Hall2).
  split_and!; [done| |by exists map1].
  apply Forall_forall. intros h Hh.
  apply list_elem_of_lookup in Hh as [k Hk'].
  destruct (Forall2_lookup_r _ _ _ _ _ Hall2 Hk') as (p & _ & r & _ & Hr).
  by apply (Hrange r).
Qed.

End clone.

(** The handles of the instance are the clones, in the order of the
    abstraction's handles. *)
Lemma instance_handles (a : Abstraction) (fresh : list Strong_type_handle) :
  length fresh =
    length (args a ++ coargs a ++
            match type a with Some t => [t] | None => [] end) →
  take (arity a) fresh ++ take (coarity a) (drop (arity a) fresh) ++
  match (match type a with Some _ => last fresh | None => None end) with
  | Some t => [t]
  | None => []
  end = fresh.
Proof.
  unfold arity, coarity. rewrite !length_app. intros Hlen.
  set (rest := drop (length (args a)) fresh).
  set (zs := drop (length (coargs a)) rest).
  assert (fresh = take (length (args a)) fresh ++
                  take (length (coargs a)) rest ++ zs) as Hsplit.
  { unfold zs. rewrite take_drop. unfold rest. by rewrite take_drop. }
  assert (length zs = length (match type a with Some t => [t] | None => [] end))
    as Hzs by (unfold zs, rest; rewrite !length_drop; lia).
  assert (last fresh = last zs ∨ zs = []) as Hlast.
  { destruct zs as [|x l] eqn:Hz; [by right|left].
    rewrite Hsplit, app_assoc, last_app.
    destruct (last (x :: l)) eqn:Hl; [done|]. by apply last_None in Hl. }
  etrans; [|symmetry; exact Hsplit]. do 2 f_equal.
  destruct (type a) as [t|]; simpl in Hzs.
  - destruct zs as [|x [|y l]]; simpl in Hzs; try lia.
    destruct Hlast as [->|?]; done.
  - by destruct zs.
Qed.

(** X6. [instantiate] on a well-formed context copies an abstraction whose
    handles are slots of the store: the instance has as many arguments and
    coarguments, and a result type exactly when the abstraction has one; its
    handles are slots added to the store, and two of them are the same slot
    exactly when the abstraction's handles at those places stand for the
    same slot, so the sharing of type variables is copied; the slots that
    the store had are changed by path compression only. *)
Theorem instantiate_copies_sharing
        (fuel : nat) (id : Abstraction_id) (ctx : Typing_context)
        (a : Abstraction) (instance : Abstraction_instance)
        (ctx' : Typing_context) :
  store_ok (types ctx) →
  abstractions ctx !! id = Some a →
  Forall (fun h => h < length (types ctx)) (PolymorphicRecursion.handles a) →
  instantiate fuel id ctx = Ok instance ctx' →
  length (args instance) = length (args a) ∧
  length (coargs instance) = length (coargs a) ∧
  (type instance = None ↔ type a = None) ∧
  compress (types ctx) (take (length (types ctx)) (types ctx')) ∧
  Forall (fun h => length (types ctx) ≤ h ∧ h < length (types ctx'))
         (PolymorphicRecursion.handles instance) ∧
  ∀ i j p q h k,
    PolymorphicRecursion.handles a !! i = Some p →
    PolymorphicRecursion.handles a !! j = Some q →
    PolymorphicRecursion.handles instance !! i = Some h →
    PolymorphicRecursion.handles instance !! j = Some k →
    (h = k ↔ ∃ r, Find (types ctx) p r ∧ Find (types ctx) q r).
Proof.
  intros Hok Ha Hrange. unfold instantiate. rewrite Ha.
  destruct (clone_types fuel _ (types ctx)) as [fresh types'| | |] eqn:Hc;
    try done.
  intros [= <- <-].
  destruct (clone_types_rep _ Hok _ _ _ _ Hrange Hc)
    as (Hkeeps & Hnew & map & Hinj & Hall).
  pose proof (Forall2_length _ _ _ Hall) as Hlen. symmetry in Hlen.
  unfold PolymorphicRecursion.handles in Hlen.
  pose proof (instance_handles a fresh Hlen) as Hh.
  assert (PolymorphicRecursion.handles
            (mkAbstraction
               (match type a with Some _ => last fresh | None => None end)
               EmptyString (take (arity a) fresh)
               (take (coarity a) (drop (arity a) fresh))) = fresh) as Hhandles
    by exact Hh.
  rewrite !length_app in Hlen. cbn [args coargs type types set_types].
  split_and!.
  - rewrite length_take. unfold arity. lia.
  - rewrite length_take, length_drop. unfold arity, coarity. lia.
  - destruct (type a) as [t|]; [|done]. split; [|done].
    destruct (last fresh) eqn:Hl; [done|]. apply last_None in Hl.
    subst fresh. simpl in Hlen. lia.
  - exact Hkeeps.
  - rewrite Hhandles. exact Hnew.
  - rewrite Hhandles. intros i j p q h k Hp Hq Hi Hj.
    destruct (Forall2_lookup_lr _ _ _ _ _ _ Hall Hp Hi) as (rp & Hfp & Hmp).
    destruct (Forall2_lookup_lr _ _ _ _ _ _ Hall Hq Hj) as (rq & Hfq & Hmq).
    split.
    + intros <-. exists rp. split; [done|].
      by rewrite (Hinj _ _ _ Hmp Hmq).
    + intros (r & Hrp & Hrq).
      rewrite (Find_det _ _ _ _ Hfp Hrp) in Hmp.
      rewrite (Find_det _ _ _ _ Hfq Hrq) in Hmq. congruence.
Qed.

Lemma instantiate_copies_sharing_witness :
  ∃ a instance ctx',
    abstractions EmptyProgram.default_ctx !! Builtin_abstraction_id.list_cons =
      Some a ∧
    instantiate 5 Builtin_abstraction_id.list_cons EmptyProgram.default_ctx =
      Ok instance ctx' ∧
    length (args instance) = length (args a) ∧
    length (coargs instance) = length (coargs a) ∧
    (type instance = None ↔ type a = None) ∧
    compress (types EmptyProgram.default_ctx)
             (take (length (types EmptyProgram.default_ctx)) (types ctx')) ∧
    Forall (fun h => length (types EmptyProgram.default_ctx) ≤ h ∧
                     h < length (types ctx'))
           (PolymorphicRecursion.handles instance) ∧
    ∀ i j p q h k,
      PolymorphicRecursion.handles a !! i = Some p →
      PolymorphicRecursion.handles a !! j = Some q →
      PolymorphicRecursion.handles instance !! i = Some h →
      PolymorphicRecursion.handles instance !! j = Some k →
      (h = k ↔ ∃ r, Find (types EmptyProgram.default_ctx) p r ∧
                    Find (types EmptyProgram.default_ctx) q r).
Proof.
  eexists _, _, _. split; [reflexivity|]. split; [vm_compute; reflexivity|].
  apply (instantiate_copies_sharing 5 Builtin_abstraction_id.list_cons
           EmptyProgram.default_ctx).
  - exact DefaultStore.default_store_ok.
  - reflexivity.
  - repeat constructor.
  - vm_compute. reflexivity.
Defined.

End Instantiation.

(* ===================================================================== *)
(** * The typing context: structors *)
(* ===================================================================== *)

Module Structors.
Import Types TypeStore.

Lemma instantiate_type_templates_length templates params types hs types' :
  instantiate_type_templates templates params types = Some (hs, types') →
  length hs = length templates.
Proof.
  revert types hs types'.
  induction templates as [|t rest IH]; intros types hs types'; simpl.
  - by intros [= <- <-].
  - destruct (instantiate_type_template t params types) as [[h types1]|];
      [|done].
    destruct (instantiate_type_templates rest params types1)
      as [[hs1 types2]|] eqn:Hrest; [|done].
    intros [= <- <-]. simpl. f_equal. by eapply IH.
Qed.

(** X7. [add_structor] registers the structor under the next abstraction
    id, with the prototype of its type as result type and one handle for
    every template; the structor joins the structor set of its type, which
    [structors_like] returns for the new structor and for every structor the
    type had; the other abstractions keep their entries. *)
Theorem add_structor_joins_type
        (name : string) (type_id : Type_id) (arg_templates coarg_templates : list Type_template)
        (ctx : Typing_context) (id : Abstraction_id) (ctx' : Typing_context) :
  add_structor name type_id arg_templates coarg_templates None ctx = Ok id ctx' →
  id = length (abstractions ctx) ∧
  (∃ a prototype,
     get_abstraction ctx' id = Some a ∧
     get_type_prototype ctx type_id = Some prototype ∧
     type a = Some prototype ∧ abstraction_name a = name ∧
     length (args a) = length arg_templates ∧
     length (coargs a) = length coarg_templates ∧
     structors_like ctx' id =
       Some ({[id]} ∪ default ∅ (type_structors ctx !! prototype)) ∧
     ∀ j b, get_abstraction ctx j = Some b →
            get_abstraction ctx' j = Some b ∧
            (type b = Some prototype →
             structors_like ctx' j = structors_like ctx' id) ∧
            (type b ≠ Some prototype →
             structors_like ctx' j = structors_like ctx j)) ∧
  type_prototypes ctx' = type_prototypes ctx.
Proof.
  unfold add_structor.
  destruct (type_prototypes ctx !! type_id) as [prototype|] eqn:Hproto;
    [|done].
  destruct (types ctx !! prototype) as [[|tid params|]|]; try done.
  destruct (instantiate_type_templates arg_templates params (types ctx))
    as [[arg_handles types1]|] eqn:Hargs; [|done].
  destruct (instantiate_type_templates coarg_templates params types1)
    as [[coarg_handles types2]|] eqn:Hcoargs; [|done].
  intros [= <- <-]. split_and!; [done| |done].
  eexists _, prototype.
  assert (∀ (m : gmap nat (gset nat)) (l : list Abstraction) a,
            structors_like
              (mkTyping_context (type_prototypes ctx) (type_names ctx) m
                                (abstractions ctx ++ [a]) types2)
              (length (abstractions ctx)) =
            match type a with Some h => m !! h | None => None end) as Hnew.
  { intros m _ a. unfold structors_like. cbn [abstractions type_structors].
    by rewrite list_lookup_middle. }
  split_and!.
  - unfold get_abstraction. cbn [abstractions]. by apply list_lookup_middle.
  - exact Hproto.
  - done.
  - done.
  - cbn [args]. by eapply instantiate_type_templates_length.
  - cbn [coargs]. by eapply instantiate_type_templates_length.
  - rewrite Hnew by exact []. cbn [type]. by rewrite lookup_insert_eq.
  - intros j b Hb. unfold get_abstraction in Hb.
    assert (get_abstraction
              (mkTyping_context (type_prototypes ctx) (type_names ctx)
                 (<[prototype := {[length (abstractions ctx)]} ∪
                                 default ∅ (type_structors ctx !! prototype)]>
                    (type_structors ctx))
                 (abstractions ctx ++
                    [mkAbstraction (Some prototype) name arg_handles
                                   coarg_handles]) types2) j = Some b) as Hb'
      by (unfold get_abstraction; cbn [abstractions]; by apply lookup_app_l_Some).
    split_and!; [done| |].
    + intros Hty. rewrite Hnew by exact []. cbn [type].
      unfold structors_like. unfold get_abstraction in Hb'. rewrite Hb', Hty.
      done.
    + intros Hty. unfold structors_like. unfold get_abstraction in Hb'.
      rewrite Hb', Hb. cbn [type_structors]. destruct (type b) as [h|]; [|done].
      rewrite lookup_insert_ne; [done|]. intros ->. done.
Qed.

Lemma add_structor_joins_type_witness :
  ∃ id ctx',
    add_structor "Leaf" Builtin_type_id.list [Type_template_var 0] [] None
                 EmptyProgram.default_ctx = Ok id ctx' ∧
    id = length (abstractions EmptyProgram.default_ctx) ∧
    (∃ a prototype,
       get_abstraction ctx' id = Some a ∧
       get_type_prototype EmptyProgram.default_ctx Builtin_type_id.list =
         Some prototype ∧
       type a = Some prototype ∧ abstraction_name a = "Leaf"%string ∧
       length (args a) = length [Type_template_var 0] ∧
       length (coargs a) = length (@nil Type_template) ∧
       structors_like ctx' id =
         Some ({[id]} ∪ default ∅ (type_structors EmptyProgram.default_ctx
                                     !! prototype)) ∧
       ∀ j b, get_abstraction EmptyProgram.default_ctx j = Some b →
              get_abstraction ctx' j = Some b ∧
              (type b = Some prototype →
               structors_like ctx' j = structors_like ctx' id) ∧
              (type b ≠ Some prototype →
               structors_like ctx' j =
               structors_like EmptyProgram.default_ctx j)) ∧
    type_prototypes ctx' = type_prototypes EmptyProgram.default_ctx.
Proof.
  eexists _, _. split; [vm_compute; reflexivity|].
  apply (add_structor_joins_type "Leaf" Builtin_type_id.list
           [Type_template_var 0] [] EmptyProgram.default_ctx).
  vm_compute. reflexivity.
Defined.

End Structors.

(* ===================================================================== *)
(** * The interpreter: argument search, clause maps, steps and runs *)
(* ===================================================================== *)

Module Evaluation.
Import AST Interpreter Values.

(** ** [find_non_value] *)

Lemma find_non_value_spec args :
  forallb flags_ok_prod args = true →
  length (find_non_value args).2 = length args ∧
  forallb flags_ok_prod (find_non_value args).2 = true ∧
  List.map value_spec (find_non_value args).2 = List.map value_spec args ∧
  match (find_non_value args).1 with
  | None => forallb value_spec args = true
  | Some k =>
      (∃ a, args !! k = Some a ∧ value_spec a = false) ∧
      forallb value_spec (take k args) = true ∧
      drop (S k) (find_non_value args).2 = drop (S k) args
  end.
Proof.
  induction args as [|a rest IH]; [done|]. simpl.
  intros [Hfa Hfr]%andb_prop.
  destruct (is_value_correct a Hfa) as (Hv & Hf & Hs).
  destruct (is_value a) as [v a'] eqn:Hia. simpl in *. subst v.
  destruct (value_spec a) eqn:Hva.
  - destruct (IH Hfr) as (Hl & Hf' & Hm & Hr).
    destruct (find_non_value rest) as [r rest']. simpl in *.
    rewrite Hl, Hf, Hf', Hs, Hm. split_and!; try done.
    destruct r as [k|]; simpl; [|done].
    destruct Hr as ((b & Hb & Hvb) & Ht & Hd).
    rewrite Hva. split_and!; [by exists b|done|done].
  - simpl. rewrite Hf, Hfr, Hs. split_and!; try done. by exists a.
Qed.

(** X8. On arguments whose memoised flags are right, [find_non_value]
    returns the index of the first argument that is not a value ([None] when
    all are values): the argument at the index is not a value and all before
    it are.  The search only writes flags: the list keeps its length, the
    flags stay right, every argument is a value exactly if it was, and the
    arguments after the one found are not touched. *)
Theorem find_non_value_first (args : list Producer) :
  forallb flags_ok_prod args = true →
  length (find_non_value args).2 = length args ∧
  forallb flags_ok_prod (find_non_value args).2 = true ∧
  List.map value_spec (find_non_value args).2 = List.map value_spec args ∧
  match (find_non_value args).1 with
  | None => forallb value_spec args = true
  | Some k =>
      (∃ a, args !! k = Some a ∧ value_spec a = false) ∧
      forallb value_spec (take k args) = true ∧
      drop (S k) (find_non_value args).2 = drop (S k) args
  end.
Proof. apply find_non_value_spec. Qed.

Definition pair_1_x : list Producer :=
  [Value_prod 1 None;
   Constructor_prod 0 "Nil" [] [] None None;
   Variable_prod 0 "x" None;
   Mu_prod 0 "a" (Cut_stmt (Value_prod 1 None) (End_cons None)) None].

Lemma find_non_value_first_witness :
  (find_non_value pair_1_x).1 = Some 2 ∧
  length (find_non_value pair_1_x).2 = length pair_1_x ∧
  forallb flags_ok_prod (find_non_value pair_1_x).2 = true ∧
  List.map value_spec (find_non_value pair_1_x).2 =
    List.map value_spec pair_1_x ∧
  match (find_non_value pair_1_x).1 with
  | None => forallb value_spec pair_1_x = true
  | Some k =>
      (∃ a, pair_1_x !! k = Some a ∧ value_spec a = false) ∧
      forallb value_spec (take k pair_1_x) = true ∧
      drop (S k) (find_non_value pair_1_x).2 = drop (S k) pair_1_x
  end.
Proof.
  split; [reflexivity|].
  apply (find_non_value_first pair_1_x). reflexivity.
Defined.

(** ** [emplace_all] *)

(** The first position of [id] in [ids] is [k]. *)
Definition first_at (ids : list nat) (id k : nat) : Prop :=
  ids !! k = Some id ∧ ∀ j, j < k → ids !! j ≠ Some id.

Lemma first_at_here id ids k : first_at (id :: ids) id k ↔ k = 0.
Proof.
  unfold first_at. split.
  - intros [_ Hk]. destruct k as [|k]; [done|].
    exfalso. apply (Hk 0); [lia|done].
  - intros ->. split; [done|]. intros j Hj. lia.
Qed.

Lemma first_at_later id0 id ids k :
  id0 ≠ id → first_at (id0 :: ids) id k ↔ ∃ k', k = S k' ∧ first_at ids id k'.
Proof.
  intros Hne. unfold first_at. split.
  - intros [Hk Hf]. destruct k as [|k]; [simpl in Hk; congruence|].
    exists k. split_and!; [done|done|].
    intros j Hj. apply (Hf (S j)). lia.
  - intros (k' & -> & Hk & Hf). split; [done|].
    intros [|j] Hj; simpl; [congruence|]. apply Hf. lia.
Qed.

Lemma emplace_all_lookup {A} (ids : list nat) (values : list A)
      (m0 m : gmap nat A) :
  emplace_all ids values m0 = Some m →
  ∀ id v, m !! id = Some v ↔
          m0 !! id = Some v ∨
          (m0 !! id = None ∧ ∃ k, first_at ids id k ∧ values !! k = Some v).
Proof.
  revert ids m0. induction values as [|v0 values IH]; intros ids m0.
  - assert (emplace_all ids [] m0 = Some m0) as -> by (by destruct ids).
    intros [= <-] id v. split; [by left|].
    intros [H|(_ & k & _ & Hk)]; [done|]. by destruct k.
  - destruct ids as [|id0 ids]; [done|]. simpl. intros Hm id v.
    rewrite (IH _ _ Hm id v). clear IH Hm.
    destruct (decide (id0 = id)) as [->|Hne].
    + destruct (m0 !! id) as [w|] eqn:Hw.
      * rewrite Hw. split.
        -- intros [H|[H _]]; [by left|done].
        -- intros [H|[H _]]; [by left|done].
      * rewrite lookup_insert_eq. split.
        -- intros [[= ->]|[H _]]; [|done]. right. split; [done|].
           exists 0. by rewrite first_at_here.
        -- intros [H|(_ & k & Hk%first_at_here & Hv)]; [done|].
           subst k. left. done.
    + assert (Hm1 : (match m0 !! id0 with
                     | Some _ => m0
                     | None => <[id0 := v0]> m0
                     end) !! id = m0 !! id).
      { destruct (m0 !! id0); [done|]. by rewrite lookup_insert_ne. }
      rewrite Hm1. split.
      * intros [H|(H & k & Hk & Hv)]; [by left|]. right. split; [done|].
        exists (S k). split; [|done].
        apply first_at_later; [done|]. by exists k.
      * intros [H|(H & k & Hk & Hv)]; [by left|]. right. split; [done|].
        apply first_at_later in Hk as (k' & -> & Hk); [|done].
        by exists k'.
Qed.

Lemma emplace_all_is_Some {A} (ids : list nat) (values : list A)
      (m0 : gmap nat A) :
  is_Some (emplace_all ids values m0) ↔ length values ≤ length ids.
Proof.
  revert ids m0. induction values as [|v0 values IH]; intros ids m0.
  - assert (emplace_all ids [] m0 = Some m0) as -> by (by destruct ids).
    simpl. split; [lia|]. by eexists.
  - destruct ids as [|id0 ids]; simpl.
    + split; [by intros [? ?]|lia].
    + rewrite IH. lia.
Qed.

Lemma emplace_all_Forall {A} (P : A → Prop) (ids : list nat) (values : list A)
      (m0 m : gmap nat A) :
  Forall P values → map_Forall (fun _ => P) m0 →
  emplace_all ids values m0 = Some m → map_Forall (fun _ => P) m.
Proof.
  intros Hv. revert ids m0.
  induction Hv as [|v0 values Hv0 _ IH]; intros ids m0 Hm0.
  - assert (emplace_all ids [] m0 = Some m0) as -> by (by destruct ids).
    by intros [= <-].
  - destruct ids as [|id0 ids]; [done|]. simpl. apply IH.
    destruct (m0 !! id0); [done|]. by apply map_Forall_insert_2.
Qed.

(** X9. The loops that bind the parameters of a clause or of a definition
    ([emplace_all], used by [eval_clauses] and by the call step) succeed
    exactly if there are at least as many ids as values.  The map they build
    from the empty map binds an id to the value at the FIRST position of the
    id among the values' ids: [std::map::emplace] does not overwrite, so when
    a parameter name is repeated the later value is dropped.  An id without a
    value is not bound. *)
Theorem emplace_all_first_wins {A} (ids : list nat) (values : list A) :
  (is_Some (emplace_all ids values ∅) ↔ length values ≤ length ids) ∧
  ∀ m, emplace_all ids values ∅ = Some m →
    ∀ id v, m !! id = Some v ↔
            ∃ k, ids !! k = Some id ∧ values !! k = Some v ∧
                 ∀ j, j < k → ids !! j ≠ Some id.
Proof.
  split; [apply emplace_all_is_Some|].
  intros m Hm id v. rewrite (emplace_all_lookup _ _ _ _ Hm id v).
  rewrite lookup_empty. unfold first_at. split.
  - intros [H|(_ & k & [Hk Hf] & Hv)]; [done|]. by exists k.
  - intros (k & Hk & Hv & Hf). right. split; [done|]. by exists k.
Qed.

(** ** Steps *)

Lemma forallb_Forall {A} (f : A → bool) (l : list A) :
  forallb f l = true ↔ Forall (fun x => f x = true) l.
Proof. by rewrite forallb_forall, Forall_forall; setoid_rewrite list_elem_of_In. Qed.

Lemma forallb_insert {A} (f : A → bool) (l : list A) (k : nat) (x : A) :
  forallb f l = true → f x = true → forallb f (<[k := x]> l) = true.
Proof. rewrite !forallb_Forall. intros Hl Hx. by apply Forall_insert. Qed.

Lemma forallb_lookup {A} (f : A → bool) (l : list A) (k : nat) (x : A) :
  forallb f l = true → l !! k = Some x → f x = true.
Proof. rewrite forallb_Forall, Forall_lookup. intros Hl Hx. by apply (Hl k). Qed.

Lemma forallb_insert_false {A} (f : A → bool) (l : list A) (k : nat) (x : A) :
  k < length l → f x = false → forallb f (<[k := x]> l) = false.
Proof.
  intros Hk Hx. apply not_true_is_false. intros H.
  assert (f x = true); [|congruence].
  apply (forallb_lookup f _ k x H). by apply list_lookup_insert_eq.
Qed.

(** The bodies of the definitions have right flags. *)
Definition defs_ok (i : Interpreter) : Prop :=
  Forall (fun d => flags_ok_stmt (body d) = true) (Interpreter.definitions i).

(** The statements that have not been moved out have right flags. *)
Definition stmts_ok (i : Interpreter) : Prop :=
  Forall (fun o => match o with
                   | Some s => flags_ok_stmt s = true
                   | None => True
                   end) (Interpreter.statements i).

(** A statement has right flags; a result has right flags and is a value. *)
Definition result_ok (r : Step_result) : Prop :=
  match r with
  | Result_producer p => flags_ok_prod p = true ∧ value_spec p = true
  | Result_statement s => flags_ok_stmt s = true
  end.

(** What a step may change of the interpreter: the two counters, which grow
    by at most two and one. *)
Definition counters_grow (i i' : Interpreter) : Prop :=
  finished i' = finished i ∧
  Interpreter.definitions i' = Interpreter.definitions i ∧
  Interpreter.statements i' = Interpreter.statements i ∧
  n_vars i ≤ n_vars i' ≤ S (n_vars i) ∧
  n_covars i ≤ n_covars i' ≤ S (n_covars i).

Lemma counters_grow_refl i : counters_grow i i.
Proof. unfold counters_grow. split_and!; (done || lia). Qed.

Lemma flags_ok_maps_empty : flags_ok_maps ∅ ∅.
Proof. split; apply map_Forall_empty. Qed.

Lemma eval_clauses_ok id args coargs clauses context i s i' :
  forallb flags_ok_prod args = true → forallb flags_ok_cons coargs = true →
  forallb flags_ok_clause clauses = true →
  eval_clauses id args coargs clauses context i = Ok s i' →
  flags_ok_stmt s = true ∧ i' = i.
Proof.
  intros Ha Hc Hcl. unfold eval_clauses.
  destruct (find _ clauses) as [matching|] eqn:Hfind; [|done].
  apply find_some in Hfind as [Hin _].
  rewrite forallb_forall in Hcl. specialize (Hcl _ Hin).
  destruct (_ || _); [done|].
  destruct (emplace_all (clause_arg_ids matching) args ∅) as [vm|] eqn:Hvm;
    [|done].
  destruct (emplace_all (clause_coarg_ids matching) coargs ∅) as [cm|] eqn:Hcm;
    [|done].
  intros [= <- <-]. split; [|done].
  apply replace_flags_ok.
  - split.
    + eapply (emplace_all_Forall (fun p => flags_ok_prod p = true));
        [by apply forallb_Forall|apply map_Forall_empty|exact Hvm].
    + eapply (emplace_all_Forall (fun c => flags_ok_cons c = true));
        [by apply forallb_Forall|apply map_Forall_empty|exact Hcm].
  - by destruct matching.
Qed.

Lemma step_arithmetic_ok op l r after i res i' :
  flags_ok_stmt (Arithmetic_stmt op l r after) = true →
  step_arithmetic op l r after i = Ok res i' →
  result_ok res ∧ counters_grow i i'.
Proof.
  simpl. intros [[Hl Hr]%andb_prop Ha]%andb_prop. unfold step_arithmetic.
  destruct (is_value_correct l Hl) as (Hvl & Hfl & Hsl).
  destruct (is_value l) as [lv l']. simpl in Hvl, Hfl, Hsl.
  destruct lv; cbn [negb].
  - destruct (is_value_correct r Hr) as (Hvr & Hfr & Hsr).
    destruct (is_value r) as [rv r']. simpl in Hvr, Hfr, Hsr.
    destruct rv; cbn [negb].
    + destruct l'; try done. destruct r'; try done.
      intros [= <- <-]. split; [|apply counters_grow_refl]. exact Ha.
    + unfold focus_arithmetic, focus_statement, fresh_var_id.
      intros [= <- <-]. split.
      * simpl. by rewrite Hfr, Hfl, Ha.
      * unfold counters_grow. simpl. split_and!; (done || lia).
  - unfold focus_arithmetic, focus_statement, fresh_var_id.
    intros [= <- <-]. split.
    + simpl. by rewrite Hfl, Hr, Ha.
    + unfold counters_grow. simpl. split_and!; (done || lia).
Qed.

Lemma step_ifz_ok condition if_zero if_other i res i' :
  flags_ok_stmt (Ifz_stmt condition if_zero if_other) = true →
  step_ifz condition if_zero if_other i = Ok res i' →
  result_ok res ∧ counters_grow i i'.
Proof.
  simpl. intros [[Hc Hz]%andb_prop Ho]%andb_prop. unfold step_ifz.
  destruct (is_value_correct condition Hc) as (Hvc & Hfc & Hsc).
  destruct (is_value condition) as [cv c']. simpl in Hvc, Hfc, Hsc.
  destruct cv; cbn [negb].
  - destruct c'; try done.
    destruct (_ =? _)%Z; intros [= <- <-];
      (split; [done|apply counters_grow_refl]).
  - unfold focus_ifz, focus_statement, fresh_var_id.
    intros [= <- <-]. split.
    + simpl. by rewrite Hfc, Hz, Ho.
    + unfold counters_grow. simpl. split_and!; (done || lia).
Qed.

Lemma step_cut_ok producer consumer i res i' :
  flags_ok_stmt (Cut_stmt producer consumer) = true →
  step_cut producer consumer i = Ok res i' →
  result_ok res ∧ counters_grow i i'.
Proof.
  simpl. intros [Hp Hc]%andb_prop Hstep.
  destruct (is_value_correct producer Hp) as (Hv & Hf & Hs).
  destruct (is_value producer) as [v p'] eqn:E. cbn [fst snd] in Hv, Hf, Hs.
  (* the cases of a producer that is not a mu abstraction are one goal *)
  evar (G : Prop).
  assert (Huse : G → step_cut producer consumer i = Ok res i' →
                 result_ok res ∧ counters_grow i i').
  { intros HG. unfold step_cut.
    destruct producer; cbv beta iota;
      try (rewrite E; cbv beta iota; exact HG).
    intros [= <- <-]. split; [|apply counters_grow_refl].
    apply replace_flags_ok; [|done].
    split; [apply map_Forall_empty|]. by apply map_Forall_singleton. }
  apply Huse; [|exact Hstep]. subst G. clear Huse Hstep E.
  rewrite <- Hs in Hv. clear Hs Hp producer. subst v.
  destruct (value_spec p') eqn:Hval; cbn [negb].
  - (* a value *)
    destruct consumer as [| arg_id arg_name body type
                          | id name args coargs type | clauses type |].
    + destruct p'; try done.
    + intros [= <- <-]. split; [|apply counters_grow_refl].
      apply replace_flags_ok; [|done].
      split; [by apply map_Forall_singleton|apply map_Forall_empty].
    + destruct p' as [| | | |pclauses ptype]; try done.
      simpl in Hc, Hf. apply andb_prop in Hc as [Hca Hcc].
      destruct (find_non_value_spec args Hca) as (_ & Hfa' & _ & _).
      destruct (find_non_value args) as [[k|] args']; [done|].
      cbn [fst snd] in Hfa'.
      destruct (eval_clauses id args' coargs pclauses _ i) as [s i0| | |] eqn:He;
        try done.
      simpl. intros [= <- <-].
      apply eval_clauses_ok in He as [Hs ->]; [|done..].
      split; [done|apply counters_grow_refl].
    + destruct p' as [| | |id name args coargs cached ptype|]; try done.
      simpl in Hc, Hf. apply andb_prop in Hf as [[_ Hfa]%andb_prop Hfc].
      destruct (eval_clauses id args coargs clauses _ i) as [s i0| | |] eqn:He;
        try done.
      simpl. intros [= <- <-].
      apply eval_clauses_ok in He as [Hs ->]; [|done..].
      split; [done|apply counters_grow_refl].
    + destruct p'; try done; intros [= <- <-];
        (split; [done|apply counters_grow_refl]).
  - (* not a value: a constructor is focused on its first non-value *)
    destruct p' as [| | |id name args coargs cached ptype|]; try done.
    simpl in Hf. apply andb_prop in Hf as [[Hflag Hfa]%andb_prop Hfc].
    destruct (find_non_value_spec args Hfa) as (Hlen & Hfa' & Hmap & Hfirst).
    destruct (find_non_value args) as [[k|] args']; [|done].
    cbn [fst snd] in *. destruct Hfirst as ((a & Hak & Hva) & _ & _).
    unfold focus_constructor.
    destruct (args' !! k) as [non_value|] eqn:Hk; [|done].
    unfold fresh_covar_id, focus_statement, fresh_var_id. simpl.
    intros [= <- <-]. split.
    + simpl. rewrite (forallb_lookup _ _ _ _ Hfa' Hk), Hc, Hfc.
      rewrite (forallb_insert flags_ok_prod) by done.
      assert (Hins : forallb value_spec
                (<[k := Variable_prod (n_vars i) (focus_var_name name k) None]>
                   args') = false).
      { apply forallb_insert_false; [|done].
        rewrite Hlen. by apply lookup_lt_Some in Hak. }
      rewrite Hins. simpl in Hval.
      destruct cached as [b|]; [|done].
      apply Bool.eqb_prop in Hflag. subst b. by rewrite Hval.
    + unfold counters_grow. simpl. split_and!; (done || lia).
Qed.

Lemma step_call_ok id name args coargs i res i' :
  flags_ok_stmt (Call_stmt id name args coargs) = true → defs_ok i →
  step_call id name args coargs i = Ok res i' →
  result_ok res ∧ counters_grow i i'.
Proof.
  simpl. intros [Hfa Hfc]%andb_prop Hdefs. unfold step_call.
  destruct (find_non_value_spec args Hfa) as (Hlen & Hfa' & Hmap & Hfirst).
  destruct (find_non_value args) as [[k|] args']; cbn [fst snd] in *.
  - unfold focus_call. destruct (args' !! k) as [arg|] eqn:Hk; [|done].
    unfold focus_statement, fresh_var_id. intros [= <- <-]. split.
    + simpl. rewrite (forallb_lookup _ _ _ _ Hfa' Hk), Hfc.
      by rewrite (forallb_insert flags_ok_prod) by done.
    + unfold counters_grow. simpl. split_and!; (done || lia).
  - destruct (Interpreter.definitions i !! id) as [definition|] eqn:Hd;
      [|done].
    destruct (_ || _); [done|].
    destruct (emplace_all (arg_ids definition) args' ∅) as [vm|] eqn:Hvm;
      [|done].
    destruct (emplace_all (coarg_ids definition) coargs ∅) as [cm|] eqn:Hcm;
      [|done].
    intros [= <- <-]. split; [|apply counters_grow_refl].
    apply replace_flags_ok.
    + split.
      * eapply (emplace_all_Forall (fun p => flags_ok_prod p = true));
          [by apply forallb_Forall|apply map_Forall_empty|exact Hvm].
      * eapply (emplace_all_Forall (fun c => flags_ok_cons c = true));
          [by apply forallb_Forall|apply map_Forall_empty|exact Hcm].
    + unfold defs_ok in Hdefs. rewrite Forall_lookup in Hdefs.
      by apply (Hdefs id).
Qed.

Lemma step_ok stmt i res i' :
  flags_ok_stmt stmt = true → defs_ok i → step stmt i = Ok res i' →
  result_ok res ∧ counters_grow i i'.
Proof.
  intros Hf Hd. destruct stmt; unfold step.
  - by apply step_arithmetic_ok.
  - by apply step_ifz_ok.
  - by apply step_cut_ok.
  - by apply step_call_ok.
Qed.

(** X10. A step on a statement whose memoised flags are right, the bodies
    of the definitions having right flags too, gives a statement whose flags
    are right again, or a result that is a value with right flags: focusing,
    substitution and the flags [is_value] writes never leave a stale flag.
    Of the interpreter the step changes only the two counters of fresh ids,
    each by at most one. *)
Theorem step_keeps_flags_right (stmt : Statement) (i i' : Interpreter)
        (res : Step_result) :
  flags_ok_stmt stmt = true →
  Forall (fun d => flags_ok_stmt (body d) = true) (Interpreter.definitions i) →
  step stmt i = Ok res i' →
  match res with
  | Result_producer p => flags_ok_prod p = true ∧ value_spec p = true
  | Result_statement s => flags_ok_stmt s = true
  end ∧
  finished i' = finished i ∧
  Interpreter.definitions i' = Interpreter.definitions i ∧
  Interpreter.statements i' = Interpreter.statements i ∧
  n_vars i ≤ n_vars i' ≤ S (n_vars i) ∧
  n_covars i ≤ n_covars i' ≤ S (n_covars i).
Proof. apply step_ok. Qed.

(** The statement [<Cons(1, (mu a [2 a]); ) | <END>>], which is focused on the
    second argument of the constructor. *)
Definition cut_cons_mu : Statement :=
  Cut_stmt
    (Constructor_prod 1 "Cons"
       [Value_prod 1 None;
        Mu_prod 0 "a" (Cut_stmt (Value_prod 2 None)
                                (Covariable_cons 0 "a" None)) None]
       [] None None)
    (End_cons None).

Lemma step_keeps_flags_right_witness :
  ∃ s i',
    step cut_cons_mu (new_Interpreter 0 1 (mkProgram [] [])) =
      Ok (Result_statement s) i' ∧
    flags_ok_stmt s = true ∧
    finished i' = false ∧
    Interpreter.definitions i' = [] ∧
    Interpreter.statements i' = [] ∧
    0 ≤ n_vars i' ≤ 1 ∧
    1 ≤ n_covars i' ≤ 2.
Proof.
  eexists _, _. split; [vm_compute; reflexivity|].
  apply (step_keeps_flags_right cut_cons_mu
           (new_Interpreter 0 1 (mkProgram [] [])) _ (Result_statement _)).
  - reflexivity.
  - constructor.
  - vm_compute. reflexivity.
Defined.

(** ** Runs *)

(** What a computation may change of the interpreter apart from the
    statements: the counters, which do not decrease. *)
Definition counters_le (i i' : Interpreter) : Prop :=
  finished i' = finished i ∧
  Interpreter.definitions i' = Interpreter.definitions i ∧
  n_vars i ≤ n_vars i' ∧ n_covars i ≤ n_covars i'.

Lemma run_steps_ok fuel current i p i' :
  flags_ok_stmt current = true → defs_ok i →
  run_steps fuel current i = Ok p i' →
  (flags_ok_prod p = true ∧ value_spec p = true) ∧
  counters_le i i' ∧ Interpreter.statements i' = Interpreter.statements i.
Proof.
  revert current i. induction fuel as [|fuel IH]; intros current i Hf Hd;
    [done|]. simpl.
  destruct (step current i) as [r i1| | |] eqn:Hs; try done. simpl.
  apply step_ok in Hs as (Hr & Hfin & Hdefs & Hst & Hnv & Hncv); [|done..].
  destruct r as [result|stmt].
  - intros [= <- <-]. split; [done|]. unfold counters_le.
    split_and!; (done || lia).
  - intros Hrun. apply IH in Hrun as (Hp & (Hfin' & Hdefs' & Hnv' & Hncv') & Hst');
      [|done|by unfold defs_ok; rewrite Hdefs].
    split; [done|]. unfold counters_le.
    split_and!; (congruence || lia).
Qed.

Lemma run_statements_ok fuel count index results i results' i' :
  stmts_ok i → defs_ok i →
  run_statements fuel count index results i = Ok results' i' →
  (∃ new, results' = results ++ new ∧ length new = count ∧
          Forall (fun p => flags_ok_prod p = true ∧ value_spec p = true) new) ∧
  counters_le i i' ∧
  length (Interpreter.statements i') = length (Interpreter.statements i) ∧
  (∀ k, index ≤ k < index + count →
        Interpreter.statements i' !! k = Some None) ∧
  (∀ k, ¬ (index ≤ k < index + count) →
        Interpreter.statements i' !! k = Interpreter.statements i !! k).
Proof.
  revert index results i.
  induction count as [|count IH]; intros index results i Hst Hd; simpl.
  - intros [= <- <-]. split_and!.
    + exists []. by rewrite app_nil_r.
    + unfold counters_le. split_and!; (done || lia).
    + done.
    + intros k Hk. lia.
    + done.
  - destruct (Interpreter.statements i !! index) as [[stmt|]|] eqn:Hi;
      try done.
    assert (Hfs : flags_ok_stmt stmt = true).
    { unfold stmts_ok in Hst. rewrite Forall_lookup in Hst.
      apply (Hst index (Some stmt) Hi). }
    destruct (run_steps fuel stmt (move_statement index i))
      as [result i1| | |] eqn:Hrun; try done. simpl.
    apply run_steps_ok in Hrun
      as (Hres & (Hfin1 & Hdefs1 & Hnv1 & Hncv1) & Hst1); [|done|done].
    simpl in Hfin1, Hdefs1, Hnv1, Hncv1, Hst1.
    intros Hrest. apply IH in Hrest
      as ((new & -> & Hlen & Hnew) & (Hfin' & Hdefs' & Hnv' & Hncv') &
          Hlen' & Hin & Hout).
    + split_and!.
      * exists (result :: new). rewrite <- app_assoc. simpl.
        split_and!; [done|by rewrite Hlen|by constructor].
      * unfold counters_le. split_and!; (congruence || lia).
      * by rewrite Hlen', Hst1, length_insert.
      * intros k Hk. destruct (decide (k = index)) as [->|Hne].
        -- rewrite Hout by lia. rewrite Hst1.
           apply list_lookup_insert_eq. by apply lookup_lt_Some in Hi.
        -- apply Hin. lia.
      * intros k Hk. rewrite Hout by lia. rewrite Hst1.
        apply list_lookup_insert_ne. lia.
    + unfold stmts_ok. rewrite Hst1. by apply Forall_insert.
    + unfold defs_ok. by rewrite Hdefs1.
Qed.

(** X11. A run that returns, started on statements and definitions whose
    memoised flags are right (as in every program the parser builds, which
    sets no flag), returns one result for each statement and every result is
    a value with right flags.  Afterwards the interpreter is finished, owns
    no statement any more (every slot has been moved out), has the same
    definitions, and its counters of fresh ids have not decreased. *)
Theorem run_returns_values (fuel : nat) (i i' : Interpreter)
        (results : list Producer) :
  Forall (fun o => match o with
                   | Some s => flags_ok_stmt s = true
                   | None => True
                   end) (Interpreter.statements i) →
  Forall (fun d => flags_ok_stmt (body d) = true) (Interpreter.definitions i) →
  run fuel i = Ok results i' →
  length results = length (Interpreter.statements i) ∧
  Forall (fun p => value_spec p = true ∧ flags_ok_prod p = true) results ∧
  finished i = false ∧ finished i' = true ∧
  Interpreter.statements i' =
    replicate (length (Interpreter.statements i)) None ∧
  Interpreter.definitions i' = Interpreter.definitions i ∧
  n_vars i ≤ n_vars i' ∧ n_covars i ≤ n_covars i'.
Proof.
  intros Hst Hd. unfold run. destruct (finished i) eqn:Hfin; [done|].
  destruct (run_statements fuel _ 0 [] i) as [res i1| | |] eqn:Hrun; try done.
  simpl. intros [= <- <-].
  apply run_statements_ok in Hrun
    as ((new & -> & Hlen & Hnew) & (Hfin' & Hdefs' & Hnv' & Hncv') &
        Hlen' & Hin & Hout); [|done|done].
  simpl. split_and!; try done.
  - eapply Forall_impl; [exact Hnew|]. by intros p [? ?].
  - apply list_eq. intros k.
    destruct (decide (k < length (Interpreter.statements i))) as [Hk|Hk].
    + rewrite Hin by lia. symmetry. by apply lookup_replicate_2.
    + rewrite Hout by lia. rewrite lookup_ge_None_2 by lia.
      symmetry. apply lookup_ge_None_2. rewrite length_replicate. lia.
Qed.

(** The program [(+ 1 2 <END>) <Cons(1, Nil) | <END>>]. *)
Definition two_statements : Program :=
  mkProgram []
    [Arithmetic_stmt op_add (Value_prod 1 None) (Value_prod 2 None)
                     (End_cons None);
     Cut_stmt (Constructor_prod 1 "Cons"
                 [Value_prod 1 None; Constructor_prod 0 "Nil" [] [] None None]
                 [] None None)
              (End_cons None)].

Lemma run_returns_values_witness :
  ∃ results i',
    run 3 (new_Interpreter 0 0 two_statements) = Ok results i' ∧
    length results = 2 ∧
    Forall (fun p => value_spec p = true ∧ flags_ok_prod p = true) results ∧
    false = false ∧ finished i' = true ∧
    Interpreter.statements i' = replicate 2 None ∧
    Interpreter.definitions i' = [] ∧
    0 ≤ n_vars i' ∧ 0 ≤ n_covars i'.
Proof.
  eexists _, _. split; [vm_compute; reflexivity|].
  apply (run_returns_values 3 (new_Interpreter 0 0 two_statements)).
  - repeat constructor.
  - constructor.
  - vm_compute. reflexivity.
Defined.

End Evaluation.

(* ===================================================================== *)
(** * The parser: white space, words and peeking *)
(* ===================================================================== *)

Module Lexing.
Import Types AST Parser.
Import EmptyProgram Identifiers.

(** The line feeds of a text. *)
Fixpoint newlines (ws : string) : nat :=
  match ws with
  | EmptyString => 0
  | String c rest => (if Ascii.eqb c "010"%char then 1 else 0) + newlines rest
  end.

(** The text does not start with white space. *)
Definition at_word (rest : string) : bool :=
  match rest with
  | EmptyString => true
  | String c _ => negb (isspace_char c)
  end.

(** The text is empty or starts with a character at which a word ends. *)
Definition ends_word (rest : string) : bool :=
  match rest with
  | EmptyString => true
  | String d _ => delimiter d
  end.

Definition is_empty (s : string) : bool :=
  match s with
  | EmptyString => true
  | String _ _ => false
  end.

Definition skipped (p : Parser) (ws : string) : Parser :=
  set_current_line p (current_line p + newlines ws).

Lemma append_assoc (s t u : string) :
  ((s ++ t) ++ u)%string = (s ++ (t ++ u))%string.
Proof.
  induction s as [|c s IH]; [done|].
  by rewrite !append_String, IH.
Qed.

Lemma append_nil_r (s : string) : (s ++ EmptyString)%string = s.
Proof.
  induction s as [|c s IH]; [done|]. by rewrite append_String, IH.
Qed.

Lemma length_append (s t : string) :
  String.length (s ++ t)%string = String.length s + String.length t.
Proof.
  induction s as [|c s IH]; [done|]. rewrite append_String. simpl.
  by rewrite IH.
Qed.

Lemma skip_whitespace_buffer_app ws rest line :
  all_whitespace ws = true → at_word rest = true →
  skip_whitespace_buffer (ws ++ rest) line =
  (rest, line + newlines ws, is_empty rest).
Proof.
  intros Hws Hrest. revert line.
  induction ws as [|c ws IH]; intros line.
  - rewrite append_EmptyString. cbn [newlines]. rewrite Nat.add_0_r.
    destruct rest as [|d rest]; [done|]. simpl in *.
    apply negb_true_iff in Hrest. by rewrite Hrest.
  - cbn [all_whitespace] in Hws. apply andb_prop in Hws as [Hc Hws].
    rewrite append_String. cbn [skip_whitespace_buffer newlines].
    rewrite Hc, (IH Hws). f_equal. f_equal.
    destruct (Ascii.eqb c "010"); lia.
Qed.

Lemma skip_whitespace_app p ws rest :
  all_whitespace ws = true → at_word rest = true →
  skip_whitespace (p, input (ws ++ rest)) =
  (skipped p ws, mkIstream rest (is_empty rest) false).
Proof.
  intros Hws Hrest. unfold skip_whitespace, input.
  cbn [eofbit failbit buffer].
  by rewrite (skip_whitespace_buffer_app _ _ _ Hws Hrest).
Qed.

Lemma skip_whitespace_buffer_stable buf line :
  ∃ b l e, skip_whitespace_buffer buf line = (b, l, e) ∧
           (e = false → skip_whitespace_buffer b l = (b, l, false)).
Proof.
  revert line. induction buf as [|c buf IH]; intros line.
  - by exists EmptyString, line, true.
  - cbn [skip_whitespace_buffer]. destruct (isspace_char c) eqn:Hc; [apply IH|].
    exists (String c buf), line, false. split; [done|]. intros _.
    cbn [skip_whitespace_buffer]. by rewrite Hc.
Qed.

Lemma skip_whitespace_twice st :
  skip_whitespace (skip_whitespace st) = skip_whitespace st.
Proof.
  destruct st as [p s].
  destruct (eofbit s) eqn:He.
  { assert (H : skip_whitespace (p, s) = (p, s))
      by (unfold skip_whitespace; by rewrite He).
    by rewrite !H. }
  destruct (failbit s) eqn:Hf.
  { assert (H : skip_whitespace (p, s) = (p, s))
      by (unfold skip_whitespace; by rewrite He, Hf).
    by rewrite !H. }
  destruct (skip_whitespace_buffer_stable (buffer s) (current_line p))
    as (b & l & e & Hb & Hstable).
  assert (H : skip_whitespace (p, s) =
              (set_current_line p l, mkIstream b e false))
    by (unfold skip_whitespace; by rewrite He, Hf, Hb).
  rewrite H. unfold skip_whitespace. cbn [eofbit failbit buffer].
  destruct e; [done|]. cbn [current_line set_current_line].
  by rewrite (Hstable eq_refl).
Qed.

(** X12. [skip_whitespace] on a good stream consumes the white space at the
    front and nothing else, and adds the number of line feeds it has consumed
    to [current_line]; it sets [eofbit] exactly if it has come to the end of
    the input.  Skipping twice is skipping once, and on a stream that is not
    good nothing is consumed or counted. *)
Theorem skip_whitespace_counts_lines (p : Parser) (ws rest : string) :
  all_whitespace ws = true → at_word rest = true →
  skip_whitespace (p, input (ws ++ rest)) =
    (set_current_line p (current_line p + newlines ws),
     mkIstream rest (is_empty rest) false) ∧
  (∀ st, skip_whitespace (skip_whitespace st) = skip_whitespace st) ∧
  (∀ s, good s = false → skip_whitespace (p, s) = (p, s)).
Proof.
  intros Hws Hrest. split_and!.
  - by apply skip_whitespace_app.
  - apply skip_whitespace_twice.
  - intros s Hs. unfold skip_whitespace, good in *.
    destruct (eofbit s); [done|]. by destruct (failbit s).
Qed.

(** The parser that [main] starts with. *)
Definition start : Parser := new_Parser default_ctx.

Lemma skip_whitespace_counts_lines_witness :
  skip_whitespace
    (start,
     input (String " " (String "010" (String "009" (String "010" EmptyString)))
            ++ "x y")) =
    (set_current_line start (current_line start + 2),
     mkIstream "x y" false false) ∧
  (∀ st, skip_whitespace (skip_whitespace st) = skip_whitespace st) ∧
  (∀ s, good s = false → skip_whitespace (start, s) = (start, s)).
Proof.
  apply (skip_whitespace_counts_lines start
           (String " " (String "010" (String "009" (String "010" EmptyString))))
           "x y"); reflexivity.
Defined.

(** ** Words *)

Lemma read_word_buffer_split w rest :
  identifier w = true → ends_word rest = true →
  read_word_buffer (w ++ rest) None = (w, rest, is_empty rest).
Proof.
  intros Hw Hrest. induction w as [|c w IH].
  - rewrite append_EmptyString. destruct rest as [|d rest]; [done|].
    simpl in Hrest. by rewrite read_word_buffer_cons, Hrest.
  - cbn [identifier] in Hw. apply andb_prop in Hw as [Hc Hw].
    apply negb_true_iff in Hc.
    by rewrite append_String, read_word_buffer_cons, Hc, (IH Hw).
Qed.

Lemma read_word_split p ws w rest :
  all_whitespace ws = true → identifier w = true → ends_word rest = true →
  at_word (w ++ rest) = true →
  read_word None (p, input (ws ++ w ++ rest)) =
  Ok w (skipped p ws,
        mkIstream rest (is_empty rest) (is_empty w && is_empty rest)).
Proof.
  intros Hws Hw Hrest Hat. unfold read_word.
  rewrite (skip_whitespace_app _ _ _ Hws Hat). cbn [eofbit failbit buffer].
  destruct (is_empty (w ++ rest)) eqn:He.
  - destruct w; [|done]. destruct rest; [|done]. reflexivity.
  - rewrite (read_word_buffer_split _ _ Hw Hrest).
    destruct w as [|c w]; [|done].
    rewrite append_EmptyString in He. by rewrite He.
Qed.

(** X13. [read_word] on a good stream skips the white space, counting its
    line feeds, and returns the longest run of characters that are not white
    space, parentheses or square brackets; it consumes that run and nothing
    after it.  The word is empty exactly if a delimiter or the end of the
    input comes first.  It sets [eofbit] if the input ends with the word, and
    [failbit] too if it ends before any word. *)
Theorem read_word_reads_longest_word (p : Parser) (ws w rest : string) :
  all_whitespace ws = true → identifier w = true → ends_word rest = true →
  at_word (w ++ rest) = true →
  read_word None (p, input (ws ++ w ++ rest)) =
  Ok w (set_current_line p (current_line p + newlines ws),
        mkIstream rest (is_empty rest) (is_empty w && is_empty rest)).
Proof. apply read_word_split. Qed.

Lemma read_word_reads_longest_word_witness :
  read_word None (start, input (String "010" " " ++ "foo'" ++ ")x")) =
  Ok "foo'" (set_current_line start (current_line start + 1),
             mkIstream ")x" false false).
Proof.
  apply (read_word_reads_longest_word start (String "010" " ") "foo'" ")x");
    reflexivity.
Defined.

(** ** Peeking *)

Lemma string_rev_append_twice (w acc buf : string) :
  string_rev_append (string_rev_append w acc) buf =
  string_rev_append acc (w ++ buf).
Proof.
  revert acc buf. induction w as [|c w IH]; intros acc buf; [done|].
  cbn [string_rev_append]. rewrite IH. by rewrite append_String.
Qed.

Lemma putback_all_good r p buf e :
  putback_all r (p, mkIstream buf e false) =
  (p, mkIstream (string_rev_append r buf) (is_empty r && e) false).
Proof.
  revert buf e. induction r as [|c r IH]; intros buf e; [done|].
  cbn [putback_all string_rev_append is_empty andb].
  unfold p_putback, putback. cbn [fst snd failbit buffer].
  rewrite IH. by rewrite andb_false_r.
Qed.

Lemma is_empty_rev_append w acc :
  is_empty (string_rev_append w acc) = is_empty w && is_empty acc.
Proof.
  revert acc. induction w as [|c w IH]; intros acc; [done|].
  cbn [string_rev_append]. rewrite IH. cbn [is_empty]. apply andb_false_r.
Qed.

Lemma putback_all_word w p buf e :
  putback_all (string_rev w) (p, mkIstream buf e false) =
  (p, mkIstream (w ++ buf) (is_empty w && e) false).
Proof.
  rewrite putback_all_good. unfold string_rev.
  rewrite string_rev_append_twice. cbn [string_rev_append].
  rewrite is_empty_rev_append. cbn [is_empty]. by rewrite andb_true_r.
Qed.

(** The longest word at the front of [buf] that has at most [n]
    characters. *)
Definition word_of (n : nat) (buf w rest : string) : Prop :=
  buf = (w ++ rest)%string ∧ identifier w = true ∧ String.length w ≤ n ∧
  (String.length w = n ∨ ends_word rest = true).

Lemma read_word_buffer_bounded n buf :
  ∃ w rest at_end,
    read_word_buffer buf (Some n) = (w, rest, at_end) ∧
    word_of n buf w rest ∧
    (at_end = true → rest = EmptyString ∧ String.length w < n).
Proof.
  revert buf. induction n as [|n IH]; intros buf.
  - exists EmptyString, buf, false. split; [by destruct buf|].
    split; [|done]. unfold word_of. split_and!; try done. by left.
  - destruct buf as [|c buf].
    + exists EmptyString, EmptyString, true. split; [done|].
      split; [|simpl; split; [done|lia]].
      unfold word_of. split_and!; try done; [simpl; lia|by right].
    + cbn [read_word_buffer]. fold (delimiter c).
      destruct (delimiter c) eqn:Hc.
      * exists EmptyString, (String c buf), false. split; [done|].
        split; [|done]. unfold word_of.
        split_and!; try done; [simpl; lia|by right].
      * destruct (IH buf) as (w & rest & at_end & Hr & (Hb & Hw & Hl & Hend) & He).
        cbn [option_map Nat.pred]. rewrite Hr.
        exists (String c w), rest, at_end. split; [done|].
        split.
        -- unfold word_of. split_and!.
           ++ by rewrite append_String, Hb.
           ++ cbn [identifier]. by rewrite Hc, Hw.
           ++ simpl. lia.
           ++ destruct Hend as [Hend|Hend]; [left; simpl; lia|by right].
        -- intros Ha. destruct (He Ha) as [-> Hlt]. split; [done|simpl; lia].
Qed.

Lemma peek_word_good p ws buf n :
  all_whitespace ws = true → at_word buf = true → buf ≠ EmptyString →
  ∃ w rest at_end,
    word_of n buf w rest ∧
    peek_word n (p, input (ws ++ buf)) = Ok w (skipped p ws, input buf) ∧
    read_word (Some n) (skipped p ws, input buf) =
      Ok w (skipped p ws, mkIstream rest at_end false).
Proof.
  intros Hws Hat Hne.
  destruct (read_word_buffer_bounded n buf)
    as (w & rest & at_end & Hr & Hword & He).
  exists w, rest, at_end. split; [done|].
  assert (Hskip : skip_whitespace (skipped p ws, input buf) =
                  (skipped p ws, input buf)).
  { destruct buf as [|c buf]; [done|]. apply skip_whitespace_word.
    simpl in Hat. by apply negb_true_iff in Hat. }
  assert (Hread : ∀ q, skip_whitespace q = (skipped p ws, input buf) →
            read_word (Some n) q =
            Ok w (skipped p ws, mkIstream rest at_end false)).
  { intros q Hq. unfold read_word. rewrite Hq.
    cbn [input eofbit failbit buffer]. by rewrite Hr. }
  split; [|by apply Hread].
  unfold peek_word. rewrite (Hread (p, input (ws ++ buf))).
  - cbn [bind]. rewrite putback_all_word.
    destruct Hword as (-> & _). unfold input. do 3 f_equal.
    destruct w as [|c w]; [|done]. cbn [is_empty andb].
    destruct at_end; [|done]. destruct (He eq_refl) as [-> _]. done.
  - rewrite (skip_whitespace_app _ _ _ Hws Hat). destruct buf; done.
Qed.

(** X14. [peek_word] on a good stream with more input after the white space
    consumes the white space and nothing else: the characters of the word
    are put back in their order, and the stream is good again.  The word is
    the longest word at the front that has at most [max_len] characters, and
    a [read_word] with the same bound returns it.  At the end of the input a
    peek of a non-empty bound returns the empty word and sets [eofbit] and
    [failbit]. *)
Theorem peek_word_only_skips_space (p : Parser) (ws buf : string) (n : nat) :
  all_whitespace ws = true → at_word buf = true → buf ≠ EmptyString →
  (∃ w rest at_end,
     (buf = (w ++ rest)%string ∧ identifier w = true ∧ String.length w ≤ n ∧
      (String.length w = n ∨ ends_word rest = true)) ∧
     peek_word n (p, input (ws ++ buf)) =
       Ok w (set_current_line p (current_line p + newlines ws), input buf) ∧
     read_word (Some n)
               (set_current_line p (current_line p + newlines ws), input buf) =
       Ok w (set_current_line p (current_line p + newlines ws),
             mkIstream rest at_end false)) ∧
  peek_word (S n) (p, input ws) =
    Ok EmptyString (set_current_line p (current_line p + newlines ws),
                    mkIstream EmptyString true true).
Proof.
  intros Hws Hat Hne. split; [by apply peek_word_good|].
  unfold peek_word, read_word.
  rewrite <- (append_nil_r ws) at 1.
  rewrite (skip_whitespace_app p ws EmptyString Hws eq_refl). reflexivity.
Qed.

Lemma peek_word_only_skips_space_witness :
  (∃ w rest at_end,
     ("cocase (" = (w ++ rest)%string ∧ identifier w = true ∧
      String.length w ≤ 3 ∧
      (String.length w = 3 ∨ ends_word rest = true)) ∧
     peek_word 3 (start, input (" " ++ "cocase (")) =
       Ok w (set_current_line start (current_line start + 0),
             input "cocase (") ∧
     read_word (Some 3)
               (set_current_line start (current_line start + 0),
                input "cocase (") =
       Ok w (set_current_line start (current_line start + 0),
             mkIstream rest at_end false)) ∧
  peek_word 4 (start, input " ") =
    Ok EmptyString (set_current_line start (current_line start + 0),
                    mkIstream EmptyString true true).
Proof.
  apply (peek_word_only_skips_space start " " "cocase (" 3); done.
Defined.

End Lexing.

(* ===================================================================== *)
(** * The parser: integer literals *)
(* ===================================================================== *)

Module Literals.
Import Types AST Parser.
Import EmptyProgram Identifiers Lexing.

Fixpoint all_digits (s : string) : bool :=
  match s with
  | EmptyString => true
  | String c rest => isdigit_char c && all_digits rest
  end.

(** The number that a run of digits after the number [acc] denotes. *)
Fixpoint digits_value (ds : string) (acc : Z) : Z :=
  match ds with
  | EmptyString => acc
  | String c rest => digits_value rest (acc * 10 + digit_value c)%Z
  end.

Lemma digit_char x :
  (x < 10)%N →
  isdigit_char (pretty_N_char x) = true ∧
  digit_value (pretty_N_char x) = Z.of_N x.
Proof.
  intros Hx.
  assert (x = 0 ∨ x = 1 ∨ x = 2 ∨ x = 3 ∨ x = 4 ∨ x = 5 ∨ x = 6 ∨ x = 7 ∨
          x = 8 ∨ x = 9)%N as H by lia.
  repeat (destruct H as [->|H]; [done|]). by subst x.
Qed.

Lemma isdigit_not_delimiter c : isdigit_char c = true → delimiter c = false.
Proof. destruct c as [[] [] [] [] [] [] [] []]; done. Qed.

Lemma isdigit_not_sign c :
  isdigit_char c = true →
  Ascii.eqb c "-" = false ∧ Ascii.eqb c "+" = false ∧ isalpha_char c = false.
Proof. destruct c as [[] [] [] [] [] [] [] []]; done. Qed.

Lemma all_digits_identifier ds : all_digits ds = true → identifier ds = true.
Proof.
  induction ds as [|c ds IH]; [done|]. simpl.
  intros [Hc Hds]%andb_prop. by rewrite (isdigit_not_delimiter c Hc), IH.
Qed.

Lemma all_digits_app ds ds' :
  all_digits ds = true → all_digits ds' = true →
  all_digits (ds ++ ds') = true.
Proof.
  intros Hds Hds'. induction ds as [|c ds IH]; [done|].
  rewrite append_String. simpl in *.
  apply andb_prop in Hds as [Hc Hds]. by rewrite Hc, IH.
Qed.

Lemma digits_value_snoc ds d acc :
  digits_value (ds ++ String d EmptyString) acc =
  (digits_value ds acc * 10 + digit_value d)%Z.
Proof.
  revert acc. induction ds as [|c ds IH]; intros acc; [done|].
  rewrite append_String. simpl. apply IH.
Qed.

Lemma read_digits_app ds s acc count :
  all_digits ds = true →
  read_digits (ds ++ s) acc count =
  read_digits s (digits_value ds acc) (count + String.length ds).
Proof.
  revert acc count. induction ds as [|c ds IH]; intros acc count Hds.
  - rewrite append_EmptyString. simpl. by rewrite Nat.add_0_r.
  - simpl in Hds. apply andb_prop in Hds as [Hc Hds].
    rewrite append_String. simpl. rewrite Hc, (IH _ _ Hds).
    f_equal. lia.
Qed.

(** The digits that [pretty] writes for a number. *)
Lemma pretty_N_go_digits x :
  ∃ ds, (∀ s, pretty_N_go x s = (ds ++ s)%string) ∧
        all_digits ds = true ∧ digits_value ds 0 = Z.of_N x ∧
        ((0 < x)%N → ds ≠ EmptyString).
Proof.
  induction (N.lt_wf_0 x) as [x _ IH].
  destruct (decide (x = 0%N)) as [->|Hx].
  - exists EmptyString. split_and!; try done; lia.
  - assert (0 < x)%N as Hpos by lia.
    destruct (IH (x `div` 10)%N) as (ds & Hgo & Hds & Hval & _).
    { by apply N.div_lt. }
    destruct (digit_char (x `mod` 10)%N) as [Hd Hdv].
    { by apply N.mod_lt. }
    exists (ds ++ String (pretty_N_char (x `mod` 10)) EmptyString)%string.
    split_and!.
    + intros s. rewrite pretty_N_go_step by done.
      by rewrite Hgo, append_assoc.
    + apply all_digits_app; [done|]. simpl. by rewrite Hd.
    + rewrite digits_value_snoc, Hval, Hdv.
      rewrite N2Z.inj_div, N2Z.inj_mod.
      pose proof (Z.div_mod (Z.of_N x) 10). lia.
    + intros _. by destruct ds.
Qed.

Lemma pretty_pos_digits (x : positive) :
  ∃ c ds, pretty (N.pos x) = String c ds ∧ all_digits (String c ds) = true ∧
          digits_value (String c ds) 0 = Z.pos x.
Proof.
  destruct (pretty_N_go_digits (N.pos x)) as (ds & Hgo & Hds & Hval & Hne).
  unfold pretty, pretty_N. destruct (decide (N.pos x = 0%N)); [done|].
  rewrite Hgo, append_nil_r.
  destruct ds as [|c ds]; [by destruct Hne|]. by exists c, ds.
Qed.

(** The range of [std::int64_t]. *)
Definition in_int64 (z : Z) : bool :=
  ((- 2 ^ 63 <=? z) && (z <? 2 ^ 63))%Z.

Definition out_of_range : Parse_exception := Std_exception "stoll: out of range".

Lemma range_cases v :
  ((v <? - 2 ^ 63) || (2 ^ 63 <=? v))%Z = negb (in_int64 v).
Proof.
  unfold in_int64.
  destruct (Z.ltb_spec v (- 2 ^ 63)), (Z.leb_spec (2 ^ 63) v),
    (Z.leb_spec (- 2 ^ 63) v), (Z.ltb_spec v (2 ^ 63)); simpl; try done; lia.
Qed.

Lemma stoll_digits c ds :
  all_digits (String c ds) = true →
  stoll (String c ds) =
    (if in_int64 (digits_value (String c ds) 0)
     then inr (digits_value (String c ds) 0, String.length (String c ds))
     else inl out_of_range) ∧
  stoll (String "-" (String c ds)) =
    (if in_int64 (- digits_value (String c ds) 0)
     then inr ((- digits_value (String c ds) 0)%Z,
               S (String.length (String c ds)))
     else inl out_of_range).
Proof.
  intros Hds. pose proof Hds as Hc. cbn [all_digits] in Hc.
  apply andb_prop in Hc as [Hc _].
  destruct (isdigit_not_sign c Hc) as (Hminus & Hplus & _).
  pose proof (read_digits_app (String c ds) EmptyString 0%Z 0 Hds) as Hread.
  rewrite append_nil_r in Hread.
  change (read_digits EmptyString ?a ?n) with (a, n) in Hread.
  unfold stoll. rewrite Hminus, Hplus. change (Ascii.eqb "-" "-") with true.
  cbv iota. rewrite Hread. cbn [String.length Nat.add Nat.eqb].
  rewrite !range_cases. by destruct (in_int64 _), (in_int64 _).
Qed.

(** [pretty z] is the decimal numeral of [z]: [stoll] reads it back. *)
Lemma stoll_pretty (z : Z) :
  stoll (pretty z) =
  if in_int64 z then inr (z, String.length (pretty z)) else inl out_of_range.
Proof.
  destruct z as [|x|x].
  - done.
  - destruct (pretty_pos_digits x) as (c & ds & Hp & Hds & Hval).
    change (pretty (Z.pos x)) with (pretty (N.pos x)). rewrite Hp.
    destruct (stoll_digits c ds Hds) as [-> _]. by rewrite Hval.
  - destruct (pretty_pos_digits x) as (c & ds & Hp & Hds & Hval).
    change (pretty (Z.neg x)) with ("-" +:+ pretty (N.pos x)). rewrite Hp.
    change ("-" +:+ String c ds) with (String "-" (String c ds)).
    destruct (stoll_digits c ds Hds) as [_ ->]. by rewrite Hval.
Qed.

(** The words that [parse_producer] takes for an integer literal: they start
    with a digit or with [-]. *)
Definition literal_word (w : string) : bool :=
  match w with
  | EmptyString => false
  | String c _ => (isdigit_char c || Ascii.eqb c "-") && identifier w
  end.

Lemma pretty_literal_word (z : Z) : literal_word (pretty z) = true.
Proof.
  destruct z as [|x|x].
  - done.
  - destruct (pretty_pos_digits x) as (c & ds & Hp & Hds & _).
    change (pretty (Z.pos x)) with (pretty (N.pos x)). rewrite Hp.
    unfold literal_word. rewrite (all_digits_identifier _ Hds).
    simpl in Hds. apply andb_prop in Hds as [-> _]. done.
  - destruct (pretty_pos_digits x) as (c & ds & Hp & Hds & _).
    change (pretty (Z.neg x)) with ("-" +:+ pretty (N.pos x)). rewrite Hp.
    change ("-" +:+ String c ds) with (String "-" (String c ds)).
    unfold literal_word. cbn [identifier].
    apply all_digits_identifier in Hds. cbn [identifier] in Hds.
    by rewrite Hds.
Qed.

Lemma skipped_nil p : skipped p EmptyString = p.
Proof. unfold skipped. simpl. rewrite Nat.add_0_r. by destruct p. Qed.

(** What [parse_value] makes of a word. *)
Definition value_of_word (w : string) (st : pstate) : parse_outcome Producer :=
  match stoll w with
  | inl e => Throw e st
  | inr (value, processed) =>
      if negb (Nat.eqb processed (String.length w))
      then Throw (Parse_error (current_line st.1) (current_line st.1)
                              Names.AST.value
                              ("invalid integer literal: " ++ w)) st
      else Ok (Value_prod value None) st
  end.

Lemma parse_producer_literal rec fuel p ws w rest :
  all_whitespace ws = true → literal_word w = true → ends_word rest = true →
  parse_producer_body rec fuel (p, input (ws ++ w ++ rest)) =
  value_of_word w (skipped p ws, mkIstream rest (is_empty rest) false).
Proof.
  intros Hws Hw Hrest. destruct w as [|c w]; [done|].
  unfold literal_word in Hw. apply andb_prop in Hw as [Hc Hid].
  assert (Halpha : isalpha_char c = false).
  { apply orb_prop in Hc as [Hc|Hc]; [by apply isdigit_not_sign|].
    apply Ascii.eqb_eq in Hc. by subst c. }
  assert (Hat : at_word (String c w ++ rest) = true).
  { rewrite append_String. simpl. by rewrite (identifier_first _ _ Hid). }
  unfold parse_producer_body.
  rewrite (skip_whitespace_app _ _ _ Hws Hat). cbv zeta.
  rewrite append_String. change (mkIstream ?b false false) with (input b).
  cbn [is_empty]. change (mkIstream ?b false false) with (input b).
  rewrite p_peek_input. cbn [isalpha isdigit is_char]. rewrite Halpha.
  unfold Names.minus. rewrite Hc. cbv iota.
  unfold parse_value. rewrite <- append_String.
  rewrite <- (append_EmptyString (String c w ++ rest)).
  rewrite (read_word_split _ EmptyString _ _ eq_refl Hid Hrest Hat).
  cbn [bind is_empty andb]. rewrite skipped_nil. reflexivity.
Qed.

(** X15. Integer literals round-trip: on the decimal numeral of any integer
    [z] ([pretty z], with a [-] for a negative one) that a delimiter or the
    end of the input follows, [parse_producer] returns the literal [z] and
    has consumed exactly the white space and the numeral, when [z] is in the
    range of [std::int64_t].  Outside the range [std::stoll] throws
    [std::out_of_range], which is not an exception of the parser. *)
Theorem integer_literal_round_trip (fuel : nat) (p : Parser) (z : Z)
        (ws rest : string) :
  all_whitespace ws = true → ends_word rest = true →
  parse_producer (S fuel) (p, input (ws ++ pretty z ++ rest)) =
  if ((- 2 ^ 63 <=? z) && (z <? 2 ^ 63))%Z
  then Ok (Value_prod z None)
          (set_current_line p (current_line p + newlines ws),
           mkIstream rest (is_empty rest) false)
  else Throw (Std_exception "stoll: out of range")
             (set_current_line p (current_line p + newlines ws),
              mkIstream rest (is_empty rest) false).
Proof.
  intros Hws Hrest. unfold parse_producer. rewrite rec_producer_at.
  rewrite (parse_producer_literal _ _ _ _ _ _ Hws (pretty_literal_word z) Hrest).
  unfold value_of_word. rewrite stoll_pretty. fold (in_int64 z).
  destruct (in_int64 z); [|done]. by rewrite Nat.eqb_refl.
Qed.

Lemma integer_literal_round_trip_witness :
  parse_producer 1 (start, input (" " ++ pretty (-42)%Z ++ ")")) =
  Ok (Value_prod (-42) None)
     (set_current_line start (current_line start + 0),
      mkIstream ")" false false).
Proof.
  apply (integer_literal_round_trip 0 start (-42) " " ")"); reflexivity.
Defined.

Lemma stoll_inl w e : stoll w = inl e → is_parse_exception e = false.
Proof.
  unfold stoll.
  destruct (match w with
            | EmptyString => (false, w, 0)
            | String c rest =>
                if Ascii.eqb c "-" then (true, rest, 1)
                else if Ascii.eqb c "+" then (false, rest, 1)
                else (false, w, 0)
            end) as [[negative digits] sign_len].
  destruct (read_digits digits 0 0) as [n count].
  destruct (count =? 0); [by intros [= <-]|].
  destruct (_ || _); [by intros [= <-]|done].
Qed.

Lemma parse_program_bad_literal fuel p w e :
  literal_word w = true → stoll w = inl e →
  parse_program (S fuel) (p, input (String "[" (w ++ " <END>]"))) =
  Throw e (p, input " <END>]").
Proof.
  intros Hw He. unfold parse_program.
  rewrite skip_whitespace_word by reflexivity.
  cbn [parse_program_loop]. cbn [eof eofbit input snd].
  rewrite p_peek_input. cbn [is_char].
  change (Ascii.eqb "[" Names.open_square) with true. cbv iota.
  unfold parse_cut. rewrite skip_whitespace_word by reflexivity. cbv zeta.
  rewrite expect_input. cbn [bind]. rewrite rec_producer_at.
  rewrite <- (append_EmptyString (w ++ " <END>]")).
  rewrite (parse_producer_literal _ _ _ EmptyString w " <END>]" eq_refl Hw
             eq_refl).
  unfold value_of_word. rewrite He, skipped_nil. reflexivity.
Qed.

(** X16. A word in the place of a producer that starts with a digit or with
    [-] is handed to [std::stoll]; when that throws (a numeral outside
    [std::int64_t]: [std::out_of_range]; no digit after the sign:
    [std::invalid_argument]) the exception is not a [lammm::Exception], no
    handler of [main] catches it, and the process is terminated instead of
    reporting a parse error with exit code 1. *)
Theorem bad_literal_terminates (fuel : nat) (w : string) (e : Parse_exception) :
  literal_word w = true → stoll w = inl e →
  (∀ p, parse_program (S fuel) (p, istream_of ("[" ++ w ++ " <END>]")) =
        Throw e (p, mkIstream " <END>]" false false)) ∧
  is_parse_exception e = false ∧
  Lammm.main (S fuel) ("[" ++ w ++ " <END>]") = Some (Lammm.Terminate, []).
Proof.
  intros Hw He.
  assert (Hparse : ∀ p,
            parse_program (S fuel) (p, istream_of ("[" ++ w ++ " <END>]")) =
            Throw e (p, mkIstream " <END>]" false false)).
  { intros p. by apply parse_program_bad_literal. }
  split_and!; [done|by eapply stoll_inl|].
  unfold Lammm.main. rewrite default_typing_context_eq. cbv zeta.
  rewrite Hparse. by rewrite (stoll_inl _ _ He).
Qed.

Lemma bad_literal_terminates_witness :
  (∀ p, parse_program 1 (p, istream_of ("[" ++ "9223372036854775808" ++ " <END>]")) =
        Throw (Std_exception "stoll: out of range")
              (p, mkIstream " <END>]" false false)) ∧
  is_parse_exception (Std_exception "stoll: out of range") = false ∧
  Lammm.main 1 ("[" ++ "9223372036854775808" ++ " <END>]") =
    Some (Lammm.Terminate, []).
Proof.
  apply (bad_literal_terminates 0 "9223372036854775808").
  - reflexivity.
  - vm_compute. reflexivity.
Defined.

End Literals.

(* ===================================================================== *)
(** * The parser: the scopes of names *)
(* ===================================================================== *)

Module Scopes.
Import Types AST Parser.

(** ** Stacks of ids *)

Lemma stack_of_push name id m x :
  stack_of (push_id name id m) x =
  if decide (name = x) then stack_of m x ++ [id] else stack_of m x.
Proof.
  unfold push_id, stack_of. destruct (decide (name = x)) as [->|Hne].
  - by rewrite lookup_insert_eq.
  - by rewrite lookup_insert_ne.
Qed.

Lemma stack_of_pop name m x :
  stack_of (pop_id name m) x =
  if decide (name = x) then removelast (stack_of m x) else stack_of m x.
Proof.
  unfold pop_id, stack_of. destruct (decide (name = x)) as [->|Hne].
  - by rewrite lookup_insert_eq.
  - by rewrite lookup_insert_ne.
Qed.

(** The ids that a list of parameter names gives the name [x], the first
    parameter getting the id [n]. *)
Fixpoint ids_of (x : string) (names : list string) (n : nat) : list nat :=
  match names with
  | [] => []
  | name :: rest =>
      (if decide (name = x) then [n] else []) ++ ids_of x rest (S n)
  end.

Lemma removelast_snoc {A} (l : list A) (a : A) : removelast (l ++ [a]) = l.
Proof. apply removelast_last. Qed.

Lemma stack_of_pops names m x :
  stack_of (foldl (fun m name => pop_id name m) m names) x =
  Nat.iter (length (filter (fun name => name = x) names)) (@removelast nat)
           (stack_of m x).
Proof.
  revert m. induction names as [|name names IH]; intros m; [done|].
  cbn [foldl]. rewrite IH, stack_of_pop. rewrite filter_cons.
  destruct (decide (name = x)) as [->|Hne]; [|done].
  cbn [length]. by rewrite Nat.iter_succ_r.
Qed.

Lemma length_ids_of x names n :
  length (ids_of x names n) = length (filter (fun name => name = x) names).
Proof.
  revert n. induction names as [|name names IH]; intros n; [done|].
  cbn [ids_of]. rewrite length_app, IH, filter_cons.
  by destruct (decide (name = x)).
Qed.

Lemma iter_removelast_app {A} (l l' : list A) :
  Nat.iter (length l') (@removelast A) (l ++ l') = l.
Proof.
  induction l' as [|a l' IH] using rev_ind.
  - by rewrite app_nil_r.
  - rewrite length_app. cbn [length]. rewrite Nat.add_1_r, Nat.iter_succ_r.
    by rewrite app_assoc, removelast_snoc.
Qed.

(** ** What parsing leaves of the parser *)

(** The members of the parser that only [parse_definition] writes. *)
Definition tables (p : Parser)
  : Typing_context * nat * gmap string nat * gmap string nat *
    gmap string nat * gmap nat Arity_info * gmap nat Arity_info :=
  (ctx p, n_defs p, def_ids p, constructor_ids p, destructor_ids p,
   structor_arity p, def_arity p).

(** The parser [q] resolves every name as the parser [p] does and has used
    up the ids that [p] has used up; it has the same tables too. *)
Definition same_stacks (p q : Parser) : Prop :=
  (∀ x, stack_of (var_ctx q) x = stack_of (var_ctx p) x) ∧
  (∀ x, stack_of (covar_ctx q) x = stack_of (covar_ctx p) x) ∧
  n_vars_ p ≤ n_vars_ q ∧ n_covars_ p ≤ n_covars_ q.

Definition same_scopes (p q : Parser) : Prop :=
  tables q = tables p ∧ same_stacks p q.

Lemma same_scopes_refl p : same_scopes p p.
Proof. unfold same_scopes, same_stacks. split_and!; (done || lia). Qed.

Lemma same_scopes_trans p q r :
  same_scopes p q → same_scopes q r → same_scopes p r.
Proof.
  intros (Ht & Hv & Hc & Hnv & Hnc) (Ht' & Hv' & Hc' & Hnv' & Hnc').
  unfold same_scopes, same_stacks. split_and!; try lia.
  - congruence.
  - intros x. by rewrite Hv', Hv.
  - intros x. by rewrite Hc', Hc.
Qed.

Lemma same_stacks_trans p q r :
  same_stacks p q → same_stacks q r → same_stacks p r.
Proof.
  intros (Hv & Hc & Hnv & Hnc) (Hv' & Hc' & Hnv' & Hnc').
  unfold same_stacks. split_and!; try lia.
  - intros x. by rewrite Hv', Hv.
  - intros x. by rewrite Hc', Hc.
Qed.

Lemma same_scopes_line p line : same_scopes p (set_current_line p line).
Proof.
  unfold same_scopes, same_stacks. simpl. split_and!; (done || lia).
Qed.

(** ** Binding and unbinding parameters *)

Lemma bind_vars_spec names p :
  (bind_vars names p).1 = seq (n_vars_ p) (length names) ∧
  n_vars_ (bind_vars names p).2 = n_vars_ p + length names ∧
  (∀ x, stack_of (var_ctx (bind_vars names p).2) x =
        stack_of (var_ctx p) x ++ ids_of x names (n_vars_ p)) ∧
  tables (bind_vars names p).2 = tables p ∧
  covar_ctx (bind_vars names p).2 = covar_ctx p ∧
  n_covars_ (bind_vars names p).2 = n_covars_ p ∧
  current_line (bind_vars names p).2 = current_line p.
Proof.
  revert p. induction names as [|name names IH]; intros p.
  - simpl. split_and!; first [done | lia | intros x; by rewrite app_nil_r].
  - cbn [bind_vars].
    destruct (IH (set_var_ctx (set_n_vars_ p (S (n_vars_ p)))
                    (push_id name (n_vars_ p) (var_ctx p))))
      as (Hids & Hn & Hst & Ht & Hc & Hnc & Hl).
    destruct (bind_vars names _) as [ids p']. cbn [fst snd] in *.
    cbn [set_var_ctx set_n_vars_ n_vars_ var_ctx covar_ctx n_covars_
         current_line tables ctx n_defs def_ids constructor_ids
         destructor_ids structor_arity def_arity] in *.
    split_and!;
      first [done | simpl; lia | simpl; by rewrite Hids | by rewrite Ht
            | intros x; rewrite Hst, stack_of_push; cbn [ids_of];
              destruct (decide (name = x)); by rewrite <- ?app_assoc].
Qed.

Lemma bind_covars_spec names p :
  (bind_covars names p).1 = seq (n_covars_ p) (length names) ∧
  n_covars_ (bind_covars names p).2 = n_covars_ p + length names ∧
  (∀ x, stack_of (covar_ctx (bind_covars names p).2) x =
        stack_of (covar_ctx p) x ++ ids_of x names (n_covars_ p)) ∧
  tables (bind_covars names p).2 = tables p ∧
  var_ctx (bind_covars names p).2 = var_ctx p ∧
  n_vars_ (bind_covars names p).2 = n_vars_ p ∧
  current_line (bind_covars names p).2 = current_line p.
Proof.
  revert p. induction names as [|name names IH]; intros p.
  - simpl. split_and!; first [done | lia | intros x; by rewrite app_nil_r].
  - cbn [bind_covars].
    destruct (IH (set_covar_ctx (set_n_covars_ p (S (n_covars_ p)))
                    (push_id name (n_covars_ p) (covar_ctx p))))
      as (Hids & Hn & Hst & Ht & Hc & Hnc & Hl).
    destruct (bind_covars names _) as [ids p']. cbn [fst snd] in *.
    cbn [set_covar_ctx set_n_covars_ n_vars_ var_ctx covar_ctx n_covars_
         current_line tables ctx n_defs def_ids constructor_ids
         destructor_ids structor_arity def_arity] in *.
    split_and!;
      first [done | simpl; lia | simpl; by rewrite Hids | by rewrite Ht
            | intros x; rewrite Hst, stack_of_push; cbn [ids_of];
              destruct (decide (name = x)); by rewrite <- ?app_assoc].
Qed.

(** The body of a binder has been parsed between the binding and the
    unbinding of the parameters: the scopes are those from before. *)
Lemma stacks_unbind arg_names coarg_names p q :
  same_stacks (bind_covars coarg_names (bind_vars arg_names p).2).2 q →
  same_stacks p (unbind_covars coarg_names (unbind_vars arg_names q)).
Proof.
  destruct (bind_vars_spec arg_names p) as (_ & Hn & Hst & Ht & Hc & Hnc & _).
  destruct (bind_covars_spec coarg_names (bind_vars arg_names p).2)
    as (_ & Hn' & Hst' & Ht' & Hc' & Hnc' & _).
  intros (Hvq & Hcq & Hnvq & Hncq).
  unfold same_stacks, unbind_covars, unbind_vars.
  cbn [set_covar_ctx set_var_ctx n_vars_ var_ctx covar_ctx n_covars_].
  split_and!.
  - intros x. rewrite stack_of_pops, Hvq, Hc', Hst.
    rewrite <- (length_ids_of x arg_names (n_vars_ p)).
    apply iter_removelast_app.
  - intros x. rewrite stack_of_pops, Hcq, Hst', Hc.
    rewrite <- (length_ids_of x coarg_names
                  (n_covars_ (bind_vars arg_names p).2)).
    apply iter_removelast_app.
  - lia.
  - lia.
Qed.

Lemma scopes_unbind arg_names coarg_names p q :
  same_scopes (bind_covars coarg_names (bind_vars arg_names p).2).2 q →
  same_scopes p (unbind_covars coarg_names (unbind_vars arg_names q)).
Proof.
  destruct (bind_vars_spec arg_names p) as (_ & _ & _ & Ht & _).
  destruct (bind_covars_spec coarg_names (bind_vars arg_names p).2)
    as (_ & _ & _ & Ht' & _).
  intros [Htq Hq]. split; [|by apply stacks_unbind].
  trans (tables q); [done|]. by rewrite Htq, Ht', Ht.
Qed.

(** ** The parse functions *)

(** A call that returns leaves a parser with the scopes of [p]. *)
Definition ok_from {T} (p : Parser) (m : parse_outcome T) : Prop :=
  ∀ x st', m = Ok x st' → same_scopes p st'.1.

(** A parse function that returns leaves the scopes as it has found them. *)
Definition scoped {T} (f : pstate → parse_outcome T) : Prop :=
  ∀ p st, same_scopes p st.1 → ok_from p (f st).

Lemma ok_from_bind {A B} p q (m : parse_outcome A)
      (k : A → pstate → parse_outcome B) :
  ok_from q m → (∀ a s, same_scopes q s.1 → ok_from p (k a s)) →
  ok_from p (bind m k).
Proof.
  intros Hm Hk x st'. destruct m as [a s| | |]; try done. simpl.
  apply Hk. by apply (Hm a s).
Qed.

Lemma ok_from_Ok {T} p (x : T) st : same_scopes p st.1 → ok_from p (Ok x st).
Proof. by intros H y st' [= <- <-]. Qed.

Lemma ok_from_Throw {T} p e st : ok_from (T := T) p (Throw e st).
Proof. by intros y st'. Qed.

Lemma ok_from_Undefined {T} p : ok_from (T := T) p Undefined.
Proof. by intros y st'. Qed.

Lemma ok_from_OutOfFuel {T} p : ok_from (T := T) p OutOfFuel.
Proof. by intros y st'. Qed.

Lemma scopes_skip p st :
  same_scopes p st.1 → same_scopes p (skip_whitespace st).1.
Proof.
  intros H. destruct st as [q s]. unfold skip_whitespace.
  destruct (eofbit s); [done|]. destruct (failbit s); [done|].
  destruct (skip_whitespace_buffer _ _) as [[buf line] at_end]. simpl.
  eapply same_scopes_trans; [exact H|apply same_scopes_line].
Qed.

Lemma scopes_peek p st c st1 :
  p_peek st = (c, st1) → same_scopes p st.1 → same_scopes p st1.1.
Proof.
  unfold p_peek. destruct (peek st.2) as [c' s]. by intros [= <- <-].
Qed.

Lemma scopes_get p st c st1 :
  p_get st = (c, st1) → same_scopes p st.1 → same_scopes p st1.1.
Proof.
  unfold p_get. destruct (get st.2) as [c' s]. by intros [= <- <-].
Qed.

Lemma scopes_putback p c st :
  same_scopes p st.1 → same_scopes p (p_putback c st).1.
Proof. done. Qed.

Lemma scopes_keyword_cause p keyword st c st1 :
  keyword_cause keyword st = (c, st1) → same_scopes p st.1 →
  same_scopes p st1.1.
Proof.
  unfold keyword_cause. destruct keyword; [apply scopes_peek|].
  by intros [= <- <-].
Qed.

Lemma scoped_read_word max_len : scoped (read_word max_len).
Proof.
  intros p st H. unfold read_word.
  pose proof (scopes_skip p st H) as Hs.
  destruct (skip_whitespace st) as [q s]. simpl in Hs.
  destruct (eofbit s).
  { destruct max_len as [[|n]|]; by apply ok_from_Ok. }
  destruct (failbit s).
  { destruct max_len; [by apply ok_from_Ok|apply ok_from_OutOfFuel]. }
  destruct (read_word_buffer _ _) as [[word buf] at_end].
  by apply ok_from_Ok.
Qed.

Lemma putback_all_parser r st : (putback_all r st).1 = st.1.
Proof.
  revert st. induction r as [|c r IH]; intros st; [done|].
  simpl. by rewrite IH.
Qed.

Lemma scoped_peek_word max_len : scoped (peek_word max_len).
Proof.
  intros p st H. unfold peek_word.
  eapply ok_from_bind; [by apply scoped_read_word|].
  intros word s Hs. apply ok_from_Ok. by rewrite putback_all_parser.
Qed.

Lemma scoped_expect c context line : scoped (expect c context line).
Proof.
  intros p st H. unfold expect.
  destruct (p_get st) as [d st1] eqn:Hg.
  pose proof (scopes_get _ _ _ _ Hg H).
  destruct (is_char d c); [by apply ok_from_Ok|apply ok_from_Throw].
Qed.

Lemma scoped_parse_list_loop {T} (parse : pstate → parse_outcome T) fuel
      syntax_kind start_line result :
  scoped parse →
  scoped (parse_list_loop parse fuel syntax_kind start_line result).
Proof.
  intros Hparse. revert result.
  induction fuel as [|fuel IH]; intros result p st H.
  { apply ok_from_OutOfFuel. }
  cbn [parse_list_loop]. cbv zeta.
  pose proof (scopes_skip p st H) as Hs.
  destruct (p_peek (skip_whitespace st)) as [c st1] eqn:Hp.
  pose proof (scopes_peek _ _ _ _ Hp Hs) as H1.
  destruct (is_char c Names.close_paren).
  { destruct (p_get st1) as [d st2] eqn:Hg. apply ok_from_Ok.
    by apply (scopes_get _ _ _ _ Hg). }
  destruct (eof st1.2).
  { destruct (p_peek st1); apply ok_from_Throw. }
  eapply ok_from_bind; [by apply Hparse|].
  intros x s Hx. by apply IH.
Qed.

Lemma scoped_parse_list {T} (parse : pstate → parse_outcome T) fuel
      syntax_kind :
  scoped parse → scoped (parse_list parse fuel syntax_kind).
Proof.
  intros Hparse p st H. unfold parse_list. cbv zeta.
  pose proof (scopes_skip p st H) as Hs.
  destruct (p_get (skip_whitespace st)) as [c st1] eqn:Hg.
  pose proof (scopes_get _ _ _ _ Hg Hs) as H1.
  destruct (negb _); [apply ok_from_Throw|].
  by apply scoped_parse_list_loop.
Qed.

(** The body of a binder is parsed with the parameters bound, which are
    unbound afterwards. *)
Lemma ok_from_binder {A B} p arg_names coarg_names st
      (body_parser : pstate → parse_outcome A)
      (k : A → pstate → parse_outcome B) :
  scoped body_parser → same_scopes p st.1 →
  (∀ a s, same_scopes p (unbind_covars coarg_names
                           (unbind_vars arg_names s.1)) →
          ok_from p (k a s)) →
  ok_from p (bind (body_parser
                     ((bind_covars coarg_names
                         (bind_vars arg_names st.1).2).2, st.2)) k).
Proof.
  intros Hbody H Hk.
  eapply (ok_from_bind p _); [apply Hbody, same_scopes_refl|].
  intros a s Hs. apply Hk.
  eapply same_scopes_trans; [exact H|]. by apply scopes_unbind.
Qed.

(** One step through the body of a parse function. *)
Ltac scopes_step :=
  match goal with
  | |- ok_from _ (Ok _ _) => apply ok_from_Ok
  | |- ok_from _ (Throw _ _) => apply ok_from_Throw
  | |- ok_from _ Undefined => apply ok_from_Undefined
  | |- ok_from _ OutOfFuel => apply ok_from_OutOfFuel
  | |- ok_from ?p (bind (?f (set_covar_ctx _ (push_id ?name _ _), ?s.2)) _) =>
      apply (ok_from_binder p [] [name] s); [| |intros ? ? ?]
  | |- ok_from ?p (bind (?f (set_var_ctx _ (push_id ?name _ _), ?s.2)) _) =>
      apply (ok_from_binder p [name] [] s); [| |intros ? ? ?]
  | |- ok_from ?p (bind (?f ((bind_covars ?cn (bind_vars ?an ?s.1).2).2,
                             ?s.2)) _) =>
      apply (ok_from_binder p an cn s); [| |intros ? ? ?]
  | |- ok_from _ (let '(_, _) := bind_vars ?n ?q in _) =>
      let E := fresh in
      let q1 := fresh "q" in
      destruct (bind_vars n q) as [? q1] eqn:E;
      apply (f_equal snd) in E; cbn [snd] in E; subst q1
  | |- ok_from _ (let '(_, _) := bind_covars ?n ?q in _) =>
      let E := fresh in
      let q1 := fresh "q" in
      destruct (bind_covars n q) as [? q1] eqn:E;
      apply (f_equal snd) in E; cbn [snd] in E; subst q1
  | |- ok_from ?p (bind _ _) =>
      eapply (ok_from_bind p p); [|intros ? ? ?]
  | |- ok_from _ (read_word _ _) => apply scoped_read_word
  | |- ok_from _ (peek_word _ _) => apply scoped_peek_word
  | |- ok_from _ (expect _ _ _ _) => apply scoped_expect
  | |- ok_from _ (parse_name _) => apply scoped_read_word
  | |- ok_from _ (parse_list _ _ _ _) => apply scoped_parse_list
  | H : scoped ?f |- ok_from _ (?f _) => apply H
  | H : ∀ _, scoped _ |- ok_from _ _ => apply H
  | H : scoped ?f |- scoped ?f => exact H
  | |- scoped parse_name => apply scoped_read_word
  | |- same_scopes _ (skip_whitespace _).1 => apply scopes_skip
  | |- same_scopes _ (p_putback _ _).1 => apply scopes_putback
  | H : p_peek _ = (_, ?st) |- same_scopes _ (?st).1 =>
      apply (scopes_peek _ _ _ _ H)
  | H : p_get _ = (_, ?st) |- same_scopes _ (?st).1 =>
      apply (scopes_get _ _ _ _ H)
  | H : keyword_cause _ _ = (_, ?st) |- same_scopes _ (?st).1 =>
      apply (scopes_keyword_cause _ _ _ _ _ H)
  | |- same_scopes _ _ => assumption
  | |- ok_from _ (let '(_, _) := ?m in _) => destruct m as [? ?] eqn:?
  | |- ok_from _ (if ?b then _ else _) => destruct b
  | |- ok_from _ (match ?x with _ => _ end) => destruct x
  end.

Ltac scopes := cbv zeta; repeat scopes_step.

Section descent.
Context (rec : parsers) (fuel : nat).
Hypothesis Hproducer : scoped (rec_producer rec).
Hypothesis Hconsumer : scoped (rec_consumer rec).
Hypothesis Hstatement : scoped (rec_statement rec).

Lemma scoped_parse_variable : scoped parse_variable.
Proof. intros p st H. unfold parse_variable. scopes. Qed.

Lemma scoped_parse_covariable : scoped parse_covariable.
Proof. intros p st H. unfold parse_covariable. scopes. Qed.

Lemma scoped_parse_value : scoped parse_value.
Proof. intros p st H. unfold parse_value. scopes. Qed.

Lemma scoped_parse_end : scoped parse_end.
Proof. intros p st H. unfold parse_end. scopes. Qed.

Lemma scoped_parse_mu_p : scoped (parse_mu_p rec).
Proof. intros p st H. unfold parse_mu_p. scopes. Qed.

Lemma scoped_parse_mu_c : scoped (parse_mu_c rec).
Proof. intros p st H. unfold parse_mu_c. scopes. Qed.

Lemma scoped_parse_structor polarity : scoped (parse_structor rec fuel polarity).
Proof. intros p st H. unfold parse_structor. scopes. Qed.

Lemma scoped_parse_constructor : scoped (parse_constructor rec fuel).
Proof.
  intros p st H. unfold parse_constructor.
  pose proof (scoped_parse_structor producer). scopes.
Qed.

Lemma scoped_parse_destructor : scoped (parse_destructor rec fuel).
Proof.
  intros p st H. unfold parse_destructor.
  pose proof (scoped_parse_structor consumer). scopes.
Qed.

Lemma scoped_parse_clause polarity : scoped (parse_clause rec fuel polarity).
Proof. intros p st H. unfold parse_clause. scopes. Qed.

Lemma scoped_parse_clauses polarity start_line :
  scoped (parse_clauses rec fuel polarity start_line).
Proof.
  intros p st H. unfold parse_clauses.
  pose proof (scoped_parse_clause polarity). scopes.
Qed.

Lemma scoped_parse_cocase : scoped (parse_cocase rec fuel).
Proof.
  intros p st H. unfold parse_cocase.
  pose proof (scoped_parse_clauses producer). scopes.
Qed.

Lemma scoped_parse_case : scoped (parse_case rec fuel).
Proof.
  intros p st H. unfold parse_case.
  pose proof (scoped_parse_clauses consumer). scopes.
Qed.

Lemma scoped_parse_producer_body : scoped (parse_producer_body rec fuel).
Proof.
  intros p st H. unfold parse_producer_body.
  pose proof scoped_parse_variable. pose proof scoped_parse_value.
  pose proof scoped_parse_mu_p. pose proof scoped_parse_cocase.
  pose proof scoped_parse_constructor. scopes.
Qed.

Lemma scoped_parse_consumer_body : scoped (parse_consumer_body rec fuel).
Proof.
  intros p st H. unfold parse_consumer_body.
  pose proof scoped_parse_covariable. pose proof scoped_parse_end.
  pose proof scoped_parse_mu_c. pose proof scoped_parse_case.
  pose proof scoped_parse_destructor. scopes.
Qed.

Lemma scoped_parse_arithmetic : scoped (parse_arithmetic rec).
Proof. intros p st H. unfold parse_arithmetic. scopes. Qed.

Lemma scoped_parse_ifz : scoped (parse_ifz rec).
Proof. intros p st H. unfold parse_ifz. scopes. Qed.

Lemma scoped_parse_cut : scoped (parse_cut rec).
Proof. intros p st H. unfold parse_cut. scopes. Qed.

Lemma scoped_parse_call : scoped (parse_call rec fuel).
Proof. intros p st H. unfold parse_call. scopes. Qed.

Lemma scoped_parse_statement_body : scoped (parse_statement_body rec fuel).
Proof.
  intros p st H. unfold parse_statement_body.
  pose proof scoped_parse_cut. pose proof scoped_parse_arithmetic.
  pose proof scoped_parse_ifz. pose proof scoped_parse_call. scopes.
Qed.

End descent.

Lemma parsers_scoped fuel :
  scoped (rec_producer (parsers_at fuel)) ∧
  scoped (rec_consumer (parsers_at fuel)) ∧
  scoped (rec_statement (parsers_at fuel)).
Proof.
  induction fuel as [|fuel (Hp & Hc & Hs)].
  - split_and!; intros p st H; apply ok_from_OutOfFuel.
  - cbn [parsers_at rec_producer rec_consumer rec_statement]. split_and!.
    + by apply scoped_parse_producer_body.
    + by apply scoped_parse_consumer_body.
    + by apply scoped_parse_statement_body.
Qed.

Lemma scoped_keeps {T} (f : pstate → parse_outcome T) st x st' :
  scoped f → f st = Ok x st' → same_scopes st.1 st'.1.
Proof. intros Hf. apply Hf, same_scopes_refl. Qed.

(** X17. Parsing leaves the scopes as it finds them: when [parse_statement]
    returns, every variable and covariable name has the stack of ids it had
    before (the binders of mu abstractions and clauses inside have been
    unbound again, also when a name is bound twice), the tables of
    definitions and structors and the typing context are unchanged, and the
    counters of fresh ids have not decreased.  The same holds of
    [parse_producer] and [parse_consumer]. *)
Theorem parsing_restores_scopes (fuel : nat) (st st' : pstate)
        (stmt : Statement) :
  parse_statement fuel st = Ok stmt st' →
  (tables st'.1 = tables st.1 ∧
   (∀ x, stack_of (var_ctx st'.1) x = stack_of (var_ctx st.1) x) ∧
   (∀ x, stack_of (covar_ctx st'.1) x = stack_of (covar_ctx st.1) x) ∧
   n_vars_ st.1 ≤ n_vars_ st'.1 ∧ n_covars_ st.1 ≤ n_covars_ st'.1) ∧
  (∀ s s' x, parse_producer fuel s = Ok x s' → same_scopes s.1 s'.1) ∧
  (∀ s s' x, parse_consumer fuel s = Ok x s' → same_scopes s.1 s'.1).
Proof.
  destruct (parsers_scoped fuel) as (Hp & Hc & Hs). intros Hparse.
  split; [|split].
  - by apply (scoped_keeps _ _ _ _ Hs Hparse).
  - intros s s' x. by apply scoped_keeps.
  - intros s s' x. by apply scoped_keeps.
Qed.

(** ** Definitions *)

Lemma tables_eq p q :
  tables q = tables p →
  ctx q = ctx p ∧ n_defs q = n_defs p ∧ def_ids q = def_ids p ∧
  constructor_ids q = constructor_ids p ∧
  destructor_ids q = destructor_ids p ∧
  structor_arity q = structor_arity p ∧ def_arity q = def_arity p.
Proof. unfold tables. intros [= -> -> -> -> -> -> ->]. done. Qed.

Lemma parse_definition_spec fuel st d st' :
  parse_definition fuel st = Ok d st' →
  def_ids st.1 !! definition_name d = None ∧
  definition_name d ≠ Names.ifz ∧ definition_name d ≠ EmptyString ∧
  def_ids st'.1 = <[definition_name d := n_defs st.1]> (def_ids st.1) ∧
  n_defs st'.1 = S (n_defs st.1) ∧
  def_arity st'.1 =
    emplace (n_defs st.1)
            (mkArity_info (length (arg_names d)) (length (coarg_names d)))
            (def_arity st.1) ∧
  add_definition (definition_name d) (length (arg_names d))
                 (length (coarg_names d)) None (ctx st.1) =
    Ok (abstraction_id d) (ctx st'.1) ∧
  (∃ nv ncv,
     arg_ids d = seq nv (length (arg_names d)) ∧
     coarg_ids d = seq ncv (length (coarg_names d)) ∧
     n_vars_ st.1 ≤ nv ∧ nv + length (arg_names d) ≤ n_vars_ st'.1 ∧
     n_covars_ st.1 ≤ ncv ∧ ncv + length (coarg_names d) ≤ n_covars_ st'.1) ∧
  same_stacks st.1 st'.1 ∧
  constructor_ids st'.1 = constructor_ids st.1 ∧
  destructor_ids st'.1 = destructor_ids st.1 ∧
  structor_arity st'.1 = structor_arity st.1.
Proof.
  unfold parse_definition. cbv zeta.
  pose proof (scopes_skip st.1 st (same_scopes_refl _)) as H1.
  destruct (expect _ _ _ (skip_whitespace st)) as [[] st2| | |] eqn:E2;
    try done.
  apply (scoped_keeps _ _ _ _ (scoped_expect _ _ _)) in E2. cbn [bind].
  destruct (read_word None st2) as [keyword st3| | |] eqn:E3; try done.
  apply (scoped_keeps _ _ _ _ (scoped_read_word _)) in E3. cbn [bind].
  destruct (negb (String.eqb keyword Names.def)).
  { by destruct (keyword_cause keyword st3). }
  destruct (read_word None st3) as [name st4| | |] eqn:E4; try done.
  apply (scoped_keeps _ _ _ _ (scoped_read_word _)) in E4. cbn [bind].
  assert (H4 : same_scopes st.1 st4.1).
  { repeat (eapply same_scopes_trans; [eassumption|]). apply same_scopes_refl. }
  clear H1 E2 E3 E4 st2 st3 keyword.
  destruct name as [|c name]; [by destruct (p_peek st4)|].
  destruct (def_ids st4.1 !! String c name) eqn:Hnew; [done|].
  destruct (String.eqb (String c name) Names.ifz) eqn:Hifz; [done|].
  apply String.eqb_neq in Hifz.
  set (reg := set_def_ids (set_n_defs st4.1 (S (n_defs st4.1)))
                          (<[String c name := n_defs st4.1]> (def_ids st4.1))).
  destruct (parse_list parse_name fuel _ (reg, st4.2))
    as [arg_names st5| | |] eqn:E5; try done.
  apply (scoped_keeps _ _ _ _ (scoped_parse_list _ _ _ (scoped_read_word _)))
    in E5. cbn [bind fst] in *.
  destruct (parse_list parse_name fuel _ st5)
    as [coarg_names st6| | |] eqn:E6; try done.
  apply (scoped_keeps _ _ _ _ (scoped_parse_list _ _ _ (scoped_read_word _)))
    in E6. cbn [bind].
  pose proof (same_scopes_trans _ _ _ E5 E6) as H6. clear E5 E6 st5.
  destruct (bind_vars arg_names st6.1) as [arg_ids p1] eqn:Eb.
  destruct (bind_covars coarg_names p1) as [coarg_ids bound] eqn:Eb'.
  assert (Hbound : bound =
            (bind_covars coarg_names (bind_vars arg_names st6.1).2).2)
    by (by rewrite Eb; cbn [snd]; rewrite Eb').
  destruct (bind_vars_spec arg_names st6.1)
    as (Hids & Hn & _ & Ht & _ & Hnc & _).
  rewrite Eb in Hids, Hn, Ht, Hnc. cbn [fst snd] in Hids, Hn, Ht, Hnc.
  destruct (bind_covars_spec coarg_names p1)
    as (Hids' & Hn' & _ & Ht' & _ & Hnc' & _).
  rewrite Eb' in Hids', Hn', Ht', Hnc'. cbn [fst snd] in Hids', Hn', Ht', Hnc'.
  destruct (add_definition _ _ _ None _) as [abstraction_id ctx'| | |] eqn:Ead;
    try done.
  destruct (parse_statement fuel _) as [body st7| | |] eqn:E7; try done.
  destruct (parsers_scoped fuel) as (_ & _ & Hs).
  apply (scoped_keeps _ _ _ _ Hs) in E7. cbn [bind fst snd] in E7 |- *.
  destruct (expect _ _ _ _) as [[] st8| | |] eqn:E8; try done.
  apply (scoped_keeps _ _ _ _ (scoped_expect _ _ _)) in E8. cbn [bind fst] in E8.
  intros [= <- <-]. cbn [definition_name AST.arg_names AST.coarg_names
                         AST.arg_ids AST.coarg_ids AST.abstraction_id].
  (* the tables *)
  destruct H4 as [T4 S4]. apply tables_eq in T4
    as (Tctx4 & Tn4 & Tdef4 & Tcon4 & Tdes4 & Tsa4 & Tda4).
  destruct H6 as [T6 S6]. apply tables_eq in T6
    as (Tctx6 & Tn6 & Tdef6 & Tcon6 & Tdes6 & Tsa6 & Tda6).
  cbn in Tctx6, Tn6, Tdef6, Tcon6, Tdes6, Tsa6, Tda6.
  assert (Tb : tables bound = tables st6.1) by congruence.
  apply tables_eq in Tb as (Tctxb & Tnb & Tdefb & Tconb & Tdesb & Tsab & Tdab).
  destruct E7 as [T7 S7]. apply tables_eq in T7
    as (Tctx7 & Tn7 & Tdef7 & Tcon7 & Tdes7 & Tsa7 & Tda7).
  cbn in Tctx7, Tn7, Tdef7, Tcon7, Tdes7, Tsa7, Tda7.
  destruct E8 as [T8 S8]. apply tables_eq in T8
    as (Tctx8 & Tn8 & Tdef8 & Tcon8 & Tdes8 & Tsa8 & Tda8).
  cbn in Tctx8, Tn8, Tdef8, Tcon8, Tdes8, Tsa8, Tda8.
  assert (Hla : length arg_ids = length arg_names)
    by (by rewrite Hids, length_seq).
  assert (Hlc : length coarg_ids = length coarg_names)
    by (by rewrite Hids', length_seq).
  rewrite Hla, Hlc in *. cbn [ctx set_def_arity] in Ead.
  assert (Hstacks : same_stacks st.1 st8.1).
  { eapply same_stacks_trans; [exact S4|].
    eapply (same_stacks_trans _ reg); [exact (proj2 (same_scopes_refl st4.1))|].
    eapply same_stacks_trans; [exact S6|].
    eapply same_stacks_trans; [|exact S8].
    apply stacks_unbind. rewrite <- Hbound. exact S7. }
  split_and!; try congruence.
  - exists (n_vars_ st6.1), (n_covars_ p1).
    destruct S4 as (_ & _ & ? & ?). destruct S6 as (_ & _ & ? & ?).
    destruct S7 as (_ & _ & ? & ?). destruct S8 as (_ & _ & ? & ?).
    cbn [n_vars_ n_covars_ set_ctx set_def_arity set_def_ids set_n_defs
         unbind_covars unbind_vars set_covar_ctx set_var_ctx reg] in *.
    split_and!; (done || lia).
Qed.

(** X18. A definition that [parse_definition] returns has a name that was
    not defined before and is neither empty nor [ifz]; the name is registered
    under the next definition id with the numbers of its parameters as its
    arity, and its abstraction is added to the typing context with these
    arities.  The parameters get fresh consecutive ids, and after the
    definition every name has the stack of ids it had before: the scope of
    the parameters is closed.  The tables of the structors are unchanged. *)
Theorem parse_definition_registers (fuel : nat) (st st' : pstate)
        (d : Definition_) :
  parse_definition fuel st = Ok d st' →
  def_ids st.1 !! definition_name d = None ∧
  definition_name d ≠ Names.ifz ∧ definition_name d ≠ EmptyString ∧
  def_ids st'.1 = <[definition_name d := n_defs st.1]> (def_ids st.1) ∧
  n_defs st'.1 = S (n_defs st.1) ∧
  def_arity st'.1 =
    emplace (n_defs st.1)
            (mkArity_info (length (arg_names d)) (length (coarg_names d)))
            (def_arity st.1) ∧
  add_definition (definition_name d) (length (arg_names d))
                 (length (coarg_names d)) None (ctx st.1) =
    Ok (abstraction_id d) (ctx st'.1) ∧
  (∃ nv ncv,
     arg_ids d = seq nv (length (arg_names d)) ∧
     coarg_ids d = seq ncv (length (coarg_names d)) ∧
     n_vars_ st.1 ≤ nv ∧ nv + length (arg_names d) ≤ n_vars_ st'.1 ∧
     n_covars_ st.1 ≤ ncv ∧ ncv + length (coarg_names d) ≤ n_covars_ st'.1) ∧
  ((∀ x, stack_of (var_ctx st'.1) x = stack_of (var_ctx st.1) x) ∧
   (∀ x, stack_of (covar_ctx st'.1) x = stack_of (covar_ctx st.1) x) ∧
   n_vars_ st.1 ≤ n_vars_ st'.1 ∧ n_covars_ st.1 ≤ n_covars_ st'.1) ∧
  constructor_ids st'.1 = constructor_ids st.1 ∧
  destructor_ids st'.1 = destructor_ids st.1 ∧
  structor_arity st'.1 = structor_arity st.1.
Proof. apply parse_definition_spec. Qed.

(** The definition [(def twice (x x) (a) [x a])], whose parameter name [x] is
    repeated. *)
Definition twice_text : string := "(def twice (x x) (a) [x a])".

Definition twice_state : pstate :=
  (mkParser empty_typing_context 1 0 0 0 ∅ ∅ ∅ ∅ ∅ ∅ ∅, istream_of twice_text).

Lemma parse_definition_registers_witness :
  ∃ d st',
    parse_definition 4 twice_state = Ok d st' ∧
    def_ids twice_state.1 !! definition_name d = None ∧
    definition_name d ≠ Names.ifz ∧ definition_name d ≠ EmptyString ∧
    def_ids st'.1 =
      <[definition_name d := n_defs twice_state.1]> (def_ids twice_state.1) ∧
    n_defs st'.1 = S (n_defs twice_state.1) ∧
    def_arity st'.1 =
      emplace (n_defs twice_state.1)
              (mkArity_info (length (arg_names d)) (length (coarg_names d)))
              (def_arity twice_state.1) ∧
    add_definition (definition_name d) (length (arg_names d))
                   (length (coarg_names d)) None (ctx twice_state.1) =
      Ok (abstraction_id d) (ctx st'.1) ∧
    (∃ nv ncv,
       arg_ids d = seq nv (length (arg_names d)) ∧
       coarg_ids d = seq ncv (length (coarg_names d)) ∧
       n_vars_ twice_state.1 ≤ nv ∧
       nv + length (arg_names d) ≤ n_vars_ st'.1 ∧
       n_covars_ twice_state.1 ≤ ncv ∧
       ncv + length (coarg_names d) ≤ n_covars_ st'.1) ∧
    ((∀ x, stack_of (var_ctx st'.1) x = stack_of (var_ctx twice_state.1) x) ∧
     (∀ x, stack_of (covar_ctx st'.1) x =
           stack_of (covar_ctx twice_state.1) x) ∧
     n_vars_ twice_state.1 ≤ n_vars_ st'.1 ∧
     n_covars_ twice_state.1 ≤ n_covars_ st'.1) ∧
    constructor_ids st'.1 = constructor_ids twice_state.1 ∧
    destructor_ids st'.1 = destructor_ids twice_state.1 ∧
    structor_arity st'.1 = structor_arity twice_state.1.
Proof.
  eexists _, _. split; [vm_compute; reflexivity|].
  eapply (parse_definition_registers 4 twice_state).
  vm_compute. reflexivity.
Defined.

(** A cut of two abstractions that bind the same name, in a parser where the
    name is bound already. *)
Definition shadowing_text : string := "[(mu a [1 a]) (mu' a [a <END>])]".

Definition shadowing_state : pstate :=
  (mkParser empty_typing_context 1 8 0 0 {["a" := [7]]} ∅ ∅ ∅ ∅ ∅ ∅,
   istream_of shadowing_text).

Lemma parsing_restores_scopes_witness :
  ∃ stmt st',
    parse_statement 4 shadowing_state = Ok stmt st' ∧
    (tables st'.1 = tables shadowing_state.1 ∧
     (∀ x, stack_of (var_ctx st'.1) x =
           stack_of (var_ctx shadowing_state.1) x) ∧
     (∀ x, stack_of (covar_ctx st'.1) x =
           stack_of (covar_ctx shadowing_state.1) x) ∧
     n_vars_ shadowing_state.1 ≤ n_vars_ st'.1 ∧
     n_covars_ shadowing_state.1 ≤ n_covars_ st'.1) ∧
    (∀ s s' x, parse_producer 4 s = Ok x s' → same_scopes s.1 s'.1) ∧
    (∀ s s' x, parse_consumer 4 s = Ok x s' → same_scopes s.1 s'.1).
Proof.
  eexists _, _. split; [vm_compute; reflexivity|].
  eapply (parsing_restores_scopes 4 shadowing_state).
  vm_compute. reflexivity.
Defined.

End Scopes.

(* ===================================================================== *)
(** * The typer: what a check writes *)
(* ===================================================================== *)

Module Annotations.
Import Types AST Typer.

(** The syntax without its type annotations. *)
Fixpoint untyped_prod (p : Producer) : Producer :=
  match p with
  | Variable_prod id name _ => Variable_prod id name None
  | Value_prod value _ => Value_prod value None
  | Mu_prod id name body _ => Mu_prod id name (untyped_stmt body) None
  | Constructor_prod id name args coargs flag _ =>
      Constructor_prod id name (List.map untyped_prod args)
                       (List.map untyped_cons coargs) flag None
  | Cocase_prod clauses _ =>
      Cocase_prod (List.map untyped_clause clauses) None
  end
with untyped_cons (c : Consumer) : Consumer :=
  match c with
  | Covariable_cons id name _ => Covariable_cons id name None
  | Mu_cons id name body _ => Mu_cons id name (untyped_stmt body) None
  | Destructor_cons id name args coargs _ =>
      Destructor_cons id name (List.map untyped_prod args)
                      (List.map untyped_cons coargs) None
  | Case_cons clauses _ => Case_cons (List.map untyped_clause clauses) None
  | End_cons _ => End_cons None
  end
with untyped_stmt (s : Statement) : Statement :=
  match s with
  | Arithmetic_stmt op l r after =>
      Arithmetic_stmt op (untyped_prod l) (untyped_prod r) (untyped_cons after)
  | Ifz_stmt condition if_zero if_other =>
      Ifz_stmt (untyped_prod condition) (untyped_stmt if_zero)
               (untyped_stmt if_other)
  | Cut_stmt producer consumer =>
      Cut_stmt (untyped_prod producer) (untyped_cons consumer)
  | Call_stmt id name args coargs =>
      Call_stmt id name (List.map untyped_prod args)
                (List.map untyped_cons coargs)
  end
with untyped_clause (cl : Clause) : Clause :=
  match cl with
  | mkClause id name arg_names coarg_names arg_ids coarg_ids body =>
      mkClause id name arg_names coarg_names arg_ids coarg_ids
               (untyped_stmt body)
  end.

Definition untyped_definition (d : Definition_) : Definition_ :=
  mkDefinition (abstraction_id d) (definition_name d) (arg_names d)
               (coarg_names d) (arg_ids d) (coarg_ids d)
               (untyped_stmt (body d)).

Definition untyped_program (program : Program) : Program :=
  mkProgram (List.map untyped_definition (AST.definitions program))
            (List.map untyped_stmt (AST.statements program)).

(** The loops of the checks over arguments and over clauses. *)
Definition check_list {A} (check : A → Strong_type_handle → Typer →
                                   typer_outcome A)
  : list A → list nat → Typer → typer_outcome (list A) :=
  fix go (xs : list A) (formals : list nat) (t : Typer) :=
    match formals, xs with
    | [], _ => Ok xs t
    | _ :: _, [] => Undefined
    | formal :: formals', x :: xs' =>
        let* (x', t) := check x formal t in
        let* (xs'', t) := go xs' formals' t in
        Ok (x' :: xs'') t
    end.

Definition check_each {A} (check : A → Typer → typer_outcome A)
  : list A → Typer → typer_outcome (list A) :=
  fix go (cls : list A) (t : Typer) :=
    match cls with
    | [] => Ok [] t
    | cl :: rest =>
        let* (cl', t) := check cl t in
        let* (rest', t) := go rest t in
        Ok (cl' :: rest') t
    end.

Lemma check_list_untyped {A} (check : A → Strong_type_handle → Typer →
                                      typer_outcome A) (u : A → A) xs :
  Forall (fun x => ∀ ty t x' t', check x ty t = Ok x' t' → u x' = u x) xs →
  ∀ formals t xs' t',
    length formals = length xs →
    check_list check xs formals t = Ok xs' t' →
    List.map u xs' = List.map u xs.
Proof.
  induction 1 as [|x xs Hx _ IH]; intros formals t xs' t' Hlen.
  - destruct formals; [|done]. simpl. by intros [= <- <-].
  - destruct formals as [|formal formals]; [done|]. simpl.
    destruct (check x formal t) as [x' t1| | |] eqn:E; try done. simpl.
    destruct (check_list check xs formals t1) as [xs'' t2| | |] eqn:E';
      try done. simpl.
    intros [= <- <-]. simpl. f_equal; [by eapply Hx|].
    eapply IH; [|exact E']. simpl in Hlen. lia.
Qed.

Lemma check_each_untyped {A} (check : A → Typer → typer_outcome A)
      (u : A → A) xs :
  Forall (fun x => ∀ t x' t', check x t = Ok x' t' → u x' = u x) xs →
  ∀ t xs' t', check_each check xs t = Ok xs' t' →
              List.map u xs' = List.map u xs.
Proof.
  induction 1 as [|x xs Hx _ IH]; intros t xs' t'; simpl.
  - by intros [= <- <-].
  - destruct (check x t) as [x' t1| | |] eqn:E; try done. simpl.
    destruct (check_each check xs t1) as [xs'' t2| | |] eqn:E'; try done.
    simpl. intros [= <- <-]. simpl. f_equal; [by eapply Hx|by eapply IH].
Qed.

(** Takes the hypothesis [H : m = Ok x t] apart along the calls of [m]. *)
Ltac ok_inv H :=
  repeat match type of H with
         | Ok _ _ = Ok _ _ => fail 1
         | bind ?m _ = Ok _ _ =>
             let E := fresh "E" in
             destruct m eqn:E; cbn [bind] in H; try discriminate H
         | (let '(_, _) := ?m in _) = Ok _ _ =>
             let E := fresh "E" in destruct m eqn:E
         | (if ?b then _ else _) = Ok _ _ =>
             let E := fresh "E" in destruct b eqn:E; try discriminate H
         | match ?x with _ => _ end = Ok _ _ =>
             let E := fresh "E" in destruct x eqn:E; try discriminate H
         end.

Section check.
Context (fuel : nat).

Definition keeps_prod (p : Producer) : Prop :=
  ∀ ty t p' t', check_prod fuel p ty t = Ok p' t' →
                untyped_prod p' = untyped_prod p.
Definition keeps_cons (c : Consumer) : Prop :=
  ∀ ty t c' t', check_cons fuel c ty t = Ok c' t' →
                untyped_cons c' = untyped_cons c.
Definition keeps_stmt (s : Statement) : Prop :=
  ∀ t s' t', check_stmt fuel s t = Ok s' t' → untyped_stmt s' = untyped_stmt s.
Definition keeps_clause (cl : Clause) : Prop :=
  ∀ ty t cl' t', check_clause fuel cl ty t = Ok cl' t' →
                 untyped_clause cl' = untyped_clause cl.

Lemma eqb_lengths {A B} (l : list A) (l' : list B) :
  negb (Nat.eqb (length l) (length l')) = false → length l = length l'.
Proof. intros H%negb_false_iff. by apply Nat.eqb_eq. Qed.

Lemma check_untyped :
  (∀ p, keeps_prod p) ∧ (∀ c, keeps_cons c) ∧ (∀ s, keeps_stmt s) ∧
  (∀ cl, keeps_clause cl).
Proof.
  apply Syntax.syntax_ind.
  - intros id name type ty t p' t' H. cbn [check_prod] in H. ok_inv H.
    by injection H as <- <-.
  - intros value type ty t p' t' H. cbn [check_prod] in H. ok_inv H.
    by injection H as <- <-.
  - intros id name body type IH ty t p' t' H. cbn [check_prod] in H.
    ok_inv H. injection H as <- <-. simpl. f_equal. by eapply IH.
  - intros id name args coargs flag type Hargs Hcoargs ty t p' t' H.
    cbn [check_prod] in H. ok_inv H. injection H as <- <-.
    apply orb_false_elim in E1 as [Ea Ec].
    apply eqb_lengths in Ea. apply eqb_lengths in Ec.
    apply (check_list_untyped (check_prod fuel) untyped_prod _ Hargs) in E2;
      [|done].
    apply (check_list_untyped (check_cons fuel) untyped_cons _ Hcoargs) in E3;
      [|done].
    simpl. by rewrite E2, E3.
  - intros clauses type Hcl ty t p' t' H. cbn [check_prod] in H. ok_inv H.
    injection H as <- <-.
    apply (check_each_untyped (fun cl => check_clause fuel cl ty)
             untyped_clause clauses) in E.
    + simpl. by rewrite E.
    + eapply Forall_impl; [exact Hcl|]. intros cl Hk. by apply Hk.
  - intros id name type ty t c' t' H. cbn [check_cons] in H. ok_inv H.
    by injection H as <- <-.
  - intros id name body type IH ty t c' t' H. cbn [check_cons] in H.
    ok_inv H. injection H as <- <-. simpl. f_equal. by eapply IH.
  - intros id name args coargs type Hargs Hcoargs ty t c' t' H.
    cbn [check_cons] in H. ok_inv H. injection H as <- <-.
    apply orb_false_elim in E1 as [Ea Ec].
    apply eqb_lengths in Ea. apply eqb_lengths in Ec.
    apply (check_list_untyped (check_prod fuel) untyped_prod _ Hargs) in E2;
      [|done].
    apply (check_list_untyped (check_cons fuel) untyped_cons _ Hcoargs) in E3;
      [|done].
    simpl. by rewrite E2, E3.
  - intros clauses type Hcl ty t c' t' H. cbn [check_cons] in H. ok_inv H.
    injection H as <- <-.
    apply (check_each_untyped (fun cl => check_clause fuel cl ty)
             untyped_clause clauses) in E.
    + simpl. by rewrite E.
    + eapply Forall_impl; [exact Hcl|]. intros cl Hk. by apply Hk.
  - intros type ty t c' t' H. cbn [check_cons] in H. by injection H as <- <-.
  - intros op l r after IHl IHr IHa t s' t' H. cbn [check_stmt] in H.
    ok_inv H. injection H as <- <-. simpl.
    f_equal; [by eapply IHl|by eapply IHr|by eapply IHa].
  - intros condition if_zero if_other IHc IHz IHo t s' t' H.
    cbn [check_stmt] in H. ok_inv H. injection H as <- <-. simpl.
    f_equal; [by eapply IHc|by eapply IHz|by eapply IHo].
  - intros producer consumer IHp IHc t s' t' H. cbn [check_stmt] in H.
    ok_inv H. injection H as <- <-. simpl.
    f_equal; [by eapply IHp|by eapply IHc].
  - intros id name args coargs Hargs Hcoargs t s' t' H.
    cbn [check_stmt] in H. ok_inv H. injection H as <- <-.
    apply orb_false_elim in E2 as [Ea Ec].
    apply eqb_lengths in Ea. apply eqb_lengths in Ec.
    apply (check_list_untyped (check_prod fuel) untyped_prod _ Hargs) in E3;
      [|done].
    apply (check_list_untyped (check_cons fuel) untyped_cons _ Hcoargs) in E4;
      [|done].
    simpl. by rewrite E3, E4.
  - intros id name arg_names coarg_names arg_ids coarg_ids body IH ty t cl' t' H.
    cbn [check_clause] in H. ok_inv H. injection H as <- <-. simpl.
    f_equal. by eapply IH.
Qed.

Lemma check_definition_untyped d t d' t' :
  check_definition fuel d t = Ok d' t' →
  untyped_definition d' = untyped_definition d.
Proof.
  intros H. unfold check_definition in H. ok_inv H. injection H as <- <-.
  unfold untyped_definition. simpl. f_equal.
  destruct check_untyped as (_ & _ & Hs & _). by eapply Hs.
Qed.

Definition is_single (e : Typing_exception) : Prop :=
  match e with
  | Single_typing_exception _ _ => True
  | Std_out_of_range => False
  end.

Lemma check_definitions_untyped defs errors t defs' errors' t' :
  check_definitions fuel defs errors t = Ok (defs', errors') t' →
  List.map untyped_definition defs' = List.map untyped_definition defs ∧
  ∃ new, errors' = errors ++ new ∧ Forall is_single new ∧
         (new = [] → Forall2 (fun d d' => ∃ t1 t2,
                                check_definition fuel d t1 = Ok d' t2)
                             defs defs').
Proof.
  revert errors t defs' errors' t'.
  induction defs as [|d defs IH]; intros errors t defs' errors' t'; simpl.
  - intros [= <- <- <-]. split; [done|]. exists []. by rewrite app_nil_r.
  - destruct (check_definition fuel d t) as [d1 t1|e t1| |] eqn:E; try done.
    + destruct (check_definitions fuel defs errors t1)
        as [[defs1 errors1] t2| | |] eqn:E'; try done. simpl.
      intros [= <- <- <-].
      apply IH in E' as (Hmap & new & -> & Hnew & Hall).
      split; [simpl; by rewrite (check_definition_untyped _ _ _ _ E), Hmap|].
      exists new. split_and!; [done|done|]. intros Hn.
      constructor; [by eauto|by apply Hall].
    + destruct e as [cause context|]; [|done].
      destruct (check_definitions fuel defs _ t1)
        as [[defs1 errors1] t2| | |] eqn:E'; try done. simpl.
      intros [= <- <- <-].
      apply IH in E' as (Hmap & new & -> & Hnew & Hall).
      split; [simpl; by rewrite Hmap|].
      exists (Single_typing_exception cause context :: new).
      split_and!; [by rewrite <- app_assoc|by constructor|done].
Qed.

Lemma check_statements_untyped stmts errors t stmts' errors' t' :
  check_statements fuel stmts errors t = Ok (stmts', errors') t' →
  List.map untyped_stmt stmts' = List.map untyped_stmt stmts ∧
  ∃ new, errors' = errors ++ new ∧ Forall is_single new ∧
         (new = [] → Forall2 (fun s s' => ∃ t1 t2,
                                check_stmt fuel s t1 = Ok s' t2)
                             stmts stmts').
Proof.
  destruct check_untyped as (_ & _ & Hs & _).
  revert errors t stmts' errors' t'.
  induction stmts as [|s stmts IH]; intros errors t stmts' errors' t'; simpl.
  - intros [= <- <- <-]. split; [done|]. exists []. by rewrite app_nil_r.
  - destruct (check_stmt fuel s t) as [s1 t1|e t1| |] eqn:E; try done.
    + destruct (check_statements fuel stmts errors t1)
        as [[stmts1 errors1] t2| | |] eqn:E'; try done. simpl.
      intros [= <- <- <-].
      apply IH in E' as (Hmap & new & -> & Hnew & Hall).
      split; [simpl; by rewrite (Hs _ _ _ _ E), Hmap|].
      exists new. split_and!; [done|done|]. intros Hn.
      constructor; [by eauto|by apply Hall].
    + destruct e as [cause context|]; [|done].
      destruct (check_statements fuel stmts _ t1)
        as [[stmts1 errors1] t2| | |] eqn:E'; try done. simpl.
      intros [= <- <- <-].
      apply IH in E' as (Hmap & new & -> & Hnew & Hall).
      split; [simpl; by rewrite Hmap|].
      exists (Single_typing_exception cause context :: new).
      split_and!; [by rewrite <- app_assoc|by constructor|done].
Qed.

End check.

Lemma type_program_spec
        (fuel : nat) (program : Program) (ctx : Typing_context)
        (r : type_program_result) :
  type_program fuel program ctx = Some r →
  match r with
  | Typed program' ctx' =>
      untyped_program program' = untyped_program program ∧
      Forall2 (fun d d' => ∃ t1 t2, check_definition fuel d t1 = Ok d' t2)
              (AST.definitions program) (AST.definitions program') ∧
      Forall2 (fun s s' => ∃ t1 t2, check_stmt fuel s t1 = Ok s' t2)
              (AST.statements program) (AST.statements program')
  | Multiple_typing_exception errors _ =>
      errors ≠ [] ∧
      Forall (fun e => ∃ cause context,
                e = Single_typing_exception cause context) errors
  | Uncaught e => e = Std_out_of_range
  end.
Proof.
  unfold type_program.
  destruct (new_Typer ctx (AST.definitions program)) as [typer|]; [|done].
  destruct (check_definitions fuel _ [] typer)
    as [[defs errors] t1|e t1| |] eqn:Ed; try done.
  - apply check_definitions_untyped in Ed as (Hd & new & -> & Hnew & Halld).
    destruct (check_statements fuel _ _ t1)
      as [[stmts errors'] t2|e t2| |] eqn:Es; try done.
    + apply check_statements_untyped in Es as (Hs & new' & -> & Hnew' & Halls).
      simpl. destruct (new ++ new') as [|e errors] eqn:Herr.
      * intros [= <-]. apply app_eq_nil in Herr as [-> ->].
        split_and!; [|by apply Halld|by apply Halls].
        unfold untyped_program. simpl. by rewrite Hd, Hs.
      * intros [= <-]. split; [done|]. rewrite <- Herr.
        apply Forall_app. split.
        -- eapply Forall_impl; [exact Hnew|].
           intros [cause context|]; [by eauto|done].
        -- eapply Forall_impl; [exact Hnew'|].
           intros [cause context|]; [by eauto|done].
    + intros [= <-]. clear Hd Halld. revert Es. generalize ([] ++ new).
      generalize t1. induction (AST.statements program) as [|s stmts IH];
        intros t errs; simpl; [done|].
      destruct (check_stmt fuel s t) as [s1 t3|e1 t3| |] eqn:E; try done.
      * destruct (check_statements fuel stmts errs t3)
          as [[stmts1 errors1] t4|e4 t4| |] eqn:E'; try done.
        simpl. intros [= <- <-]. by eapply IH.
      * destruct e1 as [cause context|]; [|by intros [= <- <-]].
        destruct (check_statements fuel stmts _ t3)
          as [[stmts1 errors1] t4|e4 t4| |] eqn:E'; try done.
        simpl. intros [= <- <-]. by eapply IH.
  - intros [= <-]. revert Ed. generalize (@nil Typing_exception).
    generalize typer. induction (AST.definitions program) as [|d defs IH];
      intros t errs; simpl; [done|].
    destruct (check_definition fuel d t) as [d1 t3|e1 t3| |] eqn:E; try done.
    + destruct (check_definitions fuel defs errs t3)
        as [[defs1 errors1] t4|e4 t4| |] eqn:E'; try done.
      simpl. intros [= <- <-]. by eapply IH.
    + destruct e1 as [cause context|]; [|by intros [= <- <-]].
      destruct (check_definitions fuel defs _ t3)
        as [[defs1 errors1] t4|e4 t4| |] eqn:E'; try done.
      simpl. intros [= <- <-]. by eapply IH.
Qed.

(** X19. The typer only annotates.  A program that [type_program] accepts
    is the program it was given with type annotations written into it: the
    two are equal once the annotations are removed, so the ids, the names,
    the structure and the memoised value flags are untouched; every
    definition and statement of the result is what its check returned.  When
    [type_program] throws a [Multiple_typing_exception] it has collected at
    least one error and every error is a [Single_typing_exception]. *)
Theorem type_program_only_annotates
        (fuel : nat) (program : Program) (ctx : Typing_context)
        (r : type_program_result) :
  type_program fuel program ctx = Some r →
  match r with
  | Typed program' ctx' =>
      untyped_program program' = untyped_program program ∧
      Forall2 (fun d d' => ∃ t1 t2, check_definition fuel d t1 = Ok d' t2)
              (AST.definitions program) (AST.definitions program') ∧
      Forall2 (fun s s' => ∃ t1 t2, check_stmt fuel s t1 = Ok s' t2)
              (AST.statements program) (AST.statements program')
  | Multiple_typing_exception errors _ =>
      errors ≠ [] ∧
      Forall (fun e => ∃ cause context,
                e = Single_typing_exception cause context) errors
  | Uncaught e => e = Std_out_of_range
  end.
Proof. apply type_program_spec. Qed.

(** The program [[1 <END>] [Cons(1, Nil) <END>]], as the parser builds it. *)
Definition two_cuts : Program :=
  mkProgram []
    [Cut_stmt (Value_prod 1 None) (End_cons None);
     Cut_stmt (Constructor_prod Builtin_abstraction_id.list_cons "Cons"
                 [Value_prod 1 None;
                  Constructor_prod Builtin_abstraction_id.list_nil "Nil"
                                   [] [] None None]
                 [] None None)
              (End_cons None)].

Lemma type_program_only_annotates_witness :
  ∃ program' ctx',
    type_program 5 two_cuts EmptyProgram.default_ctx =
      Some (Typed program' ctx') ∧
    untyped_program program' = untyped_program two_cuts ∧
    Forall2 (fun d d' => ∃ t1 t2, check_definition 5 d t1 = Ok d' t2)
            (AST.definitions two_cuts) (AST.definitions program') ∧
    Forall2 (fun s s' => ∃ t1 t2, check_stmt 5 s t1 = Ok s' t2)
            (AST.statements two_cuts) (AST.statements program').
Proof.
  eexists _, _. split; [vm_compute; reflexivity|].
  eapply (type_program_only_annotates 5 two_cuts EmptyProgram.default_ctx
            (Typed _ _)).
  vm_compute. reflexivity.
Defined.

End Annotations.

(* ===================================================================== *)
(** * The interpreter does not read the type annotations *)
(* ===================================================================== *)

Module Erasure.
Import AST Interpreter Values Annotations.

(** ** Values *)

Lemma all_of_is_value_untyped args :
  Forall (fun p => is_value (untyped_prod p) =
                   ((is_value p).1, untyped_prod (is_value p).2)) args →
  all_of_is_value (List.map untyped_prod args) =
  ((all_of_is_value args).1, List.map untyped_prod (all_of_is_value args).2).
Proof.
  induction 1 as [|a rest Ha _ IH]; [done|]. simpl.
  rewrite Ha. destruct (is_value a) as [v a']. simpl.
  destruct v; [|done]. fold all_of_is_value. rewrite IH.
  by destruct (all_of_is_value rest).
Qed.

Lemma is_value_untyped p :
  is_value (untyped_prod p) = ((is_value p).1, untyped_prod (is_value p).2).
Proof.
  revert p. apply (Syntax.Producer_all
    (fun p => is_value (untyped_prod p) =
              ((is_value p).1, untyped_prod (is_value p).2))
    (fun _ => True) (fun _ => True) (fun _ => True)); try done.
  intros id name args coargs flag type Hargs _.
  destruct flag as [b|]; [done|].
  cbn [untyped_prod]. rewrite !is_value_constructor.
  rewrite (all_of_is_value_untyped _ Hargs). reflexivity.
Qed.

Lemma find_non_value_untyped args :
  find_non_value (List.map untyped_prod args) =
  ((find_non_value args).1, List.map untyped_prod (find_non_value args).2).
Proof.
  induction args as [|a rest IH]; [done|]. simpl.
  rewrite is_value_untyped. destruct (is_value a) as [v a']. simpl.
  destruct v; [|done]. rewrite IH. by destruct (find_non_value rest).
Qed.

(** ** Substitution *)

Lemma foldl_delete_fmap {A B} (f : A → B) (ids : list nat) (m : gmap nat A) :
  foldl (fun m id => delete id m) (f <$> m) ids =
  f <$> foldl (fun m id => delete id m) m ids.
Proof.
  revert m. induction ids as [|id ids IH]; intros m; [done|]. simpl.
  by rewrite <- fmap_delete, IH.
Qed.

Lemma map_untyped {A} (f g : A → A) (u : A → A) (l : list A) :
  Forall (fun x => f (u x) = u (g x)) l →
  List.map f (List.map u l) = List.map u (List.map g l).
Proof.
  induction 1 as [|x l Hx _ IH]; [done|]. simpl. by rewrite Hx, IH.
Qed.

Lemma replace_untyped :
  (∀ p vm cm,
     replace_prod (untyped_prod p) (untyped_prod <$> vm) (untyped_cons <$> cm) =
     untyped_prod (replace_prod p vm cm)) ∧
  (∀ c vm cm,
     replace_cons (untyped_cons c) (untyped_prod <$> vm) (untyped_cons <$> cm) =
     untyped_cons (replace_cons c vm cm)) ∧
  (∀ s vm cm,
     replace_stmt (untyped_stmt s) (untyped_prod <$> vm) (untyped_cons <$> cm) =
     untyped_stmt (replace_stmt s vm cm)) ∧
  (∀ cl vm cm,
     replace_clause (untyped_clause cl) (untyped_prod <$> vm)
                    (untyped_cons <$> cm) =
     untyped_clause (replace_clause cl vm cm)).
Proof.
  apply Syntax.syntax_ind.
  - intros id name type vm cm. simpl. rewrite lookup_fmap.
    by destruct (vm !! id).
  - done.
  - intros id name body type IH vm cm. simpl.
    by rewrite <- fmap_delete, IH.
  - intros id name args coargs flag type Hargs Hcoargs vm cm. simpl.
    f_equal.
    + apply map_untyped. eapply Forall_impl; [exact Hargs|]. by intros a ->.
    + apply map_untyped. eapply Forall_impl; [exact Hcoargs|]. by intros a ->.
  - intros clauses type Hcl vm cm. simpl. f_equal.
    apply map_untyped. eapply Forall_impl; [exact Hcl|]. by intros a ->.
  - intros id name type vm cm. simpl. rewrite lookup_fmap.
    by destruct (cm !! id).
  - intros id name body type IH vm cm. simpl.
    by rewrite <- fmap_delete, IH.
  - intros id name args coargs type Hargs Hcoargs vm cm. simpl.
    f_equal.
    + apply map_untyped. eapply Forall_impl; [exact Hargs|]. by intros a ->.
    + apply map_untyped. eapply Forall_impl; [exact Hcoargs|]. by intros a ->.
  - intros clauses type Hcl vm cm. simpl. f_equal.
    apply map_untyped. eapply Forall_impl; [exact Hcl|]. by intros a ->.
  - done.
  - intros op l r after IHl IHr IHa vm cm. simpl. by rewrite IHl, IHr, IHa.
  - intros c z o IHc IHz IHo vm cm. simpl. by rewrite IHc, IHz, IHo.
  - intros p c IHp IHc vm cm. simpl. by rewrite IHp, IHc.
  - intros id name args coargs Hargs Hcoargs vm cm. simpl. f_equal.
    + apply map_untyped. eapply Forall_impl; [exact Hargs|]. by intros a ->.
    + apply map_untyped. eapply Forall_impl; [exact Hcoargs|]. by intros a ->.
  - intros id name an cn ai ci body IH vm cm. simpl.
    by rewrite !foldl_delete_fmap, IH.
Qed.

Lemma emplace_all_fmap {A B} (f : A → B) (ids : list nat) (values : list A)
      (m : gmap nat A) :
  emplace_all ids (List.map f values) (f <$> m) =
  (fun m' : gmap nat A => f <$> m') <$> emplace_all ids values m.
Proof.
  revert ids m. induction values as [|v values IH]; intros ids m.
  - by destruct ids.
  - destruct ids as [|id ids]; [done|]. simpl.
    rewrite lookup_fmap. destruct (m !! id) as [w|] eqn:Hw; simpl.
    + apply IH.
    + rewrite <- fmap_insert. apply IH.
Qed.

(** ** Steps *)

Definition untyped_result (r : Step_result) : Step_result :=
  match r with
  | Result_producer p => Result_producer (untyped_prod p)
  | Result_statement s => Result_statement (untyped_stmt s)
  end.

Definition untyped_exception (e : Interpreter_exception)
  : Interpreter_exception :=
  match e with
  | Stuck_computation_exception context =>
      Stuck_computation_exception (untyped_stmt context)
  | _ => e
  end.

Definition untyped_interpreter (i : Interpreter) : Interpreter :=
  mkInterpreter (finished i) (n_vars i) (n_covars i)
                (List.map untyped_definition (Interpreter.definitions i))
                (List.map (option_map untyped_stmt) (Interpreter.statements i)).

(** The outcome of a call, without the type annotations. *)
Definition untyped_outcome {A} (u : A → A) (m : interp_outcome A)
  : interp_outcome A :=
  match m with
  | Ok a i => Ok (u a) (untyped_interpreter i)
  | Throw e i => Throw (untyped_exception e) (untyped_interpreter i)
  | Undefined => Undefined
  | OutOfFuel => OutOfFuel
  end.

Lemma lookup_map {A B} (f : A → B) (l : list A) (k : nat) :
  List.map f l !! k = f <$> (l !! k).
Proof.
  revert k. induction l as [|x l IH]; intros [|k]; try done. apply IH.
Qed.

Lemma insert_map {A B} (f : A → B) (l : list A) (k : nat) (x : A) :
  <[k := f x]> (List.map f l) = List.map f (<[k := x]> l).
Proof.
  revert k. induction l as [|y l IH]; intros [|k]; try done.
  simpl. f_equal. apply IH.
Qed.

Lemma find_map_untyped id clauses :
  find (fun clause => Nat.eqb (clause_abstraction_id clause) id)
       (List.map untyped_clause clauses) =
  untyped_clause <$>
    find (fun clause => Nat.eqb (clause_abstraction_id clause) id) clauses.
Proof.
  induction clauses as [|cl clauses IH]; [done|]. simpl.
  assert (clause_abstraction_id (untyped_clause cl) = clause_abstraction_id cl)
    as -> by (by destruct cl).
  by destruct (_ =? _).
Qed.

Lemma maps_untyped {A B} (f : A → B) ids (values : list A) :
  emplace_all ids (List.map f values) ∅ =
  (fun m' : gmap nat A => f <$> m') <$> emplace_all ids values ∅.
Proof. rewrite <- emplace_all_fmap. by rewrite fmap_empty. Qed.

Lemma eval_clauses_untyped id args coargs clauses context i :
  eval_clauses id (List.map untyped_prod args) (List.map untyped_cons coargs)
               (List.map untyped_clause clauses) (untyped_stmt context)
               (untyped_interpreter i) =
  untyped_outcome untyped_stmt
                  (eval_clauses id args coargs clauses context i).
Proof.
  unfold eval_clauses. rewrite find_map_untyped.
  destruct (find _ clauses) as [matching|]; [|done]. simpl.
  rewrite !length_map, !maps_untyped.
  assert (clause_arg_ids (untyped_clause matching) = clause_arg_ids matching)
    as -> by (by destruct matching).
  assert (clause_coarg_ids (untyped_clause matching) =
          clause_coarg_ids matching) as -> by (by destruct matching).
  destruct (_ || _); [done|].
  destruct (emplace_all (clause_arg_ids matching) args ∅) as [vm|]; [|done].
  destruct (emplace_all (clause_coarg_ids matching) coargs ∅) as [cm|];
    [|done].
  simpl. f_equal.
  assert (clause_body (untyped_clause matching) =
          untyped_stmt (clause_body matching)) as -> by (by destruct matching).
  apply replace_untyped.
Qed.

Lemma step_arithmetic_untyped op l r after i :
  step_arithmetic op (untyped_prod l) (untyped_prod r) (untyped_cons after)
                  (untyped_interpreter i) =
  untyped_outcome untyped_result (step_arithmetic op l r after i).
Proof.
  unfold step_arithmetic. rewrite !is_value_untyped.
  destruct (is_value l) as [lv l'], (is_value r) as [rv r'].
  cbn [fst snd]. destruct lv; cbn [negb]; [|done].
  destruct rv; cbn [negb]; [|done].
  destruct l'; try done. by destruct r'.
Qed.

Lemma step_ifz_untyped condition if_zero if_other i :
  step_ifz (untyped_prod condition) (untyped_stmt if_zero)
           (untyped_stmt if_other) (untyped_interpreter i) =
  untyped_outcome untyped_result (step_ifz condition if_zero if_other i).
Proof.
  unfold step_ifz. rewrite is_value_untyped.
  destruct (is_value condition) as [cv c']. cbn [fst snd].
  destruct cv; cbn [negb]; [|done].
  destruct c'; try done. simpl. by destruct (_ =? _)%Z.
Qed.

Lemma step_call_untyped id name args coargs i :
  step_call id name (List.map untyped_prod args) (List.map untyped_cons coargs)
            (untyped_interpreter i) =
  untyped_outcome untyped_result (step_call id name args coargs i).
Proof.
  unfold step_call. rewrite find_non_value_untyped.
  destruct (find_non_value args) as [[k|] args']; cbn [fst snd].
  - unfold focus_call. rewrite lookup_map.
    destruct (args' !! k) as [arg|]; [|done]. simpl.
    unfold focus_statement. simpl. do 3 f_equal.
    change (Variable_prod (n_vars i) (focus_var_name name k) None)
      with (untyped_prod (Variable_prod (n_vars i) (focus_var_name name k)
                                        None)).
    by rewrite insert_map.
  - cbn [untyped_interpreter Interpreter.definitions]. rewrite lookup_map.
    destruct (Interpreter.definitions i !! id) as [definition|]; [|done].
    simpl. rewrite !length_map, !maps_untyped.
    destruct (_ || _); [done|].
    destruct (emplace_all (arg_ids definition) args' ∅) as [vm|]; [|done].
    destruct (emplace_all (coarg_ids definition) coargs ∅) as [cm|]; [|done].
    simpl. do 2 f_equal. apply replace_untyped.
Qed.

Lemma singleton_untyped {A B} (f : A → B) (id : nat) (x : A) :
  ({[id := f x]} : gmap nat B) = f <$> ({[id := x]} : gmap nat A).
Proof. by rewrite map_fmap_singleton. Qed.

Lemma replace_stmt_covar body id consumer :
  replace_stmt (untyped_stmt body) ∅ {[id := untyped_cons consumer]} =
  untyped_stmt (replace_stmt body ∅ {[id := consumer]}).
Proof.
  rewrite (singleton_untyped untyped_cons).
  rewrite <- (fmap_empty untyped_prod). apply replace_untyped.
Qed.

Lemma replace_stmt_var body id producer :
  replace_stmt (untyped_stmt body) {[id := untyped_prod producer]} ∅ =
  untyped_stmt (replace_stmt body {[id := producer]} ∅).
Proof.
  rewrite (singleton_untyped untyped_prod).
  rewrite <- (fmap_empty untyped_cons). apply replace_untyped.
Qed.

Lemma step_cut_untyped producer consumer i :
  step_cut (untyped_prod producer) (untyped_cons consumer)
           (untyped_interpreter i) =
  untyped_outcome untyped_result (step_cut producer consumer i).
Proof.
  pose proof (is_value_untyped producer) as Hiv.
  destruct (is_value producer) as [v p'] eqn:E. cbn [fst snd] in Hiv.
  (* the cases of a producer that is not a mu abstraction are one goal *)
  evar (G : Prop).
  assert (Huse : G →
            step_cut (untyped_prod producer) (untyped_cons consumer)
                     (untyped_interpreter i) =
            untyped_outcome untyped_result (step_cut producer consumer i)).
  { intros HG. unfold step_cut.
    destruct producer as [id name type|value type|id name body type
                          |id name args coargs flag type|clauses type];
      cbn [untyped_prod]; cbv beta iota;
      [ change (Variable_prod id name None)
          with (untyped_prod (Variable_prod id name type))
      | change (Value_prod value None)
          with (untyped_prod (Value_prod value type))
      | simpl; do 2 f_equal; apply replace_stmt_covar
      | change (Constructor_prod id name (List.map untyped_prod args)
                                 (List.map untyped_cons coargs) flag None)
          with (untyped_prod (Constructor_prod id name args coargs flag type))
      | change (Cocase_prod (List.map untyped_clause clauses) None)
          with (untyped_prod (Cocase_prod clauses type)) ];
      rewrite Hiv, E; cbv beta iota; exact HG. }
  apply Huse. subst G. clear Huse Hiv E producer.
  destruct v; cbn [negb].
  - destruct consumer as [| arg_id arg_name body type
                          | id name args coargs type | clauses type |].
    + by destruct p'.
    + simpl. do 2 f_equal. apply replace_stmt_var.
    + destruct p' as [| | | |pclauses ptype]; try done.
      cbn [untyped_prod untyped_cons].
      rewrite find_non_value_untyped.
      destruct (find_non_value args) as [[k|] args']; cbn [fst snd]; [done|].
      pose proof (eval_clauses_untyped id args' coargs pclauses
                    (Cut_stmt (Cocase_prod pclauses ptype)
                              (Destructor_cons id name args' coargs type)) i)
        as He.
      cbn [untyped_stmt untyped_prod untyped_cons] in He. rewrite He.
      clear He. by destruct (eval_clauses id args' coargs pclauses _ i).
    + destruct p' as [| | |id name args coargs cached ptype|]; try done.
      cbn [untyped_prod untyped_cons].
      pose proof (eval_clauses_untyped id args coargs clauses
                    (Cut_stmt (Constructor_prod id name args coargs cached
                                                ptype)
                              (Case_cons clauses type)) i) as He.
      cbn [untyped_stmt untyped_prod untyped_cons] in He. rewrite He.
      clear He. by destruct (eval_clauses id args coargs clauses _ i).
    + by destruct p'.
  - destruct p' as [| | |id name args coargs cached ptype|]; try done.
    cbn [untyped_prod]. rewrite find_non_value_untyped.
    destruct (find_non_value args) as [[k|] args']; cbn [fst snd]; [|done].
    unfold focus_constructor. rewrite lookup_map.
    destruct (args' !! k) as [non_value|]; [|done]. simpl.
    unfold focus_statement. simpl. do 9 f_equal.
    change (Variable_prod (n_vars i) (focus_var_name name k) None)
      with (untyped_prod (Variable_prod (n_vars i) (focus_var_name name k)
                                        None)).
    by rewrite insert_map.
Qed.

Lemma step_untyped stmt i :
  step (untyped_stmt stmt) (untyped_interpreter i) =
  untyped_outcome untyped_result (step stmt i).
Proof.
  destruct stmt; simpl.
  - apply step_arithmetic_untyped.
  - apply step_ifz_untyped.
  - apply step_cut_untyped.
  - apply step_call_untyped.
Qed.

(** ** Runs *)

Lemma run_steps_untyped fuel current i :
  run_steps fuel (untyped_stmt current) (untyped_interpreter i) =
  untyped_outcome untyped_prod (run_steps fuel current i).
Proof.
  revert current i. induction fuel as [|fuel IH]; intros current i; [done|].
  simpl. rewrite step_untyped.
  destruct (step current i) as [[result|stmt] i1| | |]; try done.
  simpl. apply IH.
Qed.

Lemma move_statement_untyped index i :
  move_statement index (untyped_interpreter i) =
  untyped_interpreter (move_statement index i).
Proof.
  unfold move_statement, untyped_interpreter. simpl. f_equal.
  apply (insert_map (option_map untyped_stmt) _ index None).
Qed.

Lemma run_statements_untyped fuel count index results i :
  run_statements fuel count index (List.map untyped_prod results)
                 (untyped_interpreter i) =
  untyped_outcome (List.map untyped_prod)
                  (run_statements fuel count index results i).
Proof.
  revert index results i.
  induction count as [|count IH]; intros index results i; [done|].
  cbn [run_statements].
  cbn [untyped_interpreter Interpreter.statements]. rewrite lookup_map.
  destruct (Interpreter.statements i !! index) as [[stmt|]|]; try done.
  cbn [fmap option_fmap option_map].
  change (mkInterpreter (finished i) (n_vars i) (n_covars i)
            (List.map untyped_definition (Interpreter.definitions i))
            (List.map (option_map untyped_stmt) (Interpreter.statements i)))
    with (untyped_interpreter i).
  rewrite move_statement_untyped, run_steps_untyped.
  destruct (run_steps fuel stmt (move_statement index i))
    as [result i1| | |]; try done.
  simpl. rewrite <- IH. by rewrite map_app.
Qed.

Lemma run_untyped fuel i :
  run fuel (untyped_interpreter i) =
  untyped_outcome (List.map untyped_prod) (run fuel i).
Proof.
  unfold run.
  change (finished (untyped_interpreter i)) with (finished i).
  destruct (finished i); [done|].
  change (Interpreter.statements (untyped_interpreter i))
    with (List.map (option_map untyped_stmt) (Interpreter.statements i)).
  rewrite length_map.
  change (@nil Producer) with (List.map untyped_prod []) at 1.
  rewrite run_statements_untyped.
  by destruct (run_statements fuel _ 0 [] i).
Qed.

Lemma new_Interpreter_untyped n_vars n_covars program :
  new_Interpreter n_vars n_covars (untyped_program program) =
  untyped_interpreter (new_Interpreter n_vars n_covars program).
Proof.
  unfold new_Interpreter, untyped_interpreter, untyped_program. simpl.
  f_equal. generalize (AST.statements program). intros l.
  induction l as [|s l IH]; [done|].
  cbn [List.map]. rewrite !fmap_cons. cbn [List.map option_map].
  by rewrite IH.
Qed.

(** X20. The interpreter does not read the type annotations: running an
    interpreter whose statements and definitions have their annotations
    removed gives the outcome of the run with the annotations, with the
    annotations removed: the same results, the same exception at the same
    statement, and it runs out of steps or leaves the defined behaviour
    exactly when the other does.  The same holds of a single step. *)
Theorem run_ignores_annotations (fuel : nat) (i : Interpreter) :
  run fuel (untyped_interpreter i) =
    untyped_outcome (List.map untyped_prod) (run fuel i) ∧
  (∀ stmt, step (untyped_stmt stmt) (untyped_interpreter i) =
           untyped_outcome untyped_result (step stmt i)) ∧
  (∀ n_vars n_covars program,
     new_Interpreter n_vars n_covars (untyped_program program) =
     untyped_interpreter (new_Interpreter n_vars n_covars program)).
Proof.
  split_and!.
  - apply run_untyped.
  - intros stmt. apply step_untyped.
  - apply new_Interpreter_untyped.
Qed.

(** X21. Type checking does not change what a program computes: when
    [type_program] accepts a program, the run of the annotated program that
    [main] goes on with and a run of the program as it was parsed have the
    same outcome up to the annotations. *)
Theorem typed_program_runs_alike
        (fuel fuel' n_vars n_covars : nat) (program program' : Program)
        (ctx ctx' : Types.Typing_context) :
  Typer.type_program fuel program ctx = Some (Typer.Typed program' ctx') →
  untyped_outcome (List.map untyped_prod)
    (run fuel' (new_Interpreter n_vars n_covars program')) =
  untyped_outcome (List.map untyped_prod)
    (run fuel' (new_Interpreter n_vars n_covars program)).
Proof.
  intros Htyped. apply type_program_spec in Htyped as (Heq & _).
  rewrite <- !run_untyped, <- !new_Interpreter_untyped. by rewrite Heq.
Qed.

Lemma typed_program_runs_alike_witness :
  ∃ program' ctx',
    Typer.type_program 5 two_cuts EmptyProgram.default_ctx =
      Some (Typer.Typed program' ctx') ∧
    untyped_outcome (List.map untyped_prod)
      (run 3 (new_Interpreter 0 0 program')) =
    untyped_outcome (List.map untyped_prod)
      (run 3 (new_Interpreter 0 0 two_cuts)).
Proof.
  eexists _, _. split; [vm_compute; reflexivity|].
  eapply (typed_program_runs_alike 5 3 0 0 two_cuts _
            EmptyProgram.default_ctx).
  vm_compute. reflexivity.
Defined.

End Erasure.

(* ===================================================================== *)
(** * The interpreter keeps statements closed *)
(* ===================================================================== *)

Module Closedness.
Import AST Interpreter Values.

(** ** Free variables and covariables *)

(** The ids that a binder binds: the variables for [v = true], the
    covariables for [v = false]. *)
Definition binds (v : bool) (var_ids covar_ids : list nat) : gset nat :=
  list_to_set (if v then var_ids else covar_ids).

(** The ids of the variables ([v = true]) or of the covariables
    ([v = false]) that occur free. *)
Fixpoint free_prod (v : bool) (p : Producer) : gset nat :=
  match p with
  | Variable_prod id _ _ => binds v [id] []
  | Value_prod _ _ => ∅
  | Mu_prod coarg_id _ body _ => free_stmt v body ∖ binds v [] [coarg_id]
  | Constructor_prod _ _ args coargs _ _ =>
      ⋃ (List.map (free_prod v) args) ∪ ⋃ (List.map (free_cons v) coargs)
  | Cocase_prod clauses _ => ⋃ (List.map (free_clause v) clauses)
  end
with free_cons (v : bool) (c : Consumer) : gset nat :=
  match c with
  | Covariable_cons id _ _ => binds v [] [id]
  | Mu_cons arg_id _ body _ => free_stmt v body ∖ binds v [arg_id] []
  | Destructor_cons _ _ args coargs _ =>
      ⋃ (List.map (free_prod v) args) ∪ ⋃ (List.map (free_cons v) coargs)
  | Case_cons clauses _ => ⋃ (List.map (free_clause v) clauses)
  | End_cons _ => ∅
  end
with free_stmt (v : bool) (s : Statement) : gset nat :=
  match s with
  | Arithmetic_stmt _ l r after =>
      free_prod v l ∪ free_prod v r ∪ free_cons v after
  | Ifz_stmt condition if_zero if_other =>
      free_prod v condition ∪ free_stmt v if_zero ∪ free_stmt v if_other
  | Cut_stmt producer consumer => free_prod v producer ∪ free_cons v consumer
  | Call_stmt _ _ args coargs =>
      ⋃ (List.map (free_prod v) args) ∪ ⋃ (List.map (free_cons v) coargs)
  end
with free_clause (v : bool) (cl : Clause) : gset nat :=
  match cl with
  | mkClause _ _ _ _ arg_ids coarg_ids body =>
      free_stmt v body ∖ binds v arg_ids coarg_ids
  end.

Definition closed_prod (p : Producer) : Prop := ∀ v, free_prod v p = ∅.
Definition closed_cons (c : Consumer) : Prop := ∀ v, free_cons v c = ∅.
Definition closed_stmt (s : Statement) : Prop := ∀ v, free_stmt v s = ∅.

(** The body of a definition mentions its parameters only. *)
Definition closed_definition (d : Definition_) : Prop :=
  ∀ v, free_stmt v (body d) ⊆ binds v (arg_ids d) (coarg_ids d).

(** ** Lists *)

Lemma union_map_subseteq {A} (f g : A → gset nat) (D : gset nat) (l : list A) :
  Forall (fun x => f x ⊆ g x ∖ D) l →
  ⋃ (List.map f l) ⊆ ⋃ (List.map g l) ∖ D.
Proof.
  induction 1 as [|x l Hx _ IH]; simpl; set_solver.
Qed.

Lemma union_map_lookup {A} (f : A → gset nat) (l : list A) k x :
  l !! k = Some x → f x ⊆ ⋃ (List.map f l).
Proof.
  revert k. induction l as [|y l IH]; intros [|k]; simpl; try done.
  - intros [= ->]. set_solver.
  - intros H. specialize (IH _ H). set_solver.
Qed.

Lemma union_map_insert {A} (f : A → gset nat) (l : list A) k x :
  ⋃ (List.map f (<[k := x]> l)) ⊆ ⋃ (List.map f l) ∪ f x.
Proof.
  revert k. induction l as [|y l IH]; intros [|k]; simpl; try set_solver.
  all: specialize (IH k); set_solver.
Qed.

Lemma union_map_closed {A} (f : A → gset nat) (l : list A) :
  ⋃ (List.map f l) = ∅ ↔ Forall (fun x => f x = ∅) l.
Proof.
  induction l as [|x l IH]; simpl.
  - split; [by constructor|done].
  - rewrite Forall_cons, <- IH. set_solver.
Qed.

(** ** Substitution *)

Definition maps_closed (vm : gmap nat Producer) (cm : gmap nat Consumer)
  : Prop :=
  map_Forall (fun _ p => closed_prod p) vm ∧
  map_Forall (fun _ c => closed_cons c) cm.

(** The ids that a substitution replaces. *)
Definition doms (v : bool) (vm : gmap nat Producer) (cm : gmap nat Consumer)
  : gset nat :=
  if v then dom vm else dom cm.

Lemma dom_foldl_delete {A} (ids : list nat) (m : gmap nat A) :
  dom (foldl (fun m id => delete id m) m ids) = dom m ∖ list_to_set ids.
Proof.
  revert m. induction ids as [|id ids IH]; intros m; simpl.
  - set_solver.
  - rewrite IH, dom_delete_L. set_solver.
Qed.

Lemma replace_free :
  (∀ p vm cm, maps_closed vm cm →
     ∀ v, free_prod v (replace_prod p vm cm) ⊆ free_prod v p ∖ doms v vm cm) ∧
  (∀ c vm cm, maps_closed vm cm →
     ∀ v, free_cons v (replace_cons c vm cm) ⊆ free_cons v c ∖ doms v vm cm) ∧
  (∀ s vm cm, maps_closed vm cm →
     ∀ v, free_stmt v (replace_stmt s vm cm) ⊆ free_stmt v s ∖ doms v vm cm) ∧
  (∀ cl vm cm, maps_closed vm cm →
     ∀ v, free_clause v (replace_clause cl vm cm) ⊆
          free_clause v cl ∖ doms v vm cm).
Proof.
  apply Syntax.syntax_ind.
  - intros id name type vm cm [Hvm _] v. simpl.
    destruct (vm !! id) as [q|] eqn:Hq.
    + rewrite (Hvm id q Hq v). set_solver.
    + apply not_elem_of_dom in Hq. destruct v; simpl; set_solver.
  - intros value type vm cm _ v. simpl. set_solver.
  - intros id name body type IH vm cm [Hvm Hcm] v. simpl.
    assert (Hm : maps_closed vm (delete id cm))
      by (split; [done|by apply map_Forall_delete]).
    specialize (IH _ _ Hm v).
    destruct v; unfold doms, binds in *; simpl in *;
      rewrite ?dom_delete_L in IH; set_solver.
  - intros id name args coargs flag type Hargs Hcoargs vm cm Hm v. simpl.
    assert (⋃ (List.map (free_prod v)
                 (List.map (fun arg => replace_prod arg vm cm) args)) ⊆
            ⋃ (List.map (free_prod v) args) ∖ doms v vm cm).
    { rewrite List.map_map. apply union_map_subseteq.
      eapply Forall_impl; [exact Hargs|]. intros a Ha. by apply Ha. }
    assert (⋃ (List.map (free_cons v)
                 (List.map (fun arg => replace_cons arg vm cm) coargs)) ⊆
            ⋃ (List.map (free_cons v) coargs) ∖ doms v vm cm).
    { rewrite List.map_map. apply union_map_subseteq.
      eapply Forall_impl; [exact Hcoargs|]. intros a Ha. by apply Ha. }
    set_solver.
  - intros clauses type Hcl vm cm Hm v. simpl.
    rewrite List.map_map. apply union_map_subseteq.
    eapply Forall_impl; [exact Hcl|]. intros a Ha. by apply Ha.
  - intros id name type vm cm [_ Hcm] v. simpl.
    destruct (cm !! id) as [q|] eqn:Hq.
    + rewrite (Hcm id q Hq v). set_solver.
    + apply not_elem_of_dom in Hq. destruct v; simpl; set_solver.
  - intros id name body type IH vm cm [Hvm Hcm] v. simpl.
    assert (Hm : maps_closed (delete id vm) cm)
      by (split; [by apply map_Forall_delete|done]).
    specialize (IH _ _ Hm v).
    destruct v; unfold doms, binds in *; simpl in *;
      rewrite ?dom_delete_L in IH; set_solver.
  - intros id name args coargs type Hargs Hcoargs vm cm Hm v. simpl.
    assert (⋃ (List.map (free_prod v)
                 (List.map (fun arg => replace_prod arg vm cm) args)) ⊆
            ⋃ (List.map (free_prod v) args) ∖ doms v vm cm).
    { rewrite List.map_map. apply union_map_subseteq.
      eapply Forall_impl; [exact Hargs|]. intros a Ha. by apply Ha. }
    assert (⋃ (List.map (free_cons v)
                 (List.map (fun arg => replace_cons arg vm cm) coargs)) ⊆
            ⋃ (List.map (free_cons v) coargs) ∖ doms v vm cm).
    { rewrite List.map_map. apply union_map_subseteq.
      eapply Forall_impl; [exact Hcoargs|]. intros a Ha. by apply Ha. }
    set_solver.
  - intros clauses type Hcl vm cm Hm v. simpl.
    rewrite List.map_map. apply union_map_subseteq.
    eapply Forall_impl; [exact Hcl|]. intros a Ha. by apply Ha.
  - intros type vm cm _ v. simpl. set_solver.
  - intros op l r after IHl IHr IHa vm cm Hm v. simpl.
    specialize (IHl _ _ Hm v). specialize (IHr _ _ Hm v).
    specialize (IHa _ _ Hm v). set_solver.
  - intros c z o IHc IHz IHo vm cm Hm v. simpl.
    specialize (IHc _ _ Hm v). specialize (IHz _ _ Hm v).
    specialize (IHo _ _ Hm v). set_solver.
  - intros p c IHp IHc vm cm Hm v. simpl.
    specialize (IHp _ _ Hm v). specialize (IHc _ _ Hm v). set_solver.
  - intros id name args coargs Hargs Hcoargs vm cm Hm v. simpl.
    assert (⋃ (List.map (free_prod v)
                 (List.map (fun arg => replace_prod arg vm cm) args)) ⊆
            ⋃ (List.map (free_prod v) args) ∖ doms v vm cm).
    { rewrite List.map_map. apply union_map_subseteq.
      eapply Forall_impl; [exact Hargs|]. intros a Ha. by apply Ha. }
    assert (⋃ (List.map (free_cons v)
                 (List.map (fun arg => replace_cons arg vm cm) coargs)) ⊆
            ⋃ (List.map (free_cons v) coargs) ∖ doms v vm cm).
    { rewrite List.map_map. apply union_map_subseteq.
      eapply Forall_impl; [exact Hcoargs|]. intros a Ha. by apply Ha. }
    set_solver.
  - intros id name an cn ai ci body IH vm cm [Hvm Hcm] v. simpl.
    assert (Hm : maps_closed (foldl (fun m arg => delete arg m) vm ai)
                             (foldl (fun m coarg => delete coarg m) cm ci))
      by (split; by apply foldl_delete_Forall).
    specialize (IH _ _ Hm v).
    destruct v; unfold doms, binds in *; simpl in *;
      rewrite dom_foldl_delete in IH; set_solver.
Qed.

(** ** Values *)

Lemma all_of_is_value_free v args :
  Forall (fun p => free_prod v (is_value p).2 = free_prod v p) args →
  List.map (free_prod v) (all_of_is_value args).2 =
  List.map (free_prod v) args.
Proof.
  induction 1 as [|a rest Ha _ IH]; [done|]. simpl.
  destruct (is_value a) as [b a'] eqn:Hia. simpl in Ha.
  destruct b.
  - fold all_of_is_value. destruct (all_of_is_value rest) as [b' rest'].
    simpl in *. by rewrite Ha, IH.
  - simpl. by rewrite Ha.
Qed.

Lemma is_value_free v p : free_prod v (is_value p).2 = free_prod v p.
Proof.
  revert p. apply (Syntax.Producer_all
    (fun p => free_prod v (is_value p).2 = free_prod v p)
    (fun _ => True) (fun _ => True) (fun _ => True)); try done.
  intros id name args coargs flag type Hargs _.
  destruct flag as [b|]; [done|].
  rewrite is_value_constructor. simpl.
  by rewrite (all_of_is_value_free v _ Hargs).
Qed.

Lemma find_non_value_free v args :
  List.map (free_prod v) (find_non_value args).2 =
  List.map (free_prod v) args.
Proof.
  induction args as [|a rest IH]; [done|]. simpl.
  pose proof (is_value_free v a) as Ha.
  destruct (is_value a) as [b a']. simpl in Ha. destruct b.
  - destruct (find_non_value rest) as [r rest']. simpl in *.
    by rewrite Ha, IH.
  - simpl. by rewrite Ha.
Qed.

(** ** Parameter maps *)

Lemma dom_emplace_all {A} (ids : list nat) (values : list A)
      (m0 m : gmap nat A) :
  emplace_all ids values m0 = Some m → length ids = length values →
  dom m = dom m0 ∪ list_to_set ids.
Proof.
  revert ids m0. induction values as [|x values IH]; intros ids m0.
  - destruct ids; [|done]. simpl. intros [= <-] _. set_solver.
  - destruct ids as [|id ids]; [done|]. simpl. intros Hm [= Hlen].
    rewrite (IH _ _ Hm Hlen).
    destruct (m0 !! id) as [y|] eqn:Hy.
    + apply elem_of_dom_2 in Hy. set_solver.
    + rewrite dom_insert_L. set_solver.
Qed.

Lemma args_closed v args coargs :
  ⋃ (List.map (free_prod v) args) ∪ ⋃ (List.map (free_cons v) coargs) = ∅ →
  Forall (fun p => free_prod v p = ∅) args ∧
  Forall (fun c => free_cons v c = ∅) coargs.
Proof. rewrite <- !union_map_closed. set_solver. Qed.

Lemma Forall_closed {A} (f : bool → A → gset nat) (l : list A) :
  (∀ v, Forall (fun x => f v x = ∅) l) → Forall (fun x => ∀ v, f v x = ∅) l.
Proof.
  intros H. apply Forall_forall. intros x Hx v.
  specialize (H v). rewrite Forall_forall in H. by apply H.
Qed.

(** The substitution of closed arguments for all the parameters of a body
    that mentions its parameters only gives a closed statement. *)
Lemma instantiate_closed body arg_ids coarg_ids args coargs vm cm :
  (∀ v, free_stmt v body ⊆ binds v arg_ids coarg_ids) →
  (∀ v, ⋃ (List.map (free_prod v) args) ∪
        ⋃ (List.map (free_cons v) coargs) = ∅) →
  negb (Nat.eqb (length arg_ids) (length args)) ||
  negb (Nat.eqb (length coarg_ids) (length coargs)) = false →
  emplace_all arg_ids args ∅ = Some vm →
  emplace_all coarg_ids coargs ∅ = Some cm →
  closed_stmt (replace_stmt body vm cm).
Proof.
  intros Hbody Hargs Hlen Hvm Hcm v.
  apply orb_false_elim in Hlen as [Hla%negb_false_iff%Nat.eqb_eq
                                     Hlc%negb_false_iff%Nat.eqb_eq].
  assert (Hm : maps_closed vm cm).
  { split.
    - eapply (Evaluation.emplace_all_Forall closed_prod);
        [|apply map_Forall_empty|exact Hvm].
      apply (Forall_closed free_prod). intros w.
      by apply (args_closed w args coargs).
    - eapply (Evaluation.emplace_all_Forall closed_cons);
        [|apply map_Forall_empty|exact Hcm].
      apply (Forall_closed free_cons). intros w.
      by apply (args_closed w args coargs). }
  destruct replace_free as (_ & _ & Hs & _).
  specialize (Hs body vm cm Hm v). specialize (Hbody v).
  apply dom_emplace_all in Hvm; [|done].
  apply dom_emplace_all in Hcm; [|done].
  destruct v; unfold doms, binds in *; set_solver.
Qed.

(** ** Steps *)

Definition defs_closed (i : Interpreter) : Prop :=
  Forall closed_definition (Interpreter.definitions i).

Definition closed_result (r : Step_result) : Prop :=
  match r with
  | Result_producer p => closed_prod p
  | Result_statement s => closed_stmt s
  end.

Lemma eval_clauses_closed id args coargs clauses context i s i' :
  (∀ v, ⋃ (List.map (free_clause v) clauses) = ∅) →
  (∀ v, ⋃ (List.map (free_prod v) args) ∪
        ⋃ (List.map (free_cons v) coargs) = ∅) →
  eval_clauses id args coargs clauses context i = Ok s i' →
  closed_stmt s.
Proof.
  intros Hcl Hargs. unfold eval_clauses.
  destruct (find _ clauses) as [matching|] eqn:Hfind; [|done].
  apply find_some in Hfind as [Hin _].
  destruct (_ || _) eqn:Hlen; [done|].
  destruct (emplace_all (clause_arg_ids matching) args ∅) as [vm|] eqn:Hvm;
    [|done].
  destruct (emplace_all (clause_coarg_ids matching) coargs ∅) as [cm|] eqn:Hcm;
    [|done].
  intros [= <- <-].
  eapply instantiate_closed; [|exact Hargs|exact Hlen|exact Hvm|exact Hcm].
  intros v. specialize (Hcl v). apply union_map_closed in Hcl.
  rewrite Forall_forall in Hcl. apply list_elem_of_In in Hin.
  specialize (Hcl _ Hin). destruct matching. simpl in *. set_solver.
Qed.

Lemma step_arithmetic_closed op l r after i res i' :
  closed_stmt (Arithmetic_stmt op l r after) →
  step_arithmetic op l r after i = Ok res i' → closed_result res.
Proof.
  intros Hc. unfold step_arithmetic.
  pose proof (fun v => is_value_free v l) as Hl.
  pose proof (fun v => is_value_free v r) as Hr.
  destruct (is_value l) as [lv l'], (is_value r) as [rv r'].
  cbn [fst snd] in *. destruct lv; cbn [negb].
  - destruct rv; cbn [negb].
    + destruct l'; try done. destruct r'; try done.
      intros [= <- <-] v. specialize (Hc v). simpl in *. set_solver.
    + unfold focus_arithmetic, focus_statement, fresh_var_id.
      intros [= <- <-] v. specialize (Hc v). specialize (Hl v).
      specialize (Hr v). simpl in *. destruct v; unfold binds; set_solver.
  - unfold focus_arithmetic, focus_statement, fresh_var_id.
    intros [= <- <-] v. specialize (Hc v). specialize (Hl v).
    simpl in *. destruct v; unfold binds; set_solver.
Qed.

Lemma step_ifz_closed condition if_zero if_other i res i' :
  closed_stmt (Ifz_stmt condition if_zero if_other) →
  step_ifz condition if_zero if_other i = Ok res i' → closed_result res.
Proof.
  intros Hc. unfold step_ifz.
  pose proof (fun v => is_value_free v condition) as Hv.
  destruct (is_value condition) as [cv c']. cbn [fst snd] in *.
  destruct cv; cbn [negb].
  - destruct c'; try done.
    destruct (_ =? _)%Z; intros [= <- <-] v; specialize (Hc v);
      simpl in *; set_solver.
  - unfold focus_ifz, focus_statement, fresh_var_id.
    intros [= <- <-] v. specialize (Hc v). specialize (Hv v).
    simpl in *. destruct v; unfold binds; set_solver.
Qed.

Lemma step_call_closed id name args coargs i res i' :
  closed_stmt (Call_stmt id name args coargs) → defs_closed i →
  step_call id name args coargs i = Ok res i' → closed_result res.
Proof.
  intros Hc Hdefs. unfold step_call.
  pose proof (fun v => find_non_value_free v args) as Hfree.
  destruct (find_non_value args) as [[k|] args']; cbn [fst snd] in *.
  - unfold focus_call. destruct (args' !! k) as [arg|] eqn:Hk; [|done].
    unfold focus_statement, fresh_var_id. intros [= <- <-] v.
    specialize (Hc v). specialize (Hfree v). simpl in *.
    pose proof (union_map_lookup (free_prod v) _ _ _ Hk).
    pose proof (union_map_insert (free_prod v) args' k
                  (Variable_prod (n_vars i) (focus_var_name name k) None)).
    rewrite Hfree in *. simpl in *. destruct v; unfold binds in *; set_solver.
  - destruct (Interpreter.definitions i !! id) as [definition|] eqn:Hd;
      [|done].
    destruct (_ || _) eqn:Hlen; [done|].
    destruct (emplace_all (arg_ids definition) args' ∅) as [vm|] eqn:Hvm;
      [|done].
    destruct (emplace_all (coarg_ids definition) coargs ∅) as [cm|] eqn:Hcm;
      [|done].
    intros [= <- <-]. simpl.
    eapply instantiate_closed; [| |exact Hlen|exact Hvm|exact Hcm].
    + unfold defs_closed in Hdefs. rewrite Forall_lookup in Hdefs.
      apply (Hdefs id definition Hd).
    + intros v. rewrite Hfree. apply (Hc v).
Qed.

Lemma step_cut_closed producer consumer i res i' :
  closed_stmt (Cut_stmt producer consumer) →
  step_cut producer consumer i = Ok res i' → closed_result res.
Proof.
  intros Hc Hstep.
  pose proof (fun v => is_value_free v producer) as Hfree.
  destruct (is_value producer) as [b p'] eqn:E. cbn [fst snd] in Hfree.
  assert (Hcons : closed_cons consumer).
  { intros w. specialize (Hc w). simpl in Hc. set_solver. }
  assert (Hmu : ∀ coarg_id name body type,
            producer = Mu_prod coarg_id name body type →
            closed_stmt (replace_stmt body ∅ {[coarg_id := consumer]})).
  { intros id name body type -> v. specialize (Hc v).
    destruct replace_free as (_ & _ & Hs & _).
    specialize (Hs body ∅ {[id := consumer]}). simpl in Hc.
    assert (Hm : maps_closed ∅ {[id := consumer]}).
    { split; [apply map_Forall_empty|]. by apply map_Forall_singleton. }
    specialize (Hs Hm v).
    destruct v; unfold doms, binds in *; simpl in *;
      rewrite ?dom_singleton_L, ?dom_empty_L in Hs; set_solver. }
  (* the cases of a producer that is not a mu abstraction are one goal *)
  evar (G : Prop).
  assert (Huse : G → step_cut producer consumer i = Ok res i' →
                 closed_result res).
  { intros HG. unfold step_cut.
    destruct producer; cbv beta iota;
      try (rewrite E; cbv beta iota; exact HG).
    intros [= <- <-]. by eapply Hmu. }
  apply Huse; [|exact Hstep]. subst G. clear Huse Hstep E Hmu.
  assert (Hp : closed_prod p').
  { intros v. rewrite Hfree. specialize (Hc v). simpl in Hc. set_solver. }
  clear Hfree Hc producer.
  destruct b; cbn [negb].
  - destruct consumer as [| arg_id arg_name body type
                          | id name args coargs type | clauses type |].
    + destruct p'; try done.
    + intros [= <- <-] v.
      destruct replace_free as (_ & _ & Hs & _).
      specialize (Hs body {[arg_id := p']} ∅).
      assert (Hm : maps_closed {[arg_id := p']} ∅).
      { split; [|apply map_Forall_empty]. by apply map_Forall_singleton. }
      specialize (Hs Hm v). specialize (Hcons v).
      destruct v; unfold doms, binds in *; simpl in *;
        rewrite ?dom_singleton_L, ?dom_empty_L in Hs; set_solver.
    + destruct p' as [| | | |pclauses ptype]; try done.
      pose proof (fun v => find_non_value_free v args) as Hfree.
      destruct (find_non_value args) as [[k|] args']; [done|].
      cbn [fst snd] in Hfree.
      destruct (eval_clauses id args' coargs pclauses _ i) as [s i0| | |] eqn:He;
        try done.
      simpl. intros [= <- <-].
      eapply eval_clauses_closed; [| |exact He].
      * intros v. apply (Hp v).
      * intros v. rewrite Hfree. apply (Hcons v).
    + destruct p' as [| | |id name args coargs cached ptype|]; try done.
      destruct (eval_clauses id args coargs clauses _ i) as [s i0| | |] eqn:He;
        try done.
      simpl. intros [= <- <-].
      eapply eval_clauses_closed; [| |exact He].
      * intros v. apply (Hcons v).
      * intros v. apply (Hp v).
    + destruct p'; try done; by intros [= <- <-].
  - destruct p' as [| | |id name args coargs cached ptype|]; try done.
    pose proof (fun v => find_non_value_free v args) as Hfree.
    destruct (find_non_value args) as [[k|] args']; [|done].
    cbn [fst snd] in Hfree.
    unfold focus_constructor.
    destruct (args' !! k) as [non_value|] eqn:Hk; [|done].
    unfold fresh_covar_id, focus_statement, fresh_var_id. simpl.
    intros [= <- <-] v. specialize (Hp v). specialize (Hcons v).
    specialize (Hfree v). simpl in *.
    pose proof (union_map_lookup (free_prod v) _ _ _ Hk).
    pose proof (union_map_insert (free_prod v) args' k
                  (Variable_prod (n_vars i) (focus_var_name name k) None)).
    rewrite Hfree in *. simpl in *. destruct v; unfold binds in *; set_solver.
Qed.

Lemma step_closed stmt i res i' :
  closed_stmt stmt → defs_closed i → step stmt i = Ok res i' →
  closed_result res.
Proof.
  intros Hc Hd. destruct stmt; unfold step.
  - by apply step_arithmetic_closed.
  - by apply step_ifz_closed.
  - by apply step_cut_closed.
  - by apply step_call_closed.
Qed.

(** ** Runs *)

(** A step writes nothing of the interpreter but the counters. *)
Definition same_program (i i' : Interpreter) : Prop :=
  Interpreter.definitions i' = Interpreter.definitions i ∧
  Interpreter.statements i' = Interpreter.statements i ∧
  finished i' = finished i.

Lemma eval_clauses_same id args coargs clauses context i s i' :
  eval_clauses id args coargs clauses context i = Ok s i' → i' = i.
Proof.
  unfold eval_clauses. destruct (find _ clauses); [|done].
  destruct (_ || _); [done|].
  destruct (emplace_all _ args ∅); [|done].
  destruct (emplace_all _ coargs ∅); [|done].
  by intros [= <- <-].
Qed.

Lemma step_same_program stmt i res i' :
  step stmt i = Ok res i' → same_program i i'.
Proof.
  destruct stmt as [op l r after|condition if_zero if_other
                    |producer consumer|id name args coargs]; unfold step.
  - unfold step_arithmetic, focus_arithmetic, focus_statement, fresh_var_id.
    destruct (is_value l) as [[] l'], (is_value r) as [[] r'];
      cbn [negb]; try (by intros [= <- <-]).
    destruct l'; try done. destruct r'; try done. by intros [= <- <-].
  - unfold step_ifz, focus_ifz, focus_statement, fresh_var_id.
    destruct (is_value condition) as [[] c']; cbn [negb];
      try (by intros [= <- <-]).
    destruct c'; try done. by destruct (_ =? _)%Z; intros [= <- <-].
  - assert (Hvalue : ∀ p' : Producer,
      match consumer with
      | Mu_cons arg_id _ body _ =>
          Ok (Result_statement (replace_stmt body {[arg_id := p']} ∅)) i
      | _ =>
          match p', consumer with
          | Constructor_prod id _ args coargs _ _, Case_cons clauses _ =>
              let* (res, i) :=
                eval_clauses id args coargs clauses
                             (Cut_stmt p' consumer) i in
              Ok (Result_statement res) i
          | Cocase_prod clauses ptype,
            Destructor_cons id name args coargs type =>
              let '(non_value_arg, args) := find_non_value args in
              match non_value_arg with
              | Some arg_index =>
                  match focus_destructor id name args coargs type
                                         arg_index i with
                  | Some (c, i) => Ok (Result_statement (Cut_stmt p' c)) i
                  | None => Undefined
                  end
              | None =>
                  let* (res, i) :=
                    eval_clauses id args coargs clauses
                      (Cut_stmt p'
                                (Destructor_cons id name args coargs type)) i in
                  Ok (Result_statement res) i
              end
          | value, End_cons _ => Ok (Result_producer value) i
          | _, _ =>
              Throw (Stuck_computation_exception (Cut_stmt p' consumer)) i
          end
      end = Ok res i' → same_program i i').
    { intros p'. destruct consumer as [| | id name args coargs type
                                       | clauses type |].
      - by destruct p'.
      - by intros [= <- <-].
      - destruct p' as [| | | |pclauses ptype]; try done.
        destruct (find_non_value args) as [[k|] args']; [done|].
        destruct (eval_clauses _ _ _ _ _ _) as [s i0| | |] eqn:He; try done.
        apply eval_clauses_same in He as ->. by intros [= <- <-].
      - destruct p' as [| | |id name args coargs cached ptype|]; try done.
        destruct (eval_clauses _ _ _ _ _ _) as [s i0| | |] eqn:He; try done.
        apply eval_clauses_same in He as ->. by intros [= <- <-].
      - by destruct p'; intros [= <- <-]. }
    unfold step_cut.
    destruct producer as [| | |id name args coargs flag type|];
      try (by intros [= <- <-]); cbv beta iota;
      match goal with
      | |- context [is_value ?p] => destruct (is_value p) as [[] p']
      end; cbn [negb]; try apply Hvalue.
    all: destruct p' as [| | |id' name' args' coargs' cached ptype|];
      try done.
    all: destruct (find_non_value args') as [[k|] args'']; try done.
    all: unfold focus_constructor, focus_statement, fresh_var_id,
           fresh_covar_id.
    all: destruct (args'' !! k); try done.
    all: by intros [= <- <-].
  - unfold step_call, focus_call, focus_statement, fresh_var_id.
    destruct (find_non_value args) as [[k|] args'].
    + destruct (args' !! k); [|done]. by intros [= <- <-].
    + destruct (Interpreter.definitions i !! id); [|done].
      destruct (_ || _); [done|].
      destruct (emplace_all _ args' ∅); [|done].
      destruct (emplace_all _ coargs ∅); [|done].
      by intros [= <- <-].
Qed.

Lemma run_steps_closed fuel current i p i' :
  closed_stmt current → defs_closed i →
  run_steps fuel current i = Ok p i' →
  closed_prod p ∧ same_program i i'.
Proof.
  revert current i. induction fuel as [|fuel IH]; intros current i Hc Hd;
    [done|]. simpl.
  destruct (step current i) as [r i1| | |] eqn:Hs; try done. simpl.
  pose proof (step_closed _ _ _ _ Hc Hd Hs) as Hr.
  apply step_same_program in Hs as (Hdefs & Hstmts & Hfin).
  destruct r as [result|stmt].
  - by intros [= <- <-].
  - intros Hrun. apply IH in Hrun as [Hp (Hdefs' & Hstmts' & Hfin')];
      [|done|by unfold defs_closed; rewrite Hdefs].
    split; [done|]. unfold same_program. split_and!; congruence.
Qed.

Definition stmts_closed (i : Interpreter) : Prop :=
  Forall (fun o => match o with
                   | Some s => closed_stmt s
                   | None => True
                   end) (Interpreter.statements i).

Lemma run_statements_closed fuel count index results i results' i' :
  stmts_closed i → defs_closed i → Forall closed_prod results →
  run_statements fuel count index results i = Ok results' i' →
  Forall closed_prod results'.
Proof.
  revert index results i.
  induction count as [|count IH]; intros index results i Hst Hd Hres; simpl.
  - by intros [= <- <-].
  - destruct (Interpreter.statements i !! index) as [[stmt|]|] eqn:Hi;
      try done.
    assert (Hc : closed_stmt stmt).
    { unfold stmts_closed in Hst. rewrite Forall_lookup in Hst.
      apply (Hst index (Some stmt) Hi). }
    destruct (run_steps fuel stmt (move_statement index i))
      as [result i1| | |] eqn:Hrun; try done. simpl.
    apply run_steps_closed in Hrun as [Hp (Hdefs & Hstmts & Hfin)];
      [|done|done].
    apply IH.
    + unfold stmts_closed. rewrite Hstmts. by apply Forall_insert.
    + unfold defs_closed. by rewrite Hdefs.
    + apply Forall_app. split; [done|]. by constructor.
Qed.

(** X22. Evaluation keeps statements closed.  A step on a statement without
    free variables and covariables, in an interpreter whose definitions
    mention only their own parameters, gives a statement or a result without
    free variables and covariables: focusing binds the variable it
    introduces, and substitution replaces all the parameters a body
    mentions by closed arguments.  So every result of a run on closed
    statements is closed. *)
Theorem evaluation_keeps_closed (i : Interpreter) :
  Forall (fun d => ∀ v, free_stmt v (body d) ⊆
                        binds v (arg_ids d) (coarg_ids d))
         (Interpreter.definitions i) →
  (∀ stmt res i',
     (∀ v, free_stmt v stmt = ∅) → step stmt i = Ok res i' →
     match res with
     | Result_producer p => ∀ v, free_prod v p = ∅
     | Result_statement s => ∀ v, free_stmt v s = ∅
     end) ∧
  (∀ fuel results i',
     Forall (fun o => match o with
                      | Some s => ∀ v, free_stmt v s = ∅
                      | None => True
                      end) (Interpreter.statements i) →
     run fuel i = Ok results i' →
     Forall (fun p => ∀ v, free_prod v p = ∅) results).
Proof.
  intros Hd. split.
  - intros stmt res i' Hc Hs. by apply (step_closed stmt i res i').
  - intros fuel results i' Hst. unfold run.
    destruct (finished i); [done|].
    destruct (run_statements fuel _ 0 [] i) as [res i1| | |] eqn:Hrun;
      try done.
    simpl. intros [= <- <-].
    apply (run_statements_closed _ _ _ _ _ _ _ Hst Hd (Forall_nil_2 _) Hrun).
Qed.

(** The definition [(def twice (x) (a) [x a])] and the statement
    [(twice (Nil) (<END>))]. *)
Definition calls_twice : Interpreter :=
  new_Interpreter 1 1
    (mkProgram
       [mkDefinition 8 "twice" ["x"] ["a"] [0] [0]
          (Cut_stmt (Variable_prod 0 "x" None) (Covariable_cons 0 "a" None))]
       [Call_stmt 0 "twice" [Constructor_prod 0 "Nil" [] [] None None]
                  [End_cons None]]).

Lemma evaluation_keeps_closed_witness :
  run 3 calls_twice =
    Ok [Constructor_prod 0 "Nil" [] [] (Some true) None]
       (mkInterpreter true 1 1 (Interpreter.definitions calls_twice) [None]) ∧
  (∀ stmt res i',
     (∀ v, free_stmt v stmt = ∅) → step stmt calls_twice = Ok res i' →
     match res with
     | Result_producer p => ∀ v, free_prod v p = ∅
     | Result_statement s => ∀ v, free_stmt v s = ∅
     end) ∧
  (∀ fuel results i',
     Forall (fun o => match o with
                      | Some s => ∀ v, free_stmt v s = ∅
                      | None => True
                      end) (Interpreter.statements calls_twice) →
     run fuel calls_twice = Ok results i' →
     Forall (fun p => ∀ v, free_prod v p = ∅) results).
Proof.
  split; [vm_compute; reflexivity|].
  apply (evaluation_keeps_closed calls_twice).
  repeat constructor. intros [|]; vm_compute; set_solver.
Defined.

(** X23. Substituting closed producers and consumers never makes an id
    free: the variables and covariables free in the result of [replace] are
    free in the statement it was applied to and are none of the replaced
    ids, whatever binders the statement has. *)
Theorem replace_frees_nothing
        (s : Statement) (var_map : gmap nat Producer)
        (covar_map : gmap nat Consumer) :
  map_Forall (fun _ p => ∀ v, free_prod v p = ∅) var_map →
  map_Forall (fun _ c => ∀ v, free_cons v c = ∅) covar_map →
  free_stmt true (replace_stmt s var_map covar_map) ⊆
    free_stmt true s ∖ dom var_map ∧
  free_stmt false (replace_stmt s var_map covar_map) ⊆
    free_stmt false s ∖ dom covar_map.
Proof.
  intros Hvm Hcm. destruct replace_free as (_ & _ & Hs & _).
  split.
  - apply (Hs s var_map covar_map (conj Hvm Hcm) true).
  - apply (Hs s var_map covar_map (conj Hvm Hcm) false).
Qed.

Lemma replace_frees_nothing_witness :
  free_stmt true
    (replace_stmt
       (Cut_stmt (Variable_prod 0 "x" None)
                 (Mu_cons 0 "x" (Cut_stmt (Variable_prod 0 "x" None)
                                          (Covariable_cons 1 "a" None)) None))
       {[0 := Value_prod 5 None]} ∅) ⊆
    free_stmt true
      (Cut_stmt (Variable_prod 0 "x" None)
                (Mu_cons 0 "x" (Cut_stmt (Variable_prod 0 "x" None)
                                         (Covariable_cons 1 "a" None)) None))
    ∖ dom ({[0 := Value_prod 5 None]} : gmap nat Producer) ∧
  free_stmt false
    (replace_stmt
       (Cut_stmt (Variable_prod 0 "x" None)
                 (Mu_cons 0 "x" (Cut_stmt (Variable_prod 0 "x" None)
                                          (Covariable_cons 1 "a" None)) None))
       {[0 := Value_prod 5 None]} ∅) ⊆
    free_stmt false
      (Cut_stmt (Variable_prod 0 "x" None)
                (Mu_cons 0 "x" (Cut_stmt (Variable_prod 0 "x" None)
                                         (Covariable_cons 1 "a" None)) None))
    ∖ dom (∅ : gmap nat Consumer).
Proof.
  apply (replace_frees_nothing
           (Cut_stmt (Variable_prod 0 "x" None)
                     (Mu_cons 0 "x" (Cut_stmt (Variable_prod 0 "x" None)
                                              (Covariable_cons 1 "a" None))
                              None))
           {[0 := Value_prod 5 None]} ∅).
  - apply map_Forall_singleton. by intros [|].
  - apply map_Forall_empty.
Defined.

End Closedness.

(* ===================================================================== *)
(** * The parser binds every name it accepts *)
(* ===================================================================== *)

Module WellScoped.
Import Types AST Parser Scopes Closedness Annotations.

(** The id is on the stack of some name: a binder that encloses the place
    the parser is at has bound it. *)
Definition in_scope (v : bool) (p : Parser) (id : nat) : Prop :=
  ∃ name, id ∈ stack_of (if v then var_ctx p else covar_ctx p) name.

(** The ids that are free in [x] are in scope. *)
Definition scoped_in {T} (free : bool → T → gset nat) (p : Parser) (x : T)
  : Prop :=
  ∀ v id, id ∈ free v x → in_scope v p id.

(** A call that returns leaves a parser with the scopes of [p], and its
    result has the property [Q]. *)
Definition ok_res {T} (p : Parser) (Q : T → Prop) (m : parse_outcome T)
  : Prop :=
  ∀ x st', m = Ok x st' → same_scopes p st'.1 ∧ Q x.

Definition resp {T} (Q : Parser → T → Prop) (f : pstate → parse_outcome T)
  : Prop :=
  ∀ p st, same_scopes p st.1 → ok_res p (Q p) (f st).

Definition plain {T} (p : Parser) (x : T) : Prop := True.

Lemma resp_plain {T} (f : pstate → parse_outcome T) : scoped f → resp plain f.
Proof.
  intros Hf p st H x st' Hx. split; [|done]. by apply (Hf p st H x st').
Qed.

Lemma ok_res_bind {A B} p q (Qa : A → Prop) (Q : B → Prop)
      (m : parse_outcome A) (k : A → pstate → parse_outcome B) :
  ok_res q Qa m →
  (∀ a s, same_scopes q s.1 → Qa a → ok_res p Q (k a s)) →
  ok_res p Q (bind m k).
Proof.
  intros Hm Hk x st'. destruct m as [a s| | |]; try done. simpl.
  destruct (Hm a s eq_refl) as [Hs Ha]. by apply Hk.
Qed.

Lemma ok_res_Ok {T} p (Q : T → Prop) (x : T) st :
  same_scopes p st.1 → Q x → ok_res p Q (Ok x st).
Proof. by intros H HQ y st' [= <- <-]. Qed.

Lemma ok_res_Throw {T} p (Q : T → Prop) e st : ok_res p Q (Throw e st).
Proof. by intros y st'. Qed.

Lemma ok_res_Undefined {T} p (Q : T → Prop) : ok_res p Q Undefined.
Proof. by intros y st'. Qed.

Lemma ok_res_OutOfFuel {T} p (Q : T → Prop) : ok_res p Q OutOfFuel.
Proof. by intros y st'. Qed.

Lemma ok_res_impl {T} p (Q Q' : T → Prop) m :
  (∀ x, Q x → Q' x) → ok_res p Q m → ok_res p Q' m.
Proof. intros HQ Hm x st' Hx. destruct (Hm x st' Hx). split; auto. Qed.

(** ** Lists *)

Lemma scoped_in_list {T} (free : bool → T → gset nat) p (l : list T) v id :
  Forall (scoped_in free p) l → id ∈ ⋃ (List.map (free v) l) →
  in_scope v p id.
Proof.
  induction 1 as [|x l Hx _ IH]; simpl; [set_solver|].
  intros [H|H]%elem_of_union; [by apply (Hx v id)|by apply IH].
Qed.

Lemma resp_parse_list_loop {T} (Q : Parser → T → Prop)
      (parse : pstate → parse_outcome T) fuel syntax_kind start_line :
  resp Q parse →
  ∀ result p st, same_scopes p st.1 → Forall (Q p) result →
    ok_res p (Forall (Q p))
           (parse_list_loop parse fuel syntax_kind start_line result st).
Proof.
  intros Hparse.
  induction fuel as [|fuel IH]; intros result p st H Hres.
  { apply ok_res_OutOfFuel. }
  cbn [parse_list_loop]. cbv zeta.
  pose proof (scopes_skip p st H) as Hs.
  destruct (p_peek (skip_whitespace st)) as [c st1] eqn:Hp.
  pose proof (scopes_peek _ _ _ _ Hp Hs) as H1.
  destruct (is_char c Names.close_paren).
  { destruct (p_get st1) as [d st2] eqn:Hg. apply ok_res_Ok; [|done].
    by apply (scopes_get _ _ _ _ Hg). }
  destruct (eof st1.2).
  { destruct (p_peek st1); apply ok_res_Throw. }
  eapply (ok_res_bind p p); [by apply Hparse|].
  intros x s Hx HQ. apply IH; [done|].
  apply Forall_app. split; [done|by constructor].
Qed.

Lemma resp_parse_list {T} (Q : Parser → T → Prop)
      (parse : pstate → parse_outcome T) fuel syntax_kind :
  resp Q parse →
  resp (fun p => Forall (Q p)) (parse_list parse fuel syntax_kind).
Proof.
  intros Hparse p st H. unfold parse_list. cbv zeta.
  pose proof (scopes_skip p st H) as Hs.
  destruct (p_get (skip_whitespace st)) as [c st1] eqn:Hg.
  pose proof (scopes_get _ _ _ _ Hg Hs) as H1.
  destruct (negb _); [apply ok_res_Throw|].
  by apply resp_parse_list_loop.
Qed.

(** ** The leaves *)

Lemma last_elem_of {A} (l : list A) (x : A) : last l = Some x → x ∈ l.
Proof.
  induction l as [|y l IH]; [done|]. destruct l as [|z l].
  - intros [= ->]. set_solver.
  - intros H. apply elem_of_cons. right. by apply IH.
Qed.

Lemma resp_parse_variable : resp (scoped_in free_prod) parse_variable.
Proof.
  intros p st H. unfold parse_variable.
  eapply (ok_res_bind p p); [by apply (resp_plain _ (scoped_read_word _))|].
  intros name s Hs _. destruct name as [|c name].
  { destruct (p_peek s). apply ok_res_Throw. }
  destruct (last (stack_of (var_ctx s.1) (String c name))) as [id|] eqn:Hid;
    [|apply ok_res_Throw].
  apply ok_res_Ok; [done|]. intros v id' Hin. simpl in Hin.
  destruct v; unfold binds in Hin; simpl in Hin; [|set_solver].
  assert (id' = id) as -> by set_solver.
  exists (String c name). simpl.
  destruct Hs as (_ & Hv & _). rewrite <- Hv. by apply last_elem_of.
Qed.

Lemma resp_parse_covariable : resp (scoped_in free_cons) parse_covariable.
Proof.
  intros p st H. unfold parse_covariable.
  eapply (ok_res_bind p p); [by apply (resp_plain _ (scoped_read_word _))|].
  intros name s Hs _. destruct name as [|c name].
  { destruct (p_peek s). apply ok_res_Throw. }
  destruct (last (stack_of (covar_ctx s.1) (String c name))) as [id|] eqn:Hid;
    [|apply ok_res_Throw].
  apply ok_res_Ok; [done|]. intros v id' Hin. simpl in Hin.
  destruct v; unfold binds in Hin; simpl in Hin; [set_solver|].
  assert (id' = id) as -> by set_solver.
  exists (String c name). simpl.
  destruct Hs as (_ & _ & Hc & _). rewrite <- Hc. by apply last_elem_of.
Qed.

Lemma resp_parse_value : resp (scoped_in free_prod) parse_value.
Proof.
  intros p st H. unfold parse_value.
  eapply (ok_res_bind p p); [by apply (resp_plain _ (scoped_read_word _))|].
  intros literal s Hs _. destruct literal as [|c literal].
  { destruct (p_peek s). apply ok_res_Throw. }
  destruct (stoll _) as [e|[value processed]]; [apply ok_res_Throw|].
  destruct (negb _); [apply ok_res_Throw|].
  apply ok_res_Ok; [done|]. intros v id. simpl. set_solver.
Qed.

Lemma resp_parse_end : resp (scoped_in free_cons) parse_end.
Proof.
  intros p st H. unfold parse_end. cbv zeta.
  eapply (ok_res_bind p p).
  { apply (resp_plain _ (scoped_read_word _)). by apply scopes_skip. }
  intros keyword s Hs _. destruct (negb _).
  { destruct (keyword_cause keyword s). apply ok_res_Throw. }
  apply ok_res_Ok; [done|]. intros v id. simpl. set_solver.
Qed.


(** ** Binders *)

Lemma elem_of_ids_of x names n id :
  id ∈ ids_of x names n → id ∈ seq n (length names).
Proof.
  revert n. induction names as [|name names IH]; intros n; simpl; [done|].
  intros [H|H]%elem_of_app.
  - destruct (decide (name = x)); [|set_solver].
    apply list_elem_of_singleton in H as ->. by left.
  - right. by apply IH.
Qed.

(** An id in scope in the body of a binder is one of the parameters, or it
    was in scope around the binder. *)
Lemma in_scope_bound v p q arg_names coarg_names id :
  same_stacks p q →
  in_scope v (bind_covars coarg_names (bind_vars arg_names q).2).2 id →
  in_scope v p id ∨
  id ∈ binds v (bind_vars arg_names q).1
               (bind_covars coarg_names (bind_vars arg_names q).2).1.
Proof.
  destruct (bind_vars_spec arg_names q) as (Hids & _ & Hst & _ & Hc & Hnc & _).
  destruct (bind_covars_spec coarg_names (bind_vars arg_names q).2)
    as (Hids' & _ & Hst' & _ & Hc' & _).
  intros (Hv & Hcv & _) [x Hin]. unfold binds. destruct v.
  - rewrite Hc', Hst in Hin. apply elem_of_app in Hin as [Hin|Hin].
    + left. exists x. by rewrite <- Hv.
    + right. rewrite Hids. apply elem_of_list_to_set.
      by apply (elem_of_ids_of x).
  - rewrite Hst', Hc in Hin. apply elem_of_app in Hin as [Hin|Hin].
    + left. exists x. by rewrite <- Hcv.
    + right. rewrite Hids'. apply elem_of_list_to_set.
      by apply (elem_of_ids_of x).
Qed.

Lemma scoped_in_body p q arg_names coarg_names body v id :
  same_scopes p q →
  scoped_in free_stmt (bind_covars coarg_names (bind_vars arg_names q).2).2
            body →
  id ∈ free_stmt v body ∖
       binds v (bind_vars arg_names q).1
               (bind_covars coarg_names (bind_vars arg_names q).2).1 →
  in_scope v p id.
Proof.
  intros [_ H] Hb [Hin Hn]%elem_of_difference.
  by destruct (in_scope_bound v p q arg_names coarg_names id H (Hb v id Hin)).
Qed.

Lemma ok_res_binder {A B} p arg_names coarg_names st
      (Qa : Parser → A → Prop) (Q : B → Prop)
      (body_parser : pstate → parse_outcome A)
      (k : A → pstate → parse_outcome B) :
  resp Qa body_parser → same_scopes p st.1 →
  (∀ a s, same_scopes p (unbind_covars coarg_names
                           (unbind_vars arg_names s.1)) →
          Qa (bind_covars coarg_names (bind_vars arg_names st.1).2).2 a →
          ok_res p Q (k a s)) →
  ok_res p Q (bind (body_parser
                      ((bind_covars coarg_names
                          (bind_vars arg_names st.1).2).2, st.2)) k).
Proof.
  intros Hbody H Hk.
  eapply (ok_res_bind p _); [apply Hbody, same_scopes_refl|].
  intros a s Hs Ha. apply Hk; [|done].
  eapply same_scopes_trans; [exact H|]. by apply scopes_unbind.
Qed.

(** One step through the body of a parse function. *)
Ltac res_step :=
  match goal with
  | |- ok_res _ _ (Ok _ _) => apply ok_res_Ok
  | |- ok_res _ _ (Throw _ _) => apply ok_res_Throw
  | |- ok_res _ _ Undefined => apply ok_res_Undefined
  | |- ok_res _ _ OutOfFuel => apply ok_res_OutOfFuel
  | |- ok_res ?p _ (bind (?f (set_covar_ctx _ (push_id ?name _ _), ?s.2)) _) =>
      eapply (ok_res_binder p [] [name] s); [| |intros ? ? ? ?]
  | |- ok_res ?p _ (bind (?f (set_var_ctx _ (push_id ?name _ _), ?s.2)) _) =>
      eapply (ok_res_binder p [name] [] s); [| |intros ? ? ? ?]
  | |- ok_res ?p _ (bind (?f ((bind_covars ?cn (bind_vars ?an ?s.1).2).2,
                              ?s.2)) _) =>
      eapply (ok_res_binder p an cn s); [| |intros ? ? ? ?]
  | |- ok_res _ _ (let '(_, _) := bind_vars ?n ?q in _) =>
      let E := fresh in
      let E' := fresh in
      let q1 := fresh "q" in
      let ids := fresh "ids" in
      destruct (bind_vars n q) as [ids q1] eqn:E;
      pose proof (f_equal fst E) as E'; apply (f_equal snd) in E;
      cbn [fst snd] in E, E'; subst q1 ids
  | |- ok_res _ _ (let '(_, _) := bind_covars ?n ?q in _) =>
      let E := fresh in
      let E' := fresh in
      let q1 := fresh "q" in
      let ids := fresh "ids" in
      destruct (bind_covars n q) as [ids q1] eqn:E;
      pose proof (f_equal fst E) as E'; apply (f_equal snd) in E;
      cbn [fst snd] in E, E'; subst q1 ids
  | |- ok_res ?p _ (bind _ _) =>
      eapply (ok_res_bind p p); [|intros ? ? ? ?]
  | |- ok_res _ _ (read_word _ _) => apply (resp_plain _ (scoped_read_word _))
  | |- ok_res _ _ (peek_word _ _) => apply (resp_plain _ (scoped_peek_word _))
  | |- ok_res _ _ (expect _ _ _ _) =>
      apply (resp_plain _ (scoped_expect _ _ _))
  | |- ok_res _ _ (parse_name _) => apply (resp_plain _ (scoped_read_word _))
  | |- ok_res _ _ (parse_list _ _ _ _) => apply resp_parse_list
  | H : resp _ ?f |- ok_res _ _ (?f _) => apply H
  | H : ∀ _, resp _ _ |- ok_res _ _ _ => apply H
  | H : resp _ ?f |- resp _ ?f => exact H
  | |- resp _ parse_name => apply (resp_plain _ (scoped_read_word _))
  | |- same_scopes _ (skip_whitespace _).1 => apply scopes_skip
  | |- same_scopes _ (p_putback _ _).1 => apply scopes_putback
  | H : p_peek _ = (_, ?st) |- same_scopes _ (?st).1 =>
      apply (scopes_peek _ _ _ _ H)
  | H : p_get _ = (_, ?st) |- same_scopes _ (?st).1 =>
      apply (scopes_get _ _ _ _ H)
  | H : keyword_cause _ _ = (_, ?st) |- same_scopes _ (?st).1 =>
      apply (scopes_keyword_cause _ _ _ _ _ H)
  | |- same_scopes _ _ => assumption
  | |- Forall _ [] => constructor
  | |- ok_res _ _ (let '(_, _) := ?m in _) => destruct m as [? ?] eqn:?
  | |- ok_res _ _ (if ?b then _ else _) => destruct b
  | |- ok_res _ _ (match ?x with _ => _ end) => destruct x
  end.

Ltac res := cbv zeta; repeat res_step.

(** The free ids of the parts are in scope: so are those of the whole. *)
Ltac free_in_scope :=
  let v := fresh "v" in
  let id := fresh "id" in
  let Hin := fresh "Hin" in
  intros v id Hin;
  cbn [free_prod free_cons free_stmt free_clause] in Hin;
  repeat (apply elem_of_union in Hin as [Hin|Hin]);
  match goal with
  | H : scoped_in _ ?p ?x, Hin : _ ∈ _ _ ?x |- in_scope _ ?p _ =>
      exact (H _ _ Hin)
  | H : Forall (scoped_in ?free ?p) ?l, Hin : _ ∈ ⋃ _ |- in_scope _ ?p _ =>
      exact (scoped_in_list free p l _ _ H Hin)
  end.

(** The parameters of a binder are bound in its body only. *)
Ltac free_in_body arg_names coarg_names :=
  let v := fresh "v" in
  let id := fresh "id" in
  let Hin := fresh "Hin" in
  intros v id Hin;
  cbn [free_prod free_cons free_stmt free_clause] in Hin;
  match goal with
  | Hs : same_scopes ?p ?q, Hb : scoped_in free_stmt _ ?body
    |- in_scope _ ?p _ =>
      exact (scoped_in_body p q arg_names coarg_names body _ _ Hs Hb Hin)
  end.

Definition structor_scoped (p : Parser)
           (r : nat * string * list Producer * list Consumer) : Prop :=
  Forall (scoped_in free_prod p) r.1.2 ∧ Forall (scoped_in free_cons p) r.2.

Lemma check_totality_inr ctx current_line start_line kind clauses clauses' :
  check_totality ctx current_line start_line kind clauses = inr clauses' →
  clauses' = clauses.
Proof.
  unfold check_totality. destruct clauses as [|first rest]; [done|].
  destruct (structors_like _ _); [|done].
  destruct (check_clauses _ _); [done|].
  destruct (decide _); [by intros [= <-]|done].
Qed.

Section descent.
Context (rec : parsers) (fuel : nat).
Hypothesis Hproducer : resp (scoped_in free_prod) (rec_producer rec).
Hypothesis Hconsumer : resp (scoped_in free_cons) (rec_consumer rec).
Hypothesis Hstatement : resp (scoped_in free_stmt) (rec_statement rec).

Lemma resp_parse_mu_p : resp (scoped_in free_prod) (parse_mu_p rec).
Proof.
  intros p st H. unfold parse_mu_p. res.
  match goal with |- context [Mu_prod _ ?name] => free_in_body (@nil string) [name] end.
Qed.

Lemma resp_parse_mu_c : resp (scoped_in free_cons) (parse_mu_c rec).
Proof.
  intros p st H. unfold parse_mu_c. res.
  match goal with |- context [Mu_cons _ ?name] => free_in_body [name] (@nil string) end.
Qed.

Lemma resp_parse_structor polarity :
  resp structor_scoped (parse_structor rec fuel polarity).
Proof. intros p st H. unfold parse_structor. res. all: by split. Qed.

Lemma resp_parse_constructor :
  resp (scoped_in free_prod) (parse_constructor rec fuel).
Proof.
  intros p st H. unfold parse_constructor.
  pose proof resp_parse_structor as Hst. res.
  match goal with Hr : structor_scoped _ _ |- _ => destruct Hr end.
  free_in_scope.
Qed.

Lemma resp_parse_destructor :
  resp (scoped_in free_cons) (parse_destructor rec fuel).
Proof.
  intros p st H. unfold parse_destructor.
  pose proof resp_parse_structor as Hst. res.
  match goal with Hr : structor_scoped _ _ |- _ => destruct Hr end.
  free_in_scope.
Qed.

Lemma resp_parse_clause polarity :
  resp (scoped_in free_clause) (parse_clause rec fuel polarity).
Proof.
  intros p st H. unfold parse_clause. res.
  all: match goal with
       | |- context [mkClause _ _ ?an ?cn] => free_in_body an cn
       end.
Qed.

Lemma resp_parse_clauses polarity start_line :
  resp (fun p => Forall (scoped_in free_clause p))
       (parse_clauses rec fuel polarity start_line).
Proof.
  intros p st H. unfold parse_clauses. cbv zeta.
  eapply (ok_res_bind p p).
  { by apply resp_parse_list; [apply resp_parse_clause|]. }
  intros clauses s Hs Hcl.
  destruct (check_totality _ _ _ _ _) as [e|clauses'] eqn:E;
    [apply ok_res_Throw|].
  apply check_totality_inr in E as ->. by apply ok_res_Ok.
Qed.

Lemma resp_parse_cocase : resp (scoped_in free_prod) (parse_cocase rec fuel).
Proof.
  intros p st H. unfold parse_cocase.
  pose proof (resp_parse_clauses producer). res. free_in_scope.
Qed.

Lemma resp_parse_case : resp (scoped_in free_cons) (parse_case rec fuel).
Proof.
  intros p st H. unfold parse_case.
  pose proof (resp_parse_clauses consumer). res. free_in_scope.
Qed.

Lemma resp_parse_producer_body :
  resp (scoped_in free_prod) (parse_producer_body rec fuel).
Proof.
  intros p st H. unfold parse_producer_body.
  pose proof resp_parse_variable. pose proof resp_parse_value.
  pose proof resp_parse_mu_p. pose proof resp_parse_cocase.
  pose proof resp_parse_constructor. res.
Qed.

Lemma resp_parse_consumer_body :
  resp (scoped_in free_cons) (parse_consumer_body rec fuel).
Proof.
  intros p st H. unfold parse_consumer_body.
  pose proof resp_parse_covariable. pose proof resp_parse_end.
  pose proof resp_parse_mu_c. pose proof resp_parse_case.
  pose proof resp_parse_destructor. res.
Qed.

Lemma resp_parse_arithmetic : resp (scoped_in free_stmt) (parse_arithmetic rec).
Proof. intros p st H. unfold parse_arithmetic. res. all: free_in_scope. Qed.

Lemma resp_parse_ifz : resp (scoped_in free_stmt) (parse_ifz rec).
Proof. intros p st H. unfold parse_ifz. res. free_in_scope. Qed.

Lemma resp_parse_cut : resp (scoped_in free_stmt) (parse_cut rec).
Proof. intros p st H. unfold parse_cut. res. free_in_scope. Qed.

Lemma resp_parse_call : resp (scoped_in free_stmt) (parse_call rec fuel).
Proof. intros p st H. unfold parse_call. res. free_in_scope. Qed.

Lemma resp_parse_statement_body :
  resp (scoped_in free_stmt) (parse_statement_body rec fuel).
Proof.
  intros p st H. unfold parse_statement_body.
  pose proof resp_parse_cut. pose proof resp_parse_arithmetic.
  pose proof resp_parse_ifz. pose proof resp_parse_call. res.
Qed.

End descent.

Lemma parsers_resp fuel :
  resp (scoped_in free_prod) (rec_producer (parsers_at fuel)) ∧
  resp (scoped_in free_cons) (rec_consumer (parsers_at fuel)) ∧
  resp (scoped_in free_stmt) (rec_statement (parsers_at fuel)).
Proof.
  induction fuel as [|fuel (Hp & Hc & Hs)].
  - split_and!; intros p st H; apply ok_res_OutOfFuel.
  - cbn [parsers_at rec_producer rec_consumer rec_statement]. split_and!.
    + by apply resp_parse_producer_body.
    + by apply resp_parse_consumer_body.
    + by apply resp_parse_statement_body.
Qed.

(** ** Statements *)

Lemma parse_statement_spec fuel st stmt st' :
  parse_statement fuel st = Ok stmt st' → scoped_in free_stmt st.1 stmt.
Proof.
  destruct (parsers_resp fuel) as (_ & _ & Hs). intros Hparse.
  by destruct (Hs st.1 st (same_scopes_refl _) _ _ Hparse).
Qed.

(** X24. The parser resolves names to binders in scope only.  A variable
    id that is free in a statement [parse_statement] returns is on the stack
    of ids of some variable name of the parser the statement was parsed
    with, and likewise a free covariable id: every other id of the statement
    is bound by a mu abstraction or a clause inside the statement. *)
Theorem parsed_names_are_in_scope (fuel : nat) (st st' : pstate)
        (stmt : Statement) :
  parse_statement fuel st = Ok stmt st' →
  (∀ id, id ∈ free_stmt true stmt →
         ∃ name, id ∈ stack_of (var_ctx st.1) name) ∧
  (∀ id, id ∈ free_stmt false stmt →
         ∃ name, id ∈ stack_of (covar_ctx st.1) name).
Proof.
  intros Hparse. pose proof (parse_statement_spec _ _ _ _ Hparse) as H.
  split; intros id Hin; [apply (H true id Hin)|apply (H false id Hin)].
Qed.

(** The cut [[(mu a [x a]) (mu' x [x b])]] in a parser where [x] has the id
    7 and the covariable [b] the id 3. *)
Definition open_text : string := "[(mu a [x a]) (mu' x [x b])]".

Definition open_state : pstate :=
  (mkParser empty_typing_context 1 8 4 0 {["x" := [7]]} {["b" := [3]]}
            ∅ ∅ ∅ ∅ ∅,
   istream_of open_text).

Lemma parsed_names_are_in_scope_witness :
  ∃ stmt st',
    parse_statement 4 open_state = Ok stmt st' ∧
    free_stmt true stmt = {[7]} ∧ free_stmt false stmt = {[3]} ∧
    (∀ id, id ∈ free_stmt true stmt →
           ∃ name, id ∈ stack_of (var_ctx open_state.1) name) ∧
    (∀ id, id ∈ free_stmt false stmt →
           ∃ name, id ∈ stack_of (covar_ctx open_state.1) name).
Proof.
  eexists _, _. split; [vm_compute; reflexivity|].
  split; [by vm_compute|]. split; [by vm_compute|].
  eapply (parsed_names_are_in_scope 4 open_state).
  vm_compute. reflexivity.
Defined.

(** ** Definitions and programs *)

Lemma parse_definition_free fuel st d st' :
  parse_definition fuel st = Ok d st' →
  ∀ v id, id ∈ free_stmt v (body d) ∖ binds v (arg_ids d) (coarg_ids d) →
          in_scope v st.1 id.
Proof.
  unfold parse_definition. cbv zeta.
  pose proof (scopes_skip st.1 st (same_scopes_refl _)) as H1.
  destruct (expect _ _ _ (skip_whitespace st)) as [[] st2| | |] eqn:E2;
    try done.
  apply (scoped_keeps _ _ _ _ (scoped_expect _ _ _)) in E2. cbn [bind].
  destruct (read_word None st2) as [keyword st3| | |] eqn:E3; try done.
  apply (scoped_keeps _ _ _ _ (scoped_read_word _)) in E3. cbn [bind].
  destruct (negb (String.eqb keyword Names.def)).
  { by destruct (keyword_cause keyword st3). }
  destruct (read_word None st3) as [name st4| | |] eqn:E4; try done.
  apply (scoped_keeps _ _ _ _ (scoped_read_word _)) in E4. cbn [bind].
  assert (H4 : same_scopes st.1 st4.1).
  { repeat (eapply same_scopes_trans; [eassumption|]). apply same_scopes_refl. }
  clear H1 E2 E3 E4 st2 st3 keyword.
  destruct name as [|c name]; [by destruct (p_peek st4)|].
  destruct (def_ids st4.1 !! String c name); [done|].
  destruct (String.eqb (String c name) Names.ifz); [done|].
  set (reg := set_def_ids (set_n_defs st4.1 (S (n_defs st4.1)))
                          (<[String c name := n_defs st4.1]> (def_ids st4.1))).
  destruct (parse_list parse_name fuel _ (reg, st4.2))
    as [arg_names st5| | |] eqn:E5; try done.
  apply (scoped_keeps _ _ _ _ (scoped_parse_list _ _ _ (scoped_read_word _)))
    in E5. cbn [bind fst] in *.
  destruct (parse_list parse_name fuel _ st5)
    as [coarg_names st6| | |] eqn:E6; try done.
  apply (scoped_keeps _ _ _ _ (scoped_parse_list _ _ _ (scoped_read_word _)))
    in E6. cbn [bind].
  pose proof (same_scopes_trans _ _ _ E5 E6) as H6. clear E5 E6 st5.
  assert (Hstacks : same_stacks st.1 st6.1).
  { eapply same_stacks_trans; [exact (proj2 H4)|].
    eapply (same_stacks_trans _ reg); [exact (proj2 (same_scopes_refl st4.1))|].
    exact (proj2 H6). }
  destruct (bind_vars arg_names st6.1) as [arg_ids p1] eqn:Eb.
  destruct (bind_covars coarg_names p1) as [coarg_ids bound] eqn:Eb'.
  destruct (add_definition _ _ _ None _) as [abstraction_id ctx'| | |];
    try done.
  destruct (parse_statement fuel _) as [body st7| | |] eqn:E7; try done.
  apply parse_statement_spec in E7. cbn [bind fst snd] in E7 |- *.
  destruct (expect _ _ _ _) as [[] st8| | |]; try done.
  intros [= <- <-]. cbn [AST.body AST.arg_ids AST.coarg_ids].
  intros v id [Hin Hn]%elem_of_difference.
  specialize (E7 v id Hin).
  pose proof (in_scope_bound v st.1 st6.1 arg_names coarg_names id Hstacks)
    as Hb.
  rewrite Eb in Hb. cbn [fst snd] in Hb. rewrite Eb' in Hb.
  cbn [fst snd] in Hb. by destruct (Hb E7).
Qed.

(** No name is bound: the parser is outside every binder. *)
Definition no_scope (p : Parser) : Prop :=
  ∀ x, stack_of (var_ctx p) x = [] ∧ stack_of (covar_ctx p) x = [].

Lemma no_scope_stacks p q : same_stacks p q → no_scope p → no_scope q.
Proof.
  intros (Hv & Hc & _) Hp x. rewrite Hv, Hc. apply Hp.
Qed.

Lemma no_scope_in v p id : no_scope p → ¬ in_scope v p id.
Proof.
  intros Hp [x Hin]. destruct (Hp x) as [Hv Hc].
  destruct v; [rewrite Hv in Hin|rewrite Hc in Hin]; set_solver.
Qed.

Lemma no_scope_new_Parser ctx : no_scope (new_Parser ctx).
Proof. done. Qed.

Lemma no_scope_closed_stmt p s :
  no_scope p → scoped_in free_stmt p s → closed_stmt s.
Proof.
  intros Hp Hs v. apply elem_of_equiv_empty_L. intros id Hin.
  by apply (no_scope_in v p id Hp), Hs.
Qed.

Lemma no_scope_closed_definition fuel st d st' :
  no_scope st.1 → parse_definition fuel st = Ok d st' → closed_definition d.
Proof.
  intros Hp Hparse v id Hin.
  destruct (decide (id ∈ binds v (arg_ids d) (coarg_ids d))) as [|Hn]; [done|].
  destruct (no_scope_in v st.1 id Hp).
  apply (parse_definition_free _ _ _ _ Hparse). set_solver.
Qed.

Definition closed_program (program : Program) : Prop :=
  Forall closed_definition (AST.definitions program) ∧
  Forall closed_stmt (AST.statements program).

Lemma parse_program_loop_closed fuel loop_fuel program st program' st' :
  no_scope st.1 → closed_program program →
  parse_program_loop fuel loop_fuel program st = Ok program' st' →
  closed_program program' ∧ no_scope st'.1.
Proof.
  revert program st.
  induction loop_fuel as [|loop_fuel IH]; intros program st Hn [Hd Hs];
    [done|].
  cbn [parse_program_loop].
  destruct (eof st.2); [by intros [= <- <-]|].
  destruct (p_peek st) as [c st1] eqn:Hp.
  pose proof (scopes_peek _ _ _ _ Hp (same_scopes_refl _)) as H1.
  pose proof (no_scope_stacks _ _ (proj2 H1) Hn) as Hn1.
  destruct (parsers_resp fuel) as (Hrp & Hrc & Hrs).
  destruct (is_char c Names.open_square).
  - destruct (parse_cut (parsers_at fuel) st1) as [stmt st2| | |] eqn:E;
      try done.
    cbn [bind].
    destruct (resp_parse_cut _ Hrp Hrc st1.1 st1 (same_scopes_refl _) _ _ E)
      as [H2 Hstmt].
    apply IH.
    + apply (no_scope_stacks st1.1); [|done].
      exact (proj2 (scopes_skip _ _ H2)).
    + split; [done|]. cbn [AST.statements]. apply Forall_app. split; [done|].
      constructor; [|done]. by apply (no_scope_closed_stmt st1.1).
  - destruct (expect _ _ _ st1) as [[] st2| | |] eqn:E2; try done.
    apply (scoped_keeps _ _ _ _ (scoped_expect _ _ _)) in E2. cbn [bind].
    destruct (peek_word 3 st2) as [word st3| | |] eqn:E3; try done.
    apply (scoped_keeps _ _ _ _ (scoped_peek_word _)) in E3. cbn [bind].
    assert (Hn3 : no_scope (p_putback Names.open_paren st3).1).
    { apply (no_scope_stacks st1.1); [|done].
      exact (proj2 (same_scopes_trans _ _ _ E2 E3)). }
    destruct (String.eqb word Names.def).
    + destruct (parse_definition fuel _) as [d st4| | |] eqn:E4; try done.
      cbn [bind]. apply IH.
      * apply parse_definition_spec in E4
          as (_ & _ & _ & _ & _ & _ & _ & _ & Hst & _).
        apply (no_scope_stacks st4.1);
          [|by apply (no_scope_stacks _ _ Hst)].
        destruct st4 as [q4 s4]. unfold skip_whitespace. cbn [fst snd].
        destruct (eofbit s4); [apply same_scopes_refl|].
        destruct (failbit s4); [apply same_scopes_refl|].
        destruct (skip_whitespace_buffer _ _) as [[buf line] at_end].
        apply same_scopes_line.
      * split; [|done]. cbn [AST.definitions]. apply Forall_app.
        split; [done|]. constructor; [|done].
        by apply (no_scope_closed_definition _ _ _ _ Hn3 E4).
    + destruct (parse_statement fuel _) as [stmt st4| | |] eqn:E4; try done.
      cbn [bind].
      destruct (Hrs _ _ (same_scopes_refl _) _ _ E4) as [H4 Hstmt].
      apply IH.
      * apply (no_scope_stacks (p_putback Names.open_paren st3).1); [|done].
        exact (proj2 (scopes_skip _ _ H4)).
      * split; [done|]. cbn [AST.statements]. apply Forall_app.
        split; [done|]. constructor; [|done].
        by apply (no_scope_closed_stmt _ _ Hn3).
Qed.

Lemma parse_program_closed fuel st program st' :
  no_scope st.1 → parse_program fuel st = Ok program st' →
  closed_program program.
Proof.
  intros Hn Hparse. unfold parse_program in Hparse.
  apply parse_program_loop_closed in Hparse as [H _]; [done| |by split].
  apply (no_scope_stacks st.1); [|done].
  exact (proj2 (scopes_skip _ _ (same_scopes_refl _))).
Qed.

(** X25. A parsed program is closed.  When [parse_program] returns, on a
    parser in which no variable or covariable name is bound (as in the
    parser [main] makes), every top-level statement of the program is
    without free variables and covariables and the body of every definition
    mentions no variable or covariable but the parameters of the
    definition. *)
Theorem parsed_program_is_closed (fuel : nat) (st st' : pstate)
        (program : Program) :
  (∀ x, stack_of (var_ctx st.1) x = [] ∧ stack_of (covar_ctx st.1) x = []) →
  parse_program fuel st = Ok program st' →
  Forall (fun d => ∀ v, free_stmt v (body d) ⊆
                        binds v (arg_ids d) (coarg_ids d))
         (AST.definitions program) ∧
  Forall (fun s => ∀ v, free_stmt v s = ∅) (AST.statements program).
Proof. apply parse_program_closed. Qed.

(** A definition with a shadowed parameter and a call of it. *)
Definition swap_text : string :=
  "(def swap (x y) (a) [(Pair (y x)) (mu' x [x a])]) (swap (1 2) (<END>))".

Lemma parsed_program_is_closed_witness :
  ∃ program st',
    parse_program 6 (new_Parser EmptyProgram.default_ctx,
                     istream_of swap_text) = Ok program st' ∧
    length (AST.definitions program) = 1 ∧
    length (AST.statements program) = 1 ∧
    Forall (fun d => ∀ v, free_stmt v (body d) ⊆
                          binds v (arg_ids d) (coarg_ids d))
           (AST.definitions program) ∧
    Forall (fun s => ∀ v, free_stmt v s = ∅) (AST.statements program).
Proof.
  eexists _, _. split; [vm_compute; reflexivity|].
  split; [reflexivity|]. split; [reflexivity|].
  eapply (parsed_program_is_closed
            6 (new_Parser EmptyProgram.default_ctx, istream_of swap_text)).
  - done.
  - vm_compute. reflexivity.
Defined.

End WellScoped.

(* ===================================================================== *)
(** * From the text to the results *)
(* ===================================================================== *)

Module Pipeline.
Import Types AST Closedness Annotations WellScoped.

(** ** Annotations bind nothing *)

Lemma free_untyped :
  (∀ p v, free_prod v (untyped_prod p) = free_prod v p) ∧
  (∀ c v, free_cons v (untyped_cons c) = free_cons v c) ∧
  (∀ s v, free_stmt v (untyped_stmt s) = free_stmt v s) ∧
  (∀ cl v, free_clause v (untyped_clause cl) = free_clause v cl).
Proof.
  assert (Hmap : ∀ A (free : bool → A → gset nat) (untyped : A → A) l v,
             Forall (fun x => ∀ v, free v (untyped x) = free v x) l →
             List.map (free v) (List.map untyped l) = List.map (free v) l).
  { intros A free untyped l v Hl. rewrite List.map_map.
    apply Substitution.map_ext_Forall.
    eapply Forall_impl; [exact Hl|]. by intros x Hx. }
  apply Syntax.syntax_ind; intros; simpl; rewrite ?Hmap by done; congruence.
Qed.

Lemma closed_stmt_untyped s : closed_stmt (untyped_stmt s) ↔ closed_stmt s.
Proof.
  destruct free_untyped as (_ & _ & Hs & _). unfold closed_stmt.
  split; intros H v; specialize (H v); by rewrite Hs in *.
Qed.

Lemma closed_definition_untyped d :
  closed_definition (untyped_definition d) ↔ closed_definition d.
Proof.
  destruct free_untyped as (_ & _ & Hs & _). unfold closed_definition. simpl.
  split; intros H v; specialize (H v); by rewrite Hs in *.
Qed.

Lemma closed_program_untyped program :
  closed_program (untyped_program program) ↔ closed_program program.
Proof.
  unfold closed_program, untyped_program. simpl. rewrite !List.Forall_map.
  split; intros [Hd Hs]; split.
  - eapply Forall_impl; [exact Hd|]. intros d. apply closed_definition_untyped.
  - eapply Forall_impl; [exact Hs|]. intros s. apply closed_stmt_untyped.
  - eapply Forall_impl; [exact Hd|]. intros d. apply closed_definition_untyped.
  - eapply Forall_impl; [exact Hs|]. intros s. apply closed_stmt_untyped.
Qed.

(** ** Runs of closed programs *)

Lemma run_closed_program fuel n_vars n_covars program results i' :
  closed_program program →
  Interpreter.run fuel (Interpreter.new_Interpreter n_vars n_covars program) =
    Ok results i' →
  Forall closed_prod results.
Proof.
  intros [Hd Hs]. unfold Interpreter.run. cbn [Interpreter.finished
    Interpreter.new_Interpreter].
  destruct (Interpreter.run_statements fuel _ 0 [] _) as [res i1| | |] eqn:Hrun;
    try done.
  simpl. intros [= <- <-].
  apply (run_statements_closed _ _ _ _ _ _ _) in Hrun; try done.
  unfold stmts_closed. simpl. by apply Forall_fmap.
Qed.

Lemma main_spec fuel input status results :
  Lammm.main fuel input = Some (status, results) →
  Forall closed_prod results.
Proof.
  unfold Lammm.main.
  destruct default_typing_context as [ctx|]; [|done].
  destruct (Parser.parse_program fuel _) as [program [parser s]|e st| |] eqn:Hp;
    try done.
  - apply parse_program_closed in Hp; [|apply no_scope_new_Parser].
    destruct (Typer.type_program fuel program _) as [[program' ctx'|errors t|e]|]
      eqn:Ht; try done.
    + apply type_program_spec in Ht as (Heq & _).
      assert (Hc : closed_program program').
      { apply closed_program_untyped. rewrite Heq.
        by apply closed_program_untyped. }
      destruct (Interpreter.run fuel _) as [res i|e i| |] eqn:Hrun; try done.
      * intros [= <- <-]. by apply (run_closed_program _ _ _ _ _ _ Hc Hrun).
      * destruct e; by intros [= <- <-].
    + by intros [= <- <-].
    + by intros [= <- <-].
  - destruct (Parser.is_parse_exception e); by intros [= <- <-].
Qed.

(** X26. No result of [main] has a free variable.  Whatever the input, the
    producers that the run of the interpreter returns in [main] have no free
    variables and no free covariables: the parser resolves every name to a
    binder, the typer only annotates, and evaluation keeps statements
    closed. *)
Theorem main_results_are_closed (fuel : nat) (input : string)
        (status : Lammm.exit_status) (results : list Producer) :
  Lammm.main fuel input = Some (status, results) →
  Forall (fun p => ∀ v, free_prod v p = ∅) results.
Proof. apply main_spec. Qed.

Lemma main_results_are_closed_witness :
  ∃ result,
    Lammm.main 6 swap_text = Some (Lammm.Exit 0, [result]) ∧
    Forall (fun p => ∀ v, free_prod v p = ∅) [result].
Proof.
  eexists. split; [vm_compute; reflexivity|].
  eapply (main_results_are_closed 6 swap_text (Lammm.Exit 0)).
  vm_compute. reflexivity.
Defined.

End Pipeline.
